(** * TruthBounty API: event ingestion, checkpoints and scoring functions

    A shallow embedding of the TypeScript services of the repository and
    the properties stated about them.

    Conventions of the embedding.
    - A JavaScript [number] that carries a weight, a score or a ratio is a
      rational ([Q]), compared with [Qeq]/[Qle].  [aggregate] and
      [computeConfidenceScore] are given twice: with exact arithmetic, and
      in double precision (modules [Aggregation64], [ClaimResolution64]),
      where every operation is followed by the rounding of [Binary64].
      The other scoring functions are given with exact arithmetic, and
      [Math.round] and [Number.prototype.toFixed] as the usual
      round-half-up functions on the exact value.
    - A block number, a log index or a timestamp is an integer ([Z]).
    - A database table is the list of its rows, oldest first.  An insert
      checks each value against the type of its column (module
      [Postgres]) and the unique indexes, and fails with the SQLSTATE of
      the server: 23505 when the key is already present.
    - An [async] function that can reject returns a sum or an option. *)

From Stdlib Require Import ZArith QArith Qround Qabs Qpower Lqa Lia.
From Stdlib Require Import List Bool String Ascii DecimalString Sorting.Sorted.
From Stdlib Require Import Sorting.Permutation.
From Equations Require Import Equations.
From Equations.Prop Require Import Logic.
Import ListNotations.

Set Implicit Arguments.

(* ================================================================= *)
(** ** JavaScript numeric built-ins *)

Module Js.

Open Scope Q_scope.

Definition Qltb (x y : Q) : bool := negb (Qle_bool y x).

(** [Math.round]: the nearest integer, ties towards plus infinity. *)
Definition Math_round (x : Q) : Q := inject_Z (Qfloor (x + (1 # 2))).

Definition Math_abs (x : Q) : Q := Qabs x.
Definition Math_min (x y : Q) : Q := if Qle_bool x y then x else y.
Definition Math_max (x y : Q) : Q := if Qle_bool x y then y else x.

(** A non-negative [x] rounded to four decimals, ties upwards. *)
Definition roundHalfUp4 (x : Q) : Q :=
  inject_Z (Qfloor (x * 10000 + (1 # 2))) / 10000.

(** [Number(x.toFixed(4))]: [x] rounded to four decimals, ties away from
    zero. *)
Definition toFixed4 (x : Q) : Q :=
  if Qltb x 0 then - roundHalfUp4 (- x) else roundHalfUp4 x.

(** [Number(x.toFixed(2))], used for the figures of log lines. *)
Definition toFixed2 (x : Q) : Q :=
  let r (y : Q) := inject_Z (Qfloor (y * 100 + (1 # 2))) / 100 in
  if Qltb x 0 then - r (- x) else r x.

End Js.

(* ================================================================= *)
(** ** Double-precision arithmetic

    The result of an arithmetic operation on JavaScript numbers is the
    exact result rounded to the nearest binary64 value, ties to the even
    significand.  [round64] is that rounding on the rationals, with the
    gradual underflow of the format.  The exponent has no upper bound
    here: a result of 2^1024 or more, which JavaScript turns into
    [Infinity], is outside the model, and the statements about sums carry
    the hypothesis that the total stays below that bound. *)

Module Binary64.

Open Scope Q_scope.

(** The binary logarithm of a positive rational, rounded down. *)
Definition ilog2 (x : Q) : Z :=
  let k := (Z.log2 (Qnum x) - Z.log2 (Zpos (Qden x)))%Z in
  if Qle_bool (2 ^ k) x then k else (k - 1)%Z.

(** The nearest integer, ties to the even one. *)
Definition rne (x : Q) : Z :=
  let f := Qfloor x in
  match Qcompare (x - inject_Z f) (1 # 2) with
  | Lt => f
  | Gt => (f + 1)%Z
  | Eq => if Z.even f then f else (f + 1)%Z
  end.

(** The exponent of the last place of a positive [x]: 53 significant
    bits, and 2^-1074 the smallest step. *)
Definition exponent (x : Q) : Z := Z.max (ilog2 x - 52) (-1074).

Definition round64 (x : Q) : Q :=
  match Qcompare x 0 with
  | Eq => 0
  | Gt => let e := exponent x in inject_Z (rne (x / 2 ^ e)) * 2 ^ e
  | Lt => let e := exponent (- x) in - (inject_Z (rne (- x / 2 ^ e)) * 2 ^ e)
  end.

(** A non-negative number a double holds exactly. *)
Definition representable (x : Q) : Prop :=
  exists m e, (0 <= m <= 2 ^ 53)%Z /\ (-1074 <= e)%Z /\ x == inject_Z m * 2 ^ e.

(** Below the overflow threshold of a double: the model has no infinity
    and covers the computations whose total stays finite. *)
Definition finite (x : Q) : Prop := x < 2 ^ 1024.

(** A decimal literal of the source text, as the number it denotes. *)
Definition literal (x : Q) : Q := round64 x.

(** [Number(x.toFixed(4))] on a double: the decimal text is the exact
    value rounded to four decimals, and [Number] reads the text back to
    the nearest double. *)
Definition toFixed4 (x : Q) : Q := round64 (Js.toFixed4 x).

End Binary64.

(* ================================================================= *)
(** ** claims/claim-resolution.service.ts *)

Module ClaimResolution.

Import Js.
Open Scope Q_scope.

Record VoteWeightSummary : Type := mkVotes {
  trueWeight : Q;
  falseWeight : Q
}.

Definition MIN_REQUIRED_WEIGHT : Q := 100.

(** [computeConfidenceScore]; [None] is JavaScript's [null]. *)
Definition computeConfidenceScore (votes : VoteWeightSummary) : option Q :=
  let total := trueWeight votes + falseWeight votes in
  if Qltb total MIN_REQUIRED_WEIGHT then None
  else if Qeq_bool (trueWeight votes) (falseWeight votes) then Some 0
  else
    let margin := Math_abs (trueWeight votes - falseWeight votes) / total in
    let participation := Math_min (total / MIN_REQUIRED_WEIGHT) 1 in
    Some (toFixed4 (margin * participation)).

(** The two intermediate values of the last branch, named as in the
    source. *)
Definition margin (votes : VoteWeightSummary) : Q :=
  Math_abs (trueWeight votes - falseWeight votes)
  / (trueWeight votes + falseWeight votes).

Definition participation (votes : VoteWeightSummary) : Q :=
  Math_min ((trueWeight votes + falseWeight votes) / MIN_REQUIRED_WEIGHT) 1.

(** The summary with the two weights exchanged. *)
Definition swapVotes (votes : VoteWeightSummary) : VoteWeightSummary :=
  mkVotes (falseWeight votes) (trueWeight votes).

(** Two scores that are the same number, or both null. *)
Definition sameScore (a b : option Q) : Prop :=
  match a, b with
  | Some x, Some y => x == y
  | None, None => True
  | _, _ => False
  end.

(** Entity 'claims' (claims/entities/claim.entity.ts). *)
Record Claim : Type := mkClaim {
  id : string;
  resolvedVerdict : option bool;
  confidenceScore : option Q;
  finalized : bool
}.


(** [claimRepo.save(claim)]: the row with the primary key of [claim] is
    overwritten; a claim with a new key is inserted. *)
Definition save (claim : Claim) (repo : list Claim) : list Claim :=
  if existsb (fun c => String.eqb (id c) (id claim)) repo
  then map (fun c => if String.eqb (id c) (id claim) then claim else c) repo
  else repo ++ [claim].





(** A vote that is almost a tie. *)
Definition closeVote : VoteWeightSummary := mkVotes 100001 100000.

End ClaimResolution.

(** *** In double precision

    [computeConfidenceScore] as it runs: every sum, difference, quotient
    and product is rounded to a double, and [toFixed(4)] is read back by
    [Number]. *)

Module ClaimResolution64.

Import Js Binary64 ClaimResolution.
Open Scope Q_scope.

Definition computeConfidenceScore (votes : VoteWeightSummary) : option Q :=
  let total := round64 (trueWeight votes + falseWeight votes) in
  if Qltb total MIN_REQUIRED_WEIGHT then None
  else if Qeq_bool (trueWeight votes) (falseWeight votes) then Some 0
  else
    let margin :=
      round64 (Math_abs (round64 (trueWeight votes - falseWeight votes)) / total) in
    let participation := Math_min (round64 (total / MIN_REQUIRED_WEIGHT)) 1 in
    Some (Binary64.toFixed4 (round64 (margin * participation))).

(** The intermediate values, named as in the source. *)
Definition total (votes : VoteWeightSummary) : Q :=
  round64 (trueWeight votes + falseWeight votes).

Definition margin (votes : VoteWeightSummary) : Q :=
  round64 (Math_abs (round64 (trueWeight votes - falseWeight votes)) / total votes).

Definition participation (votes : VoteWeightSummary) : Q :=
  Math_min (round64 (total votes / MIN_REQUIRED_WEIGHT)) 1.

(** Two weights whose sum lies half a step below 100: the double sum is
    100. *)
Definition edgeVote : VoteWeightSummary :=
  mkVotes (100 - (1 # 70368744177664)) (1 # 140737488355328).

End ClaimResolution64.

(* ================================================================= *)
(** ** aggregation/aggregation.types.ts and aggregation.service.ts *)

Module Aggregation.

Import Js.
Open Scope Q_scope.

Inductive VerificationVerdict : Type := TRUE | FALSE.

Inductive ClaimStatus : Type := VERIFIED_TRUE | VERIFIED_FALSE | INCONCLUSIVE.

Record Verification : Type := mkVerification {
  id : string;
  v_claimId : string;
  userId : string;
  verdict : VerificationVerdict;
  stakeAmount : Q;
  reputationWeight : Q;
  createdAt : Z
}.

Record Metadata : Type := mkMetadata {
  m_trueWeight : Q;
  m_falseWeight : Q;
  verificationCount : nat
}.

Record AggregationResult : Type := mkResult {
  claimId : string;
  status : ClaimStatus;
  confidence : Q;
  metadata : Metadata
}.

Definition verdict_eqb (a b : VerificationVerdict) : bool :=
  match a, b with
  | TRUE, TRUE | FALSE, FALSE => true
  | _, _ => false
  end.

(** [computeWeight]: weight = stakeAmount * reputationWeight. *)
Definition computeWeight (v : Verification) : Q :=
  stakeAmount v * reputationWeight v.

(** [computeConfidence]: (winningWeight / totalWeight) * 100, rounded. *)
Definition computeConfidence (winningWeight totalWeight : Q) : Q :=
  Math_round ((winningWeight / totalWeight) * 100).

Definition inconclusiveResult (claimId : string) (trueWeight falseWeight : Q)
    (count : nat) : AggregationResult :=
  mkResult claimId INCONCLUSIVE 0 (mkMetadata trueWeight falseWeight count).

(** One turn of the [for (const v of verifications)] loop on the pair
    (trueWeight, falseWeight). *)
Definition accumulate (acc : Q * Q) (v : Verification) : Q * Q :=
  let weight := computeWeight v in
  if verdict_eqb (verdict v) TRUE
  then (fst acc + weight, snd acc)
  else (fst acc, snd acc + weight).

Definition aggregate (claimId : string) (verifications : list Verification)
    : AggregationResult :=
  if Nat.eqb (List.length verifications) 0 then
    mkResult claimId INCONCLUSIVE 0 (mkMetadata 0 0 0)
  else
    let '(trueWeight, falseWeight) := fold_left accumulate verifications (0, 0) in
    let totalWeight := trueWeight + falseWeight in
    if Qeq_bool totalWeight 0 then
      inconclusiveResult claimId trueWeight falseWeight (List.length verifications)
    else if Qeq_bool trueWeight falseWeight then
      inconclusiveResult claimId trueWeight falseWeight (List.length verifications)
    else
      let status :=
        if Qltb falseWeight trueWeight then VERIFIED_TRUE else VERIFIED_FALSE in
      let confidence :=
        computeConfidence (Math_max trueWeight falseWeight) totalWeight in
      if Qltb confidence 10 then
        inconclusiveResult claimId trueWeight falseWeight (List.length verifications)
      else
        mkResult claimId status confidence
          (mkMetadata trueWeight falseWeight (List.length verifications)).

(** The stake-times-reputation weight cast for one verdict, as a sum over
    the list: the quantity the statements about [aggregate] speak of. *)
Fixpoint weightFor (d : VerificationVerdict) (vs : list Verification) : Q :=
  match vs with
  | [] => 0
  | v :: rest =>
      (if verdict_eqb (verdict v) d then computeWeight v else 0)
      + weightFor d rest
  end.

Definition nonNegative (v : Verification) : Prop :=
  0 <= stakeAmount v /\ 0 <= reputationWeight v.

(** The opposite verdict, vote and status. *)
Definition flipVerdict (d : VerificationVerdict) : VerificationVerdict :=
  match d with TRUE => FALSE | FALSE => TRUE end.

Definition flipVote (v : Verification) : Verification :=
  mkVerification (id v) (v_claimId v) (userId v) (flipVerdict (verdict v))
    (stakeAmount v) (reputationWeight v) (createdAt v).

Definition flipStatus (s : ClaimStatus) : ClaimStatus :=
  match s with
  | VERIFIED_TRUE => VERIFIED_FALSE
  | VERIFIED_FALSE => VERIFIED_TRUE
  | INCONCLUSIVE => INCONCLUSIVE
  end.

(** Two results that agree up to the representation of their numbers. *)
Definition sameResult (r r' : AggregationResult) : Prop :=
  claimId r = claimId r' /\ status r = status r'
  /\ confidence r == confidence r'
  /\ m_trueWeight (metadata r) == m_trueWeight (metadata r')
  /\ m_falseWeight (metadata r) == m_falseWeight (metadata r')
  /\ verificationCount (metadata r) = verificationCount (metadata r').

(** Two voters for TRUE and one for FALSE. *)
Definition sampleVerifications : list Verification :=
  [ mkVerification "v1" "claim-1" "alice" TRUE 100 (3 # 4) 0;
    mkVerification "v2" "claim-1" "bob" FALSE 120 (1 # 2) 1;
    mkVerification "v3" "claim-1" "carol" TRUE 10 1 2 ].

End Aggregation.

(** *** In double precision

    [aggregate] as it runs: the product of [computeWeight], every partial
    sum of the loop, the total, the quotient and the product by 100 are
    each rounded to a double. *)

Module Aggregation64.

Import Js Binary64 Aggregation.
Open Scope Q_scope.

Definition computeWeight (v : Verification) : Q :=
  round64 (stakeAmount v * reputationWeight v).

Definition computeConfidence (winningWeight totalWeight : Q) : Q :=
  Math_round (round64 (round64 (winningWeight / totalWeight) * 100)).

Definition accumulate (acc : Q * Q) (v : Verification) : Q * Q :=
  let weight := computeWeight v in
  if verdict_eqb (verdict v) TRUE
  then (round64 (fst acc + weight), snd acc)
  else (fst acc, round64 (snd acc + weight)).

Definition aggregate (claimId : string) (verifications : list Verification)
    : AggregationResult :=
  if Nat.eqb (List.length verifications) 0 then
    mkResult claimId INCONCLUSIVE 0 (mkMetadata 0 0 0)
  else
    let '(trueWeight, falseWeight) := fold_left accumulate verifications (0, 0) in
    let totalWeight := round64 (trueWeight + falseWeight) in
    if Qeq_bool totalWeight 0 then
      inconclusiveResult claimId trueWeight falseWeight (List.length verifications)
    else if Qeq_bool trueWeight falseWeight then
      inconclusiveResult claimId trueWeight falseWeight (List.length verifications)
    else
      let status :=
        if Qltb falseWeight trueWeight then VERIFIED_TRUE else VERIFIED_FALSE in
      let confidence :=
        computeConfidence (Math_max trueWeight falseWeight) totalWeight in
      if Qltb confidence 10 then
        inconclusiveResult claimId trueWeight falseWeight (List.length verifications)
      else
        mkResult claimId status confidence
          (mkMetadata trueWeight falseWeight (List.length verifications)).

(** The stake-times-reputation weight cast for one verdict, summed in the
    order of the list with every product and every partial sum rounded:
    the quantity the statements about [aggregate] speak of.  It is written
    out on the two fields and does not go through [computeWeight]. *)
Definition addWeight (d : VerificationVerdict) (sum : Q) (v : Verification) : Q :=
  if verdict_eqb (verdict v) d
  then round64 (sum + round64 (stakeAmount v * reputationWeight v))
  else sum.

Definition weightFrom (d : VerificationVerdict) (vs : list Verification)
    (start : Q) : Q :=
  fold_left (addWeight d) vs start.

Definition weightFor (d : VerificationVerdict) (vs : list Verification) : Q :=
  weightFrom d vs 0.

(** The total of the two weights. *)
Definition totalWeight (vs : list Verification) : Q :=
  round64 (weightFor TRUE vs + weightFor FALSE vs).

(** The part of [aggregate] that follows the loop. *)
Definition decide (claimId : string) (trueWeight falseWeight : Q) (count : nat)
    : AggregationResult :=
  let totalWeight := round64 (trueWeight + falseWeight) in
  if Qeq_bool totalWeight 0 then
    inconclusiveResult claimId trueWeight falseWeight count
  else if Qeq_bool trueWeight falseWeight then
    inconclusiveResult claimId trueWeight falseWeight count
  else
    let status :=
      if Qltb falseWeight trueWeight then VERIFIED_TRUE else VERIFIED_FALSE in
    let confidence :=
      computeConfidence (Math_max trueWeight falseWeight) totalWeight in
    if Qltb confidence 10 then
      inconclusiveResult claimId trueWeight falseWeight count
    else
      mkResult claimId status confidence
        (mkMetadata trueWeight falseWeight count).

(** A vote of one unit of reputation per unit of stake. *)
Definition vote (d : VerificationVerdict) (stake : Q) : Verification :=
  mkVerification "v" "claim-1" "user" d stake 1 0.

(** 115 against 85: the winner holds 57.5 percent. *)
Definition narrowWin : list Verification := [ vote TRUE 115; vote FALSE 85 ].

(** Stakes 0.1, 0.2 and 0.3 for TRUE against 0.6 for FALSE, in two
    orders. *)
Definition tenths : list Verification :=
  [ vote TRUE (literal (1 # 10)); vote TRUE (literal (2 # 10));
    vote TRUE (literal (3 # 10)); vote FALSE (literal (6 # 10)) ].

Definition tenthsReordered : list Verification :=
  [ vote TRUE (literal (3 # 10)); vote TRUE (literal (2 # 10));
    vote TRUE (literal (1 # 10)); vote FALSE (literal (6 # 10)) ].

(** Whole stakes and reputation weights. *)
Definition wholeNumber (x : Q) : Prop := x == inject_Z (Qfloor x).

Definition wholeWeights (v : Verification) : Prop :=
  wholeNumber (stakeAmount v) /\ wholeNumber (reputationWeight v).

End Aggregation64.

(* ================================================================= *)
(** ** sybil-resistance/sybil-resistant-voting.service.ts *)

Module SybilVoting.

Import Js.
Open Scope Q_scope.

(** A row of the SybilScore table, as [getLatestSybilScore] returns it. *)
Record SybilScore : Type := mkSybilScore {
  score_id : string;
  score_userId : string;
  compositeScore : Q;
  worldcoinScore : Q;
  walletAgeScore : Q;
  stakingScore : Q;
  accuracyScore : Q
}.

(** The injected [SybilResistanceService]; [None] is a rejected promise
    (the user does not exist). *)
Record SybilResistanceService : Type := mkService {
  getLatestSybilScore : string -> option SybilScore
}.

(** The three figures interpolated in the explanation line, each
    formatted with [toFixed(2)]. *)
Record Explanation : Type := mkExplanation {
  e_base : Q;
  e_multiplier : Q;
  e_effective : Q
}.

Record WeightedVote : Type := mkWeightedVote {
  userId : string;
  baseWeight : Q;
  sybilScore : Q;
  multiplier : Q;
  finalWeight : Q;
  explanation : Explanation
}.

Definition calculateSybilWeightedVote (sybilService : SybilResistanceService)
    (userId : string) (baseWeight : Q) : option WeightedVote :=
  match getLatestSybilScore sybilService userId with
  | None => None
  | Some sybilScore =>
      let multiplier := (1 # 2) + (1 # 2) * compositeScore sybilScore in
      let finalWeight := baseWeight * multiplier in
      let explanation :=
        mkExplanation (toFixed2 baseWeight) (toFixed2 multiplier)
          (toFixed2 finalWeight) in
      Some (mkWeightedVote userId baseWeight (compositeScore sybilScore)
              multiplier finalWeight explanation)
  end.

(** A service in which every user has the composite score [s]. *)
Definition uniformService (s : Q) : SybilResistanceService :=
  mkService (fun userId => Some (mkSybilScore "score-1" userId s 1 s s s)).

End SybilVoting.

(* ================================================================= *)
(** ** JavaScript strings *)

Module JsString.

Open Scope string_scope.

Definition lowerAscii (c : ascii) : ascii :=
  let n := nat_of_ascii c in
  if (Nat.leb 65 n && Nat.leb n 90)%bool then ascii_of_nat (n + 32) else c.

Fixpoint toLowerCase (s : string) : string :=
  match s with
  | EmptyString => EmptyString
  | String c rest => String (lowerAscii c) (toLowerCase rest)
  end.

(** The decimal text a template literal gives an integer. *)
Definition showZ (z : Z) : string := NilZero.string_of_int (Z.to_int z).

Definition showNat (n : nat) : string := showZ (Z.of_nat n).

End JsString.

(* ================================================================= *)
(** ** The effects of the rewards services

    The services run against two tables, a logger and a clock.  A
    computation takes the world and returns an outcome (a resolved or a
    rejected promise) and the new world. *)

Module Effects.

Open Scope string_scope.

Inductive Error : Type :=
  | QueryFailedError (code : string)     (* the driver's error, with its SQLSTATE *)
  | ConflictException (message : string)
  | RpcError (message : string)
  | TypeError (message : string).

Inductive Outcome (A : Type) : Type :=
  | Resolved (a : A)
  | Rejected (e : Error).

Arguments Resolved {A} a.
Arguments Rejected {A} e.

Inductive LogLine : Type :=
  | LogInfo (message : string)
  | LogWarn (message : string)
  | LogError (message : string) (error : Error).

(** Which method of RewardSyncService was entered, and for which log. *)
Inductive Method : Type := ProcessRewardClaim | ProcessRewardDistribution.

Record Invocation : Type := mkInvocation {
  inv_method : Method;
  inv_txHash : string;
  inv_blockNumber : Z;
  inv_logIndex : Z
}.

(** A table: its rows, oldest first, and the next generated primary key. *)
Record Table (Row : Type) : Type := mkTable {
  rows : list Row;
  nextId : nat
}.

Arguments mkTable {Row} rows nextId.
Arguments rows {Row} t.
Arguments nextId {Row} t.

Definition emptyTable {Row : Type} : Table Row := mkTable [] 0.

End Effects.

(* ================================================================= *)
(** ** The column types of PostgreSQL

    PostgreSQL converts each value of an INSERT to the type of its column
    and rejects the statement when a value does not convert: [int] holds
    32 bits, [varchar(n)] at most n characters, [decimal(78,0)] an
    integer of at most 78 digits, [timestamp] a date of its range.  The
    model accepts a value only when the server stores it as it is, so
    that the row read back is the row written.  It is stricter than the
    server for a value the server would rewrite on the way in (a text
    longer than its column that ends in blanks, an amount written with a
    plus sign, leading zeros, a fraction or an exponent, a date before
    1970 or after the year 9999, a text with characters outside printable
    ASCII): such a value counts as rejected here.  The listener, which passes the fields of the
    log and [amount.toString()] of a bigint, produces none of these. *)

Module Postgres.

Import JsString.
Open Scope Z_scope.
Open Scope string_scope.

Definition fitsInt (z : Z) : bool :=
  (Z.leb (-2147483648) z && Z.leb z 2147483647)%bool.

Definition plainChar (c : ascii) : bool :=
  (Nat.leb 32 (nat_of_ascii c) && Nat.leb (nat_of_ascii c) 126)%bool.

Fixpoint plainText (s : string) : bool :=
  match s with
  | EmptyString => true
  | String c rest => (plainChar c && plainText rest)%bool
  end.

(** The SQLSTATE of the rejection, [None] when the value is stored:
    22003 numeric value out of range, 22001 string too long, 22021
    character not in the repertoire, 22P02 invalid text representation,
    22008 datetime overflow. *)

(** A whole number beyond its column: the driver sends a JavaScript
    number as [String(x)], which has an exponent from 10^21 on, and that
    the server does not read as an integer. *)
Definition outOfRange (z : Z) : string :=
  if Z.ltb (Z.abs z) (10 ^ 21) then "22003" else "22P02".

Definition intError (z : Z) : option string :=
  if fitsInt z then None else Some (outOfRange z).

Definition varcharError (limit : option nat) (s : string) : option string :=
  if negb (plainText s) then Some "22021"
  else match limit with
       | Some n => if Nat.leb (String.length s) n then None else Some "22001"
       | None => None
       end.

Definition nullable {A : Type} (check : A -> option string) (value : option A)
    : option string :=
  match value with
  | Some v => check v
  | None => None
  end.

(** The integer a decimal text denotes. *)
Definition readZ (s : string) : option Z :=
  option_map Z.of_int (NilZero.int_of_string s).

Definition decimalError (precision : Z) (s : string) : option string :=
  match readZ s with
  | Some z =>
      if negb (String.eqb (showZ z) s) then Some "22P02"
      else if Z.ltb (Z.abs z) (10 ^ precision) then None
      else Some "22003"
  | None => Some "22P02"
  end.

(** A date in milliseconds, from 1970 to the end of the year 9999. *)
Definition timestampError (ms : Z) : option string :=
  if (Z.leb 0 ms && Z.leb ms 253402300799999)%bool then None else Some "22008".

(** The JSON text of a [jsonb] value: an escape sequence may denote a
    character the type does not hold. *)
Definition jsonError (text : string) : option string :=
  if (plainText text
      && negb (existsb (fun c => Ascii.eqb c "\"%char) (list_ascii_of_string text)))%bool
  then None else Some "22P05".

(** The first rejection among the columns, in the order of the entity. *)
Fixpoint firstError (checks : list (option string)) : option string :=
  match checks with
  | [] => None
  | Some code :: _ => Some code
  | None :: rest => firstError rest
  end.

(** [uuid]: the canonical text, 8-4-4-4-12 lower-case hexadecimal digits.
    The server also reads other spellings of an identifier (capitals, no
    hyphens) and compares the identifiers they denote; here they count as
    rejected. *)
Definition hexChar (c : ascii) : bool :=
  let n := nat_of_ascii c in
  ((Nat.leb 48 n && Nat.leb n 57) || (Nat.leb 97 n && Nat.leb n 102))%bool.

Fixpoint uuidShape (position : nat) (s : string) : bool :=
  match s with
  | EmptyString => Nat.eqb position 36
  | String c rest =>
      ((if (Nat.eqb position 8 || Nat.eqb position 13 || Nat.eqb position 18
            || Nat.eqb position 23)%bool
        then Ascii.eqb c "-"%char
        else hexChar c)
       && uuidShape (S position) rest)%bool
  end.

Definition uuidError (s : string) : option string :=
  if uuidShape 0 s then None else Some "22P02".

Definition bigintError (z : Z) : option string :=
  if (Z.leb (- 2 ^ 63) z && Z.leb z (2 ^ 63 - 1))%bool then None
  else Some (outOfRange z).

(** [DECIMAL(36,18)]: a value is rounded to 18 decimals, half away from
    zero, and rejected (SQLSTATE 22003) when the rounded value has more
    than 18 digits before the point. *)
Definition roundHalfAway (x : Q) : Z :=
  if Qle_bool 0 x then Qfloor (x + (1 # 2))%Q else (- Qfloor (- x + (1 # 2))%Q)%Z.

Definition decimal36_18 (x : Q) : option Q :=
  let units := roundHalfAway (x * inject_Z (10 ^ 18))%Q in
  if Z.ltb (Z.abs units) (10 ^ 36)
  then Some (inject_Z units / inject_Z (10 ^ 18))%Q
  else None.

(** A number with at most 18 decimals. *)
Definition scale18 (x : Q) : Prop :=
  (x * inject_Z (10 ^ 18) == inject_Z (Qfloor (x * inject_Z (10 ^ 18))))%Q.

End Postgres.

(* ================================================================= *)
(** ** rewards/entities and rewards/dto *)

Module RewardClaimEventDto.
Record t : Type := mk {
  walletAddress : string;
  amount : string;
  claimId : option string;
  txHash : string;
  blockNumber : Z;
  logIndex : Z;
  blockTimestamp : Z;
  eventName : option string;
  metadata : option string
}.
End RewardClaimEventDto.

Module RewardDistributionEventDto.
Record t : Type := mk {
  recipients : list string;
  amounts : list string;
  distributionId : option string;
  txHash : string;
  blockNumber : Z;
  logIndex : Z;
  blockTimestamp : Z;
  eventName : option string;
  metadata : option string
}.
End RewardDistributionEventDto.

(** Entity 'reward_claims', [@Unique(['txHash', 'logIndex'])]. *)
Module RewardClaim.
Record t : Type := mk {
  id : nat;
  walletAddress : string;
  amount : string;
  claimId : option string;
  txHash : string;
  blockNumber : Z;
  logIndex : Z;
  blockTimestamp : Z;            (* a Date, in milliseconds *)
  eventName : string;
  metadata : option string;
  createdAt : Z;
  isProcessed : bool
}.
End RewardClaim.

(** Entity 'reward_distributions', [@Unique(['txHash', 'logIndex'])]. *)
Module RewardDistribution.
Record t : Type := mk {
  id : nat;
  recipients : list string;
  amounts : list string;
  distributionId : option string;
  txHash : string;
  blockNumber : Z;
  logIndex : Z;
  blockTimestamp : Z;
  eventName : string;
  metadata : option string;
  createdAt : Z;
  isProcessed : bool
}.
End RewardDistribution.

(* ================================================================= *)
(** ** rewards/repositories and rewards/services/reward-sync.service.ts *)

Module Rewards.

Import Effects JsString Postgres.
Open Scope Z_scope.
Open Scope string_scope.

(** The two tables, the lines the logger printed, the clock, and a
    journal: the calls of RewardSyncService in the order in which they
    were entered.  The journal is not program state; it records the order
    of application for the statements about it. *)
Record World : Type := mkWorld {
  reward_claims : Table RewardClaim.t;
  reward_distributions : Table RewardDistribution.t;
  console : list LogLine;
  journal : list Invocation;
  now : Z
}.

Definition M (A : Type) : Type := World -> Outcome A * World.

Definition ret {A : Type} (a : A) : M A := fun w => (Resolved a, w).

Definition throw {A : Type} (e : Error) : M A := fun w => (Rejected e, w).

Definition bind {A B : Type} (m : M A) (k : A -> M B) : M B :=
  fun w =>
    match m w with
    | (Resolved a, w') => k a w'
    | (Rejected e, w') => (Rejected e, w')
    end.

(** [try { m } catch (error) { handler(error) }] *)
Definition tryCatch {A : Type} (m : M A) (handler : Error -> M A) : M A :=
  fun w =>
    match m w with
    | (Resolved a, w') => (Resolved a, w')
    | (Rejected e, w') => handler e w'
    end.

Notation "x <- m ;; k" := (bind m (fun x => k))
  (at level 61, m at next level, right associativity).
Notation "m ;;; k" := (bind m (fun _ => k))
  (at level 61, right associativity).

Definition logger (line : LogLine) : M unit :=
  fun w =>
    (Resolved tt,
     mkWorld (reward_claims w) (reward_distributions w)
       (console w ++ [line]) (journal w) (now w)).

Definition enter (i : Invocation) : M unit :=
  fun w =>
    (Resolved tt,
     mkWorld (reward_claims w) (reward_distributions w)
       (console w) (journal w ++ [i]) (now w)).

(** [for (const x of xs) { await body(x) }] *)
Fixpoint forEach {A : Type} (xs : list A) (body : A -> M unit) : M unit :=
  match xs with
  | [] => ret tt
  | x :: rest => body x ;;; forEach rest body
  end.

Definition sameKey (txHash : string) (logIndex : Z)
    (rowTxHash : string) (rowLogIndex : Z) : bool :=
  (String.eqb rowTxHash txHash && Z.eqb rowLogIndex logIndex)%bool.

(** [MAX(blockNumber)] over a table, NULL on an empty one. *)
Definition maxBlock (blocks : list Z) : option Z :=
  match blocks with
  | [] => None
  | b :: rest => Some (fold_left Z.max rest b)
  end.

(** [result?.maxBlock || 0] *)
Definition orZero (m : option Z) : Z :=
  match m with
  | Some b => if Z.eqb b 0 then 0 else b
  | None => 0
  end.

(** *** The columns of the two tables *)

Definition claimColumnError (r : RewardClaim.t) : option string :=
  firstError
    [ varcharError (Some 42%nat) (RewardClaim.walletAddress r);
      decimalError 78 (RewardClaim.amount r);
      nullable (varcharError None) (RewardClaim.claimId r);
      varcharError (Some 66%nat) (RewardClaim.txHash r);
      intError (RewardClaim.blockNumber r);
      intError (RewardClaim.logIndex r);
      timestampError (RewardClaim.blockTimestamp r);
      varcharError None (RewardClaim.eventName r);
      nullable jsonError (RewardClaim.metadata r) ].

Definition distributionColumnError (r : RewardDistribution.t) : option string :=
  firstError
    [ firstError (map (varcharError (Some 42%nat)) (RewardDistribution.recipients r));
      firstError (map (decimalError 78) (RewardDistribution.amounts r));
      nullable (varcharError None) (RewardDistribution.distributionId r);
      varcharError (Some 66%nat) (RewardDistribution.txHash r);
      intError (RewardDistribution.blockNumber r);
      intError (RewardDistribution.logIndex r);
      timestampError (RewardDistribution.blockTimestamp r);
      varcharError None (RewardDistribution.eventName r);
      nullable jsonError (RewardDistribution.metadata r) ].

Module RewardClaimRepository.

Definition findByTxHashAndLogIndex (txHash : string) (logIndex : Z)
    : M (option RewardClaim.t) :=
  fun w =>
    (Resolved
       (find (fun r => sameKey txHash logIndex
                         (RewardClaim.txHash r) (RewardClaim.logIndex r))
          (rows (reward_claims w))), w).

(** [repository.save(repository.create(data))]: the insert fails when a
    value does not fit its column, and with SQLSTATE 23505 when
    (txHash, logIndex) is already in the table. *)
Definition create (data : nat -> Z -> RewardClaim.t) : M RewardClaim.t :=
  fun w =>
    let table := reward_claims w in
    let claim := data (nextId table) (now w) in
    match claimColumnError claim with
    | Some code => (Rejected (QueryFailedError code), w)
    | None =>
        if existsb (fun r => sameKey (RewardClaim.txHash claim)
                               (RewardClaim.logIndex claim)
                               (RewardClaim.txHash r) (RewardClaim.logIndex r))
             (rows table)
        then (Rejected (QueryFailedError "23505"), w)
        else (Resolved claim,
              mkWorld (mkTable (rows table ++ [claim]) (S (nextId table)))
                (reward_distributions w) (console w) (journal w) (now w))
    end.

Definition getLastSyncedBlock : M Z :=
  fun w =>
    (Resolved
       (orZero (maxBlock (map RewardClaim.blockNumber (rows (reward_claims w))))),
     w).

(** [order: { blockNumber: 'DESC' }]: the rows by descending block
    number.  The order among the rows of one block is left to the
    database; nothing below depends on it. *)
Fixpoint insertDesc (r : RewardClaim.t) (sorted : list RewardClaim.t)
    : list RewardClaim.t :=
  match sorted with
  | [] => [r]
  | x :: rest =>
      if Z.leb (RewardClaim.blockNumber x) (RewardClaim.blockNumber r)
      then r :: x :: rest
      else x :: insertDesc r rest
  end.

Definition orderByBlockDesc (found : list RewardClaim.t) : list RewardClaim.t :=
  fold_right insertDesc [] found.

Definition findByWalletAddress (walletAddress : string)
    : M (list RewardClaim.t) :=
  fun w =>
    (Resolved
       (orderByBlockDesc
          (List.filter
             (fun r => String.eqb (RewardClaim.walletAddress r) walletAddress)
             (rows (reward_claims w)))),
     w).

End RewardClaimRepository.

Module RewardDistributionRepository.

Definition findByTxHashAndLogIndex (txHash : string) (logIndex : Z)
    : M (option RewardDistribution.t) :=
  fun w =>
    (Resolved
       (find (fun r => sameKey txHash logIndex
                         (RewardDistribution.txHash r)
                         (RewardDistribution.logIndex r))
          (rows (reward_distributions w))), w).

Definition create (data : nat -> Z -> RewardDistribution.t)
    : M RewardDistribution.t :=
  fun w =>
    let table := reward_distributions w in
    let distribution := data (nextId table) (now w) in
    match distributionColumnError distribution with
    | Some code => (Rejected (QueryFailedError code), w)
    | None =>
        if existsb (fun r => sameKey (RewardDistribution.txHash distribution)
                               (RewardDistribution.logIndex distribution)
                               (RewardDistribution.txHash r)
                               (RewardDistribution.logIndex r))
             (rows table)
        then (Rejected (QueryFailedError "23505"), w)
        else (Resolved distribution,
              mkWorld (reward_claims w)
                (mkTable (rows table ++ [distribution]) (S (nextId table)))
                (console w) (journal w) (now w))
    end.

Definition getLastSyncedBlock : M Z :=
  fun w =>
    (Resolved
       (orZero (maxBlock (map RewardDistribution.blockNumber
                            (rows (reward_distributions w))))),
     w).

End RewardDistributionRepository.

(** [error.code === '23505'] *)
Definition isUniqueViolation (error : Error) : bool :=
  match error with
  | QueryFailedError code => String.eqb code "23505"
  | _ => false
  end.

(** [eventDto.eventName || fallback] *)
Definition orDefault (name : option string) (fallback : string) : string :=
  match name with
  | Some n => if String.eqb n "" then fallback else n
  | None => fallback
  end.

Module RewardSyncService.

Definition processRewardClaim (eventDto : RewardClaimEventDto.t)
    : M RewardClaim.t :=
  let txHash := RewardClaimEventDto.txHash eventDto in
  let logIndex := RewardClaimEventDto.logIndex eventDto in
  enter (mkInvocation ProcessRewardClaim txHash
           (RewardClaimEventDto.blockNumber eventDto) logIndex) ;;;
  existing <- RewardClaimRepository.findByTxHashAndLogIndex txHash logIndex ;;
  match existing with
  | Some existing =>
      logger (LogWarn ("Duplicate reward claim detected: "
                       ++ txHash ++ ":" ++ showZ logIndex)) ;;;
      ret existing
  | None =>
      tryCatch
        (claim <- RewardClaimRepository.create (fun id createdAt =>
             RewardClaim.mk id
               (toLowerCase (RewardClaimEventDto.walletAddress eventDto))
               (RewardClaimEventDto.amount eventDto)
               (RewardClaimEventDto.claimId eventDto)
               (RewardClaimEventDto.txHash eventDto)
               (RewardClaimEventDto.blockNumber eventDto)
               (RewardClaimEventDto.logIndex eventDto)
               (RewardClaimEventDto.blockTimestamp eventDto * 1000)
               (orDefault (RewardClaimEventDto.eventName eventDto) "RewardClaimed")
               (RewardClaimEventDto.metadata eventDto)
               createdAt
               true) ;;
         logger (LogInfo ("Reward claim synced: "
                          ++ RewardClaimEventDto.walletAddress eventDto
                          ++ " claimed " ++ RewardClaimEventDto.amount eventDto
                          ++ " (tx: " ++ txHash ++ ")")) ;;;
         ret claim)
        (fun error =>
           if isUniqueViolation error
           then throw (ConflictException "Duplicate reward claim event")
           else throw error)
  end.

Definition processRewardDistribution (eventDto : RewardDistributionEventDto.t)
    : M RewardDistribution.t :=
  let txHash := RewardDistributionEventDto.txHash eventDto in
  let logIndex := RewardDistributionEventDto.logIndex eventDto in
  enter (mkInvocation ProcessRewardDistribution txHash
           (RewardDistributionEventDto.blockNumber eventDto) logIndex) ;;;
  existing <- RewardDistributionRepository.findByTxHashAndLogIndex txHash logIndex ;;
  match existing with
  | Some existing =>
      logger (LogWarn ("Duplicate reward distribution detected: "
                       ++ txHash ++ ":" ++ showZ logIndex)) ;;;
      ret existing
  | None =>
      tryCatch
        (distribution <- RewardDistributionRepository.create (fun id createdAt =>
             RewardDistribution.mk id
               (map toLowerCase (RewardDistributionEventDto.recipients eventDto))
               (RewardDistributionEventDto.amounts eventDto)
               (RewardDistributionEventDto.distributionId eventDto)
               (RewardDistributionEventDto.txHash eventDto)
               (RewardDistributionEventDto.blockNumber eventDto)
               (RewardDistributionEventDto.logIndex eventDto)
               (RewardDistributionEventDto.blockTimestamp eventDto * 1000)
               (orDefault (RewardDistributionEventDto.eventName eventDto)
                  "RewardDistributed")
               (RewardDistributionEventDto.metadata eventDto)
               createdAt
               true) ;;
         logger (LogInfo ("Reward distribution synced: "
                          ++ showNat (List.length
                               (RewardDistributionEventDto.recipients eventDto))
                          ++ " recipients (tx: " ++ txHash ++ ")")) ;;;
         ret distribution)
        (fun error =>
           if isUniqueViolation error
           then throw (ConflictException "Duplicate reward distribution event")
           else throw error)
  end.

(** [Math.max(claimBlock, distributionBlock)] *)
Definition getLastSyncedBlock : M Z :=
  claimBlock <- RewardClaimRepository.getLastSyncedBlock ;;
  distributionBlock <- RewardDistributionRepository.getLastSyncedBlock ;;
  ret (Z.max claimBlock distributionBlock).

Definition getClaimHistory (walletAddress : string) : M (list RewardClaim.t) :=
  RewardClaimRepository.findByWalletAddress (toLowerCase walletAddress).

End RewardSyncService.





(** The warning a duplicate delivery leaves on the console. *)
Definition duplicateWarning (dto : RewardClaimEventDto.t) : LogLine :=
  LogWarn ("Duplicate reward claim detected: "
           ++ RewardClaimEventDto.txHash dto ++ ":"
           ++ showZ (RewardClaimEventDto.logIndex dto)).


(** The journal entry of a call of [processRewardClaim]. *)
Definition invocationOfClaim (dto : RewardClaimEventDto.t) : Invocation :=
  mkInvocation ProcessRewardClaim (RewardClaimEventDto.txHash dto)
    (RewardClaimEventDto.blockNumber dto) (RewardClaimEventDto.logIndex dto).

(** The row [processRewardClaim] builds for an event. *)
Definition claimOf (dto : RewardClaimEventDto.t) (id : nat) (createdAt : Z)
    : RewardClaim.t :=
  RewardClaim.mk id
    (toLowerCase (RewardClaimEventDto.walletAddress dto))
    (RewardClaimEventDto.amount dto)
    (RewardClaimEventDto.claimId dto)
    (RewardClaimEventDto.txHash dto)
    (RewardClaimEventDto.blockNumber dto)
    (RewardClaimEventDto.logIndex dto)
    (RewardClaimEventDto.blockTimestamp dto * 1000)
    (orDefault (RewardClaimEventDto.eventName dto) "RewardClaimed")
    (RewardClaimEventDto.metadata dto)
    createdAt
    true.

(** The row of the event fits the columns of reward_claims. *)
Definition storableClaim (dto : RewardClaimEventDto.t) : bool :=
  match claimColumnError (claimOf dto 0 0) with
  | None => true
  | Some _ => false
  end.

(** The event of the specification's example, and a later delivery of
    the same log. *)
Definition transferEvent : RewardClaimEventDto.t :=
  RewardClaimEventDto.mk "0xABCDEF" "25" (Some "claim-7") "0xabc" 100 2
    1700000000 (Some "Transfer") None.


Definition freshWorld : World := mkWorld emptyTable emptyTable [] [] 0.


(** A row with the key (txHash, logIndex) is stored in reward_claims, in
    reward_distributions. *)
Definition claimStored (txHash : string) (logIndex : Z) (w : World) : bool :=
  existsb
    (fun r => sameKey txHash logIndex (RewardClaim.txHash r) (RewardClaim.logIndex r))
    (rows (reward_claims w)).

Definition distributionStored (txHash : string) (logIndex : Z) (w : World) : bool :=
  existsb
    (fun r => sameKey txHash logIndex (RewardDistribution.txHash r)
                (RewardDistribution.logIndex r))
    (rows (reward_distributions w)).

(** The two tables are the same in [w] and [w']. *)
Definition sameTables (w w' : World) : Prop :=
  reward_claims w' = reward_claims w
  /\ reward_distributions w' = reward_distributions w.

(** Newest first: block numbers do not increase along the list. *)
Definition newestFirst (history : list RewardClaim.t) : Prop :=
  StronglySorted
    (fun a b => RewardClaim.blockNumber b <= RewardClaim.blockNumber a) history.

(** The row [processRewardDistribution] builds for an event. *)
Definition distributionOf (dto : RewardDistributionEventDto.t) (id : nat)
    (createdAt : Z) : RewardDistribution.t :=
  RewardDistribution.mk id
    (map toLowerCase (RewardDistributionEventDto.recipients dto))
    (RewardDistributionEventDto.amounts dto)
    (RewardDistributionEventDto.distributionId dto)
    (RewardDistributionEventDto.txHash dto)
    (RewardDistributionEventDto.blockNumber dto)
    (RewardDistributionEventDto.logIndex dto)
    (RewardDistributionEventDto.blockTimestamp dto * 1000)
    (orDefault (RewardDistributionEventDto.eventName dto) "RewardDistributed")
    (RewardDistributionEventDto.metadata dto)
    createdAt
    true.

(** The row of the event fits the columns of reward_distributions. *)
Definition storableDistribution (dto : RewardDistributionEventDto.t) : bool :=
  match distributionColumnError (distributionOf dto 0 0) with
  | None => true
  | Some _ => false
  end.

(** A distribution to two recipients, and a later delivery of the same
    log. *)
Definition payout : RewardDistributionEventDto.t :=
  RewardDistributionEventDto.mk ["0xAA"; "0xBb"] ["5"; "7"] (Some "dist-1")
    "0xd1" 120 0 1700000100 None None.

Definition payoutAgain : RewardDistributionEventDto.t :=
  RewardDistributionEventDto.mk ["0xaa"; "0xbb"] ["5"; "7"] None
    "0xd1" 120 0 1700000100 (Some "RewardDistributed") None.

End Rewards.

(* ================================================================= *)
(** ** rewards/services/blockchain-listener.service.ts *)

Module Listener.

Import Effects JsString Rewards.
Open Scope Z_scope.
Open Scope string_scope.

(** The decoded arguments of the two events of the contract ABI. *)
Inductive EventArgs : Type :=
  | RewardClaimed (user : string) (amount : Z) (claimId : string)
  | RewardDistributed (recipients : list string) (amounts : list Z)
      (distributionId : string).

(** An [ethers.EventLog]. *)
Record EventLog : Type := mkEventLog {
  transactionHash : string;
  blockNumber : Z;
  index : Z;
  args : EventArgs
}.

Inductive EventName : Type := RewardClaimedEvent | RewardDistributedEvent.

Definition eventNameOf (a : EventArgs) : EventName :=
  match a with
  | RewardClaimed _ _ _ => RewardClaimedEvent
  | RewardDistributed _ _ _ => RewardDistributedEvent
  end.

Definition eventName_eqb (a b : EventName) : bool :=
  match a, b with
  | RewardClaimedEvent, RewardClaimedEvent
  | RewardDistributedEvent, RewardDistributedEvent => true
  | _, _ => false
  end.

(** What the service holds: the provider (chain head, block timestamps;
    [None] is a failed [getBlock]), the logs of the contract in chain
    order, and the START_BLOCK setting. *)
Record BlockchainListenerService : Type := mkListener {
  getBlockNumber : Z;
  getBlock : Z -> option Z;
  contractLogs : list EventLog;
  START_BLOCK : option Z
}.

(** [contract.queryFilter(filter, fromBlock, toBlock)] *)
Definition queryFilter (self : BlockchainListenerService) (filter : EventName)
    (fromBlock toBlock : Z) : list EventLog :=
  List.filter
    (fun e => (eventName_eqb (eventNameOf (args e)) filter
               && Z.leb fromBlock (blockNumber e)
               && Z.leb (blockNumber e) toBlock)%bool)
    (contractLogs self).

Definition handleRewardClaimedEvent (self : BlockchainListenerService)
    (event : EventLog) : M unit :=
  tryCatch
    (match getBlock self (blockNumber event) with
     | None => throw (RpcError "getBlock")
     | Some timestamp =>
         match args event with
         | RewardClaimed user amount claimId =>
             RewardSyncService.processRewardClaim
               (RewardClaimEventDto.mk user (showZ amount) (Some claimId)
                  (transactionHash event) (blockNumber event) (index event)
                  timestamp (Some "RewardClaimed") None) ;;;
             ret tt
         | RewardDistributed _ _ _ => throw (TypeError "event.args.amount")
         end
     end)
    (fun error => logger (LogError "Error handling RewardClaimed event:" error)).

Definition handleRewardDistributedEvent (self : BlockchainListenerService)
    (event : EventLog) : M unit :=
  tryCatch
    (match getBlock self (blockNumber event) with
     | None => throw (RpcError "getBlock")
     | Some timestamp =>
         match args event with
         | RewardDistributed recipients amounts distributionId =>
             RewardSyncService.processRewardDistribution
               (RewardDistributionEventDto.mk recipients (map showZ amounts)
                  (Some distributionId)
                  (transactionHash event) (blockNumber event) (index event)
                  timestamp (Some "RewardDistributed") None) ;;;
             ret tt
         | RewardClaimed _ _ _ => throw (TypeError "event.args.amounts")
         end
     end)
    (fun error => logger (LogError "Error handling RewardDistributed event:" error)).

Definition processBlockRange (self : BlockchainListenerService)
    (fromBlock toBlock : Z) : M unit :=
  tryCatch
    (let claimEvents := queryFilter self RewardClaimedEvent fromBlock toBlock in
     forEach claimEvents (handleRewardClaimedEvent self) ;;;
     let distEvents := queryFilter self RewardDistributedEvent fromBlock toBlock in
     forEach distEvents (handleRewardDistributedEvent self) ;;;
     logger (LogInfo ("Processed blocks " ++ showZ fromBlock ++ "-" ++ showZ toBlock
                      ++ ": " ++ showNat (List.length claimEvents) ++ " claims, "
                      ++ showNat (List.length distEvents) ++ " distributions")))
    (fun error =>
       logger (LogError ("Error processing block range " ++ showZ fromBlock
                         ++ "-" ++ showZ toBlock ++ ":") error) ;;;
       throw error).

Definition CHUNK_SIZE : Z := 10000.

(** The [for (let fromBlock = startBlock; fromBlock <= currentBlock;
    fromBlock += CHUNK_SIZE)] loop: the (fromBlock, toBlock) pairs it hands
    to [processBlockRange], in order. *)
Equations? chunks (fromBlock currentBlock : Z) : list (Z * Z)
    by wf (Z.to_nat (currentBlock - fromBlock + 1)) lt :=
  chunks fromBlock currentBlock with Z_le_gt_dec fromBlock currentBlock := {
    | left _ =>
        (fromBlock, Z.min (fromBlock + CHUNK_SIZE - 1) currentBlock)
        :: chunks (fromBlock + CHUNK_SIZE) currentBlock ;
    | right _ => []
  }.
Proof. unfold CHUNK_SIZE. lia. Qed.

(** [lastSyncedBlock || this.configService.get<number>('START_BLOCK', 0)] *)
Definition startBlockOf (self : BlockchainListenerService) (lastSyncedBlock : Z)
    : Z :=
  if Z.eqb lastSyncedBlock 0
  then match START_BLOCK self with Some b => b | None => 0 end
  else lastSyncedBlock.

(** The block ranges a backfill scans when the last synced block is
    [lastSyncedBlock]: none when [startBlock >= currentBlock]. *)
Definition backfillRanges (self : BlockchainListenerService) (lastSyncedBlock : Z)
    : list (Z * Z) :=
  let currentBlock := getBlockNumber self in
  let startBlock := startBlockOf self lastSyncedBlock in
  if Z.geb startBlock currentBlock then []
  else chunks startBlock currentBlock.

Definition backfillHistoricalEvents (self : BlockchainListenerService) : M unit :=
  lastSyncedBlock <- RewardSyncService.getLastSyncedBlock ;;
  let currentBlock := getBlockNumber self in
  let startBlock := startBlockOf self lastSyncedBlock in
  if Z.geb startBlock currentBlock then
    logger (LogInfo "No historical events to backfill")
  else
    logger (LogInfo ("Backfilling events from block " ++ showZ startBlock
                     ++ " to " ++ showZ currentBlock)) ;;;
    forEach (chunks startBlock currentBlock)
      (fun range => processBlockRange self (fst range) (snd range)) ;;;
    logger (LogInfo "Historical backfill complete").

(** [syncBlockRange]: a manual sync of one range. *)
Definition syncBlockRange (self : BlockchainListenerService)
    (fromBlock toBlock : Z) : M unit :=
  processBlockRange self fromBlock toBlock.

(** The position of a log on the chain, and its order. *)
Definition position (e : EventLog) : Z * Z := (blockNumber e, index e).

Definition positionLt (p q : Z * Z) : Prop :=
  fst p < fst q \/ (fst p = fst q /\ snd p < snd q).

Definition logLt (e1 e2 : EventLog) : Prop := positionLt (position e1) (position e2).

Definition inRange (fromBlock toBlock : Z) (e : EventLog) : Prop :=
  fromBlock <= blockNumber e <= toBlock.

(** The journal entry the handler of [e] leaves when it reaches the sync
    service. *)
Definition invocationOf (e : EventLog) : Invocation :=
  mkInvocation
    (match args e with
     | RewardClaimed _ _ _ => ProcessRewardClaim
     | RewardDistributed _ _ _ => ProcessRewardDistribution
     end)
    (transactionHash e) (blockNumber e) (index e).

(** [a] occurs before [b] in [l]. *)
Definition Precedes {A : Type} (a b : A) (l : list A) : Prop :=
  exists l1 l2 l3, l = (l1 ++ a :: l2 ++ b :: l3)%list.

(** [a] is applied before [b] in journal [j]. *)
Definition Before (a b : Invocation) (j : list Invocation) : Prop :=
  Precedes a b j.

(** The handler of the events named [name] gets [e] as far as the sync
    service: [getBlock] succeeded and the arguments are those of [name]. *)
Definition reaches (self : BlockchainListenerService) (name : EventName)
    (e : EventLog) : bool :=
  (match getBlock self (blockNumber e) with Some _ => true | None => false end
   && eventName_eqb (eventNameOf (args e)) name)%bool.

(** The journal entries a handler adds for one event. *)
Definition entry (self : BlockchainListenerService) (name : EventName)
    (e : EventLog) : list Invocation :=
  if reaches self name e then [invocationOf e] else [].

(** The events of one name that a scan of the range applies, in the order
    in which it applies them. *)
Definition appliedOf (self : BlockchainListenerService) (name : EventName)
    (fromBlock toBlock : Z) : list EventLog :=
  List.filter (reaches self name) (queryFilter self name fromBlock toBlock).

Definition emptyWorld : World :=
  mkWorld emptyTable emptyTable [] [] 0.

(** The log [e] is stored: its (transactionHash, index) is a key of the
    table of its event. *)
Definition eventStored (e : EventLog) (w : World) : bool :=
  match args e with
  | RewardClaimed _ _ _ => claimStored (transactionHash e) (index e) w
  | RewardDistributed _ _ _ => distributionStored (transactionHash e) (index e) w
  end.

(** The tables of [w'] are those of [w] with rows appended. *)
Definition grows (w w' : World) : Prop :=
  (exists added,
      rows (reward_claims w') = (rows (reward_claims w) ++ added)%list)
  /\ (exists added,
        rows (reward_distributions w')
        = (rows (reward_distributions w) ++ added)%list).

(** [getBlock] answers for the block of [e], and the row the handler
    builds from the log and the block timestamp fits the columns of its
    table. *)
Definition storableEvent (self : BlockchainListenerService) (e : EventLog) : bool :=
  match getBlock self (blockNumber e) with
  | None => false
  | Some timestamp =>
      match args e with
      | RewardClaimed user amount claimId =>
          storableClaim
            (RewardClaimEventDto.mk user (showZ amount) (Some claimId)
               (transactionHash e) (blockNumber e) (index e)
               timestamp (Some "RewardClaimed") None)
      | RewardDistributed recipients amounts distributionId =>
          storableDistribution
            (RewardDistributionEventDto.mk recipients (map showZ amounts)
               (Some distributionId)
               (transactionHash e) (blockNumber e) (index e)
               timestamp (Some "RewardDistributed") None)
      end
  end.

(** What a handler does to the tables: rows are only appended; an event
    that reaches the sync service with a row that fits the columns is
    stored afterwards; an event that does not reach it, or is stored
    already, leaves the tables as they are. *)
Definition handlerWrites (self : BlockchainListenerService) (name : EventName)
    (handler : EventLog -> M unit) : Prop :=
  forall e w,
    fst (handler e w) = Resolved tt
    /\ grows w (snd (handler e w))
    /\ (reaches self name e = true -> storableEvent self e = true ->
        eventStored e (snd (handler e w)) = true)
    /\ (reaches self name e = false \/ eventStored e w = true ->
        sameTables w (snd (handler e w))).

(** [getBlock] answers for the block of [e]. *)
Definition blockKnown (self : BlockchainListenerService) (e : EventLog) : bool :=
  match getBlock self (blockNumber e) with Some _ => true | None => false end.

(** The number of ranges of a backfill that scan block [b]. *)
Definition scansOf (ranges : list (Z * Z)) (b : Z) : nat :=
  List.length
    (List.filter (fun r => (Z.leb (fst r) b && Z.leb b (snd r))%bool) ranges).

(** A chain with a claim at block 150, head at block 200. *)
Definition claimAt150 : EventLog :=
  mkEventLog "0xaa" 150 0 (RewardClaimed "0xUSER" 5 "claim-1").

Definition restartedListener : BlockchainListenerService :=
  mkListener 200 (fun b => Some (b * 12)) [claimAt150] None.

(** The world once block 150 has been synced. *)
Definition syncedThrough150 : World :=
  snd (processBlockRange restartedListener 150 150 emptyWorld).

(** A chain whose block 100 holds a distribution at log index 0 and a
    claim at log index 1. *)
Definition distributionAt100 : EventLog :=
  mkEventLog "0xd0" 100 0 (RewardDistributed ["0xA"] [7] "dist-1").

Definition claimAt100 : EventLog :=
  mkEventLog "0xc1" 100 1 (RewardClaimed "0xUSER" 5 "claim-2").

Definition mixedListener : BlockchainListenerService :=
  mkListener 100 (fun b => Some (b * 12)) [distributionAt100; claimAt100] None.

(** A chain whose block 100 holds two claims. *)
Definition firstClaimAt100 : EventLog :=
  mkEventLog "0xc0" 100 0 (RewardClaimed "0xUSER" 9 "claim-1").

Definition twoClaimsListener : BlockchainListenerService :=
  mkListener 100 (fun b => Some (b * 12)) [firstClaimAt100; claimAt100] None.

End Listener.

(* ================================================================= *)
(** ** idempotency-design.md: processEvent, updateBalances, replayFromBlock

    The single-stream indexer: a flat processed_events table with
    UNIQUE(tx_hash, log_index, block_number), the token_balances table and
    the indexer_checkpoint row with id 1. *)

Module Indexer.

Import Effects Postgres.
Open Scope Z_scope.
Open Scope string_scope.

(** [data] of a Transfer event.  [amount] is the number the amount string
    denotes, [None] when the string is not a number: PostgreSQL then
    rejects the UPDATE that binds it (SQLSTATE 22P02). *)
Record TransferData : Type := mkTransferData {
  from : string;
  to : string;
  amount : option Q;
  token : string
}.

Record BlockchainEvent : Type := mkBlockchainEvent {
  txHash : string;
  logIndex : Z;
  blockNumber : Z;
  eventType : string;
  data : TransferData
}.

Record ProcessedEvent : Type := mkProcessedEvent {
  id : nat;
  tx_hash : string;
  log_index : Z;
  block_number : Z;
  event_type : string;
  processed_at : Z
}.

Record TokenBalance : Type := mkTokenBalance {
  address : string;
  token_address : string;
  balance : Q;
  last_updated : Z
}.

Record Checkpoint : Type := mkCheckpoint {
  checkpoint_id : Z;
  last_block : Z;
  updated_at : Z
}.

(** The database.  The SERIAL sequence of processed_events is not part of
    any transaction: a rollback does not give its values back. *)
Record Db : Type := mkDb {
  processed_events : list ProcessedEvent;
  processed_events_id_seq : nat;
  token_balances : list TokenBalance;
  indexer_checkpoint : list Checkpoint;
  console : list string
}.

(** The rows of [WHERE tx_hash = $1 AND log_index = $2 AND block_number = $3]. *)
Definition matches (e : BlockchainEvent) (r : ProcessedEvent) : bool :=
  (String.eqb (tx_hash r) (txHash e) && Z.eqb (log_index r) (logIndex e)
   && Z.eqb (block_number r) (blockNumber e))%bool.

Definition selectExisting (e : BlockchainEvent) (db : Db) : list ProcessedEvent :=
  List.filter (matches e) (processed_events db).

(** The parameters of the SELECT are converted to the types of the
    columns they are compared with: log_index INT, block_number BIGINT. *)
Definition selectError (e : BlockchainEvent) : option string :=
  firstError
    [ varcharError None (txHash e); intError (logIndex e);
      bigintError (blockNumber e) ].

(** The columns of the INSERT: tx_hash VARCHAR(66), log_index INT,
    block_number BIGINT, event_type VARCHAR(100). *)
Definition insertError (e : BlockchainEvent) : option string :=
  firstError
    [ varcharError (Some 66%nat) (txHash e); intError (logIndex e);
      bigintError (blockNumber e); varcharError (Some 100%nat) (eventType e) ].

(** [INSERT INTO processed_events ...]: takes the next serial id, and fails
    when a value does not fit its column or on the unique constraint. *)
Definition insertProcessedEvent (e : BlockchainEvent) (now : Z) (db : Db)
    : Outcome unit * Db :=
  let id := processed_events_id_seq db in
  let db1 := mkDb (processed_events db) (S id) (token_balances db)
               (indexer_checkpoint db) (console db) in
  match insertError e with
  | Some code => (Rejected (QueryFailedError code), db1)
  | None =>
      if existsb (matches e) (processed_events db)
      then (Rejected (QueryFailedError "23505"), db1)
      else (Resolved tt,
            mkDb (processed_events db
                  ++ [mkProcessedEvent id (txHash e) (logIndex e) (blockNumber e)
                        (eventType e) now])
              (S id) (token_balances db) (indexer_checkpoint db) (console db))
  end.

(** [UPDATE token_balances SET balance = balance + delta, last_updated = now
     WHERE address = who AND token_address = token]: the new balance is
    stored in the DECIMAL(36,18) column; [None] when it does not fit. *)
Fixpoint adjustBalance (who tokenAddress : string) (delta : Q) (now : Z)
    (balances : list TokenBalance) : option (list TokenBalance) :=
  match balances with
  | [] => Some []
  | b :: rest =>
      match adjustBalance who tokenAddress delta now rest with
      | None => None
      | Some rest' =>
          if (String.eqb (address b) who
              && String.eqb (token_address b) tokenAddress)%bool
          then match decimal36_18 (balance b + delta)%Q with
               | Some stored =>
                   Some (mkTokenBalance (address b) (token_address b) stored now
                         :: rest')
               | None => None
               end
          else Some (b :: rest')
      end
  end.

Definition updateBalances (d : TransferData) (now : Z) (db : Db)
    : Outcome unit * Db :=
  match amount d with
  | None => (Rejected (QueryFailedError "22P02"), db)
  | Some a =>
      match adjustBalance (from d) (token d) (- a)%Q now (token_balances db) with
      | None => (Rejected (QueryFailedError "22003"), db)
      | Some decreased =>
          match adjustBalance (to d) (token d) a now decreased with
          | None =>
              (Rejected (QueryFailedError "22003"),
               mkDb (processed_events db) (processed_events_id_seq db) decreased
                 (indexer_checkpoint db) (console db))
          | Some increased =>
              (Resolved tt,
               mkDb (processed_events db) (processed_events_id_seq db) increased
                 (indexer_checkpoint db) (console db))
          end
      end
  end.

(** [UPDATE indexer_checkpoint SET last_block = GREATEST(last_block, $1),
     updated_at = CURRENT_TIMESTAMP WHERE id = 1] *)
Definition updateCheckpoint (blockNumber now : Z) (db : Db) : Db :=
  mkDb (processed_events db) (processed_events_id_seq db) (token_balances db)
    (map (fun c =>
            if Z.eqb (checkpoint_id c) 1
            then mkCheckpoint (checkpoint_id c)
                   (Z.max (last_block c) blockNumber) now
            else c)
       (indexer_checkpoint db))
    (console db).

(** [ROLLBACK]: the tables as they were at BEGIN; the sequence keeps the
    values it handed out. *)
Definition rollback (atBegin current : Db) : Db :=
  mkDb (processed_events atBegin) (processed_events_id_seq current)
    (token_balances atBegin) (indexer_checkpoint atBegin) (console current).

Definition processEvent (event : BlockchainEvent) (now : Z) (db : Db)
    : Outcome unit * Db :=
  match selectError event with
  | Some code => (Rejected (QueryFailedError code), db)
  | None =>
      if Nat.ltb 0 (List.length (selectExisting event db)) then
        (Resolved tt,
         mkDb (processed_events db) (processed_events_id_seq db)
           (token_balances db) (indexer_checkpoint db)
           (console db ++ ["Event already processed, skipping"]))
      else
        match insertProcessedEvent event now db with
        | (Rejected error, db1) => (Rejected error, rollback db db1)
        | (Resolved _, db1) =>
            match (if String.eqb (eventType event) "Transfer"
                   then updateBalances (data event) now db1
                   else (Resolved tt, db1)) with
            | (Rejected error, db2) => (Rejected error, rollback db db2)
            | (Resolved _, db2) =>
                (Resolved tt, updateCheckpoint (blockNumber event) now db2)
            end
        end
  end.

(** [for (const event of events) { await processEvent(event) }]: the first
    rejection leaves the loop. *)
Fixpoint processEvents (events : list BlockchainEvent) (now : Z) (db : Db)
    : Outcome unit * Db :=
  match events with
  | [] => (Resolved tt, db)
  | event :: rest =>
      match processEvent event now db with
      | (Resolved _, db') => processEvents rest now db'
      | (Rejected error, db') => (Rejected error, db')
      end
  end.

(** [fetchEventsForBlock(block)] on a chain given by its events. *)
Definition fetchEventsForBlock (chain : list BlockchainEvent) (block : Z)
    : list BlockchainEvent :=
  List.filter (fun e => Z.eqb (blockNumber e) block) chain.

(** The events of the chain at or after [block]: what a replay from
    [block] can still meet. *)
Definition ahead (chain : list BlockchainEvent) (block : Z)
    : list BlockchainEvent :=
  List.filter (fun e => Z.leb block (blockNumber e)) chain.

Lemma ahead_shrinks (chain : list BlockchainEvent) (block : Z) :
  fetchEventsForBlock chain block <> [] ->
  (List.length (ahead chain (block + 1)) < List.length (ahead chain block))%nat.
Proof.
  unfold fetchEventsForBlock, ahead.
  induction chain as [|e chain IH]; simpl; intros H.
  - congruence.
  - destruct (Z.eqb_spec (blockNumber e) block) as [Heq|Hne].
    + destruct (Z.leb_spec block (blockNumber e)); [|lia].
      destruct (Z.leb_spec (block + 1) (blockNumber e)); [lia|].
      simpl. apply Nat.lt_succ_r.
      clear. induction chain as [|x chain IH]; simpl; [lia|].
      destruct (Z.leb_spec (block + 1) (blockNumber x));
        destruct (Z.leb_spec block (blockNumber x)); simpl; lia.
    + specialize (IH H).
      destruct (Z.leb_spec (block + 1) (blockNumber e));
        destruct (Z.leb_spec block (blockNumber e)); simpl; lia.
Qed.

(** [for (let block = startBlock; ; block++)]: stops at the first block
    without events. *)
Equations? replayLoop (chain : list BlockchainEvent) (now : Z) (block : Z)
    (db : Db) : Outcome unit * Db
    by wf (List.length (ahead chain block)) lt :=
  replayLoop chain now block db with inspect (fetchEventsForBlock chain block) := {
    | exist _ [] _ => (Resolved tt, db) ;
    | exist _ (e :: es) Hfetch with processEvents (e :: es) now db := {
        | (Resolved _, db') => replayLoop chain now (block + 1) db' ;
        | (Rejected error, db') => (Rejected error, db')
      }
  }.
Proof. apply ahead_shrinks. rewrite Hfetch. discriminate. Qed.

(** [DELETE FROM processed_events WHERE block_number >= $1] *)
Definition deleteFromBlock (startBlock : Z) (db : Db) : Db :=
  mkDb (List.filter (fun r => negb (Z.leb startBlock (block_number r)))
          (processed_events db))
    (processed_events_id_seq db) (token_balances db) (indexer_checkpoint db)
    (console db).

Definition replayFromBlock (chain : list BlockchainEvent) (startBlock now : Z)
    (db : Db) : Outcome unit * Db :=
  replayLoop chain now startBlock (deleteFromBlock startBlock db).

(** The checkpoint: [last_block] of the row with id 1, if there is one. *)
Definition lastBlock (db : Db) : option Z :=
  match List.find (fun c => Z.eqb (checkpoint_id c) 1) (indexer_checkpoint db) with
  | Some c => Some (last_block c)
  | None => None
  end.

(** [e] is recorded as processed. *)
Definition isProcessed (e : BlockchainEvent) (db : Db) : bool :=
  existsb (matches e) (processed_events db).

(** The row [processEvent] inserts for an event. *)
Definition recordOf (e : BlockchainEvent) (id : nat) (now : Z) : ProcessedEvent :=
  mkProcessedEvent id (txHash e) (logIndex e) (blockNumber e) (eventType e) now.

(** No event at or below the checkpoint is unprocessed: the contiguous
    prefix reading of the checkpoint, over the events [observed]. *)
Definition noGap (observed : list BlockchainEvent) (db : Db) : Prop :=
  forall c e, lastBlock db = Some c -> In e observed -> blockNumber e <= c ->
              isProcessed e db = true.

(** A checkpoint at block 99 and nothing processed. *)
Definition dbAt99 : Db := mkDb [] 0 [] [mkCheckpoint 1 99 0] [].

(** A transfer at block 100 whose amount is not a number, and a transfer
    at block 101. *)
Definition failingAt100 : BlockchainEvent :=
  mkBlockchainEvent "0x64" 0 100 "Transfer"
    (mkTransferData "0xA" "0xB" None "0xT").

Definition transferAt101 : BlockchainEvent :=
  mkBlockchainEvent "0x65" 0 101 "Transfer"
    (mkTransferData "0xA" "0xB" (Some 5%Q) "0xT").

(** Two events of block 100: a mint at log index 0 and a transfer at log
    index 1 whose amount is not a number. *)
Definition mintAt100 : BlockchainEvent :=
  mkBlockchainEvent "0x63" 0 100 "Mint"
    (mkTransferData "" "0xB" (Some 1%Q) "0xT").

Definition failingLaterAt100 : BlockchainEvent :=
  mkBlockchainEvent "0x64" 1 100 "Transfer"
    (mkTransferData "0xA" "0xB" None "0xT").

(** A database with one processed event at block 100 and the checkpoint
    at block 100. *)
Definition dbWithBlock100 : Db :=
  mkDb [mkProcessedEvent 0 "0x64" 0 100 "Mint" 0] 1 [] [mkCheckpoint 1 100 0] [].

(** The stored rows below [block]. *)
Definition rowsBelow (block : Z) (db : Db) : list ProcessedEvent :=
  List.filter (fun r => Z.ltb (block_number r) block) (processed_events db).

(** The key of UNIQUE(tx_hash, log_index, block_number), and of
    UNIQUE(address, token_address). *)
Definition eventKey (r : ProcessedEvent) : string * Z * Z :=
  (tx_hash r, log_index r, block_number r).

Definition uniqueEvents (db : Db) : Prop :=
  NoDup (map eventKey (processed_events db)).

Definition balanceKey (b : TokenBalance) : string * string :=
  (address b, token_address b).

(** [who] has a balance row for [tokenAddress]. *)
Definition holds (who tokenAddress : string) (balances : list TokenBalance)
    : bool :=
  existsb (fun b => (String.eqb (address b) who
                     && String.eqb (token_address b) tokenAddress)%bool)
    balances.

(** The sum of all balances of one token. *)
Fixpoint totalBalance (tokenAddress : string) (balances : list TokenBalance) : Q :=
  match balances with
  | [] => 0%Q
  | b :: rest =>
      ((if String.eqb (token_address b) tokenAddress then balance b else 0)
       + totalBalance tokenAddress rest)%Q
  end.

(** Alice holds 10 units of a token, Bob 2, and Carol has no row. *)
Definition ledger : Db :=
  mkDb [] 0
    [ mkTokenBalance "0xA" "0xT" 10%Q 0; mkTokenBalance "0xB" "0xT" 2%Q 0 ]
    [mkCheckpoint 1 0 0] [].

Definition aliceToBob : TransferData := mkTransferData "0xA" "0xB" (Some 3%Q) "0xT".

(** A transfer of 4e-19, below half a unit of the last decimal, and one of
    6e17 units, which Bob's column holds once and not twice. *)
Definition dust : TransferData :=
  mkTransferData "0xA" "0xB" (Some (4 # 10000000000000000000)%Q) "0xT".

Definition fortune : TransferData :=
  mkTransferData "0xM" "0xB" (Some 600000000000000000%Q) "0xT".
Definition aliceToCarol : TransferData := mkTransferData "0xA" "0xC" (Some 3%Q) "0xT".

(** A chain with events at blocks 100 and 102 and none at block 101. *)
Definition mintAt102 : BlockchainEvent :=
  mkBlockchainEvent "0x66" 0 102 "Mint"
    (mkTransferData "" "0xB" (Some 1%Q) "0xT").

Definition gappedChain : list BlockchainEvent := [mintAt100; mintAt102].

(** The database after a series of [processEvent] calls, whatever each
    of them returned. *)
Definition afterCalls (events : list BlockchainEvent) (now : Z) (db : Db) : Db :=
  fold_left (fun d e => snd (processEvent e now d)) events db.

End Indexer.

(* ================================================================= *)
(** ** The indexed_events table (migration CreateUserAndWallet1769422695901)
       and the engine that owns it

    The table, its column defaults and its two unique indexes are those of
    the migration.  The services that write the table
    (event-indexing.service.ts, reconciliation.service.ts) are not among
    the sources; their operations are modelled from the specification. *)

Module EventStore.

Import Effects.
Open Scope Z_scope.
Open Scope string_scope.

(** A row of "indexed_events". *)
Record IndexedEvent : Type := mkIndexedEvent {
  id : nat;
  eventType : string;
  contractAddress : string;
  transactionHash : string;
  blockNumber : Z;
  logIndex : Z;
  chainId : Z;
  eventData : string;
  parsedData : string;
  confirmations : Z;
  isFinalized : bool;
  isProcessed : bool;
  processedAt : option Z;
  processingError : option string;
  retryAttempts : Z;
  createdAt : Z;
  updatedAt : Z
}.

(** The columns an INSERT supplies; the others take their DEFAULT. *)
Record RawEvent : Type := mkRawEvent {
  raw_eventType : string;
  raw_contractAddress : string;
  raw_transactionHash : string;
  raw_blockNumber : Z;
  raw_logIndex : Z;
  raw_chainId : Z;
  raw_eventData : string;
  raw_parsedData : string
}.

(** The row an INSERT creates: "confirmations" DEFAULT '0', "isFinalized"
    DEFAULT false, "isProcessed" DEFAULT false, "retryAttempts" DEFAULT
    '0', the nullable columns NULL, the timestamps now(). *)
Definition newRow (id : nat) (now : Z) (e : RawEvent) : IndexedEvent :=
  mkIndexedEvent id (raw_eventType e) (raw_contractAddress e)
    (raw_transactionHash e) (raw_blockNumber e) (raw_logIndex e)
    (raw_chainId e) (raw_eventData e) (raw_parsedData e)
    0 false false None None 0 now now.

(** UNIQUE INDEX "IDX_21bb848bab721f9075b3bd4d4f"
    ("transactionHash", "logIndex", "eventType") *)
Definition txKey (r : IndexedEvent) : string * Z * string :=
  (transactionHash r, logIndex r, eventType r).

(** UNIQUE INDEX "IDX_490a5e2198a18f9d760f24b5ec" ("blockNumber", "logIndex") *)
Definition blockKey (r : IndexedEvent) : Z * Z := (blockNumber r, logIndex r).

Definition txKey_eqb (a b : string * Z * string) : bool :=
  (String.eqb (fst (fst a)) (fst (fst b)) && Z.eqb (snd (fst a)) (snd (fst b))
   && String.eqb (snd a) (snd b))%bool.

Definition blockKey_eqb (a b : Z * Z) : bool :=
  (Z.eqb (fst a) (fst b) && Z.eqb (snd a) (snd b))%bool.

(** A stored row collides with [r] on one of the two unique indexes. *)
Definition collides (r : IndexedEvent) (stored : IndexedEvent) : bool :=
  (txKey_eqb (txKey stored) (txKey r)
   || blockKey_eqb (blockKey stored) (blockKey r))%bool.

(** [INSERT INTO "indexed_events"]: rejected with SQLSTATE 23505 when a
    unique index already holds the key. *)
Definition insert (e : RawEvent) (now : Z) (table : Table IndexedEvent)
    : Outcome IndexedEvent * Table IndexedEvent :=
  let row := newRow (nextId table) now e in
  if existsb (collides row) (rows table)
  then (Rejected (QueryFailedError "23505"), table)
  else (Resolved row, mkTable (rows table ++ [row]) (S (nextId table))).

(** Both unique indexes hold on a list of rows. *)
Definition uniqueKeys (rs : list IndexedEvent) : Prop :=
  NoDup (map txKey rs) /\ NoDup (map blockKey rs).

(** Two lists of rows with the same keys, position by position. *)
Definition sameKeys (rs rs' : list IndexedEvent) : Prop :=
  map txKey rs' = map txKey rs /\ map blockKey rs' = map blockKey rs.

(** The two keys an INSERT of [e] would take. *)
Definition rawTxKey (e : RawEvent) : string * Z * string :=
  (raw_transactionHash e, raw_logIndex e, raw_eventType e).

Definition rawBlockKey (e : RawEvent) : Z * Z := (raw_blockNumber e, raw_logIndex e).

(** *** The engine's operations *)

Inductive PersistResult : Type := inserted | duplicate.

(** Modelled from the spec: the Event Store's [persist] of
    event-indexing.service.ts is missing.  "attempts insert; if either
    uniqueness constraint already matches, returns duplicate without
    error and without mutating the existing row." *)
Definition persist (e : RawEvent) (now : Z) (table : Table IndexedEvent)
    : PersistResult * Table IndexedEvent :=
  match insert e now table with
  | (Resolved _, table') => (inserted, table')
  | (Rejected _, _) => (duplicate, table)
  end.

(** Applies [f] to the row with primary key [eventId]. *)
Definition updateRow (eventId : nat) (f : IndexedEvent -> IndexedEvent)
    (table : Table IndexedEvent) : Table IndexedEvent :=
  mkTable (map (fun r => if Nat.eqb (id r) eventId then f r else r) (rows table))
    (nextId table).

(** Modelled from the spec: [markFinalized(eventId)] is missing.  It
    overwrites exactly the finalization flag. *)
Definition markFinalized (eventId : nat) : Table IndexedEvent -> Table IndexedEvent :=
  updateRow eventId (fun r =>
    mkIndexedEvent (id r) (eventType r) (contractAddress r) (transactionHash r)
      (blockNumber r) (logIndex r) (chainId r) (eventData r) (parsedData r)
      (confirmations r) true (isProcessed r) (processedAt r)
      (processingError r) (retryAttempts r) (createdAt r) (updatedAt r)).

(** Modelled from the spec: [markProcessed(eventId, ts)] is missing. *)
Definition markProcessed (eventId : nat) (ts : Z)
    : Table IndexedEvent -> Table IndexedEvent :=
  updateRow eventId (fun r =>
    mkIndexedEvent (id r) (eventType r) (contractAddress r) (transactionHash r)
      (blockNumber r) (logIndex r) (chainId r) (eventData r) (parsedData r)
      (confirmations r) (isFinalized r) true (Some ts)
      (processingError r) (retryAttempts r) (createdAt r) (updatedAt r)).

(** Modelled from the spec: [recordProcessingFailure(eventId, message)] is
    missing.  It increments retryAttempts and records processingError,
    leaving isProcessed false. *)
Definition recordProcessingFailure (eventId : nat) (message : string)
    : Table IndexedEvent -> Table IndexedEvent :=
  updateRow eventId (fun r =>
    mkIndexedEvent (id r) (eventType r) (contractAddress r) (transactionHash r)
      (blockNumber r) (logIndex r) (chainId r) (eventData r) (parsedData r)
      (confirmations r) (isFinalized r) (isProcessed r) (processedAt r)
      (Some message) (retryAttempts r + 1) (createdAt r) (updatedAt r)).

(** Modelled from the spec: the Confirmation Tracker is missing.  "given
    the current head block height H and confirmationsRequired = C, for
    every event with isFinalized = false and blockNumber <= H - C: set
    confirmations = H - blockNumber, isFinalized = true." *)
Definition trackRow (H C : Z) (r : IndexedEvent) : IndexedEvent :=
  if (negb (isFinalized r) && Z.leb (blockNumber r) (H - C))%bool
  then mkIndexedEvent (id r) (eventType r) (contractAddress r)
         (transactionHash r) (blockNumber r) (logIndex r) (chainId r)
         (eventData r) (parsedData r)
         (H - blockNumber r) true (isProcessed r) (processedAt r)
         (processingError r) (retryAttempts r) (createdAt r) (updatedAt r)
  else r.

Definition trackConfirmations (H C : Z) (table : Table IndexedEvent)
    : Table IndexedEvent :=
  mkTable (map (trackRow H C) (rows table)) (nextId table).

(** A row after the passes made at the head heights [heads], in order. *)
Definition afterPasses (heads : list Z) (C : Z) (r : IndexedEvent) : IndexedEvent :=
  fold_left (fun row H => trackRow H C row) heads r.

(** The cursors of one source (table "indexing_state"). *)
Record IndexingState : Type := mkIndexingState {
  lastScannedBlockNumber : Z;
  lastProcessedBlockNumber : Z;
  lastFinalizedBlockNumber : Z;
  status : string;
  maxRetryAttempts : Z
}.

Record Engine : Type := mkEngine {
  state : IndexingState;
  events : Table IndexedEvent
}.

(** Modelled from the spec: [reconcile(source, fromBlock)] of
    reconciliation.service.ts is missing.  It refuses to operate at or
    below lastFinalizedBlockNumber; deletes all rows with blockNumber >=
    fromBlock that are not isFinalized; rolls the scan and process cursors
    back to fromBlock - 1, clamped at lastFinalizedBlockNumber; returns
    the source to idle. *)
Definition reconcile (fromBlock : Z) (g : Engine) : Outcome unit * Engine :=
  let s := state g in
  if Z.leb fromBlock (lastFinalizedBlockNumber s)
  then (Rejected (ConflictException "fromBlock is at or below lastFinalizedBlockNumber"), g)
  else
    let kept := List.filter
                  (fun r => negb (Z.leb fromBlock (blockNumber r)
                                  && negb (isFinalized r)))
                  (rows (events g)) in
    let cursor := Z.max (fromBlock - 1) (lastFinalizedBlockNumber s) in
    (Resolved tt,
     mkEngine
       (mkIndexingState cursor cursor (lastFinalizedBlockNumber s) "idle"
          (maxRetryAttempts s))
       (mkTable kept (nextId (events g)))).

(** Modelled from the spec: the Event Processor's step on one selected
    event is missing.  The apply-function either commits, and the event
    is flagged processed, or fails with a message, and the failure is
    recorded. *)
Definition processOne (applyResult : option string) (ts : Z) (r : IndexedEvent)
    (table : Table IndexedEvent) : Table IndexedEvent :=
  match applyResult with
  | None => markProcessed (id r) ts table
  | Some message => recordProcessingFailure (id r) message table
  end.

(** Modelled from the spec: [processBatch] is missing.  It selects the
    rows with isFinalized, not isProcessed and retryAttempts <
    maxRetryAttempts, ordered ascending by (blockNumber, logIndex), and
    runs the step on each; [apply] tells how the apply-function ends on a
    row. *)
Definition eligible (maxRetry : Z) (r : IndexedEvent) : bool :=
  (isFinalized r && negb (isProcessed r) && Z.ltb (retryAttempts r) maxRetry)%bool.

(** Ascending (blockNumber, logIndex), by insertion. *)
Definition position_leb (a b : IndexedEvent) : bool :=
  (Z.ltb (blockNumber a) (blockNumber b)
   || (Z.eqb (blockNumber a) (blockNumber b) && Z.leb (logIndex a) (logIndex b)))%bool.

Fixpoint insertByPosition (r : IndexedEvent) (sorted : list IndexedEvent)
    : list IndexedEvent :=
  match sorted with
  | [] => [r]
  | x :: rest =>
      if position_leb r x then r :: x :: rest else x :: insertByPosition r rest
  end.

Definition sortByPosition (rs : list IndexedEvent) : list IndexedEvent :=
  fold_right insertByPosition [] rs.

(** Only the writes to indexed_events are modelled: the commit of the
    process cursor and the transition to the error status touch
    indexing_state alone. *)
Definition processBatch (apply : IndexedEvent -> option string) (ts : Z)
    (g : Engine) : Engine :=
  let selected := sortByPosition
                    (List.filter (eligible (maxRetryAttempts (state g)))
                       (rows (events g))) in
  mkEngine (state g)
    (fold_left (fun table r => processOne (apply r) ts r table) selected (events g)).

(** The writes the engine makes to the table. *)
Inductive Operation : Type :=
  | OpPersist (e : RawEvent) (now : Z)
  | OpMarkFinalized (eventId : nat)
  | OpTrackConfirmations (H C : Z)
  | OpProcess (apply : IndexedEvent -> option string) (ts : Z)
  | OpReconcile (fromBlock : Z).

Definition step (g : Engine) (op : Operation) : Engine :=
  match op with
  | OpPersist e now => mkEngine (state g) (snd (persist e now (events g)))
  | OpMarkFinalized eventId => mkEngine (state g) (markFinalized eventId (events g))
  | OpTrackConfirmations H C =>
      mkEngine (state g) (trackConfirmations H C (events g))
  | OpProcess apply ts => processBatch apply ts g
  | OpReconcile fromBlock => snd (reconcile fromBlock g)
  end.

Definition run (ops : list Operation) (g : Engine) : Engine := fold_left step ops g.

Definition initial (s : IndexingState) : Engine := mkEngine s emptyTable.

(** The event of the specification's example, at block 100. *)
Definition transferAt100 : RawEvent :=
  mkRawEvent "Transfer" "0xC0FFEE" "0xabc" 100 2 1 "{}" "{}".

(** The same log under another event type, and another log of the same
    block and log index. *)
Definition sameBlockPosition : RawEvent :=
  mkRawEvent "Mint" "0xC0FFEE" "0xdef" 100 2 1 "{}" "{}".

Definition defaultState : IndexingState := mkIndexingState 0 0 0 "idle" 3.

(** The rows a reconciliation keeps: those below [fromBlock], and the
    finalized ones. *)
Definition survives (fromBlock : Z) (r : IndexedEvent) : bool :=
  (Z.ltb (blockNumber r) fromBlock || isFinalized r)%bool.

(** An engine that has scanned through block 102 and finalized through
    block 100: the row of block 100 is finalized, those of blocks 101 and
    102 are pending. *)
Definition rowAt (id : nat) (transactionHash : string) (block : Z)
    (finalized : bool) : IndexedEvent :=
  mkIndexedEvent id "Transfer" "0xC0FFEE" transactionHash block 0 1 "{}" "{}"
    0 finalized false None None 0 0 0.

Definition finalizedThrough100 : Engine :=
  mkEngine (mkIndexingState 102 99 100 "idle" 3)
    (mkTable [rowAt 0 "0xa0" 100 true; rowAt 1 "0xa1" 101 false;
              rowAt 2 "0xa2" 102 false] 3).

End EventStore.

(* ================================================================= *)
(** ** sybil-resistant-voting.service.ts: the batch operations *)

Module SybilVotingBatch.

Import Js JsString SybilVoting.
Open Scope Q_scope.
Open Scope string_scope.

(** Two digits of a number below 100. *)
Definition pad2 (n : Z) : string :=
  if Z.ltb n 10 then "0" ++ showZ n else showZ n.

(** [x.toFixed(2)] as text: the sign, the integer part, a point and two
    decimals (numbers below 1e21, for which JavaScript does not switch to
    the exponent form). *)
Definition toFixed (x : Q) : string :=
  let negative := Qltb x 0 in
  let n := Qfloor ((if negative then - x else x) * 100 + (1 # 2)) in
  (if negative then "-" else "")
  ++ showZ (n / 100) ++ "." ++ pad2 (n mod 100).

Record Vote : Type := mkVote {
  vote_userId : string;
  vote_verdict : string;
  vote_baseWeight : Q
}.

(** An element of the array [calculateSybilWeightedVotes] returns. *)
Record WeightedEntry : Type := mkEntry {
  entry_userId : string;
  entry_baseWeight : Q;
  entry_sybilScore : Q;
  entry_multiplier : Q;
  entry_finalWeight : Q
}.

Definition entryOf (weighted : WeightedVote) : WeightedEntry :=
  mkEntry (userId weighted) (baseWeight weighted) (sybilScore weighted)
    (multiplier weighted) (finalWeight weighted).

(** [for (const vote of votes) { ...; results.push(...) }]: a rejected
    lookup rejects the whole call. *)
Definition pushWeighted (service : SybilResistanceService)
    (results : option (list WeightedEntry)) (vote : Vote)
    : option (list WeightedEntry) :=
  match results with
  | None => None
  | Some results =>
      match calculateSybilWeightedVote service (vote_userId vote)
              (vote_baseWeight vote) with
      | None => None
      | Some weighted => Some (results ++ [entryOf weighted])%list
      end
  end.

Definition calculateSybilWeightedVotes (service : SybilResistanceService)
    (votes : list Vote) : option (list WeightedEntry) :=
  fold_left (pushWeighted service) votes (Some []).






Record Eligibility : Type := mkEligibility {
  el_userId : string;
  currentScore : Q;
  minimumRequired : Q;
  eligible : bool
}.

(** [meetsMinimumSybilScore(userId, minimumScore = 0.1)] *)
Definition meetsMinimumSybilScore (service : SybilResistanceService)
    (userId : string) (minimumScore : option Q) : option Eligibility :=
  let minimumScore := match minimumScore with Some m => m | None => 1 # 10 end in
  match getLatestSybilScore service userId with
  | None => None
  | Some sybilScore =>
      Some (mkEligibility userId (compositeScore sybilScore) minimumScore
              (Qle_bool minimumScore (compositeScore sybilScore)))
  end.

Record EligibilityDetail : Type := mkEligibilityDetail {
  ed_userId : string;
  ed_currentScore : Q;
  ed_eligible : bool
}.

Record EligibilityReport : Type := mkReport {
  totalUsers : nat;
  eligibleUsers : nat;
  ineligibleUsers : nat;
  eligibilityRate : string;
  reportDetails : list EligibilityDetail
}.

(** The loop of [getParticipationEligibility] on (details, eligibleCount). *)
Definition eligibilityStep (service : SybilResistanceService) (minimumScore : Q)
    (state : option (list EligibilityDetail * nat)) (userId : string)
    : option (list EligibilityDetail * nat) :=
  match state with
  | None => None
  | Some (details, eligibleCount) =>
      match meetsMinimumSybilScore service userId (Some minimumScore) with
      | None => None
      | Some result =>
          Some ((details
                 ++ [mkEligibilityDetail (el_userId result) (currentScore result)
                       (eligible result)])%list,
                if eligible result then S eligibleCount else eligibleCount)
      end
  end.

(** [getParticipationEligibility(userIds, minimumScore = 0.1)] *)
Definition getParticipationEligibility (service : SybilResistanceService)
    (userIds : list string) (minimumScore : option Q) : option EligibilityReport :=
  let minimumScore := match minimumScore with Some m => m | None => 1 # 10 end in
  match fold_left (eligibilityStep service minimumScore) userIds (Some ([], O)) with
  | None => None
  | Some (details, eligibleCount) =>
      let eligibilityRate :=
        if Nat.ltb 0 (List.length userIds)
        then toFixed ((inject_Z (Z.of_nat eligibleCount)
                       / inject_Z (Z.of_nat (List.length userIds))) * 100)
        else "0" in
      Some (mkReport (List.length userIds) eligibleCount
              (List.length userIds - eligibleCount)
              (eligibilityRate ++ "%") details)
  end.



(** [e] is the weighted form of [vote]: the score of the voter, the
    multiplier 0.5 + 0.5 score and the weight scaled by it. *)
Definition weighs (service : SybilResistanceService) (vote : Vote)
    (e : WeightedEntry) : Prop :=
  exists score,
    getLatestSybilScore service (vote_userId vote) = Some score
    /\ entry_userId e = vote_userId vote
    /\ entry_baseWeight e = vote_baseWeight vote
    /\ entry_sybilScore e = compositeScore score
    /\ entry_multiplier e = (1 # 2) + (1 # 2) * compositeScore score
    /\ entry_finalWeight e = vote_baseWeight vote * entry_multiplier e.

(** The users among [userIds] whose score is at least [minimumScore]. *)
Definition countEligible (service : SybilResistanceService) (minimumScore : Q)
    (userIds : list string) : nat :=
  List.length
    (List.filter
       (fun userId =>
          match getLatestSybilScore service userId with
          | Some score => Qle_bool minimumScore (compositeScore score)
          | None => false
          end)
       userIds).

(** The scores of the service's test: 0.8 for user-1, 0 for user-2, 0.5
    for everybody else but user-4, who is unknown. *)
Definition testService : SybilResistanceService :=
  mkService (fun userId =>
    if String.eqb userId "user-1"
    then Some (mkSybilScore "score-1" userId (4 # 5) 1 (4 # 5) (3 # 5) (4 # 5))
    else if String.eqb userId "user-2"
    then Some (mkSybilScore "score-2" userId 0 0 0 0 0)
    else if String.eqb userId "user-4" then None
    else Some (mkSybilScore "score-3" userId (1 # 2) 0 (67 # 100) 0 0)).

Definition testVotes : list Vote :=
  [ mkVote "user-1" "TRUE" 100; mkVote "user-2" "FALSE" 100 ].

End SybilVotingBatch.

(* ================================================================= *)
(** ** reputation/reputation.service.ts, reputation/reputation.types.ts

    Scores, counts and deltas are integers; the stake is a number that
    [computeReputationDelta] floors. *)

Module Reputation.

Import Js.
Open Scope string_scope.
Open Scope Z_scope.

Definition MAX_SCORE : Z := 100.
Definition BASE_DELTA : Z := 2.
Definition STAKE_CAP : Z := 1000.
Definition MIN_DAMPEN : Q := 1 # 10.
Definition MAX_POS_DELTA : Z := 10.
Definition MAX_NEG_DELTA : Z := 15.
Definition ALPHA : Z := 1.

Record ReputationDeltaParams : Type := mkParams {
  oldScore : Z;
  totalVerifications : Z;
  correctVerifications : Z;
  stakeAmount : Q;
  isCorrect : bool
}.

(** Step 1 of [computeReputationDelta]:
    [1 + Math.floor(Math.log2(1 + limitedStake))], the logarithm of an
    integer between 1 and 1001. *)
Definition stakeFactorOf (stakeAmount : Q) : Z :=
  let stake := Z.max 0 (Qfloor stakeAmount) in
  let limitedStake := Z.min stake STAKE_CAP in
  1 + Z.log2 (1 + limitedStake).

(** [computeReputationDelta].  [None] stands for the one case in which
    the source leaves the integers: [reliabilityDen] is 0, the quotient
    infinite or NaN. *)
Definition computeReputationDelta (params : ReputationDeltaParams) : option Z :=
  let stakeFactor := stakeFactorOf (stakeAmount params) in
  let reliabilityNum := correctVerifications params + ALPHA in
  let reliabilityDen := totalVerifications params + 2 * ALPHA in
  if Z.eqb reliabilityDen 0 then None
  else
    let reliabilityFactor := (reliabilityNum * 100) / reliabilityDen in
    let raw := (BASE_DELTA * stakeFactor * reliabilityFactor) / 100 in
    let minimumRaw := Z.max 1 raw in
    let delta := if isCorrect params then minimumRaw else - minimumRaw in
    let delta :=
      if isCorrect params then
        let dampening :=
          Math_max MIN_DAMPEN
            (inject_Z (MAX_SCORE - oldScore params) / inject_Z MAX_SCORE) in
        let delta := Qfloor (inject_Z delta * dampening) in
        if Z.eqb delta 0 then 1 else delta
      else
        let amplify := 1 + oldScore params / 50 in
        - Z.max 1 (Z.abs delta * amplify) in
    let delta := if Z.ltb MAX_POS_DELTA delta then MAX_POS_DELTA else delta in
    let delta := if Z.ltb delta (- MAX_NEG_DELTA) then - MAX_NEG_DELTA else delta in
    Some delta.

(** Table 'users' (the columns the service uses) and table
    'reputation_changes'. *)
Record User : Type := mkUser {
  user_id : string;
  reputation : Z
}.

Record ReputationChange : Type := mkChange {
  change_userId : string;
  change_oldScore : Z;
  change_newScore : Z;
  change_delta : Z;
  change_stakeAmount : option Q;
  change_isCorrect : bool;
  change_verificationId : option string
}.

(** The lines the service logs, by their interpolated values. *)
Inductive LogLine : Type :=
  | WarnUserNotFound (userId : string)
  | LogUpdated (userId : string) (old new delta : Z)
      (verificationId : option string)
  | WarnSkipped (userId : string).

Record Store : Type := mkStore {
  users : list User;
  reputation_changes : list ReputationChange;
  logged : list LogLine
}.

(** [manager.findOne(User, { where: { id } })] *)
Definition findOne (table : list User) (id : string) : option User :=
  find (fun u => String.eqb (user_id u) id) table.

(** [manager.save(user)] of a loaded user: an UPDATE by primary key. *)
Definition save (user : User) (table : list User) : list User :=
  map (fun u => if String.eqb (user_id u) (user_id user) then user else u) table.

(** [Math.max(0, Math.min(MAX_SCORE, x))] *)
Definition clampScore (x : Z) : Z := Z.max 0 (Z.min MAX_SCORE x).

Record Meta : Type := mkMeta {
  meta_stakeAmount : option Q;
  meta_isCorrect : option bool;
  meta_verificationId : option string
}.

(** The columns of reputation_changes: oldScore, newScore and delta are
    [int], verificationId is a [varchar]. *)
Definition changeColumnError (c : ReputationChange) : option string :=
  Postgres.firstError
    [ Postgres.intError (change_oldScore c); Postgres.intError (change_newScore c);
      Postgres.intError (change_delta c);
      Postgres.nullable (Postgres.varcharError None) (change_verificationId c) ].

(** [applyReputationUpdate]: the body of [dataSource.transaction].  The
    users are looked up by their [uuid] key; a statement the server
    rejects ends the transaction with the driver's error, and nothing of
    it is kept. *)
Definition applyReputationUpdate (userId : string) (delta : Z) (meta : Meta)
    (s : Store)
    : Effects.Outcome (option (User * ReputationChange)) * Store :=
  match Postgres.uuidError userId with
  | Some code => (Effects.Rejected (Effects.QueryFailedError code), s)
  | None =>
      match findOne (users s) userId with
      | None =>
          (Effects.Resolved None,
           mkStore (users s) (reputation_changes s)
             (logged s ++ [WarnUserNotFound userId]))
      | Some user =>
          let oldScore := clampScore (reputation user) in
          let newScore := clampScore (oldScore + delta) in
          let user := mkUser (user_id user) newScore in
          let change :=
            mkChange userId oldScore newScore delta (meta_stakeAmount meta)
              (match meta_isCorrect meta with Some b => b | None => false end)
              (meta_verificationId meta) in
          match changeColumnError change with
          | Some code => (Effects.Rejected (Effects.QueryFailedError code), s)
          | None =>
              (Effects.Resolved (Some (user, change)),
               mkStore (save user (users s)) (reputation_changes s ++ [change])
                 (logged s ++ [LogUpdated userId oldScore newScore delta
                                 (meta_verificationId meta)]))
          end
      end
  end.






(** The steps of [computeReputationDelta], named. *)

(** The last two steps: the clamp to [-15, 10]. *)
Definition clampDelta (delta : Z) : Z :=
  let delta := if Z.ltb MAX_POS_DELTA delta then MAX_POS_DELTA else delta in
  if Z.ltb delta (- MAX_NEG_DELTA) then - MAX_NEG_DELTA else delta.

(** Step 4 for a correct verification. *)
Definition dampened (minimumRaw score : Z) : Z :=
  let d := Qfloor (inject_Z minimumRaw
                   * Math_max MIN_DAMPEN
                       (inject_Z (MAX_SCORE - score) / inject_Z MAX_SCORE)) in
  if Z.eqb d 0 then 1 else d.

(** Step 4 for an incorrect one. *)
Definition amplified (minimumRaw score : Z) : Z :=
  - Z.max 1 (Z.abs (- minimumRaw) * (1 + score / 50)).

Definition minimumRawOf (params : ReputationDeltaParams) : Z :=
  Z.max 1
    ((BASE_DELTA * stakeFactorOf (stakeAmount params)
      * (((correctVerifications params + ALPHA) * 100)
         / (totalVerifications params + 2 * ALPHA))) / 100).

(** [params] with another old score, another stake. *)
Definition withOldScore (params : ReputationDeltaParams) (score : Z)
    : ReputationDeltaParams :=
  mkParams score (totalVerifications params) (correctVerifications params)
    (stakeAmount params) (isCorrect params).

Definition withStake (params : ReputationDeltaParams) (stake : Q)
    : ReputationDeltaParams :=
  mkParams (oldScore params) (totalVerifications params)
    (correctVerifications params) stake (isCorrect params).



(** The parameters of the unit tests. *)
Definition coldStart : ReputationDeltaParams := mkParams 50 0 0 1 true.

Definition seasoned : ReputationDeltaParams := mkParams 10 20 18 10 true.

Definition whale : ReputationDeltaParams := mkParams 20 100 90 999999999 true.




(** Two users under their keys. *)
Definition firstUser : string := "00000000-0000-4000-8000-000000000001".
Definition secondUser : string := "00000000-0000-4000-8000-000000000002".

Definition registry : Store :=
  mkStore [mkUser firstUser 95; mkUser secondUser 3] [] [].


End Reputation.

(* ================================================================= *)
(** ** SybilResistanceService (SYBIL_RESISTANCE_FILES_SUMMARY.md)

    The service behind [getLatestSybilScore].  [Math.log1p] is a
    parameter of the model; the timestamp and the explanation text of the
    calculation details are left out. *)

Module SybilResistance.

Import Js SybilVoting.
Open Scope string_scope.
Open Scope Q_scope.

Definition WORLDCOIN_WEIGHT : Q := 3 # 10.
Definition WALLET_AGE_WEIGHT : Q := 1 # 4.
Definition STAKING_WEIGHT : Q := 1 # 4.
Definition ACCURACY_WEIGHT : Q := 1 # 5.

(** [90 * 24 * 60 * 60 * 1000] *)
Definition WALLET_AGE_THRESHOLD_MS : Q := 7776000000.
Definition MIN_STAKING_FOR_FULL_SCORE : Z := 1000000000000000000.
Definition MIN_CLAIMS_FOR_ACCURACY_SCORE : Q := 5.

Record Wallet : Type := mkWallet {
  linkedAt : Z                     (* a Date, in milliseconds *)
}.

(** A user with [include: { wallets: true }]. *)
Record User : Type := mkUser {
  user_id : string;
  worldcoinVerified : bool;
  wallets : list Wallet
}.

(** A row of SybilScore with its creation time. *)
Record Snapshot : Type := mkSnapshot {
  createdAt : Z;
  row : SybilScore
}.

Record Db : Type := mkDb {
  users : list User;
  sybilScores : list Snapshot
}.

Inductive SybilError : Type :=
  | NotFoundException (message : string)
  | UniqueConstraintFailed.          (* Prisma P2002 on (userId, createdAt) *)

Record SybilSignals : Type := mkSignals {
  signal_worldcoinVerified : bool;
  oldestWalletAgeMs : Q;
  totalStakedAmount : Z;
  claimsVotedOn : Q;
  claimsCorrect : Q
}.

Record NormalizedScores : Type := mkScores {
  worldcoin : Q;
  walletAge : Q;
  staking : Q;
  accuracy : Q
}.

Record CalculationDetails : Type := mkDetails {
  worldcoinWeight : Q;
  walletAgeWeight : Q;
  stakingWeight : Q;
  accuracyWeight : Q;
  componentScores : NormalizedScores
}.

(** What a call reads from outside the database: [Date.now()], and the
    creation time and the id the database gives a new row. *)
Record Fresh : Type := mkFresh {
  dateNow : Z;
  rowCreatedAt : Z;
  rowId : string
}.

(** [prisma.user.findUnique({ where: { id: userId } })] *)
Definition findUnique (db : Db) (userId : string) : option User :=
  find (fun u => String.eqb (user_id u) userId) (users db).

(** [wallets.reduce((oldest, w) => new Date(w.linkedAt) < new
    Date(oldest.linkedAt) ? w : oldest)] *)
Definition oldestWallet (wallets : list Wallet) : option Wallet :=
  match wallets with
  | [] => None
  | first :: rest =>
      Some (fold_left
              (fun oldest w => if Z.ltb (linkedAt w) (linkedAt oldest)
                               then w else oldest)
              rest first)
  end.

Definition gatherSignals (db : Db) (now : Z) (userId : string)
    (wallets : list Wallet) : SybilSignals :=
  let user := findUnique db userId in
  let oldestWalletAgeMs :=
    match oldestWallet wallets with
    | Some w => inject_Z (now - linkedAt w)
    | None => 0
    end in
  let totalStakedAmount := 0%Z in
  let claimsVotedOn := 0 in
  let claimsCorrect := 0 in
  mkSignals
    (match user with Some u => worldcoinVerified u | None => false end)
    oldestWalletAgeMs totalStakedAmount claimsVotedOn claimsCorrect.

Definition weightedCombination (normalizedScores : NormalizedScores) : Q :=
  worldcoin normalizedScores * WORLDCOIN_WEIGHT
  + walletAge normalizedScores * WALLET_AGE_WEIGHT
  + staking normalizedScores * STAKING_WEIGHT
  + accuracy normalizedScores * ACCURACY_WEIGHT.

Definition createCalculationDetails (normalizedScores : NormalizedScores)
    : CalculationDetails :=
  mkDetails WORLDCOIN_WEIGHT WALLET_AGE_WEIGHT STAKING_WEIGHT ACCURACY_WEIGHT
    (mkScores (toFixed4 (worldcoin normalizedScores))
       (toFixed4 (walletAge normalizedScores))
       (toFixed4 (staking normalizedScores))
       (toFixed4 (accuracy normalizedScores))).

(** [findFirst({ where: { userId }, orderBy: { createdAt: 'desc' } })];
    among rows of one creation time (the unique index on (userId,
    createdAt) rules them out) the earlier row of the table. *)
Definition later (userId : string) (best : option Snapshot) (s : Snapshot)
    : option Snapshot :=
  if String.eqb (score_userId (row s)) userId then
    match best with
    | None => Some s
    | Some b => if Z.ltb (createdAt b) (createdAt s) then Some s else Some b
    end
  else best.

Definition findLatest (db : Db) (userId : string) : option Snapshot :=
  fold_left (later userId) (sybilScores db) None.

Section Log1p.

Variable log1p : Q -> Q.

Definition normalizeSignals (signals : SybilSignals) : NormalizedScores :=
  let worldcoinScore := if signal_worldcoinVerified signals then 1 else 0 in
  let walletAgeScore :=
    Math_min (oldestWalletAgeMs signals / WALLET_AGE_THRESHOLD_MS) 1 in
  let stakingScore :=
    Math_min
      (log1p (inject_Z (totalStakedAmount signals))
       / log1p (inject_Z MIN_STAKING_FOR_FULL_SCORE)) 1 in
  let accuracyScore :=
    if Qle_bool MIN_CLAIMS_FOR_ACCURACY_SCORE (claimsVotedOn signals)
    then claimsCorrect signals / claimsVotedOn signals
    else 0 in
  mkScores worldcoinScore walletAgeScore stakingScore accuracyScore.

Definition computeSybilScore (db : Db) (now : Z) (userId : string)
    : SybilError + (Q * CalculationDetails) :=
  match findUnique db userId with
  | None => inl (NotFoundException ("User " ++ userId ++ " not found"))
  | Some user =>
      let signals := gatherSignals db now userId (wallets user) in
      let normalizedScores := normalizeSignals signals in
      let compositeScore := weightedCombination normalizedScores in
      let details := createCalculationDetails normalizedScores in
      inr (toFixed4 compositeScore, details)
  end.

Definition recordSybilScore (db : Db) (fresh : Fresh) (userId : string)
    : (SybilError + Snapshot) * Db :=
  match computeSybilScore db (dateNow fresh) userId with
  | inl error => (inl error, db)
  | inr (compositeScore, details) =>
      let created :=
        mkSnapshot (rowCreatedAt fresh)
          (mkSybilScore (rowId fresh) userId compositeScore
             (worldcoin (componentScores details))
             (walletAge (componentScores details))
             (staking (componentScores details))
             (accuracy (componentScores details))) in
      if existsb
           (fun s => (String.eqb (score_userId (row s)) userId
                      && Z.eqb (createdAt s) (rowCreatedAt fresh))%bool)
           (sybilScores db)
      then (inl UniqueConstraintFailed, db)
      else (inr created, mkDb (users db) (sybilScores db ++ [created]))
  end.

Definition getLatestSybilScore (db : Db) (fresh : Fresh) (userId : string)
    : (SybilError + Snapshot) * Db :=
  match findLatest db userId with
  | None => recordSybilScore db fresh userId
  | Some score => (inr score, db)
  end.

End Log1p.

(** The service as the voting service sees it in one call: the row
    [getLatestSybilScore] answers, [None] for a rejected promise. *)
Definition serviceAt (log1p : Q -> Q) (db : Db) (fresh : Fresh)
    : SybilResistanceService :=
  mkService
    (fun userId =>
       match fst (getLatestSybilScore log1p db fresh userId) with
       | inr score => Some (row score)
       | inl _ => None
       end).

(** A verified user whose only wallet was linked 100 days before. *)
Definition dayMs : Z := 86400000.

Definition veteran : User :=
  mkUser "user-1" true [mkWallet 0].

Definition newcomer : User := mkUser "user-2" false [].

Definition smallDb : Db := mkDb [veteran; newcomer] [].

Definition firstRead : Fresh := mkFresh (100 * dayMs) (100 * dayMs) "score-1".

Definition laterRead : Fresh := mkFresh (500 * dayMs) (500 * dayMs) "score-2".

(** A stand-in for [Math.log1p] that vanishes at 0. *)
Definition linearLog1p (x : Q) : Q := x.

End SybilResistance.

(* ================================================================= *)
(** * Properties *)

(** ** Rounding to double precision *)

Module Binary64Facts.

Import Binary64.
Open Scope Q_scope.

Lemma pow2_pos (k : Z) : 0 < 2 ^ k.
Proof. apply Qpower_0_lt. reflexivity. Qed.

Lemma pow2_plus (a b : Z) : 2 ^ (a + b) == 2 ^ a * 2 ^ b.
Proof. apply Qpower_plus. discriminate. Qed.

Lemma pow2_succ (k : Z) : 2 ^ (k + 1) == 2 * 2 ^ k.
Proof. rewrite pow2_plus. change (2 ^ 1) with 2. ring. Qed.

Lemma pow2_le (a b : Z) : (a <= b)%Z -> 2 ^ a <= 2 ^ b.
Proof. intros H. apply Qpower_le_compat_l; [exact H|]. discriminate. Qed.

Lemma pow2_lt_inv (a b : Z) : 2 ^ a < 2 ^ b -> (a < b)%Z.
Proof. intros H. apply Qpower_lt_compat_l_inv with (q := 2); [exact H|reflexivity]. Qed.

Lemma pow2_Z (n : Z) : (0 <= n)%Z -> inject_Z (2 ^ n) == 2 ^ n.
Proof. intros H. rewrite Zpower_Qpower by exact H. reflexivity. Qed.

Lemma pow2_div (a b : Z) : 2 ^ a / 2 ^ b == 2 ^ (a - b).
Proof. rewrite Qpower_minus by discriminate. reflexivity. Qed.

(** [ilog2] is the binary logarithm rounded down. *)
Lemma ilog2_spec (x : Q) : 0 < x -> 2 ^ ilog2 x <= x /\ x < 2 ^ (ilog2 x + 1).
Proof.
  intros Hx. unfold ilog2.
  destruct x as [n d]. cbn [Qnum Qden].
  assert (Hn : (0 < n)%Z).
  { unfold Qlt in Hx. cbn in Hx. lia. }
  set (a := Z.log2 n). set (b := Z.log2 (Z.pos d)).
  pose proof (Z.log2_spec n Hn) as [Ha1 Ha2]. fold a in Ha1, Ha2.
  pose proof (Z.log2_spec (Z.pos d) ltac:(lia)) as [Hb1 Hb2]. fold b in Hb1, Hb2.
  pose proof (Z.log2_nonneg n) as Ha0. fold a in Ha0.
  pose proof (Z.log2_nonneg (Z.pos d)) as Hb0. fold b in Hb0.
  assert (HA1 : 2 ^ a <= inject_Z n).
  { rewrite <- pow2_Z by exact Ha0. rewrite <- Zle_Qle. exact Ha1. }
  assert (HA2 : inject_Z n < 2 * 2 ^ a).
  { rewrite <- pow2_succ. rewrite <- pow2_Z by lia. rewrite <- Zlt_Qlt.
    exact Ha2. }
  assert (HB1 : 2 ^ b <= inject_Z (Z.pos d)).
  { rewrite <- pow2_Z by exact Hb0. rewrite <- Zle_Qle. exact Hb1. }
  assert (HB2 : inject_Z (Z.pos d) < 2 * 2 ^ b).
  { rewrite <- pow2_succ. rewrite <- pow2_Z by lia. rewrite <- Zlt_Qlt.
    exact Hb2. }
  pose proof (pow2_pos a) as HA0. pose proof (pow2_pos b) as HB0.
  assert (Hd : 0 < inject_Z (Z.pos d)) by reflexivity.
  assert (Hxd : (n # d) * inject_Z (Z.pos d) == inject_Z n).
  { rewrite (Qmake_Qdiv n d). field. discriminate. }
  assert (Hk : 2 ^ (a - b) * 2 ^ b == 2 ^ a).
  { rewrite <- pow2_plus. replace (a - b + b)%Z with a by lia. reflexivity. }
  pose proof (pow2_pos (a - b)) as HK0.
  set (x := n # d) in *. set (K := 2 ^ (a - b)) in *.
  set (A := 2 ^ a) in *. set (B := 2 ^ b) in *.
  set (n' := inject_Z n) in *. set (d' := inject_Z (Z.pos d)) in *.
  destruct (Qle_bool K x) eqn:E.
  - apply Qle_bool_iff in E. split; [exact E|].
    rewrite pow2_succ. fold K.
    (* x < 2K *) nra.
  - assert (Hlt : x < K).
    { apply Qnot_le_lt. intros H. apply Qle_bool_iff in H. congruence. }
    replace (a - b - 1 + 1)%Z with (a - b)%Z by lia. fold K.
    split; [|exact Hlt].
    assert (Hhalf : 2 ^ (a - b - 1) * 2 == K).
    { unfold K. replace (a - b)%Z with ((a - b - 1) + 1)%Z at 2 by lia.
      rewrite pow2_succ. ring. }
    pose proof (pow2_pos (a - b - 1)) as HH0.
    set (Hf := 2 ^ (a - b - 1)) in *.
    nra.
Qed.

Lemma ilog2_unique (x : Q) (k : Z) :
  2 ^ k <= x -> x < 2 ^ (k + 1) -> ilog2 x = k.
Proof.
  intros H1 H2.
  assert (Hx : 0 < x) by (pose proof (pow2_pos k); lra).
  destruct (ilog2_spec Hx) as [H3 H4].
  assert (Ha : (k < ilog2 x + 1)%Z) by (apply pow2_lt_inv; lra).
  assert (Hb : (ilog2 x < k + 1)%Z) by (apply pow2_lt_inv; lra).
  lia.
Qed.

Lemma ilog2_comp (x y : Q) : 0 < x -> x == y -> ilog2 x = ilog2 y.
Proof.
  intros Hx Hxy. assert (Hy : 0 < y) by lra.
  destruct (ilog2_spec Hy) as [H1 H2].
  apply ilog2_unique; lra.
Qed.

Lemma ilog2_mono (x y : Q) : 0 < x -> x <= y -> (ilog2 x <= ilog2 y)%Z.
Proof.
  intros Hx Hxy. assert (Hy : 0 < y) by lra.
  destruct (ilog2_spec Hx) as [H1 _]. destruct (ilog2_spec Hy) as [_ H2].
  assert (H : (ilog2 x < ilog2 y + 1)%Z) by (apply pow2_lt_inv; lra).
  lia.
Qed.

Lemma exponent_comp (x y : Q) : 0 < x -> x == y -> exponent x = exponent y.
Proof. intros Hx Hxy. unfold exponent. rewrite (ilog2_comp Hx Hxy). reflexivity. Qed.

(** *** Rounding to the nearest integer, ties to even *)

Lemma rne_bounds (x : Q) : (Qfloor x <= rne x <= Qfloor x + 1)%Z.
Proof.
  unfold rne. destruct (Qcompare (x - inject_Z (Qfloor x)) (1 # 2));
    [destruct (Z.even (Qfloor x))| |]; lia.
Qed.

Lemma rne_comp (x y : Q) : x == y -> rne x = rne y.
Proof.
  intros H. unfold rne. rewrite (Qfloor_comp _ _ H).
  assert (E : x - inject_Z (Qfloor y) == y - inject_Z (Qfloor y))
    by (rewrite H; reflexivity).
  rewrite (Qcompare_comp _ _ E _ _ (Qeq_refl (1 # 2))). reflexivity.
Qed.

Lemma rne_int (n : Z) : rne (inject_Z n) = n.
Proof.
  unfold rne. rewrite Qfloor_Z.
  assert (E : (inject_Z n - inject_Z n ?= 1 # 2) = Lt).
  { rewrite <- Qlt_alt. lra. }
  rewrite E. reflexivity.
Qed.

Lemma rne_mono (x y : Q) : x <= y -> (rne x <= rne y)%Z.
Proof.
  intros H. pose proof (Qfloor_resp_le _ _ H) as Hf.
  pose proof (rne_bounds x) as Hx. pose proof (rne_bounds y) as Hy.
  destruct (Z.eq_dec (Qfloor x) (Qfloor y)) as [E|N]; [|lia].
  unfold rne in *. rewrite E in *.
  destruct (Qcompare_spec (x - inject_Z (Qfloor y)) (1 # 2)) as [E1|L1|G1];
    destruct (Qcompare_spec (y - inject_Z (Qfloor y)) (1 # 2)) as [E2|L2|G2];
    try destruct (Z.even (Qfloor y)); try lia; lra.
Qed.

Lemma rne_ge (n : Z) (x : Q) : inject_Z n <= x -> (n <= rne x)%Z.
Proof. intros H. rewrite <- (rne_int n). apply rne_mono. exact H. Qed.

Lemma rne_le (n : Z) (x : Q) : x <= inject_Z n -> (rne x <= n)%Z.
Proof. intros H. rewrite <- (rne_int n). apply rne_mono. exact H. Qed.

(** *** round64 *)

Lemma round64_pos (x : Q) :
  0 < x -> round64 x = inject_Z (rne (x / 2 ^ exponent x)) * 2 ^ exponent x.
Proof.
  intros H. unfold round64.
  assert (E : (x ?= 0) = Gt) by (rewrite <- Qgt_alt; exact H).
  rewrite E. reflexivity.
Qed.

Lemma round64_zero (x : Q) : x == 0 -> round64 x = 0.
Proof.
  intros H. unfold round64.
  assert (E : (x ?= 0) = Eq) by (rewrite <- Qeq_alt; exact H).
  rewrite E. reflexivity.
Qed.

Lemma round64_comp (x y : Q) : x == y -> round64 x == round64 y.
Proof.
  intros H. unfold round64.
  rewrite (Qcompare_comp _ _ H _ _ (Qeq_refl 0)).
  destruct (Qcompare_spec y 0) as [E|L|G]; [reflexivity| |].
  - assert (Hp : 0 < - x) by lra.
    assert (Hn : - x == - y) by (rewrite H; reflexivity).
    rewrite (exponent_comp Hp Hn).
    assert (Hq : - x / 2 ^ exponent (- y) == - y / 2 ^ exponent (- y))
      by (rewrite H; reflexivity).
    rewrite (rne_comp Hq). reflexivity.
  - assert (Hp : 0 < x) by lra.
    rewrite (exponent_comp Hp H).
    assert (Hq : x / 2 ^ exponent y == y / 2 ^ exponent y)
      by (rewrite H; reflexivity).
    rewrite (rne_comp Hq). reflexivity.
Qed.

Lemma div_pow2_nonneg (x : Q) (e : Z) : 0 <= x -> 0 <= x / 2 ^ e.
Proof.
  intros H. unfold Qdiv. apply Qmult_le_0_compat; [exact H|].
  apply Qinv_le_0_compat. apply Qlt_le_weak. apply pow2_pos.
Qed.

Lemma round64_nonneg (x : Q) : 0 <= x -> 0 <= round64 x.
Proof.
  intros H. destruct (Qeq_dec x 0) as [E|N].
  - rewrite (round64_zero E). lra.
  - assert (Hp : 0 < x) by (destruct (Qlt_le_dec 0 x); [assumption|exfalso; apply N; lra]).
    rewrite (round64_pos Hp).
    apply Qmult_le_0_compat; [|apply Qlt_le_weak, pow2_pos].
    change 0 with (inject_Z 0). rewrite <- Zle_Qle.
    apply rne_ge. apply div_pow2_nonneg. lra.
Qed.

(** The scaled value of a positive number lies below 2^53. *)
Lemma scaled_bound (x : Q) :
  0 < x -> x / 2 ^ exponent x < inject_Z (2 ^ 53).
Proof.
  intros Hx. destruct (ilog2_spec Hx) as [_ Hhi].
  apply Qlt_shift_div_r; [apply pow2_pos|].
  rewrite pow2_Z by lia. rewrite <- pow2_plus.
  eapply Qlt_le_trans; [exact Hhi|]. apply pow2_le. unfold exponent. lia.
Qed.

Lemma round64_representable (x : Q) : 0 <= x -> representable (round64 x).
Proof.
  intros H. destruct (Qeq_dec x 0) as [E|N].
  - rewrite (round64_zero E). exists 0%Z, 0%Z. split; [lia|]. split; [lia|]. reflexivity.
  - assert (Hp : 0 < x) by (destruct (Qlt_le_dec 0 x); [assumption|exfalso; apply N; lra]).
    rewrite (round64_pos Hp).
    exists (rne (x / 2 ^ exponent x)), (exponent x).
    split; [|split; [unfold exponent; lia|reflexivity]].
    split.
    + apply rne_ge. apply div_pow2_nonneg. lra.
    + apply rne_le. apply Qlt_le_weak. apply scaled_bound. exact Hp.
Qed.

Lemma representable_comp (x y : Q) : x == y -> representable x -> representable y.
Proof.
  intros H [m [e [Hm [He Hx]]]]. exists m, e. split; [exact Hm|]. split; [exact He|].
  rewrite <- H. exact Hx.
Qed.

(** A representable number rounds to itself. *)
Lemma representable_fixed (x : Q) : representable x -> round64 x == x.
Proof.
  intros [m [e [[Hm0 Hm1] [He Hx]]]].
  destruct (Z.eq_dec m 0) as [->|Hm].
  { assert (E : x == 0) by (rewrite Hx; ring). rewrite (round64_zero E). lra. }
  assert (Hmpos : (0 < m)%Z) by lia.
  set (y := inject_Z m * 2 ^ e) in *.
  apply Qeq_trans with (round64 y); [apply round64_comp; exact Hx|].
  apply Qeq_trans with y; [|symmetry; exact Hx].
  assert (Hy : 0 < y).
  { unfold y. apply Qmult_lt_0_compat; [|apply pow2_pos].
    change 0 with (inject_Z 0). rewrite <- Zlt_Qlt. exact Hmpos. }
  pose proof (Z.log2_spec m Hmpos) as [Hl1 Hl2].
  pose proof (Z.log2_nonneg m) as Hl0.
  set (l := Z.log2 m) in *.
  assert (Hlog : ilog2 y = (l + e)%Z).
  { apply ilog2_unique; unfold y.
    - rewrite pow2_plus. apply Qmult_le_compat_r; [|apply Qlt_le_weak, pow2_pos].
      rewrite <- pow2_Z by exact Hl0. rewrite <- Zle_Qle. exact Hl1.
    - replace (l + e + 1)%Z with ((l + 1) + e)%Z by lia. rewrite pow2_plus.
      apply Qmult_lt_compat_r; [apply pow2_pos|].
      rewrite <- pow2_Z by lia. rewrite <- Zlt_Qlt. exact Hl2. }
  assert (Hl53 : (l <= 53)%Z).
  { destruct (Z_le_gt_dec l 53) as [H|H]; [exact H|exfalso].
    assert (H54 : (2 ^ 54 <= 2 ^ l)%Z) by (apply Z.pow_le_mono_r; lia).
    lia. }
  rewrite (round64_pos Hy). unfold exponent. rewrite Hlog.
  set (ey := Z.max (l + e - 52) (-1074)).
  destruct (Z_le_gt_dec ey e) as [Hle|Hgt].
  - assert (Hq : y / 2 ^ ey == inject_Z (m * 2 ^ (e - ey))).
    { unfold y. rewrite inject_Z_mult, pow2_Z by lia.
      rewrite <- pow2_div. field. pose proof (pow2_pos ey). lra. }
    rewrite (rne_comp Hq), rne_int.
    rewrite inject_Z_mult, pow2_Z by lia. rewrite <- pow2_div.
    unfold y. field. pose proof (pow2_pos ey). lra.
  - assert (Hey : ey = (e + 1)%Z) by (unfold ey in *; lia).
    assert (Hl : l = 53%Z) by (unfold ey in *; lia).
    assert (Hm53 : m = (2 ^ 53)%Z) by (rewrite Hl in Hl1; lia).
    rewrite Hey.
    assert (Hq : y / 2 ^ (e + 1) == inject_Z (2 ^ 52)).
    { unfold y. rewrite Hm53, pow2_succ. 
      change (inject_Z (2 ^ 53)) with (2 * inject_Z (2 ^ 52)) at 1.
      field. pose proof (pow2_pos e). lra. }
    rewrite (rne_comp Hq), rne_int. unfold y. rewrite Hm53, pow2_succ.
    change (inject_Z (2 ^ 53)) with (2 * inject_Z (2 ^ 52)).
    ring.
Qed.

Lemma round64_idem (x : Q) : 0 <= x -> round64 (round64 x) == round64 x.
Proof. intros H. apply representable_fixed. apply round64_representable. exact H. Qed.

Lemma representable_double (x : Q) : representable x -> representable (2 * x).
Proof.
  intros [m [e [Hm [He Hx]]]]. exists m, (e + 1)%Z.
  split; [exact Hm|]. split; [lia|]. rewrite Hx, pow2_succ. ring.
Qed.

Lemma representable_int (n : Z) : (0 <= n <= 2 ^ 53)%Z -> representable (inject_Z n).
Proof.
  intros H. exists n, 0%Z. split; [exact H|]. split; [lia|].
  change (2 ^ 0) with 1. ring.
Qed.

Lemma round64_opp (x : Q) : round64 (- x) == - round64 x.
Proof.
  unfold round64.
  destruct (Qcompare_spec x 0) as [E|L|G].
  - assert (E' : (- x ?= 0) = Eq) by (rewrite <- Qeq_alt; lra).
    rewrite E'. lra.
  - assert (E' : (- x ?= 0) = Gt) by (rewrite <- Qgt_alt; lra).
    rewrite E'. cbv zeta. ring.
  - assert (E' : (- x ?= 0) = Lt) by (rewrite <- Qlt_alt; lra).
    rewrite E'. cbv zeta.
    assert (Hp : 0 < - - x) by lra.
    assert (Hn : - - x == x) by ring.
    rewrite (exponent_comp Hp Hn).
    assert (Hq : - - x / 2 ^ exponent x == x / 2 ^ exponent x)
      by (rewrite Hn; reflexivity).
    rewrite (rne_comp Hq). reflexivity.
Qed.

(** A positive number at or above the smallest exponent rounds to at
    least the power of two below it. *)
Lemma round64_lower (y : Q) :
  0 < y -> (exponent y <= ilog2 y)%Z -> 2 ^ ilog2 y <= round64 y.
Proof.
  intros Hy Hle. destruct (ilog2_spec Hy) as [Hlo _].
  rewrite (round64_pos Hy).
  set (e := exponent y) in *.
  assert (Hs : inject_Z (2 ^ (ilog2 y - e)) <= y / 2 ^ e).
  { rewrite pow2_Z by lia. rewrite <- pow2_div.
    unfold Qdiv. apply Qmult_le_compat_r; [exact Hlo|].
    apply Qinv_le_0_compat, Qlt_le_weak, pow2_pos. }
  apply rne_ge in Hs.
  rewrite Zle_Qle in Hs. rewrite pow2_Z in Hs by lia.
  assert (E : 2 ^ ilog2 y == 2 ^ (ilog2 y - e) * 2 ^ e).
  { rewrite <- pow2_plus. replace (ilog2 y - e + e)%Z with (ilog2 y) by lia.
    reflexivity. }
  rewrite E. apply Qmult_le_compat_r; [exact Hs|apply Qlt_le_weak, pow2_pos].
Qed.

(** A positive number rounds to at most the next power of two, or to the
    smallest step. *)
Lemma round64_upper (x : Q) :
  0 < x -> round64 x <= 2 ^ Z.max (ilog2 x + 1) (exponent x).
Proof.
  intros Hx. destruct (ilog2_spec Hx) as [_ Hhi].
  rewrite (round64_pos Hx).
  set (e := exponent x) in *. set (k := Z.max (ilog2 x + 1) e).
  assert (Hs : x / 2 ^ e <= inject_Z (2 ^ (k - e))).
  { rewrite pow2_Z by lia. rewrite <- pow2_div.
    unfold Qdiv. apply Qmult_le_compat_r;
      [|apply Qinv_le_0_compat, Qlt_le_weak, pow2_pos].
    apply Qle_trans with (2 ^ (ilog2 x + 1)); [lra|]. apply pow2_le. lia. }
  apply rne_le in Hs.
  rewrite Zle_Qle in Hs. rewrite pow2_Z in Hs by lia.
  assert (E : 2 ^ k == 2 ^ (k - e) * 2 ^ e).
  { rewrite <- pow2_plus. replace (k - e + e)%Z with k by lia. reflexivity. }
  rewrite E. apply Qmult_le_compat_r; [exact Hs|apply Qlt_le_weak, pow2_pos].
Qed.

(** Rounding is monotone. *)
Lemma round64_mono_pos (x y : Q) : 0 < x -> x <= y -> round64 x <= round64 y.
Proof.
  intros Hx Hxy. assert (Hy : 0 < y) by lra.
  pose proof (ilog2_mono Hx Hxy) as Hlog.
  destruct (Z.eq_dec (exponent x) (exponent y)) as [E|N].
  - rewrite (round64_pos Hx), (round64_pos Hy), E.
    apply Qmult_le_compat_r; [|apply Qlt_le_weak, pow2_pos].
    rewrite <- Zle_Qle. apply rne_mono.
    unfold Qdiv. apply Qmult_le_compat_r; [exact Hxy|].
    apply Qinv_le_0_compat, Qlt_le_weak, pow2_pos.
  - assert (Hlt : (exponent x < exponent y)%Z) by (unfold exponent in *; lia).
    apply Qle_trans with (2 ^ Z.max (ilog2 x + 1) (exponent x));
      [apply round64_upper; exact Hx|].
    apply Qle_trans with (2 ^ ilog2 y);
      [|apply round64_lower; [exact Hy|unfold exponent in *; lia]].
    apply pow2_le. unfold exponent in *. lia.
Qed.

Lemma round64_mono (x y : Q) : 0 <= x -> x <= y -> round64 x <= round64 y.
Proof.
  intros Hx Hxy. destruct (Qeq_dec x 0) as [E|N].
  - rewrite (round64_zero E). apply round64_nonneg. lra.
  - apply round64_mono_pos; [|exact Hxy].
    destruct (Qlt_le_dec 0 x); [assumption|exfalso; apply N; lra].
Qed.

(** Rounding does not cross a representable number. *)
Lemma round64_le_fixed (x c : Q) :
  0 <= x -> x <= c -> representable c -> round64 x <= c.
Proof.
  intros Hx Hxc Hc. rewrite <- (representable_fixed Hc).
  apply round64_mono; assumption.
Qed.

Lemma round64_ge_fixed (x c : Q) :
  0 <= c -> c <= x -> representable c -> c <= round64 x.
Proof.
  intros Hc Hcx Hr. rewrite <- (representable_fixed Hr).
  apply round64_mono; assumption.
Qed.

Lemma representable_half : representable (1 # 2).
Proof. exists 1%Z, (-1)%Z. split; [lia|]. split; [lia|]. reflexivity. Qed.

End Binary64Facts.

(** ** Rounding and comparison *)

Module JsFacts.

Import Js.
Open Scope Q_scope.

Lemma Qltb_lt (x y : Q) : Qltb x y = true <-> x < y.
Proof.
  unfold Qltb. rewrite negb_true_iff. split.
  - intros H. apply Qnot_le_lt. intros Hle.
    apply Qle_bool_iff in Hle. congruence.
  - intros H. destruct (Qle_bool y x) eqn:E; [|reflexivity].
    apply Qle_bool_iff in E. exfalso. apply (Qlt_not_le _ _ H E).
Qed.

Lemma Qltb_ge (x y : Q) : Qltb x y = false <-> y <= x.
Proof.
  split.
  - intros H. apply Qnot_lt_le. intros Hlt. apply Qltb_lt in Hlt. congruence.
  - intros H. destruct (Qltb x y) eqn:E; [|reflexivity].
    apply Qltb_lt in E. exfalso. apply (Qlt_not_le _ _ E H).
Qed.

(** An integer is below [x] exactly when it is below the floor of [x]. *)
Lemma floor_ge (n : Z) (x : Q) : inject_Z n <= x <-> (n <= Qfloor x)%Z.
Proof.
  split.
  - intros H. rewrite <- (Qfloor_Z n). apply Qfloor_resp_le. exact H.
  - intros H. apply Qle_trans with (inject_Z (Qfloor x)).
    + rewrite <- Zle_Qle. exact H.
    + apply Qfloor_le.
Qed.

Lemma floor_le (n : Z) (x : Q) : x < inject_Z n + 1 -> (Qfloor x <= n)%Z.
Proof.
  intros H.
  assert (Hlt : inject_Z (Qfloor x) < inject_Z (n + 1)).
  { apply Qle_lt_trans with x; [apply Qfloor_le|].
    rewrite inject_Z_plus. exact H. }
  rewrite <- Zlt_Qlt in Hlt. lia.
Qed.

Lemma roundHalfUp4_comp (x y : Q) : x == y -> roundHalfUp4 x == roundHalfUp4 y.
Proof.
  intros H. unfold roundHalfUp4.
  assert (E : Qfloor (x * 10000 + (1 # 2)) = Qfloor (y * 10000 + (1 # 2))).
  { apply Qfloor_comp. rewrite H. reflexivity. }
  rewrite E. reflexivity.
Qed.

Lemma roundHalfUp4_nonneg (x : Q) : 0 <= x -> 0 <= roundHalfUp4 x.
Proof.
  intros H. unfold roundHalfUp4.
  assert (Hf : (0 <= Qfloor (x * 10000 + (1 # 2)))%Z).
  { apply floor_ge. change (inject_Z 0) with 0. nra. }
  apply Qle_shift_div_l; [reflexivity|].
  rewrite Qmult_0_l. change 0 with (inject_Z 0). rewrite <- Zle_Qle. exact Hf.
Qed.

Lemma roundHalfUp4_le_1 (x : Q) : x <= 1 -> roundHalfUp4 x <= 1.
Proof.
  intros H. unfold roundHalfUp4.
  assert (Hf : (Qfloor (x * 10000 + (1 # 2)) <= 10000)%Z).
  { apply floor_le. change (inject_Z 10000) with 10000. nra. }
  apply Qle_shift_div_r; [reflexivity|].
  rewrite Qmult_1_l. change 10000 with (inject_Z 10000) at 2.
  rewrite <- Zle_Qle. exact Hf.
Qed.

(** The rounded value is positive exactly from half a unit of the fourth
    decimal on. *)
Lemma roundHalfUp4_pos (x : Q) : 0 < roundHalfUp4 x <-> (1 # 20000) <= x.
Proof.
  unfold roundHalfUp4. split.
  - intros H.
    assert (Hf : (1 <= Qfloor (x * 10000 + (1 # 2)))%Z).
    { destruct (Z_lt_le_dec (Qfloor (x * 10000 + (1 # 2))) 1) as [Hlt|]; [|assumption].
      exfalso. apply (Qlt_not_le _ _ H).
      apply Qle_shift_div_r; [reflexivity|]. rewrite Qmult_0_l.
      change 0 with (inject_Z 0). rewrite <- Zle_Qle. lia. }
    apply floor_ge in Hf. change (inject_Z 1) with 1 in Hf. nra.
  - intros H.
    assert (Hf : (1 <= Qfloor (x * 10000 + (1 # 2)))%Z).
    { apply floor_ge. change (inject_Z 1) with 1. nra. }
    apply Qlt_shift_div_l; [reflexivity|]. rewrite Qmult_0_l.
    change 0 with (inject_Z 0). rewrite <- Zlt_Qlt. lia.
Qed.

End JsFacts.

(** ** computeConfidenceScore *)

Module ClaimResolutionFacts.

Import Js JsFacts ClaimResolution.
Open Scope Q_scope.

Section Votes.

Variable votes : VoteWeightSummary.
Hypothesis trueWeight_nonneg : 0 <= trueWeight votes.
Hypothesis falseWeight_nonneg : 0 <= falseWeight votes.

Lemma margin_bounds :
  100 <= trueWeight votes + falseWeight votes ->
  0 <= margin votes /\ margin votes <= 1.
Proof.
  intros Htotal. unfold margin, Math_abs.
  assert (Hpos : 0 < trueWeight votes + falseWeight votes) by lra.
  split.
  - apply Qle_shift_div_l; [exact Hpos|]. rewrite Qmult_0_l. apply Qabs_nonneg.
  - apply Qle_shift_div_r; [exact Hpos|]. rewrite Qmult_1_l.
    apply Qabs_Qle_condition. lra.
Qed.

Lemma participation_full :
  100 <= trueWeight votes + falseWeight votes -> participation votes == 1.
Proof.
  intros Htotal. unfold participation, Math_min, MIN_REQUIRED_WEIGHT.
  destruct (Qle_bool ((trueWeight votes + falseWeight votes) / 100) 1) eqn:E;
    [|reflexivity].
  apply Qle_bool_iff in E.
  apply Qle_antisym; [exact E|].
  apply Qle_shift_div_l; [reflexivity|]. lra.
Qed.

End Votes.

(** The value the last branch returns, in terms of the margin. *)
Lemma score_of_margin (votes : VoteWeightSummary) :
  0 <= trueWeight votes -> 0 <= falseWeight votes ->
  100 <= trueWeight votes + falseWeight votes ->
  ~ trueWeight votes == falseWeight votes ->
  exists r, computeConfidenceScore votes = Some r
            /\ r == roundHalfUp4 (margin votes).
Proof.
  intros Ht Hf Htotal Hne.
  unfold computeConfidenceScore, MIN_REQUIRED_WEIGHT.
  destruct (Qltb (trueWeight votes + falseWeight votes) 100) eqn:E1.
  { apply Qltb_lt in E1. lra. }
  destruct (Qeq_bool (trueWeight votes) (falseWeight votes)) eqn:E2.
  { apply Qeq_bool_iff in E2. contradiction. }
  eexists. split; [reflexivity|].
  fold (margin votes).
  change (Math_min ((trueWeight votes + falseWeight votes) / 100) 1)
    with (participation votes).
  destruct (@margin_bounds votes Ht Hf Htotal) as [Hm0 Hm1].
  pose proof (@participation_full votes Htotal) as Hp.
  assert (Hprod : margin votes * participation votes == margin votes).
  { rewrite Hp. ring. }
  unfold toFixed4.
  destruct (Qltb (margin votes * participation votes) 0) eqn:E3.
  { apply Qltb_lt in E3. rewrite Hprod in E3. lra. }
  apply roundHalfUp4_comp. exact Hprod.
Qed.

End ClaimResolutionFacts.

(** ** computeConfidenceScore in double precision *)

Module ClaimResolution64Facts.

Import Js JsFacts Binary64 Binary64Facts ClaimResolution.
Import ClaimResolution64 (edgeVote).
Open Scope Q_scope.

Lemma round64_abs (x : Q) : Qabs (round64 x) == round64 (Qabs x).
Proof.
  destruct (Qlt_le_dec x 0) as [Hneg|Hpos].
  - assert (Hx : x == - - x) by ring.
    assert (Hr : round64 x == - round64 (- x)).
    { rewrite (round64_comp Hx). apply round64_opp. }
    assert (Hn : 0 <= round64 (- x)) by (apply round64_nonneg; lra).
    assert (Ha : Qabs x == - x) by (apply Qabs_neg; lra).
    rewrite (round64_comp Ha).
    rewrite (Qabs_neg (round64 x)) by lra. rewrite Hr. ring.
  - assert (Hn : 0 <= round64 x) by (apply round64_nonneg; exact Hpos).
    assert (Ha : Qabs x == x) by (apply Qabs_pos; exact Hpos).
    rewrite (round64_comp Ha). apply Qabs_pos. exact Hn.
Qed.

Lemma representable_hundred : representable 100.
Proof. apply (@representable_int 100). lia. Qed.

Lemma representable_one : representable 1.
Proof. apply (@representable_int 1). lia. Qed.

(** A total of at least 100 is kept by the rounding. *)
Lemma total_reached (votes : VoteWeightSummary) :
  100 <= trueWeight votes + falseWeight votes ->
  100 <= ClaimResolution64.total votes.
Proof.
  intros H. apply round64_ge_fixed; [lra | exact H | apply representable_hundred].
Qed.

Lemma margin64_bounds (votes : VoteWeightSummary) :
  0 <= trueWeight votes -> 0 <= falseWeight votes ->
  100 <= ClaimResolution64.total votes ->
  0 <= ClaimResolution64.margin votes /\ ClaimResolution64.margin votes <= 1.
Proof.
  intros Ht Hf Htotal. unfold ClaimResolution64.margin, Math_abs.
  set (t := ClaimResolution64.total votes) in *.
  assert (Hpos : 0 < t) by lra.
  assert (Hd : Qabs (round64 (trueWeight votes - falseWeight votes)) <= t).
  { rewrite round64_abs. unfold t, ClaimResolution64.total.
    apply round64_mono; [apply Qabs_nonneg|].
    apply Qabs_Qle_condition. lra. }
  assert (Hq0 : 0 <= Qabs (round64 (trueWeight votes - falseWeight votes)) / t).
  { apply Qle_shift_div_l; [exact Hpos|]. rewrite Qmult_0_l. apply Qabs_nonneg. }
  assert (Hq1 : Qabs (round64 (trueWeight votes - falseWeight votes)) / t <= 1).
  { apply Qle_shift_div_r; [exact Hpos|]. rewrite Qmult_1_l. exact Hd. }
  split.
  - apply round64_nonneg. exact Hq0.
  - apply round64_le_fixed; [exact Hq0 | exact Hq1 | apply representable_one].
Qed.

Lemma participation64_full (votes : VoteWeightSummary) :
  100 <= ClaimResolution64.total votes -> ClaimResolution64.participation votes == 1.
Proof.
  intros Htotal. unfold ClaimResolution64.participation, Math_min, MIN_REQUIRED_WEIGHT.
  set (t := ClaimResolution64.total votes) in *.
  assert (Hq : 1 <= t / 100).
  { apply Qle_shift_div_l; [reflexivity|]. lra. }
  assert (Hr : 1 <= round64 (t / 100)).
  { apply round64_ge_fixed; [lra | exact Hq | apply representable_one]. }
  destruct (Qle_bool (round64 (t / 100)) 1) eqn:E; [|reflexivity].
  apply Qle_bool_iff in E. apply Qle_antisym; assumption.
Qed.

(** The value the last branch returns, in terms of the margin. *)
Lemma score64_of_margin (votes : VoteWeightSummary) :
  0 <= trueWeight votes -> 0 <= falseWeight votes ->
  100 <= ClaimResolution64.total votes ->
  ~ trueWeight votes == falseWeight votes ->
  exists r, ClaimResolution64.computeConfidenceScore votes = Some r
            /\ r == round64 (roundHalfUp4 (ClaimResolution64.margin votes)).
Proof.
  intros Ht Hf Htotal Hne.
  unfold ClaimResolution64.computeConfidenceScore, MIN_REQUIRED_WEIGHT.
  fold (ClaimResolution64.total votes).
  destruct (Qltb (ClaimResolution64.total votes) 100) eqn:E1.
  { apply Qltb_lt in E1. lra. }
  destruct (Qeq_bool (trueWeight votes) (falseWeight votes)) eqn:E2.
  { apply Qeq_bool_iff in E2. contradiction. }
  eexists. split; [reflexivity|].
  fold (ClaimResolution64.margin votes).
  change (Math_min (round64 (ClaimResolution64.total votes / 100)) 1)
    with (ClaimResolution64.participation votes).
  destruct (@margin64_bounds votes Ht Hf Htotal) as [Hm0 Hm1].
  pose proof (@participation64_full votes Htotal) as Hp.
  assert (Hprod : ClaimResolution64.margin votes * ClaimResolution64.participation votes
                  == ClaimResolution64.margin votes).
  { rewrite Hp. ring. }
  assert (Hidem : round64 (ClaimResolution64.margin votes * ClaimResolution64.participation votes)
                  == ClaimResolution64.margin votes).
  { rewrite (round64_comp Hprod). unfold ClaimResolution64.margin.
    apply round64_idem.
    apply Qle_shift_div_l; [lra|]. rewrite Qmult_0_l. apply Qabs_nonneg. }
  unfold Binary64.toFixed4, Js.toFixed4.
  destruct (Qltb (round64 (ClaimResolution64.margin votes
                           * ClaimResolution64.participation votes)) 0) eqn:E3.
  { apply Qltb_lt in E3. rewrite Hidem in E3. lra. }
  apply round64_comp. apply roundHalfUp4_comp. exact Hidem.
Qed.

Lemma roundHalfUp4_step (x : Q) :
  0 < roundHalfUp4 x -> (1 # 10000) <= roundHalfUp4 x.
Proof.
  unfold roundHalfUp4. intros H.
  assert (Hf : (1 <= Qfloor (x * 10000 + (1 # 2)))%Z).
  { destruct (Z_lt_le_dec (Qfloor (x * 10000 + (1 # 2))) 1) as [Hlt|]; [|assumption].
    exfalso. apply (Qlt_not_le _ _ H).
    apply Qle_shift_div_r; [reflexivity|]. rewrite Qmult_0_l.
    change 0 with (inject_Z 0). rewrite <- Zle_Qle. lia. }
  apply Qle_shift_div_l; [reflexivity|].
  assert (E : (1 # 10000) * 10000 == inject_Z 1) by reflexivity.
  rewrite E, <- Zle_Qle. exact Hf.
Qed.

(** Reading a four-decimal text back keeps it within 0 and 1, and
    positive when it is not 0.0000. *)
Lemma read_back (z : Q) :
  0 <= z -> z <= 1 -> (0 < z -> (1 # 10000) <= z) ->
  0 <= round64 z /\ round64 z <= 1 /\ (0 < round64 z <-> 0 < z).
Proof.
  intros H0 H1 Hstep.
  split; [apply round64_nonneg; exact H0|].
  split; [apply round64_le_fixed; [exact H0 | exact H1 | apply representable_one]|].
  split.
  - intros Hr. destruct (Qeq_dec z 0) as [E|N].
    + rewrite (round64_zero E) in Hr. lra.
    + destruct (Qlt_le_dec 0 z); [assumption|exfalso; apply N; lra].
  - intros Hz. specialize (Hstep Hz).
    assert (Hsmall : representable (1 # 16384)).
    { exists 1%Z, (-14)%Z. split; [lia|]. split; [lia|]. reflexivity. }
    assert (Hle : (1 # 16384) <= round64 z).
    { apply round64_ge_fixed; [lra | lra | exact Hsmall]. }
    lra.
Qed.

(** C8, as the code computes it.  With non-negative weights whose sum
    stays finite, [computeConfidenceScore] returns null exactly when the double
    trueWeight + falseWeight is below 100, which a sum of at least 100
    never is; returns 0 on a tie with a total of at least 100; and
    otherwise returns the margin |trueWeight - falseWeight| / total, each
    operation in double precision, rounded to four decimals and read back
    as a double, the participation factor being 1 on this branch.  The
    value lies between 0 and 1 inclusive: it is strictly positive exactly
    when the margin is at least 0.00005, and 0 when the margin rounds down
    to 0.0000. *)
Theorem C8_confidence_score_double (votes : VoteWeightSummary) :
  0 <= trueWeight votes -> 0 <= falseWeight votes ->
  finite (ClaimResolution64.total votes) ->
  (ClaimResolution64.computeConfidenceScore votes = None
   <-> ClaimResolution64.total votes < 100)
  /\ (ClaimResolution64.computeConfidenceScore votes = None ->
      trueWeight votes + falseWeight votes < 100)
  /\ (100 <= ClaimResolution64.total votes ->
      trueWeight votes == falseWeight votes ->
      ClaimResolution64.computeConfidenceScore votes = Some 0)
  /\ (100 <= ClaimResolution64.total votes ->
      ~ trueWeight votes == falseWeight votes ->
      ClaimResolution64.participation votes == 1
      /\ exists r, ClaimResolution64.computeConfidenceScore votes = Some r
                   /\ r == round64 (roundHalfUp4 (ClaimResolution64.margin votes))
                   /\ 0 <= r /\ r <= 1
                   /\ (0 < r <-> (1 # 20000) <= ClaimResolution64.margin votes)).
Proof.
  intros Ht Hf _.
  assert (Hnone : ClaimResolution64.computeConfidenceScore votes = None
                  <-> ClaimResolution64.total votes < 100).
  { unfold ClaimResolution64.computeConfidenceScore, MIN_REQUIRED_WEIGHT.
    fold (ClaimResolution64.total votes).
    destruct (Qltb (ClaimResolution64.total votes) 100) eqn:E1.
    + apply Qltb_lt in E1. tauto.
    + apply Qltb_ge in E1.
      destruct (Qeq_bool (trueWeight votes) (falseWeight votes));
        (split; [discriminate | intros H; lra]). }
  split; [exact Hnone|]. split; [|split].
  - intros H. apply Hnone in H.
    destruct (Qlt_le_dec (trueWeight votes + falseWeight votes) 100) as [Hlt|Hge];
      [exact Hlt|].
    pose proof (@total_reached votes Hge). lra.
  - intros Htotal Heq.
    unfold ClaimResolution64.computeConfidenceScore, MIN_REQUIRED_WEIGHT.
    fold (ClaimResolution64.total votes).
    destruct (Qltb (ClaimResolution64.total votes) 100) eqn:E1.
    { apply Qltb_lt in E1. lra. }
    apply Qeq_bool_iff in Heq. rewrite Heq. reflexivity.
  - intros Htotal Hne. split.
    + apply participation64_full; exact Htotal.
    + destruct (@score64_of_margin votes Ht Hf Htotal Hne) as [r [Hr Hval]].
      destruct (@margin64_bounds votes Ht Hf Htotal) as [Hm0 Hm1].
      exists r. split; [exact Hr|]. split; [exact Hval|].
      destruct (@read_back (roundHalfUp4 (ClaimResolution64.margin votes)))
        as [Hr0 [Hr1 Hr2]].
      * apply roundHalfUp4_nonneg; exact Hm0.
      * apply roundHalfUp4_le_1; exact Hm1.
      * apply roundHalfUp4_step.
      * rewrite Hval. split; [exact Hr0|]. split; [exact Hr1|].
        rewrite Hr2. apply roundHalfUp4_pos.
Qed.

Lemma C8_confidence_score_double_witness :
  0 <= trueWeight closeVote /\ 0 <= falseWeight closeVote
  /\ finite (ClaimResolution64.total closeVote)
  /\ (ClaimResolution64.computeConfidenceScore closeVote = None
      <-> ClaimResolution64.total closeVote < 100).
Proof.
  assert (Ht : 0 <= trueWeight closeVote) by (vm_compute; discriminate).
  assert (Hf : 0 <= falseWeight closeVote) by (vm_compute; discriminate).
  assert (Hfin : finite (ClaimResolution64.total closeVote))
    by (vm_compute; reflexivity).
  split; [exact Ht|]. split; [exact Hf|]. split; [exact Hfin|].
  exact (proj1 (C8_confidence_score_double closeVote Ht Hf Hfin)).
Defined.

(** C8 as stated fails: with trueWeight = 100001 and falseWeight = 100000
    the total is at least 100 and the weights differ, yet the score is
    0.0000, not a value strictly greater than 0.  And the null branch
    follows the double sum: two weights whose exact sum lies below 100 and
    rounds to 100 get a score. *)
Lemma C8_counterexample_zero_score :
  100 <= trueWeight closeVote + falseWeight closeVote
  /\ ~ trueWeight closeVote == falseWeight closeVote
  /\ (exists r, ClaimResolution64.computeConfidenceScore closeVote = Some r
                /\ r == 0 /\ ~ 0 < r)
  /\ round64 (trueWeight edgeVote) == trueWeight edgeVote
  /\ round64 (falseWeight edgeVote) == falseWeight edgeVote
  /\ trueWeight edgeVote + falseWeight edgeVote < 100
  /\ ClaimResolution64.computeConfidenceScore edgeVote <> None.
Proof.
  split; [vm_compute; discriminate|].
  split; [vm_compute; discriminate|].
  split.
  { eexists. split; [vm_compute; reflexivity|].
    split; [vm_compute; reflexivity|].
    vm_compute. discriminate. }
  split; [vm_compute; reflexivity|].
  split; [vm_compute; reflexivity|].
  split; [vm_compute; reflexivity|].
  vm_compute. discriminate.
Qed.

End ClaimResolution64Facts.

(** ** AggregationService.aggregate *)

Module AggregationFacts.

Import Js JsFacts Aggregation.
Open Scope Q_scope.

Lemma computeWeight_nonneg (v : Verification) :
  nonNegative v -> 0 <= computeWeight v.
Proof. intros [Hs Hr]. unfold computeWeight. nra. Qed.

Lemma weightFor_nonneg (d : VerificationVerdict) (vs : list Verification) :
  Forall nonNegative vs -> 0 <= weightFor d vs.
Proof.
  induction 1 as [|v vs Hv _ IH]; simpl; [lra|].
  pose proof (computeWeight_nonneg Hv).
  destruct (verdict_eqb (verdict v) d); lra.
Qed.


Lemma Math_round_comp (x y : Q) : x == y -> Math_round x == Math_round y.
Proof.
  intros H. unfold Math_round.
  assert (E : Qfloor (x + (1 # 2)) = Qfloor (y + (1 # 2))).
  { apply Qfloor_comp. rewrite H. reflexivity. }
  rewrite E. reflexivity.
Qed.

Lemma Math_round_ge (n : Z) (x : Q) : inject_Z n <= x -> inject_Z n <= Math_round x.
Proof.
  intros H. unfold Math_round. rewrite <- Zle_Qle. apply floor_ge. lra.
Qed.


Lemma Math_max_left (a b : Q) : b < a -> Math_max a b == a.
Proof.
  intros H. unfold Math_max. destruct (Qle_bool a b) eqn:E; [|reflexivity].
  apply Qle_bool_iff in E. lra.
Qed.

Lemma Math_max_right (a b : Q) : a < b -> Math_max a b == b.
Proof.
  intros H. unfold Math_max. destruct (Qle_bool a b) eqn:E; [reflexivity|].
  destruct (Qle_bool a b) eqn:E'; [discriminate|].
  assert (Hle : a <= b) by lra. apply Qle_bool_iff in Hle. congruence.
Qed.



End AggregationFacts.

(** ** calculateSybilWeightedVote *)

Module SybilVotingFacts.

Import Js SybilVoting.
Open Scope Q_scope.

(** C10: for a user whose latest composite score s lies in [0, 1] and a
    base weight w >= 0, [calculateSybilWeightedVote] returns multiplier =
    0.5 + 0.5 s and finalWeight = w * multiplier; finalWeight lies between
    w/2 and w, is 0 when w = 0, does not decrease when the score grows,
    and depends on (s, w) only. *)
Theorem C10_sybil_weighted_vote (service : SybilResistanceService)
    (user : string) (w : Q) (score : SybilScore) :
  getLatestSybilScore service user = Some score ->
  0 <= compositeScore score -> compositeScore score <= 1 ->
  0 <= w ->
  exists r,
    calculateSybilWeightedVote service user w = Some r
    /\ multiplier r = (1 # 2) + (1 # 2) * compositeScore score
    /\ finalWeight r = w * multiplier r
    /\ w / 2 <= finalWeight r /\ finalWeight r <= w
    /\ (w == 0 -> finalWeight r == 0)
    /\ (forall service' user' score',
          getLatestSybilScore service' user' = Some score' ->
          compositeScore score <= compositeScore score' ->
          exists r', calculateSybilWeightedVote service' user' w = Some r'
                     /\ finalWeight r <= finalWeight r')
    /\ (forall service' user' score' w',
          getLatestSybilScore service' user' = Some score' ->
          compositeScore score' == compositeScore score -> w' == w ->
          exists r', calculateSybilWeightedVote service' user' w' = Some r'
                     /\ multiplier r' == multiplier r
                     /\ finalWeight r' == finalWeight r).
Proof.
  intros Hlookup Hs0 Hs1 Hw.
  unfold calculateSybilWeightedVote. rewrite Hlookup.
  eexists. split; [reflexivity|]. cbn [multiplier finalWeight].
  split; [reflexivity|]. split; [reflexivity|].
  split; [|split; [|split; [|split]]].
  - apply Qle_shift_div_r; [reflexivity|]. nra.
  - nra.
  - intros H0. rewrite H0. ring.
  - intros service' user' score' Hlookup' Hle. rewrite Hlookup'.
    eexists. split; [reflexivity|]. cbn [finalWeight]. nra.
  - intros service' user' score' w' Hlookup' Hscore Hw'. rewrite Hlookup'.
    eexists. split; [reflexivity|]. cbn [multiplier finalWeight].
    rewrite Hscore, Hw'. split; reflexivity.
Qed.

Lemma C10_sybil_weighted_vote_witness :
  getLatestSybilScore (uniformService (4 # 5)) "user-1"
  = Some (mkSybilScore "score-1" "user-1" (4 # 5) 1 (4 # 5) (4 # 5) (4 # 5))
  /\ exists r,
       calculateSybilWeightedVote (uniformService (4 # 5)) "user-1" 100 = Some r
       /\ multiplier r = (1 # 2) + (1 # 2) * (4 # 5)
       /\ finalWeight r == 90.
Proof.
  split; [reflexivity|].
  destruct (@C10_sybil_weighted_vote (uniformService (4 # 5)) "user-1" 100
              (mkSybilScore "score-1" "user-1" (4 # 5) 1 (4 # 5) (4 # 5) (4 # 5)))
    as [r [Hr [Hm [Hf _]]]].
  - reflexivity.
  - vm_compute; discriminate.
  - vm_compute; discriminate.
  - vm_compute; discriminate.
  - exists r. split; [exact Hr|]. split; [exact Hm|].
    rewrite Hf, Hm. vm_compute. reflexivity.
Defined.

End SybilVotingFacts.

(** ** RewardSyncService.processRewardClaim *)

Module RewardsFacts.

Import Effects JsString Rewards.
Open Scope Z_scope.
Open Scope string_scope.

Lemma sameKey_true (txHash : string) (logIndex : Z) (h : string) (i : Z) :
  sameKey txHash logIndex h i = true <-> h = txHash /\ i = logIndex.
Proof.
  unfold sameKey. rewrite andb_true_iff, String.eqb_eq, Z.eqb_eq. tauto.
Qed.

Section Finding.

Variables (txHash : string) (logIndex : Z).

Let hasKey (r : RewardClaim.t) : bool :=
  sameKey txHash logIndex (RewardClaim.txHash r) (RewardClaim.logIndex r).


Lemma find_none_existsb (rs : list RewardClaim.t) :
  find hasKey rs = None -> existsb hasKey rs = false.
Proof.
  induction rs as [|r rs IH]; simpl; [reflexivity|].
  destruct (hasKey r); [discriminate|exact IH].
Qed.



End Finding.

(** The branch taken when the row is already stored: the row is returned,
    a warning is logged, no table is written. *)
Lemma processRewardClaim_duplicate (dto : RewardClaimEventDto.t) (w : World)
    (existing : RewardClaim.t) :
  find (fun r => sameKey (RewardClaimEventDto.txHash dto)
                   (RewardClaimEventDto.logIndex dto)
                   (RewardClaim.txHash r) (RewardClaim.logIndex r))
    (rows (reward_claims w)) = Some existing ->
  RewardSyncService.processRewardClaim dto w
  = (Resolved existing,
     mkWorld (reward_claims w) (reward_distributions w)
       (console w ++ [duplicateWarning dto])%list
       (journal w ++ [invocationOfClaim dto])%list (now w)).
Proof.
  intros H.
  unfold RewardSyncService.processRewardClaim, bind, enter,
    RewardClaimRepository.findByTxHashAndLogIndex, logger, ret.
  cbn [reward_claims reward_distributions console journal now].
  rewrite H. reflexivity.
Qed.

Lemma claimColumnError_row (dto : RewardClaimEventDto.t) (id : nat)
    (createdAt : Z) :
  claimColumnError (claimOf dto id createdAt) = claimColumnError (claimOf dto 0 0).
Proof. reflexivity. Qed.

Lemma storableClaim_fits (dto : RewardClaimEventDto.t) (id : nat) (createdAt : Z) :
  storableClaim dto = true -> claimColumnError (claimOf dto id createdAt) = None.
Proof.
  unfold storableClaim. rewrite (claimColumnError_row dto id createdAt).
  destruct (claimColumnError (claimOf dto 0 0)); [discriminate|reflexivity].
Qed.

(** The branch taken when no row has the key and the row fits the
    columns: the insert passes the unique constraint and appends the new
    row. *)
Lemma processRewardClaim_insert (dto : RewardClaimEventDto.t) (w : World) :
  storableClaim dto = true ->
  find (fun r => sameKey (RewardClaimEventDto.txHash dto)
                   (RewardClaimEventDto.logIndex dto)
                   (RewardClaim.txHash r) (RewardClaim.logIndex r))
    (rows (reward_claims w)) = None ->
  let claim := claimOf dto (nextId (reward_claims w)) (now w) in
  exists line,
    RewardSyncService.processRewardClaim dto w
    = (Resolved claim,
       mkWorld (mkTable (rows (reward_claims w) ++ [claim])
                  (S (nextId (reward_claims w))))
         (reward_distributions w)
         (console w ++ [LogInfo line])%list
         (journal w ++ [invocationOfClaim dto])%list (now w)).
Proof.
  intros Hfits H claim. eexists.
  pose proof (storableClaim_fits dto (nextId (reward_claims w)) (now w) Hfits)
    as Hcol.
  unfold RewardSyncService.processRewardClaim, bind, enter,
    RewardClaimRepository.findByTxHashAndLogIndex, tryCatch,
    RewardClaimRepository.create, logger, ret.
  cbn [reward_claims reward_distributions console journal now].
  rewrite H.
  cbn [reward_claims reward_distributions console journal now].
  fold (claimOf dto (nextId (reward_claims w)) (now w)).
  rewrite Hcol.
  cbn [claimOf RewardClaim.txHash RewardClaim.logIndex].
  rewrite (find_none_existsb _ _ _ H).
  reflexivity.
Qed.

(** The branch taken when no row has the key and a value does not fit its
    column: the driver's error is passed on and no table is written. *)
Lemma processRewardClaim_rejected (dto : RewardClaimEventDto.t) (w : World) :
  find (fun r => sameKey (RewardClaimEventDto.txHash dto)
                   (RewardClaimEventDto.logIndex dto)
                   (RewardClaim.txHash r) (RewardClaim.logIndex r))
    (rows (reward_claims w)) = None ->
  storableClaim dto = false ->
  exists error,
    RewardSyncService.processRewardClaim dto w
    = (Rejected error,
       mkWorld (reward_claims w) (reward_distributions w) (console w)
         (journal w ++ [invocationOfClaim dto])%list (now w)).
Proof.
  intros H Hno.
  unfold storableClaim in Hno.
  rewrite <- (claimColumnError_row dto (nextId (reward_claims w)) (now w)) in Hno.
  unfold RewardSyncService.processRewardClaim, bind, enter,
    RewardClaimRepository.findByTxHashAndLogIndex, tryCatch,
    RewardClaimRepository.create, logger, ret, throw.
  cbn [reward_claims reward_distributions console journal now].
  rewrite H.
  cbn [reward_claims reward_distributions console journal now].
  fold (claimOf dto (nextId (reward_claims w)) (now w)).
  destruct (claimColumnError (claimOf dto (nextId (reward_claims w)) (now w)))
    as [code|]; [|discriminate].
  destruct (isUniqueViolation (QueryFailedError code)); eexists; reflexivity.
Qed.





End RewardsFacts.

(** ** BlockchainListenerService: scan ranges *)

Module BackfillFacts.

Import Effects JsString Rewards Listener.
Open Scope Z_scope.

Lemma chunks_step (fromBlock currentBlock : Z) :
  fromBlock <= currentBlock ->
  chunks fromBlock currentBlock
  = (fromBlock, Z.min (fromBlock + CHUNK_SIZE - 1) currentBlock)
    :: chunks (fromBlock + CHUNK_SIZE) currentBlock.
Proof.
  intros H. rewrite chunks_equation_1.
  destruct (Z_le_gt_dec fromBlock currentBlock); [reflexivity|lia].
Qed.

Lemma chunks_done (fromBlock currentBlock : Z) :
  currentBlock < fromBlock -> chunks fromBlock currentBlock = [].
Proof.
  intros H. rewrite chunks_equation_1.
  destruct (Z_le_gt_dec fromBlock currentBlock); [lia|reflexivity].
Qed.

(** Every range of the loop lies between the start block and the head. *)
Lemma chunks_within (fromBlock currentBlock f t : Z) :
  In (f, t) (chunks fromBlock currentBlock) ->
  fromBlock <= f /\ f <= t /\ t <= currentBlock.
Proof.
  funelim (chunks fromBlock currentBlock).
  - intros [Hhead | Hin].
    + injection Hhead as <- <-. unfold CHUNK_SIZE. lia.
    + apply H in Hin. unfold CHUNK_SIZE in Hin. lia.
  - intros [].
Qed.

(** What the backfill does when there is something to scan: it runs
    [processBlockRange] on the ranges of [backfillRanges], in order. *)
Lemma backfill_scans_ranges (self : BlockchainListenerService) (w : World) :
  let lastSyncedBlock :=
    Z.max (orZero (maxBlock (map RewardClaim.blockNumber (rows (reward_claims w)))))
      (orZero (maxBlock (map RewardDistribution.blockNumber
                           (rows (reward_distributions w))))) in
  startBlockOf self lastSyncedBlock < getBlockNumber self ->
  backfillHistoricalEvents self w
  = (logger (LogInfo ("Backfilling events from block "
                      ++ showZ (startBlockOf self lastSyncedBlock)
                      ++ " to " ++ showZ (getBlockNumber self))) ;;;
     forEach (backfillRanges self lastSyncedBlock)
       (fun range => processBlockRange self (fst range) (snd range)) ;;;
     logger (LogInfo "Historical backfill complete")) w.
Proof.
  intros lastSyncedBlock Hlt.
  unfold backfillHistoricalEvents, backfillRanges.
  unfold bind at 1. unfold RewardSyncService.getLastSyncedBlock.
  unfold bind at 1. unfold RewardClaimRepository.getLastSyncedBlock.
  unfold bind at 1. unfold RewardDistributionRepository.getLastSyncedBlock.
  unfold ret at 1. fold lastSyncedBlock.
  destruct (Z.geb_spec (startBlockOf self lastSyncedBlock) (getBlockNumber self));
    [lia|reflexivity].
Qed.

(** C6, as the code has it: after a cursor c (the highest stored block
    number, c <> 0) and with head h, the backfill scans nothing when c >=
    h, and otherwise its first range is [c, min(c + CHUNK_SIZE - 1, h)]
    with CHUNK_SIZE = 10000: it starts at the cursor block itself.  Every
    range it scans lies within [c, h], so no block below c is scanned. *)
Theorem C6_backfill_ranges (self : BlockchainListenerService) (c : Z) :
  c <> 0 ->
  let h := getBlockNumber self in
  (h <= c -> backfillRanges self c = [])
  /\ (c < h ->
      exists rest,
        backfillRanges self c = (c, Z.min (c + 10000 - 1) h) :: rest)
  /\ (forall f t, In (f, t) (backfillRanges self c) -> c <= f /\ f <= t /\ t <= h).
Proof.
  intros Hc h. unfold backfillRanges, startBlockOf. fold h.
  destruct (Z.eqb_spec c 0) as [|_]; [contradiction|].
  destruct (Z.geb_spec c h) as [Hge|Hlt].
  - split; [reflexivity|]. split; [lia|]. intros f t [].
  - split; [lia|]. split.
    + intros _. rewrite chunks_step by lia. eexists. reflexivity.
    + intros f t Hin. apply chunks_within in Hin. exact Hin.
Qed.

Lemma C6_backfill_ranges_witness :
  150 <> 0
  /\ (150 < getBlockNumber restartedListener ->
      exists rest,
        backfillRanges restartedListener 150
        = (150, Z.min (150 + 10000 - 1) (getBlockNumber restartedListener)) :: rest).
Proof.
  assert (H : 150 <> 0) by discriminate.
  split; [exact H|].
  exact (proj1 (proj2 (@C6_backfill_ranges restartedListener 150 H))).
Defined.

(** C6 as stated fails: restarted after block 150 was synced, with the
    head at block 200, the backfill scans the single range [150, 200], not
    [151, 200], and the claim of block 150 reaches the sync service a
    second time (where it is answered as a duplicate). *)
Lemma C6_counterexample_rescans_cursor_block :
  fst (RewardSyncService.getLastSyncedBlock syncedThrough150) = Resolved 150
  /\ backfillRanges restartedListener 150 = [(150, 200)]
  /\ hd_error (backfillRanges restartedListener 150) <> Some (151, 200)
  /\ journal syncedThrough150 = [invocationOf claimAt150]
  /\ journal (snd (backfillHistoricalEvents restartedListener syncedThrough150))
     = [invocationOf claimAt150; invocationOf claimAt150].
Proof.
  split; [vm_compute; reflexivity|].
  split; [vm_compute; reflexivity|].
  split; [vm_compute; discriminate|].
  split; vm_compute; reflexivity.
Qed.

End BackfillFacts.

(** ** BlockchainListenerService: the order of application *)

Section Order.

Variable A : Type.
Variable R : A -> A -> Prop.
Hypothesis R_asym : forall a b, R a b -> ~ R b a.

Lemma sorted_filter (p : A -> bool) (l : list A) :
  StronglySorted R l -> StronglySorted R (List.filter p l).
Proof.
  induction 1 as [|a l Hs IH Hall]; simpl; [constructor|].
  destruct (p a); [|exact IH].
  constructor; [exact IH|].
  apply Forall_forall. intros x Hx. apply filter_In in Hx.
  rewrite Forall_forall in Hall. apply Hall. tauto.
Qed.

(** In a sorted list the smaller of two members comes first. *)
Lemma sorted_precedes (l : list A) (x y : A) :
  StronglySorted R l -> In x l -> In y l -> R x y -> Listener.Precedes x y l.
Proof.
  induction 1 as [|a l Hs IH Hall]; intros Hx Hy Hxy; [destruct Hx|].
  rewrite Forall_forall in Hall.
  destruct Hx as [<- | Hx], Hy as [<- | Hy].
  - exfalso. exact (R_asym Hxy Hxy).
  - apply in_split in Hy. destruct Hy as [l2 [l3 ->]].
    exists [], l2, l3. reflexivity.
  - exfalso. exact (R_asym Hxy (Hall x Hx)).
  - destruct (IH Hx Hy Hxy) as [l1 [l2 [l3 ->]]].
    exists (a :: l1), l2, l3. reflexivity.
Qed.

End Order.

Lemma Precedes_map (A B : Type) (f : A -> B) (x y : A) (l : list A) :
  Listener.Precedes x y l -> Listener.Precedes (f x) (f y) (map f l).
Proof.
  intros [l1 [l2 [l3 ->]]].
  exists (map f l1), (map f l2), (map f l3).
  rewrite map_app. simpl. rewrite map_app. reflexivity.
Qed.

Lemma Precedes_app_l (A : Type) (x y : A) (l0 l : list A) :
  Listener.Precedes x y l -> Listener.Precedes x y (l0 ++ l).
Proof.
  intros [l1 [l2 [l3 ->]]]. exists (l0 ++ l1), l2, l3.
  rewrite <- app_assoc. reflexivity.
Qed.

Lemma Precedes_app_r (A : Type) (x y : A) (l l' : list A) :
  Listener.Precedes x y l -> Listener.Precedes x y (l ++ l').
Proof.
  intros [l1 [l2 [l3 ->]]]. exists l1, l2, (l3 ++ l').
  repeat (rewrite <- app_assoc; simpl). reflexivity.
Qed.

(** A member of the first list precedes a member of the second. *)
Lemma Precedes_across (A : Type) (x y : A) (l l' : list A) :
  In x l -> In y l' -> Listener.Precedes x y (l ++ l').
Proof.
  intros Hx Hy.
  apply in_split in Hx. destruct Hx as [l1 [l2 ->]].
  apply in_split in Hy. destruct Hy as [l3 [l4 ->]].
  exists l1, (l2 ++ l3), l4.
  repeat (rewrite <- app_assoc; simpl). reflexivity.
Qed.

Module ListenerFacts.

Import Effects JsString Rewards Listener RewardsFacts.
Open Scope Z_scope.
Open Scope string_scope.

(** Every call of the sync service is journalled, whatever it returns. *)
Lemma processRewardClaim_journal (dto : RewardClaimEventDto.t) (w : World) :
  journal (snd (RewardSyncService.processRewardClaim dto w))
  = (journal w ++ [invocationOfClaim dto])%list.
Proof.
  destruct (find (fun r => sameKey (RewardClaimEventDto.txHash dto)
                             (RewardClaimEventDto.logIndex dto)
                             (RewardClaim.txHash r) (RewardClaim.logIndex r))
              (rows (reward_claims w))) as [existing|] eqn:Hfind.
  - rewrite (processRewardClaim_duplicate _ _ Hfind). reflexivity.
  - destruct (storableClaim dto) eqn:Hfits.
    + destruct (@processRewardClaim_insert dto w Hfits Hfind) as [line ->].
      reflexivity.
    + destruct (@processRewardClaim_rejected dto w Hfind Hfits) as [error ->].
      reflexivity.
Qed.

Lemma processRewardDistribution_journal (dto : RewardDistributionEventDto.t)
    (w : World) :
  journal (snd (RewardSyncService.processRewardDistribution dto w))
  = (journal w
     ++ [mkInvocation ProcessRewardDistribution
           (RewardDistributionEventDto.txHash dto)
           (RewardDistributionEventDto.blockNumber dto)
           (RewardDistributionEventDto.logIndex dto)])%list.
Proof.
  unfold RewardSyncService.processRewardDistribution, bind, enter,
    RewardDistributionRepository.findByTxHashAndLogIndex, tryCatch,
    RewardDistributionRepository.create, logger, ret, throw.
  cbn [reward_claims reward_distributions console journal now].
  match goal with |- context [find ?p ?l] => destruct (find p l) end;
    cbn [snd journal reward_claims reward_distributions console now];
    [reflexivity|].
  match goal with
  | |- context [distributionColumnError ?r] =>
      destruct (distributionColumnError r) as [code|]
  end.
  - destruct (isUniqueViolation (QueryFailedError code)); reflexivity.
  - match goal with |- context [existsb ?p ?l] => destruct (existsb p l) end;
      reflexivity.
Qed.

Lemma handleRewardClaimedEvent_journal (self : BlockchainListenerService)
    (e : EventLog) (w : World) :
  fst (handleRewardClaimedEvent self e w) = Resolved tt
  /\ journal (snd (handleRewardClaimedEvent self e w))
     = (journal w ++ entry self RewardClaimedEvent e)%list.
Proof.
  unfold handleRewardClaimedEvent, entry, reaches, invocationOf, tryCatch.
  destruct (getBlock self (blockNumber e)) as [timestamp|];
    [|cbn; rewrite app_nil_r; split; reflexivity].
  destruct (args e) as [user amount claimId | recipients amounts distributionId];
    [|cbn; rewrite app_nil_r; split; reflexivity].
  unfold bind.
  match goal with
  | |- context [RewardSyncService.processRewardClaim ?dto w] =>
      pose proof (processRewardClaim_journal dto w) as Hj;
      destruct (RewardSyncService.processRewardClaim dto w) as [[claim|error] w']
  end; cbn in Hj |- *; rewrite Hj; split; reflexivity.
Qed.

Lemma handleRewardDistributedEvent_journal (self : BlockchainListenerService)
    (e : EventLog) (w : World) :
  fst (handleRewardDistributedEvent self e w) = Resolved tt
  /\ journal (snd (handleRewardDistributedEvent self e w))
     = (journal w ++ entry self RewardDistributedEvent e)%list.
Proof.
  unfold handleRewardDistributedEvent, entry, reaches, invocationOf, tryCatch.
  destruct (getBlock self (blockNumber e)) as [timestamp|];
    [|cbn; rewrite app_nil_r; split; reflexivity].
  destruct (args e) as [user amount claimId | recipients amounts distributionId];
    [cbn; rewrite app_nil_r; split; reflexivity|].
  unfold bind.
  match goal with
  | |- context [RewardSyncService.processRewardDistribution ?dto w] =>
      pose proof (processRewardDistribution_journal dto w) as Hj;
      destruct (RewardSyncService.processRewardDistribution dto w)
        as [[distribution|error] w']
  end; cbn in Hj |- *; rewrite Hj; split; reflexivity.
Qed.

(** A loop over handlers that always resolve adds their entries in the
    order of the list. *)
Lemma forEach_journal (A : Type) (body : A -> M unit)
    (delta : A -> list Invocation) :
  (forall x w, fst (body x w) = Resolved tt
               /\ journal (snd (body x w)) = (journal w ++ delta x)%list) ->
  forall xs w,
    fst (forEach xs body w) = Resolved tt
    /\ journal (snd (forEach xs body w)) = (journal w ++ flat_map delta xs)%list.
Proof.
  intros Hbody. induction xs as [|x xs IH]; intros w.
  - cbn. rewrite app_nil_r. split; reflexivity.
  - cbn [forEach flat_map]. unfold bind.
    destruct (Hbody x w) as [Hres Hj].
    destruct (body x w) as [o w1]. cbn [fst snd] in Hres, Hj. subst o.
    destruct (IH w1) as [Hres' Hj'].
    split; [exact Hres'|]. rewrite Hj', Hj, <- app_assoc. reflexivity.
Qed.

Lemma flat_map_entry (self : BlockchainListenerService) (name : EventName)
    (events : list EventLog) :
  flat_map (entry self name) events
  = map invocationOf (List.filter (reaches self name) events).
Proof.
  induction events as [|e events IH]; [reflexivity|].
  cbn [flat_map List.filter]. unfold entry at 1.
  destruct (reaches self name e); cbn; rewrite IH; reflexivity.
Qed.

(** A scan appends to the journal the claims of the range, then its
    distributions. *)
Lemma processBlockRange_journal (self : BlockchainListenerService)
    (fromBlock toBlock : Z) (w : World) :
  journal (snd (processBlockRange self fromBlock toBlock w))
  = (journal w
     ++ map invocationOf (appliedOf self RewardClaimedEvent fromBlock toBlock)
     ++ map invocationOf (appliedOf self RewardDistributedEvent fromBlock toBlock))%list.
Proof.
  unfold processBlockRange, tryCatch, appliedOf. unfold bind at 1.
  destruct (forEach_journal (handleRewardClaimedEvent self)
              (entry self RewardClaimedEvent)
              (handleRewardClaimedEvent_journal self)
              (queryFilter self RewardClaimedEvent fromBlock toBlock) w)
    as [Hres1 Hj1].
  destruct (forEach (queryFilter self RewardClaimedEvent fromBlock toBlock)
              (handleRewardClaimedEvent self) w) as [o1 w1].
  cbn [fst snd] in Hres1, Hj1. subst o1.
  unfold bind at 1.
  destruct (forEach_journal (handleRewardDistributedEvent self)
              (entry self RewardDistributedEvent)
              (handleRewardDistributedEvent_journal self)
              (queryFilter self RewardDistributedEvent fromBlock toBlock) w1)
    as [Hres2 Hj2].
  destruct (forEach (queryFilter self RewardDistributedEvent fromBlock toBlock)
              (handleRewardDistributedEvent self) w1) as [o2 w2].
  cbn [fst snd] in Hres2, Hj2. subst o2.
  cbn [logger snd journal].
  rewrite Hj2, Hj1, !flat_map_entry, <- app_assoc. reflexivity.
Qed.

Lemma logLt_asym (a b : EventLog) : logLt a b -> ~ logLt b a.
Proof. unfold logLt, positionLt. lia. Qed.

Lemma appliedOf_In (self : BlockchainListenerService) (name : EventName)
    (fromBlock toBlock : Z) (e : EventLog) :
  In e (contractLogs self) -> inRange fromBlock toBlock e ->
  getBlock self (blockNumber e) <> None ->
  eventNameOf (args e) = name ->
  In e (appliedOf self name fromBlock toBlock).
Proof.
  intros Hin [Hlo Hhi] Hblock Hname.
  unfold appliedOf, queryFilter, reaches.
  apply filter_In. split.
  - apply filter_In. split; [exact Hin|].
    rewrite Hname.
    destruct (Z.leb_spec fromBlock (blockNumber e)); [|lia].
    destruct (Z.leb_spec (blockNumber e) toBlock); [|lia].
    destruct name; reflexivity.
  - rewrite Hname.
    destruct (getBlock self (blockNumber e)); [|congruence].
    destruct name; reflexivity.
Qed.

Lemma appliedOf_sorted (self : BlockchainListenerService) (name : EventName)
    (fromBlock toBlock : Z) :
  StronglySorted logLt (contractLogs self) ->
  StronglySorted logLt (appliedOf self name fromBlock toBlock).
Proof.
  intros H. unfold appliedOf, queryFilter. do 2 apply sorted_filter. exact H.
Qed.

(** C3, as the code has it: a scan of a block range applies the events of
    one event type in increasing (blockNumber, logIndex) order, so two
    claims of one block are applied logIndex 0 before logIndex 1; across
    the two event types the order is by type, not by position: every
    RewardClaimed event of the range is applied before every
    RewardDistributed event of the range. *)
Theorem C3_apply_order (self : BlockchainListenerService)
    (fromBlock toBlock : Z) (w : World) (e1 e2 : EventLog) :
  StronglySorted logLt (contractLogs self) ->
  In e1 (contractLogs self) -> In e2 (contractLogs self) ->
  inRange fromBlock toBlock e1 -> inRange fromBlock toBlock e2 ->
  getBlock self (blockNumber e1) <> None ->
  getBlock self (blockNumber e2) <> None ->
  let j := journal (snd (processBlockRange self fromBlock toBlock w)) in
  (eventNameOf (args e1) = eventNameOf (args e2) -> logLt e1 e2 ->
   Before (invocationOf e1) (invocationOf e2) j)
  /\ (eventNameOf (args e1) = RewardClaimedEvent ->
      eventNameOf (args e2) = RewardDistributedEvent ->
      Before (invocationOf e1) (invocationOf e2) j).
Proof.
  intros Hsorted Hin1 Hin2 Hr1 Hr2 Hb1 Hb2 j.
  subst j. rewrite processBlockRange_journal. unfold Before.
  split.
  - intros Hname Hlt.
    assert (Hprec : forall name, eventNameOf (args e1) = name ->
              Precedes (invocationOf e1) (invocationOf e2)
                (map invocationOf (appliedOf self name fromBlock toBlock))).
    { intros name H1. apply Precedes_map.
      apply sorted_precedes with (R := logLt).
      - exact logLt_asym.
      - apply appliedOf_sorted. exact Hsorted.
      - apply appliedOf_In; assumption.
      - apply appliedOf_In; try assumption. congruence.
      - exact Hlt. }
    apply Precedes_app_l.
    destruct (eventNameOf (args e1)) eqn:E.
    + apply Precedes_app_r. apply Hprec. reflexivity.
    + apply Precedes_app_l. apply Hprec. reflexivity.
  - intros H1 H2. apply Precedes_app_l. apply Precedes_across.
    + apply in_map. apply appliedOf_In; assumption.
    + apply in_map. apply appliedOf_In; assumption.
Qed.

Lemma C3_apply_order_witness :
  StronglySorted logLt (contractLogs twoClaimsListener)
  /\ logLt firstClaimAt100 claimAt100
  /\ Before (invocationOf firstClaimAt100) (invocationOf claimAt100)
       (journal (snd (processBlockRange twoClaimsListener 100 100 emptyWorld))).
Proof.
  assert (Hlt : logLt firstClaimAt100 claimAt100).
  { unfold logLt, positionLt. cbn. lia. }
  assert (Hs : StronglySorted logLt (contractLogs twoClaimsListener)).
  { cbn. apply SSorted_cons.
    - apply SSorted_cons; [apply SSorted_nil | apply Forall_nil].
    - apply Forall_cons; [exact Hlt | apply Forall_nil]. }
  split; [exact Hs|]. split; [exact Hlt|].
  refine (proj1 (@C3_apply_order twoClaimsListener 100 100 emptyWorld
                   firstClaimAt100 claimAt100 Hs _ _ _ _ _ _) eq_refl Hlt).
  - cbn. auto.
  - cbn. auto.
  - unfold inRange. cbn. lia.
  - unfold inRange. cbn. lia.
  - cbn. discriminate.
  - cbn. discriminate.
Defined.

(** C3 as stated fails across event types: at block 100 a distribution
    has logIndex 0 and a claim has logIndex 1; the scan applies the claim
    first. *)
Lemma C3_counterexample_across_types :
  logLt distributionAt100 claimAt100
  /\ journal (snd (processBlockRange mixedListener 100 100 emptyWorld))
     = [invocationOf claimAt100; invocationOf distributionAt100]
  /\ ~ Before (invocationOf distributionAt100) (invocationOf claimAt100)
         (journal (snd (processBlockRange mixedListener 100 100 emptyWorld))).
Proof.
  split; [unfold logLt, positionLt; cbn; lia|].
  assert (Hj : journal (snd (processBlockRange mixedListener 100 100 emptyWorld))
               = [invocationOf claimAt100; invocationOf distributionAt100])
    by (vm_compute; reflexivity).
  split; [exact Hj|].
  rewrite Hj. intros [l1 [l2 [l3 H]]].
  destruct l1 as [|x [|y l1]]; cbn in H.
  - injection H as H _. discriminate H.
  - injection H as _ H. destruct l2; discriminate H.
  - injection H as _ _ H. destruct l1; discriminate H.
Qed.

End ListenerFacts.

(** ** idempotency-design.md: checkpoint and replay *)

Module IndexerFacts.

Import Effects Indexer.
Open Scope Z_scope.

Lemma selectExisting_test (e : BlockchainEvent) (db : Db) :
  Nat.ltb 0 (List.length (selectExisting e db)) = isProcessed e db.
Proof.
  unfold selectExisting, isProcessed.
  induction (processed_events db) as [|r rs IH]; [reflexivity|].
  simpl. destruct (matches e r); [reflexivity|exact IH].
Qed.

Lemma lastBlock_updateCheckpoint (b now : Z) (db : Db) :
  lastBlock (updateCheckpoint b now db)
  = option_map (fun c => Z.max c b) (lastBlock db).
Proof.
  unfold lastBlock, updateCheckpoint. cbn [indexer_checkpoint].
  induction (indexer_checkpoint db) as [|c cs IH]; [reflexivity|].
  cbn [map find].
  destruct (Z.eqb_spec (checkpoint_id c) 1) as [E|E].
  - cbn [checkpoint_id]. rewrite E. reflexivity.
  - destruct (Z.eqb_spec (checkpoint_id c) 1); [contradiction|exact IH].
Qed.

(** [updateBalances] writes token_balances only. *)
Lemma updateBalances_frame (d : TransferData) (now : Z) (db : Db) :
  processed_events (snd (updateBalances d now db)) = processed_events db
  /\ processed_events_id_seq (snd (updateBalances d now db))
     = processed_events_id_seq db
  /\ indexer_checkpoint (snd (updateBalances d now db)) = indexer_checkpoint db
  /\ console (snd (updateBalances d now db)) = console db.
Proof.
  unfold updateBalances.
  destruct (amount d) as [a|]; [|repeat split; reflexivity].
  destruct (adjustBalance (from d) (token d) (- a)%Q now (token_balances db))
    as [decreased|]; [|repeat split; reflexivity].
  destruct (adjustBalance (to d) (token d) a now decreased);
    repeat split; reflexivity.
Qed.

(** One call either writes no table (the event was already processed, or
    its transaction was rolled back) or records the event and moves the
    checkpoint to the maximum of its value and the block of the event. *)
Lemma processEvent_step (event : BlockchainEvent) (now : Z) (db : Db) :
  let r := processEvent event now db in
  (processed_events (snd r) = processed_events db
   /\ indexer_checkpoint (snd r) = indexer_checkpoint db
   /\ token_balances (snd r) = token_balances db
   /\ (fst r = Resolved tt -> isProcessed event db = true))
  \/ (fst r = Resolved tt
      /\ isProcessed event db = false
      /\ processed_events (snd r)
         = (processed_events db
            ++ [recordOf event (processed_events_id_seq db) now])%list
      /\ lastBlock (snd r)
         = option_map (fun c => Z.max c (blockNumber event)) (lastBlock db)).
Proof.
  unfold processEvent.
  destruct (selectError event) as [code|].
  { left. cbn. repeat split; try reflexivity. discriminate. }
  rewrite selectExisting_test.
  destruct (isProcessed event db) eqn:Hp.
  { left. cbn. repeat split; reflexivity. }
  unfold insertProcessedEvent.
  destruct (insertError event) as [code|].
  { left. cbn. repeat split; try reflexivity. discriminate. }
  unfold isProcessed in Hp. rewrite Hp.
  destruct (String.eqb (eventType event) "Transfer").
  - match goal with
    | |- context [updateBalances ?d ?n ?db1] =>
        destruct (updateBalances_frame d n db1) as [Hrows [_ [Hcp _]]];
        destruct (updateBalances d n db1) as [[u|error] db2]
    end; cbn [fst snd processed_events indexer_checkpoint] in *.
    + right. rewrite lastBlock_updateCheckpoint.
      unfold lastBlock. rewrite Hcp.
      cbn [updateCheckpoint processed_events]. rewrite Hrows.
      repeat split; reflexivity.
    + left. cbn. repeat split; try reflexivity. discriminate.
  - right. cbn [fst snd]. rewrite lastBlock_updateCheckpoint.
    repeat split; reflexivity.
Qed.

Lemma fold_max_ge (l : list Z) (c : Z) : c <= fold_left Z.max l c.
Proof.
  revert c. induction l as [|b l IH]; intros c; simpl; [lia|].
  specialize (IH (Z.max c b)). lia.
Qed.

Lemma fold_max_bound (l : list Z) (c : Z) :
  Forall (fun b => b <= fold_left Z.max l c) l.
Proof.
  revert c. induction l as [|b l IH]; intros c; simpl; constructor.
  - pose proof (fold_max_ge l (Z.max c b)). lia.
  - apply IH.
Qed.

(** The state after a series of calls: rows are only appended, and the
    checkpoint is the maximum of its old value and the blocks of the
    appended rows. *)
Lemma afterCalls_rows (events : list BlockchainEvent) (now : Z) :
  forall db c,
    lastBlock db = Some c ->
    exists new,
      processed_events (afterCalls events now db)
      = (processed_events db ++ new)%list
      /\ lastBlock (afterCalls events now db)
         = Some (fold_left Z.max (map block_number new) c).
Proof.
  induction events as [|e events IH]; intros db c Hc.
  - exists []. cbn. rewrite app_nil_r. split; [reflexivity|exact Hc].
  - cbn [afterCalls fold_left]. fold (afterCalls events now (snd (processEvent e now db))).
    destruct (processEvent_step e now db)
      as [[Hrows [Hcp _]] | [_ [_ [Hrows Hlast]]]].
    + assert (Hc1 : lastBlock (snd (processEvent e now db)) = Some c).
      { unfold lastBlock in *. rewrite Hcp. exact Hc. }
      destruct (IH _ _ Hc1) as [new [Hnew Hl]].
      exists new. rewrite Hnew, Hl, Hrows. split; reflexivity.
    + rewrite Hc in Hlast. cbn [option_map] in Hlast.
      destruct (IH _ _ Hlast) as [new [Hnew Hl]].
      exists (recordOf e (processed_events_id_seq db) now :: new).
      rewrite Hnew, Hl, Hrows, <- app_assoc. split; reflexivity.
Qed.

(** C2, as the code has it: after any series of [processEvent] calls the
    checkpoint's last_block is the maximum of its previous value and the
    block numbers of the events recorded by these calls.  It never
    decreases and every newly recorded event lies at or below it; a call
    that is rejected (its transaction rolled back) or that meets an
    already processed event leaves the checkpoint and the recorded events
    as they were.  The checkpoint is thus the highest block at which an
    event was processed, not the end of a fully processed prefix. *)
Theorem C2_checkpoint_follows_processed (events : list BlockchainEvent)
    (now : Z) (db : Db) (c : Z) :
  lastBlock db = Some c ->
  (exists new,
      processed_events (afterCalls events now db)
      = (processed_events db ++ new)%list
      /\ lastBlock (afterCalls events now db)
         = Some (fold_left Z.max (map block_number new) c)
      /\ c <= fold_left Z.max (map block_number new) c
      /\ Forall (fun row =>
                   block_number row <= fold_left Z.max (map block_number new) c)
           new)
  /\ (forall e,
        fst (processEvent e now db) <> Resolved tt \/ isProcessed e db = true ->
        processed_events (snd (processEvent e now db)) = processed_events db
        /\ lastBlock (snd (processEvent e now db)) = Some c).
Proof.
  intros Hc. split.
  - destruct (afterCalls_rows events now db Hc) as [new [Hrows Hlast]].
    exists new. split; [exact Hrows|]. split; [exact Hlast|].
    split; [apply fold_max_ge|].
    pose proof (fold_max_bound (map block_number new) c) as Hb.
    rewrite Forall_map in Hb. exact Hb.
  - intros e Hcase.
    destruct (processEvent_step e now db)
      as [[Hrows [Hcp _]] | [Hres [Hnot _]]].
    + split; [exact Hrows|]. unfold lastBlock in *. rewrite Hcp. exact Hc.
    + destruct Hcase as [H | H]; [contradiction | congruence].
Qed.

Lemma C2_checkpoint_follows_processed_witness :
  lastBlock dbAt99 = Some 99
  /\ exists new,
       processed_events (afterCalls [failingAt100; transferAt101] 0 dbAt99)
       = (processed_events dbAt99 ++ new)%list
       /\ lastBlock (afterCalls [failingAt100; transferAt101] 0 dbAt99)
          = Some (fold_left Z.max (map block_number new) 99).
Proof.
  assert (H : lastBlock dbAt99 = Some 99) by reflexivity.
  split; [exact H|].
  destruct (proj1 (@C2_checkpoint_follows_processed
                     [failingAt100; transferAt101] 0 dbAt99 99 H))
    as [new [H1 [H2 _]]].
  exists new. split; [exact H1 | exact H2].
Defined.

(** The replay loop itself can leave the checkpoint on a block that is
    not fully processed: block 100 holds a mint and then a transfer that
    fails; the replay records the mint, moves the checkpoint to 100 and is
    rejected on the transfer. *)
Lemma replay_stops_inside_block :
  fst (replayFromBlock [mintAt100; failingLaterAt100] 100 0 dbAt99)
  = Rejected (QueryFailedError "22P02")
  /\ lastBlock (snd (replayFromBlock [mintAt100; failingLaterAt100] 100 0 dbAt99))
     = Some 100
  /\ isProcessed failingLaterAt100
       (snd (replayFromBlock [mintAt100; failingLaterAt100] 100 0 dbAt99))
     = false.
Proof. repeat split; vm_compute; reflexivity. Qed.

(** C2 as stated fails: from a checkpoint at block 99, the event of block
    100 fails to apply and is rolled back, the event of block 101
    succeeds, and the checkpoint is then 101 although the event of block
    100 is not processed. *)
Lemma C2_counterexample_gap :
  fst (processEvent failingAt100 0 dbAt99) = Rejected (QueryFailedError "22P02")
  /\ fst (processEvent transferAt101 0 (snd (processEvent failingAt100 0 dbAt99)))
     = Resolved tt
  /\ lastBlock (afterCalls [failingAt100; transferAt101] 0 dbAt99) = Some 101
  /\ isProcessed failingAt100 (afterCalls [failingAt100; transferAt101] 0 dbAt99)
     = false
  /\ ~ noGap [failingAt100; transferAt101]
         (afterCalls [failingAt100; transferAt101] 0 dbAt99).
Proof.
  split; [vm_compute; reflexivity|].
  split; [vm_compute; reflexivity|].
  split; [vm_compute; reflexivity|].
  split; [vm_compute; reflexivity|].
  intros Hgap.
  specialize (Hgap 101 failingAt100).
  assert (Hp : isProcessed failingAt100
                 (afterCalls [failingAt100; transferAt101] 0 dbAt99) = true).
  { apply Hgap.
    - vm_compute; reflexivity.
    - left; reflexivity.
    - cbn. lia. }
  vm_compute in Hp. discriminate Hp.
Qed.

(** The rows a loop over events appends carry the block numbers of these
    events. *)
Lemma processEvents_rows (events : list BlockchainEvent) (now : Z) :
  forall db,
    exists new,
      processed_events (snd (processEvents events now db))
      = (processed_events db ++ new)%list
      /\ Forall (fun row => exists e, In e events
                                     /\ block_number row = blockNumber e) new.
Proof.
  induction events as [|e events IH]; intros db.
  - exists []. cbn. rewrite app_nil_r. split; [reflexivity|constructor].
  - cbn [processEvents].
    pose proof (processEvent_step e now db) as Hstep. cbv zeta in Hstep.
    destruct (processEvent e now db) as [[u|error] db1]; cbn [fst snd] in Hstep.
    + destruct (IH db1) as [new [Hnew Hall]].
      assert (Htail : Forall (fun row => exists e0, In e0 (e :: events)
                                /\ block_number row = blockNumber e0) new).
      { eapply Forall_impl; [|exact Hall].
        intros row [e0 [Hin Hb]]. exists e0. split; [right; exact Hin|exact Hb]. }
      destruct Hstep as [[Hrows _] | [_ [_ [Hrows _]]]].
      * exists new. rewrite Hnew, Hrows. split; [reflexivity|exact Htail].
      * exists (recordOf e (processed_events_id_seq db) now :: new).
        rewrite Hnew, Hrows, <- app_assoc. split; [reflexivity|].
        constructor; [|exact Htail].
        exists e. split; [left; reflexivity|reflexivity].
    + destruct Hstep as [[Hrows _] | [Hres _]]; [|discriminate Hres].
      exists []. cbn [snd]. rewrite app_nil_r. split; [exact Hrows|constructor].
Qed.

Lemma deleteFromBlock_rows (startBlock : Z) (db : Db) :
  processed_events (deleteFromBlock startBlock db) = rowsBelow startBlock db.
Proof.
  unfold deleteFromBlock, rowsBelow. cbn [processed_events].
  apply filter_ext. intros r.
  destruct (Z.leb_spec startBlock (block_number r));
    destruct (Z.ltb_spec (block_number r) startBlock); try reflexivity; lia.
Qed.

End IndexerFacts.

(** ** The confirmation tracker and the unique indexes of indexed_events *)

Module EventStoreFacts.

Import Effects EventStore.
Open Scope Z_scope.

Lemma trackRow_blockNumber (H C : Z) (r : IndexedEvent) :
  blockNumber (trackRow H C r) = blockNumber r.
Proof.
  unfold trackRow.
  destruct (negb (isFinalized r) && Z.leb (blockNumber r) (H - C))%bool;
    reflexivity.
Qed.

(** One pass on a pending row. *)
Lemma trackRow_pending (H C : Z) (r : IndexedEvent) :
  isFinalized r = false ->
  (C <= H - blockNumber r ->
   isFinalized (trackRow H C r) = true
   /\ confirmations (trackRow H C r) = H - blockNumber r)
  /\ (H - blockNumber r < C -> trackRow H C r = r).
Proof.
  intros Hpending. unfold trackRow. rewrite Hpending. cbn [negb andb].
  destruct (Z.leb_spec (blockNumber r) (H - C)); split; intros; try lia;
    try (split; reflexivity); reflexivity.
Qed.

Lemma afterPasses_finalized (heads : list Z) (C : Z) (r : IndexedEvent) :
  isFinalized r = true -> isFinalized (afterPasses heads C r) = true.
Proof.
  revert r. induction heads as [|H heads IH]; intros r Hr; [exact Hr|].
  cbn [afterPasses fold_left]. apply IH.
  unfold trackRow. rewrite Hr. exact Hr.
Qed.

(** A pending row is finalized by a series of passes exactly when one of
    the observed heads is at least C blocks above it. *)
Lemma afterPasses_pending (heads : list Z) (C : Z) (r : IndexedEvent) :
  isFinalized r = false ->
  (isFinalized (afterPasses heads C r) = true
   <-> Exists (fun H => C <= H - blockNumber r) heads).
Proof.
  revert r. induction heads as [|H heads IH]; intros r Hpending.
  - cbn. rewrite Hpending. split; [discriminate|]. intros Hex. inversion Hex.
  - cbn [afterPasses fold_left]. fold (afterPasses heads C (trackRow H C r)).
    destruct (@trackRow_pending H C r Hpending) as [Hyes Hno].
    destruct (Z_le_gt_dec C (H - blockNumber r)) as [Hle|Hgt].
    + destruct (Hyes Hle) as [Hfin _]. split.
      * intros _. apply Exists_cons_hd. exact Hle.
      * intros _. apply afterPasses_finalized. exact Hfin.
    + rewrite (Hno ltac:(lia)). rewrite (IH r Hpending). split.
      * intros Hex. apply Exists_cons_tl. exact Hex.
      * intros Hex. inversion Hex; subst; [lia|assumption].
Qed.

(** C5: a newly stored event starts with confirmations = 0 and isFinalized
    = false; a confirmation-tracking pass at head height H with
    confirmationsRequired = C finalizes a pending event exactly when H -
    blockNumber >= C, setting confirmations to H - blockNumber, and
    leaves it untouched otherwise; over any series of passes the event is
    finalized exactly when some observed head reached blockNumber + C,
    never earlier, so that after passes at heads up to H it is finalized
    exactly when H - blockNumber >= C. *)
Theorem C5_finalization_threshold (r : IndexedEvent) (H C : Z) :
  isFinalized r = false ->
  (isFinalized (trackRow H C r) = true <-> C <= H - blockNumber r)
  /\ (C <= H - blockNumber r -> confirmations (trackRow H C r) = H - blockNumber r)
  /\ (H - blockNumber r < C -> trackRow H C r = r)
  /\ (forall heads,
        isFinalized (afterPasses heads C r) = true
        <-> Exists (fun H' => C <= H' - blockNumber r) heads)
  /\ (forall earlier,
        Forall (fun H' => H' <= H) earlier ->
        (isFinalized (afterPasses (earlier ++ [H]) C r) = true
         <-> C <= H - blockNumber r))
  /\ (forall id now e,
        confirmations (newRow id now e) = 0
        /\ isFinalized (newRow id now e) = false
        /\ isProcessed (newRow id now e) = false).
Proof.
  intros Hpending.
  destruct (@trackRow_pending H C r Hpending) as [Hyes Hno].
  split; [|split; [|split; [|split; [|split]]]].
  - split.
    + intros Hfin. destruct (Z_le_gt_dec C (H - blockNumber r)); [assumption|].
      rewrite (Hno ltac:(lia)) in Hfin. congruence.
    + intros Hle. apply Hyes. exact Hle.
  - intros Hle. apply Hyes. exact Hle.
  - exact Hno.
  - intros heads. apply afterPasses_pending. exact Hpending.
  - intros earlier Hearlier.
    rewrite (@afterPasses_pending (earlier ++ [H]) C r Hpending), Exists_app.
    rewrite Forall_forall in Hearlier. split.
    + intros [Hex | Hex].
      * apply Exists_exists in Hex. destruct Hex as [H' [Hin Hle]].
        specialize (Hearlier H' Hin). lia.
      * inversion Hex as [? ? Hle | ? ? Hnil]; subst; [exact Hle | inversion Hnil].
    + intros Hle. right. apply Exists_cons_hd. exact Hle.
  - intros id now e. repeat split; reflexivity.
Qed.

Lemma C5_finalization_threshold_witness :
  isFinalized (newRow 0 0 transferAt100) = false
  /\ isFinalized (trackRow 105 12 (newRow 0 0 transferAt100)) = false
  /\ isFinalized (trackRow 111 12 (newRow 0 0 transferAt100)) = false
  /\ isFinalized (trackRow 112 12 (newRow 0 0 transferAt100)) = true
  /\ confirmations (trackRow 112 12 (newRow 0 0 transferAt100)) = 12.
Proof.
  assert (Hp : isFinalized (newRow 0 0 transferAt100) = false) by reflexivity.
  split; [exact Hp|].
  pose proof (@C5_finalization_threshold (newRow 0 0 transferAt100) 105 12 Hp)
    as [_ [_ [H105 _]]].
  pose proof (@C5_finalization_threshold (newRow 0 0 transferAt100) 111 12 Hp)
    as [_ [_ [H111 _]]].
  pose proof (@C5_finalization_threshold (newRow 0 0 transferAt100) 112 12 Hp)
    as [[_ H112] [Hc _]].
  split; [rewrite H105; [exact Hp | cbn; lia]|].
  split; [rewrite H111; [exact Hp | cbn; lia]|].
  split; [apply H112; cbn; lia|].
  rewrite Hc; [reflexivity | cbn; lia].
Defined.

(** *** Both unique indexes, under every operation *)

Lemma txKey_eqb_eq (a b : string * Z * string) : txKey_eqb a b = true <-> a = b.
Proof.
  destruct a as [[h i] t], b as [[h' i'] t']. unfold txKey_eqb. cbn [fst snd].
  rewrite !andb_true_iff, !String.eqb_eq, Z.eqb_eq.
  split; [intros [[-> ->] ->]; reflexivity | intros E; injection E; auto].
Qed.

Lemma blockKey_eqb_eq (a b : Z * Z) : blockKey_eqb a b = true <-> a = b.
Proof.
  destruct a as [n i], b as [n' i']. unfold blockKey_eqb. cbn [fst snd].
  rewrite andb_true_iff, !Z.eqb_eq.
  split; [intros [-> ->]; reflexivity | intros E; injection E; auto].
Qed.

Lemma collides_iff (row stored : IndexedEvent) :
  collides row stored = true
  <-> txKey stored = txKey row \/ blockKey stored = blockKey row.
Proof.
  unfold collides. rewrite orb_true_iff, txKey_eqb_eq, blockKey_eqb_eq. tauto.
Qed.

Lemma sameKeys_unique (rs rs' : list IndexedEvent) :
  sameKeys rs rs' -> uniqueKeys rs -> uniqueKeys rs'.
Proof. intros [Ht Hb] [Ut Ub]. unfold uniqueKeys. rewrite Ht, Hb. tauto. Qed.

Lemma sameKeys_refl (rs : list IndexedEvent) : sameKeys rs rs.
Proof. split; reflexivity. Qed.

Lemma sameKeys_trans (a b c : list IndexedEvent) :
  sameKeys a b -> sameKeys b c -> sameKeys a c.
Proof. intros [H1 H2] [H3 H4]. split; congruence. Qed.

(** Rewriting rows by a function that keeps both keys. *)
Lemma map_sameKeys (f : IndexedEvent -> IndexedEvent) (rs : list IndexedEvent) :
  (forall r, txKey (f r) = txKey r /\ blockKey (f r) = blockKey r) ->
  sameKeys rs (map f rs).
Proof.
  intros Hf. unfold sameKeys. rewrite !map_map.
  split; apply map_ext; intros r; apply Hf.
Qed.

Lemma updateRow_sameKeys (eventId : nat) (f : IndexedEvent -> IndexedEvent)
    (table : Table IndexedEvent) :
  (forall r, txKey (f r) = txKey r /\ blockKey (f r) = blockKey r) ->
  sameKeys (rows table) (rows (updateRow eventId f table)).
Proof.
  intros Hf. unfold updateRow. cbn [rows]. apply map_sameKeys.
  intros r. destruct (Nat.eqb (id r) eventId); [apply Hf|split; reflexivity].
Qed.

Lemma markFinalized_sameKeys (eventId : nat) (table : Table IndexedEvent) :
  sameKeys (rows table) (rows (markFinalized eventId table)).
Proof. apply updateRow_sameKeys. intros r. split; reflexivity. Qed.

Lemma markProcessed_sameKeys (eventId : nat) (ts : Z) (table : Table IndexedEvent) :
  sameKeys (rows table) (rows (markProcessed eventId ts table)).
Proof. apply updateRow_sameKeys. intros r. split; reflexivity. Qed.

Lemma recordProcessingFailure_sameKeys (eventId : nat) (message : string)
    (table : Table IndexedEvent) :
  sameKeys (rows table) (rows (recordProcessingFailure eventId message table)).
Proof. apply updateRow_sameKeys. intros r. split; reflexivity. Qed.

Lemma trackConfirmations_sameKeys (H C : Z) (table : Table IndexedEvent) :
  sameKeys (rows table) (rows (trackConfirmations H C table)).
Proof.
  unfold trackConfirmations. cbn [rows]. apply map_sameKeys.
  intros r. unfold trackRow.
  destruct (negb (isFinalized r) && Z.leb (blockNumber r) (H - C))%bool;
    split; reflexivity.
Qed.

Lemma processBatch_sameKeys (apply : IndexedEvent -> option string) (ts : Z)
    (g : Engine) :
  sameKeys (rows (events g)) (rows (events (processBatch apply ts g))).
Proof.
  unfold processBatch. cbn [events].
  generalize (sortByPosition
                (List.filter (eligible (maxRetryAttempts (state g)))
                   (rows (events g)))) as selected.
  generalize (events g) as table.
  intros table selected. revert table.
  induction selected as [|r selected IH]; intros table; [apply sameKeys_refl|].
  cbn [fold_left]. eapply sameKeys_trans; [|apply IH].
  unfold processOne. destruct (apply r).
  - apply recordProcessingFailure_sameKeys.
  - apply markProcessed_sameKeys.
Qed.

(** Deleting rows keeps the keys distinct. *)
Lemma filter_unique (p : IndexedEvent -> bool) (rs : list IndexedEvent) :
  uniqueKeys rs -> uniqueKeys (List.filter p rs).
Proof.
  assert (Hgen : forall (K : Type) (key : IndexedEvent -> K) l,
            NoDup (map key l) -> NoDup (map key (List.filter p l))).
  { intros K key l. induction l as [|r l IH]; intros Hnd; [constructor|].
    cbn [map] in Hnd. inversion Hnd as [|k ks Hnotin Hnd']; subst.
    cbn [List.filter]. destruct (p r); [|apply IH; exact Hnd'].
    cbn [map]. constructor; [|apply IH; exact Hnd'].
    intros Hin. apply Hnotin. apply in_map_iff in Hin.
    destruct Hin as [x [Hx Hin]]. apply filter_In in Hin.
    apply in_map_iff. exists x. tauto. }
  intros [Ht Hb]. split; apply Hgen; assumption.
Qed.

(** An insert that passes the two indexes keeps them. *)
Lemma insert_unique (e : RawEvent) (now : Z) (table : Table IndexedEvent) :
  uniqueKeys (rows table) -> uniqueKeys (rows (snd (insert e now table))).
Proof.
  intros [Ht Hb]. unfold insert.
  destruct (existsb (collides (newRow (nextId table) now e)) (rows table)) eqn:E;
    [split; assumption|].
  cbn [snd rows].
  assert (Hfree : forall stored, In stored (rows table) ->
            txKey stored <> txKey (newRow (nextId table) now e)
            /\ blockKey stored <> blockKey (newRow (nextId table) now e)).
  { intros stored Hin.
    assert (Hc : collides (newRow (nextId table) now e) stored = false).
    { destruct (collides (newRow (nextId table) now e) stored) eqn:Ec;
        [|reflexivity].
      assert (Hex : existsb (collides (newRow (nextId table) now e)) (rows table)
                    = true).
      { apply existsb_exists. exists stored. split; assumption. }
      congruence. }
    split; intros Heq;
      assert (Hyes : collides (newRow (nextId table) now e) stored = true)
        by (apply collides_iff; tauto);
      congruence. }
  unfold uniqueKeys. rewrite !map_app. cbn [map].
  split; apply NoDup_app; try assumption;
    try (constructor; [intros []|constructor]);
    intros k Hk [<- | []]; apply in_map_iff in Hk;
    destruct Hk as [stored [Hkey Hin]]; destruct (Hfree stored Hin); congruence.
Qed.

Lemma step_unique (g : Engine) (op : Operation) :
  uniqueKeys (rows (events g)) -> uniqueKeys (rows (events (step g op))).
Proof.
  intros Hu. destruct op as [e now | eventId | H C | apply ts | fromBlock];
    cbn [step events].
  - unfold persist. pose proof (@insert_unique e now (events g) Hu) as Hi.
    destruct (insert e now (events g)) as [[row|error] table']; cbn [snd] in *;
      assumption.
  - exact (sameKeys_unique (markFinalized_sameKeys eventId (events g)) Hu).
  - exact (sameKeys_unique (trackConfirmations_sameKeys H C (events g)) Hu).
  - exact (sameKeys_unique (processBatch_sameKeys apply ts g) Hu).
  - unfold reconcile.
    destruct (Z.leb fromBlock (lastFinalizedBlockNumber (state g)));
      cbn [snd events rows]; [exact Hu|].
    apply filter_unique. exact Hu.
Qed.

Lemma run_unique (ops : list Operation) (g : Engine) :
  uniqueKeys (rows (events g)) -> uniqueKeys (rows (events (run ops g))).
Proof.
  revert g. induction ops as [|op ops IH]; intros g Hu; [exact Hu|].
  cbn [run fold_left]. apply IH. apply step_unique. exact Hu.
Qed.

(** An insert that meets either key is answered [duplicate] and writes
    nothing. *)
Lemma persist_duplicate (e : RawEvent) (now : Z) (table : Table IndexedEvent)
    (stored : IndexedEvent) :
  In stored (rows table) ->
  txKey stored = rawTxKey e \/ blockKey stored = rawBlockKey e ->
  persist e now table = (duplicate, table).
Proof.
  intros Hin Hkey. unfold persist, insert.
  assert (Hex : existsb (collides (newRow (nextId table) now e)) (rows table) = true).
  { apply existsb_exists. exists stored. split; [exact Hin|].
    apply collides_iff. exact Hkey. }
  rewrite Hex. reflexivity.
Qed.

(** C4: a reconciliation from [fromBlock] is rejected and changes nothing
    when fromBlock <= lastFinalizedBlockNumber; otherwise it resolves and
    deletes exactly the rows of indexed_events with blockNumber >=
    fromBlock that are not finalized: the table afterwards is the table
    before without those rows, so every finalized row and every row below
    fromBlock is still there, unchanged and in its place. *)
Theorem C4_reconcile_guard (fromBlock : Z) (g : Engine) :
  (fromBlock <= lastFinalizedBlockNumber (state g) ->
   exists error, reconcile fromBlock g = (Rejected error, g))
  /\ (lastFinalizedBlockNumber (state g) < fromBlock ->
      fst (reconcile fromBlock g) = Resolved tt
      /\ rows (events (snd (reconcile fromBlock g)))
         = List.filter (survives fromBlock) (rows (events g))
      /\ (forall r,
            In r (rows (events (snd (reconcile fromBlock g))))
            <-> In r (rows (events g))
                /\ ~ (fromBlock <= blockNumber r /\ isFinalized r = false))
      /\ (forall r, In r (rows (events g)) -> isFinalized r = true ->
            In r (rows (events (snd (reconcile fromBlock g)))))
      /\ (forall r, In r (rows (events g)) -> blockNumber r < fromBlock ->
            In r (rows (events (snd (reconcile fromBlock g)))))).
Proof.
  unfold reconcile. split.
  - intros Hle. apply Z.leb_le in Hle. rewrite Hle. eexists. reflexivity.
  - intros Hlt.
    destruct (Z.leb_spec fromBlock (lastFinalizedBlockNumber (state g))) as [Hle|_];
      [lia|].
    cbn [fst snd events rows].
    assert (Hsame : forall r,
              negb (Z.leb fromBlock (blockNumber r) && negb (isFinalized r))
              = survives fromBlock r).
    { intros r. unfold survives.
      destruct (Z.leb_spec fromBlock (blockNumber r));
        destruct (Z.ltb_spec (blockNumber r) fromBlock);
        destruct (isFinalized r); try reflexivity; lia. }
    assert (Hin : forall r,
              In r (List.filter
                      (fun r => negb (Z.leb fromBlock (blockNumber r)
                                      && negb (isFinalized r)))
                      (rows (events g)))
              <-> In r (rows (events g))
                  /\ ~ (fromBlock <= blockNumber r /\ isFinalized r = false)).
    { intros r. rewrite filter_In, Hsame. unfold survives.
      rewrite orb_true_iff, Z.ltb_lt.
      destruct (Z_lt_le_dec (blockNumber r) fromBlock) as [Hb|Hb];
        destruct (isFinalized r); split; intros [Hr Hk]; split;
        try exact Hr; try (intros [? ?]; lia || discriminate);
        try (left; exact Hb); try (right; reflexivity).
      exfalso. apply Hk. split; [exact Hb|reflexivity]. }
    split; [reflexivity|]. split; [apply filter_ext; exact Hsame|].
    split; [exact Hin|]. split.
    + intros r Hr Hfin. apply Hin. split; [exact Hr|].
      intros [_ Hno]. congruence.
    + intros r Hr Hbelow. apply Hin. split; [exact Hr|].
      intros [Hge _]. lia.
Qed.

Lemma C4_reconcile_guard_witness :
  100 <= lastFinalizedBlockNumber (state finalizedThrough100)
  /\ (exists error, reconcile 100 finalizedThrough100
                    = (Rejected error, finalizedThrough100))
  /\ lastFinalizedBlockNumber (state finalizedThrough100) < 102
  /\ rows (events (snd (reconcile 102 finalizedThrough100)))
     = [rowAt 0 "0xa0" 100 true; rowAt 1 "0xa1" 101 false].
Proof.
  assert (H1 : 100 <= lastFinalizedBlockNumber (state finalizedThrough100))
    by (cbn; lia).
  assert (H2 : lastFinalizedBlockNumber (state finalizedThrough100) < 102)
    by (cbn; lia).
  split; [exact H1|].
  split; [exact (proj1 (C4_reconcile_guard 100 finalizedThrough100) H1)|].
  split; [exact H2|].
  destruct (proj2 (C4_reconcile_guard 102 finalizedThrough100) H2)
    as [_ [Hrows _]].
  rewrite Hrows. reflexivity.
Defined.

(** C7: in every state the engine reaches from an empty table, no two
    rows of indexed_events share (transactionHash, logIndex, eventType)
    and no two share (blockNumber, logIndex); each operation (persist,
    finalize, confirmation tracking, process, reconcile) keeps both; and
    a persist that meets either key returns [duplicate], not an error,
    and leaves the table as it was. *)
Theorem C7_unique_keys (s : IndexingState) (ops : list Operation) :
  let g := run ops (initial s) in
  uniqueKeys (rows (events g))
  /\ (forall op, uniqueKeys (rows (events (step g op))))
  /\ (forall e now stored,
        In stored (rows (events g)) ->
        txKey stored = rawTxKey e \/ blockKey stored = rawBlockKey e ->
        persist e now (events g) = (duplicate, events g)).
Proof.
  intros g.
  assert (Hu : uniqueKeys (rows (events g))).
  { apply run_unique. split; constructor. }
  split; [exact Hu|]. split.
  - intros op. apply step_unique. exact Hu.
  - intros e now stored. apply persist_duplicate.
Qed.

Lemma C7_unique_keys_witness :
  In (newRow 0 0 transferAt100)
    (rows (events (run [OpPersist transferAt100 0] (initial defaultState))))
  /\ blockKey (newRow 0 0 transferAt100) = rawBlockKey sameBlockPosition
  /\ persist sameBlockPosition 7
       (events (run [OpPersist transferAt100 0] (initial defaultState)))
     = (duplicate, events (run [OpPersist transferAt100 0] (initial defaultState))).
Proof.
  assert (Hin : In (newRow 0 0 transferAt100)
                  (rows (events (run [OpPersist transferAt100 0]
                                   (initial defaultState)))))
    by (left; reflexivity).
  assert (Hkey : blockKey (newRow 0 0 transferAt100) = rawBlockKey sameBlockPosition)
    by reflexivity.
  split; [exact Hin|]. split; [exact Hkey|].
  exact (proj2 (proj2 (C7_unique_keys defaultState [OpPersist transferAt100 0]))
           sameBlockPosition 7 (newRow 0 0 transferAt100) Hin (or_intror Hkey)).
Defined.

End EventStoreFacts.

(** ** AggregationService.aggregate: order and symmetry *)

Module AggregationSymmetry.

Import Js JsFacts Aggregation AggregationFacts.
Open Scope Q_scope.

Lemma Qeq_bool_comp (a a' b b' : Q) :
  a == a' -> b == b' -> Qeq_bool a b = Qeq_bool a' b'.
Proof.
  intros Ha Hb.
  destruct (Qeq_bool a b) eqn:E, (Qeq_bool a' b') eqn:E'; try reflexivity.
  - apply Qeq_bool_iff in E. rewrite Ha, Hb in E. apply Qeq_bool_iff in E.
    congruence.
  - apply Qeq_bool_iff in E'. rewrite <- Ha, <- Hb in E'.
    apply Qeq_bool_iff in E'. congruence.
Qed.

Lemma Qltb_comp (a a' b b' : Q) :
  a == a' -> b == b' -> Qltb a b = Qltb a' b'.
Proof.
  intros Ha Hb.
  destruct (Qltb a b) eqn:E, (Qltb a' b') eqn:E'; try reflexivity.
  - apply Qltb_lt in E. apply Qltb_ge in E'. lra.
  - apply Qltb_ge in E. apply Qltb_lt in E'. lra.
Qed.

Lemma Math_max_comp (a a' b b' : Q) :
  a == a' -> b == b' -> Math_max a b == Math_max a' b'.
Proof.
  intros Ha Hb. unfold Math_max.
  destruct (Qle_bool a b) eqn:E, (Qle_bool a' b') eqn:E'; try assumption.
  - apply Qle_bool_iff in E.
    assert (H : a' <= b') by lra. apply Qle_bool_iff in H. congruence.
  - apply Qle_bool_iff in E'.
    assert (H : a <= b) by lra. apply Qle_bool_iff in H. congruence.
Qed.

Lemma Math_max_sym (a b : Q) : Math_max a b == Math_max b a.
Proof.
  unfold Math_max.
  destruct (Qle_bool a b) eqn:E, (Qle_bool b a) eqn:E'; try reflexivity.
  - apply Qle_bool_iff in E. apply Qle_bool_iff in E'. lra.
  - assert (H : a <= b \/ b <= a) by (destruct (Qlt_le_dec a b); [left; lra | right; assumption]).
    destruct H as [H | H]; apply Qle_bool_iff in H; congruence.
Qed.

Lemma weightFor_perm (d : VerificationVerdict) (vs vs' : list Verification) :
  Permutation vs vs' -> weightFor d vs == weightFor d vs'.
Proof.
  induction 1 as [| v l l' _ IH | v v' l | l l' l'' _ IH1 _ IH2]; cbn [weightFor].
  - reflexivity.
  - rewrite IH. reflexivity.
  - ring.
  - rewrite IH1. exact IH2.
Qed.

Lemma Math_round_le (n : Z) (x : Q) : x <= inject_Z n -> Math_round x <= inject_Z n.
Proof.
  intros H. unfold Math_round. rewrite <- Zle_Qle. apply floor_le. lra.
Qed.



End AggregationSymmetry.

(** ** AggregationService.aggregate in double precision *)

Module Aggregation64Facts.

Import Js JsFacts Binary64 Binary64Facts Aggregation AggregationFacts.
Import AggregationSymmetry Aggregation64.
Open Scope Q_scope.

Lemma product_representable (v : Verification) :
  nonNegative v ->
  0 <= round64 (stakeAmount v * reputationWeight v)
  /\ representable (round64 (stakeAmount v * reputationWeight v)).
Proof.
  intros [Hs Hr].
  assert (H : 0 <= stakeAmount v * reputationWeight v) by nra.
  split; [apply round64_nonneg | apply round64_representable]; exact H.
Qed.

(** Every partial sum is a double, and the sums grow along the list. *)
Lemma weightFrom_grows (d : VerificationVerdict) (vs : list Verification)
    (start : Q) :
  Forall nonNegative vs -> 0 <= start -> representable start ->
  start <= weightFrom d vs start /\ representable (weightFrom d vs start).
Proof.
  intros Hnn. revert start.
  induction Hnn as [|v vs Hv _ IH]; intros start H0 Hrep.
  - split; [apply Qle_refl | exact Hrep].
  - unfold weightFrom. cbn [fold_left]. fold (weightFrom d vs (addWeight d start v)).
    destruct (product_representable Hv) as [Hw0 Hwrep].
    unfold addWeight.
    destruct (verdict_eqb (verdict v) d).
    + set (w := round64 (stakeAmount v * reputationWeight v)) in *.
      assert (Hsum : 0 <= start + w) by lra.
      assert (Hstep : start <= round64 (start + w)).
      { apply round64_ge_fixed; [exact H0 | lra | exact Hrep]. }
      destruct (IH (round64 (start + w))) as [Hle Hr].
      * lra.
      * apply round64_representable. exact Hsum.
      * split; [lra | exact Hr].
    + apply IH; assumption.
Qed.

(** No weight exceeds the sum it enters: when the total is finite, so is
    every product and every partial sum. *)
Lemma weightFrom_bounds (d : VerificationVerdict) (vs : list Verification)
    (start : Q) (v : Verification) :
  Forall nonNegative vs -> 0 <= start -> representable start ->
  In v vs -> verdict_eqb (verdict v) d = true ->
  round64 (stakeAmount v * reputationWeight v) <= weightFrom d vs start.
Proof.
  intros Hnn. revert start.
  induction Hnn as [|x vs Hx Hnn IH]; intros start H0 Hrep Hin Hd; [destruct Hin|].
  unfold weightFrom. cbn [fold_left]. fold (weightFrom d vs (addWeight d start x)).
  destruct (product_representable Hx) as [Hw0 Hwrep].
  assert (Hnext : 0 <= addWeight d start x /\ representable (addWeight d start x)).
  { unfold addWeight. destruct (verdict_eqb (verdict x) d); [|split; assumption].
    split; [apply round64_nonneg | apply round64_representable]; lra. }
  destruct Hnext as [Hn0 Hnrep].
  destruct Hin as [<- | Hin].
  - destruct (@weightFrom_grows d vs (addWeight d start x) Hnn Hn0 Hnrep)
      as [Hle _].
    apply Qle_trans with (addWeight d start x); [|exact Hle].
    unfold addWeight. rewrite Hd.
    apply round64_ge_fixed; [exact Hw0 | lra | exact Hwrep].
  - apply IH; assumption.
Qed.

Lemma representable_zero : representable 0.
Proof. exists 0%Z, 0%Z. split; [lia|]. split; [lia|]. reflexivity. Qed.

Lemma weightFor_double (d : VerificationVerdict) (vs : list Verification) :
  Forall nonNegative vs ->
  0 <= Aggregation64.weightFor d vs
  /\ representable (Aggregation64.weightFor d vs).
Proof.
  intros Hnn. unfold Aggregation64.weightFor.
  apply weightFrom_grows; [exact Hnn | apply Qle_refl | apply representable_zero].
Qed.

(** The loop computes the two rounded sums. *)
Lemma fold_accumulate64 (vs : list Verification) (acc : Q * Q) :
  fold_left Aggregation64.accumulate vs acc
  = (weightFrom TRUE vs (fst acc), weightFrom FALSE vs (snd acc)).
Proof.
  revert acc. induction vs as [|v vs IH]; intros [a b].
  - reflexivity.
  - cbn [fold_left]. rewrite IH. unfold weightFrom. cbn [fold_left].
    unfold Aggregation64.accumulate, Aggregation64.computeWeight, addWeight.
    cbn [fst snd]. destruct (verdict v); reflexivity.
Qed.

Lemma aggregate64_decide (claimId : string) (vs : list Verification) :
  vs <> [] ->
  Aggregation64.aggregate claimId vs
  = Aggregation64.decide claimId (Aggregation64.weightFor TRUE vs)
      (Aggregation64.weightFor FALSE vs) (List.length vs).
Proof.
  intros Hne. unfold Aggregation64.aggregate, Aggregation64.decide.
  destruct vs as [|v vs']; [congruence|].
  cbn [List.length Nat.eqb]. rewrite fold_accumulate64. reflexivity.
Qed.

Lemma Math_round_range (lo hi : Z) (x : Q) :
  inject_Z lo <= x -> x <= inject_Z hi ->
  inject_Z lo <= Math_round x /\ Math_round x <= inject_Z hi.
Proof.
  intros H1 H2. split; [apply Math_round_ge; exact H1|].
  apply Math_round_le. exact H2.
Qed.

(** The confidence of a winner that holds at least half of the total. *)
Lemma confidence64_range (w t : Q) :
  0 < w -> w <= t -> t <= 2 * w ->
  50 <= Aggregation64.computeConfidence w t
  /\ Aggregation64.computeConfidence w t <= 100.
Proof.
  intros Hw Hwt Htw. unfold Aggregation64.computeConfidence.
  assert (Ht : 0 < t) by lra.
  assert (Hq1 : (1 # 2) <= w / t).
  { apply Qle_shift_div_l; [exact Ht|]. lra. }
  assert (Hq2 : w / t <= 1).
  { apply Qle_shift_div_r; [exact Ht|]. lra. }
  assert (Hr1 : (1 # 2) <= round64 (w / t)).
  { apply round64_ge_fixed; [lra | exact Hq1 | apply representable_half]. }
  assert (Hr2 : round64 (w / t) <= 1).
  { apply round64_le_fixed; [lra | exact Hq2|].
    apply (@representable_int 1). lia. }
  set (q := round64 (w / t)) in *.
  assert (Hp1 : 50 <= round64 (q * 100)).
  { apply round64_ge_fixed; [lra | lra|]. apply (@representable_int 50). lia. }
  assert (Hp2 : round64 (q * 100) <= 100).
  { apply round64_le_fixed; [lra | lra|]. apply (@representable_int 100). lia. }
  apply (@Math_round_range 50 100); assumption.
Qed.

(** The total of two doubles lies between the larger one and its double. *)
Lemma total_of_winner (w l : Q) :
  0 <= l -> l < w -> representable w ->
  w <= round64 (w + l) /\ round64 (w + l) <= 2 * w.
Proof.
  intros Hl Hlt Hrep. split.
  - apply round64_ge_fixed; [lra | lra | exact Hrep].
  - apply round64_le_fixed; [lra | lra | apply representable_double; exact Hrep].
Qed.

(** What the decision returns, by the order of the two weights. *)
Lemma decide64_cases (claimId : string) (a b : Q) (n : nat) :
  0 <= a -> 0 <= b -> representable a -> representable b ->
  let r := Aggregation64.decide claimId a b n in
  (a == b /\ status r = INCONCLUSIVE /\ confidence r = 0)
  \/ (b < a /\ status r = VERIFIED_TRUE
      /\ confidence r = Aggregation64.computeConfidence (Math_max a b) (round64 (a + b))
      /\ Math_max a b == a
      /\ 50 <= confidence r /\ confidence r <= 100)
  \/ (a < b /\ status r = VERIFIED_FALSE
      /\ confidence r = Aggregation64.computeConfidence (Math_max a b) (round64 (a + b))
      /\ Math_max a b == b
      /\ 50 <= confidence r /\ confidence r <= 100).
Proof.
  intros Ha Hb Hra Hrb r. subst r. unfold Aggregation64.decide.
  destruct (Qeq_bool (round64 (a + b)) 0) eqn:E0.
  { left. apply Qeq_bool_iff in E0. cbn. split; [|split; reflexivity].
    assert (Hta : a <= round64 (a + b))
      by (apply round64_ge_fixed; [exact Ha | lra | exact Hra]).
    assert (Htb : b <= round64 (a + b))
      by (apply round64_ge_fixed; [exact Hb | lra | exact Hrb]).
    lra. }
  destruct (Qeq_bool a b) eqn:E1.
  { left. apply Qeq_bool_iff in E1. cbn. split; [exact E1|split; reflexivity]. }
  assert (Hne : ~ a == b).
  { intros H. apply Qeq_bool_iff in H. congruence. }
  destruct (Qltb b a) eqn:E2.
  - apply Qltb_lt in E2.
    pose proof (Math_max_left E2) as Hmax.
    destruct (total_of_winner Hb E2 Hra) as [Ht1 Ht2].
    assert (Hc : 50 <= Aggregation64.computeConfidence (Math_max a b) (round64 (a + b))
                 /\ Aggregation64.computeConfidence (Math_max a b) (round64 (a + b)) <= 100).
    { apply confidence64_range; rewrite ?Hmax; lra. }
    destruct (Qltb (Aggregation64.computeConfidence (Math_max a b) (round64 (a + b))) 10)
      eqn:E3.
    { apply Qltb_lt in E3. lra. }
    right. left. cbn. repeat split; try reflexivity; try tauto; assumption.
  - apply Qltb_ge in E2.
    assert (Hlt : a < b).
    { apply Qle_lt_or_eq in E2. destruct E2 as [H|H]; [exact H|contradiction]. }
    pose proof (Math_max_right Hlt) as Hmax.
    destruct (total_of_winner Ha Hlt Hrb) as [Ht1 Ht2].
    assert (Hsum : round64 (a + b) == round64 (b + a)).
    { apply round64_comp. ring. }
    assert (Hc : 50 <= Aggregation64.computeConfidence (Math_max a b) (round64 (a + b))
                 /\ Aggregation64.computeConfidence (Math_max a b) (round64 (a + b)) <= 100).
    { apply confidence64_range; rewrite ?Hmax, ?Hsum; lra. }
    destruct (Qltb (Aggregation64.computeConfidence (Math_max a b) (round64 (a + b))) 10)
      eqn:E3.
    { apply Qltb_lt in E3. lra. }
    right. right. cbn. repeat split; try reflexivity; try tauto; assumption.
Qed.

Lemma computeConfidence64_comp (w w' t t' : Q) :
  w == w' -> t == t' ->
  Aggregation64.computeConfidence w t == Aggregation64.computeConfidence w' t'.
Proof.
  intros Hw Ht. unfold Aggregation64.computeConfidence.
  apply Math_round_comp. apply round64_comp.
  assert (E : round64 (w / t) == round64 (w' / t')).
  { apply round64_comp. rewrite Hw, Ht. reflexivity. }
  rewrite E. reflexivity.
Qed.

(** C9, as the code computes it.  For verifications with non-negative
    stake and reputation weight whose total stays finite, [aggregate]
    returns VERIFIED_TRUE exactly when the weight for TRUE exceeds the
    weight for FALSE, VERIFIED_FALSE exactly in the symmetric case and
    INCONCLUSIVE exactly on a tie (which covers the empty input and the
    zero total), the weights being the sums of stake times reputation in
    double precision, taken in the order of the list.  The confidence of a
    verdict is Math.round of the double (winningWeight / totalWeight) *
    100; it lies between 50 and 100, so the safeguard below 10 is never
    taken; an INCONCLUSIVE result has confidence 0.  The metadata carries
    the two sums and the number of verifications. *)
Theorem C9_aggregate_double (claimId : string) (vs : list Verification) :
  Forall nonNegative vs ->
  finite (totalWeight vs) ->
  let r := Aggregation64.aggregate claimId vs in
  let tw := Aggregation64.weightFor TRUE vs in
  let fw := Aggregation64.weightFor FALSE vs in
  (status r = VERIFIED_TRUE <-> fw < tw)
  /\ (status r = VERIFIED_FALSE <-> tw < fw)
  /\ (status r = INCONCLUSIVE <-> tw == fw)
  /\ (fw < tw ->
      confidence r == Math_round (round64 (round64 (tw / totalWeight vs) * 100)))
  /\ (tw < fw ->
      confidence r == Math_round (round64 (round64 (fw / totalWeight vs) * 100)))
  /\ (vs = [] \/ totalWeight vs == 0 \/ tw == fw ->
      status r = INCONCLUSIVE /\ confidence r = 0)
  /\ (status r <> INCONCLUSIVE -> 50 <= confidence r /\ confidence r <= 100)
  /\ m_trueWeight (metadata r) = tw
  /\ m_falseWeight (metadata r) = fw
  /\ verificationCount (metadata r) = List.length vs.
Proof.
  intros Hnn _ r tw fw.
  destruct (weightFor_double TRUE Hnn) as [Htw Hrt]. fold tw in Htw, Hrt.
  destruct (weightFor_double FALSE Hnn) as [Hfw Hrf]. fold fw in Hfw, Hrf.
  assert (Hmeta : m_trueWeight (metadata r) = tw
                  /\ m_falseWeight (metadata r) = fw
                  /\ verificationCount (metadata r) = List.length vs).
  { subst r. destruct vs as [|v vs0]; [repeat split; reflexivity|].
    rewrite (@aggregate64_decide claimId (v :: vs0)) by discriminate.
    fold tw fw. unfold Aggregation64.decide.
    destruct (Qeq_bool (round64 (tw + fw)) 0); [repeat split; reflexivity|].
    destruct (Qeq_bool tw fw); [repeat split; reflexivity|].
    destruct (Qltb _ 10); repeat split; reflexivity. }
  assert (Hcases :
    (tw == fw /\ status r = INCONCLUSIVE /\ confidence r = 0)
    \/ (fw < tw /\ status r = VERIFIED_TRUE
        /\ confidence r == Aggregation64.computeConfidence tw (totalWeight vs)
        /\ 50 <= confidence r /\ confidence r <= 100)
    \/ (tw < fw /\ status r = VERIFIED_FALSE
        /\ confidence r == Aggregation64.computeConfidence fw (totalWeight vs)
        /\ 50 <= confidence r /\ confidence r <= 100)).
  { subst r. destruct vs as [|v vs0].
    { left. repeat split; reflexivity. }
    rewrite (@aggregate64_decide claimId (v :: vs0)) by discriminate.
    fold tw fw. unfold totalWeight. fold tw fw.
    destruct (@decide64_cases claimId tw fw (List.length (v :: vs0))
                Htw Hfw Hrt Hrf)
      as [H | [[Hlt [Hs [Hc [Hmax [H50 H100]]]]] | [Hlt [Hs [Hc [Hmax [H50 H100]]]]]]].
    - left. exact H.
    - right. left. split; [exact Hlt|]. split; [exact Hs|].
      split; [|split; assumption].
      rewrite Hc. apply computeConfidence64_comp; [exact Hmax | reflexivity].
    - right. right. split; [exact Hlt|]. split; [exact Hs|].
      split; [|split; assumption].
      rewrite Hc. apply computeConfidence64_comp; [exact Hmax | reflexivity]. }
  assert (Hta : tw <= totalWeight vs).
  { unfold totalWeight. fold tw fw.
    apply round64_ge_fixed; [exact Htw | lra | exact Hrt]. }
  assert (Htb : fw <= totalWeight vs).
  { unfold totalWeight. fold tw fw.
    apply round64_ge_fixed; [exact Hfw | lra | exact Hrf]. }
  assert (Hempty : vs = [] -> tw == fw).
  { intros ->. reflexivity. }
  unfold Aggregation64.computeConfidence in Hcases.
  destruct Hmeta as [Hm1 [Hm2 Hm3]].
  destruct Hcases as [[Heq [Hs Hc]] | [[Hlt [Hs [Hc [H50 H100]]]] | [Hlt [Hs [Hc [H50 H100]]]]]];
    rewrite Hs;
    (repeat split; intros;
     try discriminate; try congruence; try assumption; try lra;
     try match goal with
         | D : _ \/ _ \/ _ |- _ =>
             destruct D as [D | [D | D]]; [apply Hempty in D | | ]; lra
         end).
Qed.

Lemma C9_aggregate_double_witness :
  Forall nonNegative sampleVerifications
  /\ finite (totalWeight sampleVerifications)
  /\ (status (Aggregation64.aggregate "claim-1" sampleVerifications) = VERIFIED_TRUE
      <-> Aggregation64.weightFor FALSE sampleVerifications
          < Aggregation64.weightFor TRUE sampleVerifications).
Proof.
  assert (H : Forall nonNegative sampleVerifications).
  { repeat (apply Forall_cons || apply Forall_nil);
      split; vm_compute; discriminate. }
  assert (Hfin : finite (totalWeight sampleVerifications))
    by (vm_compute; reflexivity).
  split; [exact H|]. split; [exact Hfin|].
  exact (proj1 (@C9_aggregate_double "claim-1" _ H Hfin)).
Defined.

(** C9 as stated fails in two ways.  With 115 for TRUE against 85 for
    FALSE the claim's round(100 * 115 / 200) is 58, and the code
    returns 57: the double nearest to 0.575 lies below it, and so does its
    product by 100.  With 0.1, 0.2 and 0.3 for TRUE against 0.6 for FALSE
    the stake-times-reputation weight for TRUE exceeds that for FALSE, and
    the code returns VERIFIED_TRUE for one order of the votes and
    INCONCLUSIVE for another. *)
Lemma C9_counterexample_rounding :
  Forall nonNegative narrowWin
  /\ finite (totalWeight narrowWin)
  /\ status (Aggregation64.aggregate "claim-1" narrowWin) = VERIFIED_TRUE
  /\ confidence (Aggregation64.aggregate "claim-1" narrowWin) == 57
  /\ Math_round (100 * (Aggregation.weightFor TRUE narrowWin
                        / (Aggregation.weightFor TRUE narrowWin
                           + Aggregation.weightFor FALSE narrowWin))) == 58
  /\ Forall nonNegative tenths
  /\ Permutation tenths tenthsReordered
  /\ Aggregation.weightFor FALSE tenths < Aggregation.weightFor TRUE tenths
  /\ Aggregation.weightFor FALSE tenthsReordered
     < Aggregation.weightFor TRUE tenthsReordered
  /\ status (Aggregation64.aggregate "claim-1" tenths) = VERIFIED_TRUE
  /\ status (Aggregation64.aggregate "claim-1" tenthsReordered) = INCONCLUSIVE.
Proof.
  split.
  { repeat (apply Forall_cons || apply Forall_nil);
      split; vm_compute; discriminate. }
  split; [vm_compute; reflexivity|].
  split; [vm_compute; reflexivity|].
  split; [vm_compute; reflexivity|].
  split; [vm_compute; reflexivity|].
  split.
  { repeat (apply Forall_cons || apply Forall_nil);
      split; vm_compute; discriminate. }
  split.
  { unfold tenths, tenthsReordered.
    apply Permutation_trans
      with [vote TRUE (literal (2 # 10)); vote TRUE (literal (3 # 10));
            vote TRUE (literal (1 # 10)); vote FALSE (literal (6 # 10))].
    - apply Permutation_trans
        with [vote TRUE (literal (2 # 10)); vote TRUE (literal (1 # 10));
              vote TRUE (literal (3 # 10)); vote FALSE (literal (6 # 10))].
      + apply perm_swap.
      + apply perm_skip. apply perm_swap.
    - apply perm_swap. }
  split; [vm_compute; reflexivity|].
  split; [vm_compute; reflexivity|].
  split; vm_compute; reflexivity.
Qed.

Lemma weightFrom_flip (d : VerificationVerdict) (vs : list Verification)
    (start : Q) :
  weightFrom d (map flipVote vs) start = weightFrom (flipVerdict d) vs start.
Proof.
  revert start. induction vs as [|v vs IH]; intros start; [reflexivity|].
  unfold weightFrom in *. cbn [map fold_left]. rewrite IH.
  f_equal. unfold addWeight. cbn [flipVote verdict stakeAmount reputationWeight].
  destruct (verdict v), d; reflexivity.
Qed.

Lemma decide64_swap (claimId : string) (a b : Q) (n : nat) :
  status (Aggregation64.decide claimId b a n)
  = flipStatus (status (Aggregation64.decide claimId a b n))
  /\ confidence (Aggregation64.decide claimId b a n)
     == confidence (Aggregation64.decide claimId a b n)
  /\ m_trueWeight (metadata (Aggregation64.decide claimId b a n)) = b
  /\ m_falseWeight (metadata (Aggregation64.decide claimId b a n)) = a
  /\ m_trueWeight (metadata (Aggregation64.decide claimId a b n)) = a
  /\ m_falseWeight (metadata (Aggregation64.decide claimId a b n)) = b
  /\ verificationCount (metadata (Aggregation64.decide claimId b a n)) = n
  /\ verificationCount (metadata (Aggregation64.decide claimId a b n)) = n.
Proof.
  unfold Aggregation64.decide.
  assert (Ht : round64 (b + a) == round64 (a + b)) by (apply round64_comp; ring).
  rewrite (Qeq_bool_comp Ht (Qeq_refl 0)).
  assert (Hc : Aggregation64.computeConfidence (Math_max b a) (round64 (b + a))
               == Aggregation64.computeConfidence (Math_max a b) (round64 (a + b))).
  { apply computeConfidence64_comp; [apply Math_max_sym | exact Ht]. }
  rewrite (Qltb_comp Hc (Qeq_refl 10)).
  destruct (Qeq_bool (round64 (a + b)) 0); [repeat split; reflexivity|].
  destruct (Qeq_bool a b) eqn:E, (Qeq_bool b a) eqn:E'.
  - repeat split; reflexivity.
  - apply Qeq_bool_iff in E. symmetry in E. apply Qeq_bool_iff in E. congruence.
  - apply Qeq_bool_iff in E'. symmetry in E'. apply Qeq_bool_iff in E'. congruence.
  - destruct (Qltb (Aggregation64.computeConfidence (Math_max a b) (round64 (a + b))) 10);
      [repeat split; reflexivity|].
    cbn [status confidence metadata m_trueWeight m_falseWeight verificationCount].
    split; [|split; [exact Hc | repeat split; reflexivity]].
    assert (Hne : ~ a == b) by (intros H; apply Qeq_bool_iff in H; congruence).
    destruct (Qltb a b) eqn:L, (Qltb b a) eqn:L'; try reflexivity.
    + apply Qltb_lt in L. apply Qltb_lt in L'. lra.
    + apply Qltb_ge in L. apply Qltb_ge in L'. exfalso. apply Hne. lra.
Qed.

(** Symmetry, for verifications with non-negative stake and reputation
    weight whose total stays finite: when every voter casts the opposite
    verdict, [aggregate] returns the opposite status with the same
    confidence, and the true and the false weight of the metadata change
    places. *)
Theorem aggregate_flip (claimId : string) (vs : list Verification) :
  Forall nonNegative vs ->
  finite (totalWeight vs) ->
  let r := Aggregation64.aggregate claimId vs in
  let r' := Aggregation64.aggregate claimId (map flipVote vs) in
  status r' = flipStatus (status r)
  /\ confidence r' == confidence r
  /\ m_trueWeight (metadata r') = m_falseWeight (metadata r)
  /\ m_falseWeight (metadata r') = m_trueWeight (metadata r)
  /\ verificationCount (metadata r') = verificationCount (metadata r).
Proof.
  intros _ _. cbv zeta.
  destruct vs as [|v vs0]; [repeat split; reflexivity|].
  rewrite (@aggregate64_decide claimId (map flipVote (v :: vs0))) by discriminate.
  rewrite (@aggregate64_decide claimId (v :: vs0)) by discriminate.
  rewrite length_map.
  unfold Aggregation64.weightFor. rewrite !weightFrom_flip. cbn [flipVerdict].
  set (a := weightFrom TRUE (v :: vs0) 0).
  set (b := weightFrom FALSE (v :: vs0) 0).
  destruct (decide64_swap claimId a b (List.length (v :: vs0)))
    as [Hs [Hc [H1 [H2 [H3 [H4 [H5 H6]]]]]]].
  split; [exact Hs|]. split; [exact Hc|].
  split; [congruence|]. split; [congruence|]. congruence.
Qed.

Lemma aggregate_flip_witness :
  Forall nonNegative narrowWin
  /\ finite (totalWeight narrowWin)
  /\ status (Aggregation64.aggregate "claim-1" (map flipVote narrowWin))
     = VERIFIED_FALSE
  /\ confidence (Aggregation64.aggregate "claim-1" (map flipVote narrowWin))
     == 57.
Proof.
  assert (Hnn : Forall nonNegative narrowWin).
  { repeat constructor; vm_compute; discriminate. }
  assert (Hfin : finite (totalWeight narrowWin)) by (vm_compute; reflexivity).
  destruct (@aggregate_flip "claim-1" narrowWin Hnn Hfin) as [Hs [Hc _]].
  split; [exact Hnn|]. split; [exact Hfin|].
  split.
  - rewrite Hs. vm_compute. reflexivity.
  - apply Qeq_trans with (confidence (Aggregation64.aggregate "claim-1" narrowWin));
      [exact Hc | vm_compute; reflexivity].
Defined.

(** Whole weights that sum to at most 2^53 are added without rounding. *)
Lemma weightFrom_whole (d : VerificationVerdict) (vs : list Verification)
    (start : Q) (n : Z) :
  Forall nonNegative vs -> Forall wholeWeights vs ->
  (0 <= n)%Z -> start == inject_Z n ->
  start + Aggregation.weightFor d vs <= inject_Z (2 ^ 53) ->
  weightFrom d vs start == start + Aggregation.weightFor d vs.
Proof.
  intros Hnn. revert start n.
  induction Hnn as [|v vs Hv Hnn IH]; intros start n Hwhole Hn Hstart Hbound.
  - cbn. ring.
  - inversion Hwhole as [|? ? [Hws Hwr] Hwhole']; subst.
    pose proof (weightFor_nonneg d Hnn) as Hrest.
    unfold weightFrom. cbn [fold_left]. fold (weightFrom d vs (addWeight d start v)).
    cbn [Aggregation.weightFor] in *.
    unfold addWeight, Aggregation.computeWeight in *.
    destruct Hv as [Hs0 Hr0].
    destruct (verdict_eqb (verdict v) d).
    + set (ps := Qfloor (stakeAmount v)) in *.
      set (pr := Qfloor (reputationWeight v)) in *.
      unfold wholeNumber in Hws, Hwr. fold ps in Hws. fold pr in Hwr.
      assert (Hps : (0 <= ps)%Z).
      { apply floor_ge. exact Hs0. }
      assert (Hpr : (0 <= pr)%Z).
      { apply floor_ge. exact Hr0. }
      assert (Hstart0 : 0 <= start).
      { rewrite Hstart. change 0 with (inject_Z 0). rewrite <- Zle_Qle. exact Hn. }
      assert (Hprod : stakeAmount v * reputationWeight v == inject_Z (ps * pr)).
      { rewrite inject_Z_mult, <- Hws, <- Hwr. reflexivity. }
      assert (Hprod0 : 0 <= stakeAmount v * reputationWeight v) by nra.
      set (w := stakeAmount v * reputationWeight v) in *.
      assert (Hw : round64 w == w).
      { apply representable_fixed. apply (representable_comp (Qeq_sym _ _ Hprod)).
        apply representable_int. split; [nia|].
        rewrite Zle_Qle. rewrite <- Hprod. lra. }
      assert (Hsum : start + round64 w == inject_Z (n + ps * pr)).
      { rewrite Hw, Hprod, Hstart, inject_Z_plus. reflexivity. }
      assert (Hstep : round64 (start + round64 w) == inject_Z (n + ps * pr)).
      { rewrite (round64_comp Hsum). apply representable_fixed.
        apply representable_int. split; [nia|].
        rewrite Zle_Qle. rewrite inject_Z_plus, <- Hstart, <- Hprod. lra. }
      rewrite (IH _ (n + ps * pr)%Z Hwhole' ltac:(nia) Hstep).
      * rewrite Hstep, inject_Z_plus, <- Hstart, <- Hprod. ring.
      * rewrite Hstep, inject_Z_plus, <- Hstart, <- Hprod. lra.
    + rewrite (IH _ n Hwhole' Hn Hstart); [ring|lra].
Qed.

Lemma decide64_comp (claimId : string) (a a' b b' : Q) (n : nat) :
  a == a' -> b == b' ->
  sameResult (Aggregation64.decide claimId a b n)
    (Aggregation64.decide claimId a' b' n).
Proof.
  intros Ha Hb. unfold Aggregation64.decide.
  assert (Ht : round64 (a + b) == round64 (a' + b')).
  { apply round64_comp. rewrite Ha, Hb. reflexivity. }
  rewrite (Qeq_bool_comp Ht (Qeq_refl 0)).
  rewrite (Qeq_bool_comp Ha Hb).
  assert (Hc : Aggregation64.computeConfidence (Math_max a b) (round64 (a + b))
               == Aggregation64.computeConfidence (Math_max a' b') (round64 (a' + b'))).
  { apply computeConfidence64_comp; [apply Math_max_comp; assumption | exact Ht]. }
  rewrite (Qltb_comp Hc (Qeq_refl 10)).
  rewrite (Qltb_comp Hb Ha).
  destruct (Qeq_bool (round64 (a' + b')) 0); [repeat split; assumption || reflexivity|].
  destruct (Qeq_bool a' b'); [repeat split; assumption || reflexivity|].
  destruct (Qltb (Aggregation64.computeConfidence (Math_max a' b') (round64 (a' + b'))) 10);
    repeat split; assumption || reflexivity.
Qed.

(** Order independence holds where the sums are exact: for whole,
    non-negative stakes and reputation weights whose products sum to at
    most 2^53, [aggregate] gives the same status, confidence and weights
    on every reordering of the verifications. *)
Theorem aggregate_order_independent (claimId : string)
    (vs vs' : list Verification) :
  Forall nonNegative vs -> Forall wholeWeights vs ->
  Aggregation.weightFor TRUE vs + Aggregation.weightFor FALSE vs
    <= inject_Z (2 ^ 53) ->
  Permutation vs vs' ->
  sameResult (Aggregation64.aggregate claimId vs)
    (Aggregation64.aggregate claimId vs').
Proof.
  intros Hnn Hwhole Hbound Hperm.
  destruct vs as [|v vs0].
  { apply Permutation_nil in Hperm. subst vs'.
    repeat split; reflexivity. }
  assert (Hne : vs' <> []).
  { intros ->. apply Permutation_sym, Permutation_nil in Hperm. discriminate. }
  assert (Hnn' : Forall nonNegative vs')
    by (eapply Permutation_Forall; eassumption).
  assert (Hwhole' : Forall wholeWeights vs')
    by (eapply Permutation_Forall; eassumption).
  pose proof (weightFor_perm TRUE Hperm) as HpT.
  pose proof (weightFor_perm FALSE Hperm) as HpF.
  pose proof (weightFor_nonneg TRUE Hnn) as HT0.
  pose proof (weightFor_nonneg FALSE Hnn) as HF0.
  rewrite (@aggregate64_decide claimId (v :: vs0)) by discriminate.
  rewrite (@aggregate64_decide claimId vs') by assumption.
  rewrite (Permutation_length Hperm).
  assert (Hexact : forall d l, Forall nonNegative l -> Forall wholeWeights l ->
            Aggregation.weightFor d l <= inject_Z (2 ^ 53) ->
            Aggregation64.weightFor d l == Aggregation.weightFor d l).
  { intros d l H1 H2 H3. unfold Aggregation64.weightFor.
    rewrite (@weightFrom_whole d l 0 0%Z H1 H2 ltac:(lia) (Qeq_refl 0)).
    - ring.
    - lra. }
  apply decide64_comp.
  - rewrite (Hexact TRUE (v :: vs0) Hnn Hwhole) by lra.
    rewrite (Hexact TRUE vs' Hnn' Hwhole') by lra.
    exact HpT.
  - rewrite (Hexact FALSE (v :: vs0) Hnn Hwhole) by lra.
    rewrite (Hexact FALSE vs' Hnn' Hwhole') by lra.
    exact HpF.
Qed.

Lemma aggregate_order_independent_witness :
  Forall nonNegative narrowWin /\ Forall wholeWeights narrowWin
  /\ Aggregation.weightFor TRUE narrowWin + Aggregation.weightFor FALSE narrowWin
       <= inject_Z (2 ^ 53)
  /\ Permutation narrowWin (rev narrowWin)
  /\ sameResult (Aggregation64.aggregate "claim-1" narrowWin)
       (Aggregation64.aggregate "claim-1" (rev narrowWin)).
Proof.
  assert (H1 : Forall nonNegative narrowWin).
  { repeat (apply Forall_cons || apply Forall_nil);
      split; vm_compute; discriminate. }
  assert (H2 : Forall wholeWeights narrowWin).
  { repeat (apply Forall_cons || apply Forall_nil);
      split; vm_compute; reflexivity. }
  assert (H3 : Aggregation.weightFor TRUE narrowWin
               + Aggregation.weightFor FALSE narrowWin <= inject_Z (2 ^ 53))
    by (vm_compute; discriminate).
  assert (H4 : Permutation narrowWin (rev narrowWin)) by apply Permutation_rev.
  split; [exact H1|]. split; [exact H2|]. split; [exact H3|]. split; [exact H4|].
  exact (@aggregate_order_independent "claim-1" _ _ H1 H2 H3 H4).
Defined.

End Aggregation64Facts.

(** ** ClaimResolutionService: symmetry of the score, and resolveClaim *)

Module ResolveClaimFacts.

Import Js JsFacts ClaimResolution ClaimResolutionFacts AggregationSymmetry.
Open Scope Q_scope.

Lemma toFixed4_comp (x y : Q) : x == y -> toFixed4 x == toFixed4 y.
Proof.
  intros H. unfold toFixed4. rewrite (Qltb_comp H (Qeq_refl 0)).
  destruct (Qltb y 0).
  - apply Qopp_comp. apply roundHalfUp4_comp. rewrite H. reflexivity.
  - apply roundHalfUp4_comp. exact H.
Qed.

Lemma Math_min_comp (a a' b b' : Q) :
  a == a' -> b == b' -> Math_min a b == Math_min a' b'.
Proof.
  intros Ha Hb. unfold Math_min.
  destruct (Qle_bool a b) eqn:E, (Qle_bool a' b') eqn:E'; try assumption.
  - apply Qle_bool_iff in E.
    assert (H : a' <= b') by lra. apply Qle_bool_iff in H. congruence.
  - apply Qle_bool_iff in E'.
    assert (H : a <= b) by lra. apply Qle_bool_iff in H. congruence.
Qed.

(** The score does not depend on which side the weights are on; and when
    one side holds all of a total of at least 100, the score is 1. *)
Theorem confidence_score_symmetric (votes : VoteWeightSummary) :
  sameScore (computeConfidenceScore (swapVotes votes))
    (computeConfidenceScore votes)
  /\ (100 <= trueWeight votes -> falseWeight votes == 0 ->
      exists r, computeConfidenceScore votes = Some r /\ r == 1).
Proof.
  split.
  - unfold computeConfidenceScore, swapVotes, MIN_REQUIRED_WEIGHT.
    cbn [trueWeight falseWeight].
    set (t := trueWeight votes). set (f := falseWeight votes).
    assert (Ht : f + t == t + f) by ring.
    rewrite (Qltb_comp Ht (Qeq_refl 100)).
    destruct (Qltb (t + f) 100); [exact I|].
    destruct (Qeq_bool f t) eqn:E, (Qeq_bool t f) eqn:E'.
    + reflexivity.
    + apply Qeq_bool_iff in E. symmetry in E. apply Qeq_bool_iff in E. congruence.
    + apply Qeq_bool_iff in E'. symmetry in E'. apply Qeq_bool_iff in E'.
      congruence.
    + cbn [sameScore]. apply toFixed4_comp.
      assert (Habs : Math_abs (f - t) == Math_abs (t - f)).
      { unfold Math_abs.
        assert (E1 : f - t == - (t - f)) by ring.
        rewrite E1. apply Qabs_opp. }
      assert (Hmin : Math_min ((f + t) / 100) 1 == Math_min ((t + f) / 100) 1).
      { apply Math_min_comp; [rewrite Ht; reflexivity | reflexivity]. }
      rewrite Habs, Hmin, Ht. reflexivity.
  - intros Ht Hf.
    assert (Hf0 : 0 <= falseWeight votes) by lra.
    assert (Ht0 : 0 <= trueWeight votes) by lra.
    assert (Htotal : 100 <= trueWeight votes + falseWeight votes) by lra.
    assert (Hne : ~ trueWeight votes == falseWeight votes) by lra.
    destruct (@score_of_margin votes Ht0 Hf0 Htotal Hne) as [r [Hr Hval]].
    exists r. split; [exact Hr|]. rewrite Hval.
    assert (Hm : margin votes == 1).
    { unfold margin, Math_abs. rewrite Hf.
      assert (E : trueWeight votes - 0 == trueWeight votes) by ring.
      rewrite E, Qabs_pos by lra.
      assert (E2 : trueWeight votes + 0 == trueWeight votes) by ring.
      rewrite E2. field. lra. }
    rewrite (roundHalfUp4_comp Hm). vm_compute. reflexivity.
Qed.

Lemma confidence_score_symmetric_witness :
  100 <= trueWeight (mkVotes 250 0) /\ falseWeight (mkVotes 250 0) == 0
  /\ exists r, computeConfidenceScore (mkVotes 250 0) = Some r /\ r == 1.
Proof.
  assert (H1 : 100 <= trueWeight (mkVotes 250 0)) by (vm_compute; discriminate).
  assert (H2 : falseWeight (mkVotes 250 0) == 0) by reflexivity.
  split; [exact H1|]. split; [exact H2|].
  exact (proj2 (confidence_score_symmetric (mkVotes 250 0)) H1 H2).
Defined.








End ResolveClaimFacts.

(** ** SybilResistantVotingService: batches, impact and eligibility *)

Module SybilBatchFacts.

Import Js JsFacts SybilVoting SybilVotingBatch.
Open Scope Q_scope.

Lemma fold_push_none (service : SybilResistanceService) (votes : list Vote) :
  fold_left (pushWeighted service) votes None = None.
Proof. induction votes as [|v votes IH]; [reflexivity|exact IH]. Qed.

Lemma calculate_some (service : SybilResistanceService) (user : string) (w : Q)
    (score : SybilScore) :
  getLatestSybilScore service user = Some score ->
  exists weighted,
    calculateSybilWeightedVote service user w = Some weighted
    /\ userId weighted = user /\ baseWeight weighted = w
    /\ sybilScore weighted = compositeScore score
    /\ multiplier weighted = (1 # 2) + (1 # 2) * compositeScore score
    /\ finalWeight weighted = w * multiplier weighted.
Proof.
  intros H. unfold calculateSybilWeightedVote. rewrite H.
  eexists. repeat split; reflexivity.
Qed.

Lemma calculate_none (service : SybilResistanceService) (user : string) (w : Q) :
  getLatestSybilScore service user = None ->
  calculateSybilWeightedVote service user w = None.
Proof. intros H. unfold calculateSybilWeightedVote. rewrite H. reflexivity. Qed.

Lemma fold_push (service : SybilResistanceService) (votes : list Vote) :
  forall acc,
    (Exists (fun v => getLatestSybilScore service (vote_userId v) = None) votes
     /\ fold_left (pushWeighted service) votes (Some acc) = None)
    \/ (exists entries,
          fold_left (pushWeighted service) votes (Some acc)
          = Some (acc ++ entries)%list
          /\ Forall2 (weighs service) votes entries).
Proof.
  induction votes as [|v votes IH]; intros acc.
  - right. exists []. rewrite app_nil_r. split; [reflexivity|constructor].
  - cbn [fold_left pushWeighted].
    destruct (getLatestSybilScore service (vote_userId v)) as [score|] eqn:Hs.
    + destruct (calculate_some service (vote_userId v) (vote_baseWeight v) Hs)
        as [weighted [Hw [Hu [Hb [Hsc [Hm Hf]]]]]].
      rewrite Hw.
      destruct (IH (acc ++ [entryOf weighted])%list)
        as [[Hex Hnone] | [entries [Hsome Hall]]].
      * left. split; [apply Exists_cons_tl; exact Hex | exact Hnone].
      * right. exists (entryOf weighted :: entries).
        rewrite Hsome, <- app_assoc. split; [reflexivity|].
        constructor; [|exact Hall].
        exists score. unfold entryOf. cbn.
        repeat split; assumption.
    + rewrite (calculate_none service _ _ Hs), fold_push_none.
      left. split; [apply Exists_cons_hd; exact Hs | reflexivity].
Qed.

(** The batch is all or nothing: it is rejected exactly when the score of
    some voter cannot be obtained; otherwise it returns one entry per
    vote, in the order of the votes, each carrying the voter, the base
    weight and the weight scaled by 0.5 + 0.5 score. *)
Theorem weighted_votes_all_or_nothing (service : SybilResistanceService)
    (votes : list Vote) :
  (calculateSybilWeightedVotes service votes = None
   <-> Exists (fun v => getLatestSybilScore service (vote_userId v) = None) votes)
  /\ (forall results,
        calculateSybilWeightedVotes service votes = Some results ->
        Forall2 (weighs service) votes results).
Proof.
  unfold calculateSybilWeightedVotes.
  destruct (fold_push service votes []) as [[Hex Hnone] | [entries [Hsome Hall]]].
  - rewrite Hnone. split; [tauto|]. intros results H. discriminate H.
  - rewrite Hsome. cbn [app]. split.
    + split; [discriminate|]. intros Hex. exfalso.
      clear Hsome. induction Hall as [|v e votes' entries' Hw _ IH].
      * inversion Hex.
      * inversion Hex as [? ? Hfail | ? ? Hrest]; subst.
        -- destruct Hw as [score [Hs _]]. congruence.
        -- apply IH. exact Hrest.
    + intros results H. injection H as <-. exact Hall.
Qed.

Lemma weighted_votes_all_or_nothing_witness :
  calculateSybilWeightedVotes testService
    [mkVote "user-1" "TRUE" 100; mkVote "user-4" "TRUE" 100] = None
  /\ exists results,
       calculateSybilWeightedVotes testService testVotes = Some results
       /\ Forall2 (weighs testService) testVotes results.
Proof.
  split.
  - apply (proj1 (weighted_votes_all_or_nothing testService _)).
    apply Exists_cons_tl. apply Exists_cons_hd. reflexivity.
  - eexists. split; [vm_compute; reflexivity|].
    apply (proj2 (weighted_votes_all_or_nothing testService testVotes)).
    vm_compute. reflexivity.
Defined.




Lemma countEligible_le_length (service : SybilResistanceService) (m : Q)
    (userIds : list string) :
  (countEligible service m userIds <= List.length userIds)%nat.
Proof. unfold countEligible. apply filter_length_le. Qed.

Lemma countEligible_cons (service : SybilResistanceService) (m : Q)
    (u : string) (userIds : list string) (score : SybilScore) :
  getLatestSybilScore service u = Some score ->
  countEligible service m (u :: userIds)
  = ((if Qle_bool m (compositeScore score) then 1 else 0)
     + countEligible service m userIds)%nat.
Proof.
  intros H. unfold countEligible. cbn [List.filter]. rewrite H.
  destruct (Qle_bool m (compositeScore score)); reflexivity.
Qed.

(** Raising the threshold never makes more users eligible. *)
Lemma countEligible_antitone (service : SybilResistanceService) (m m' : Q)
    (userIds : list string) :
  m <= m' ->
  (countEligible service m' userIds <= countEligible service m userIds)%nat.
Proof.
  intros Hle. unfold countEligible.
  induction userIds as [|u userIds IH]; [apply Nat.le_refl|].
  cbn [List.filter].
  destruct (getLatestSybilScore service u) as [score|]; [|exact IH].
  destruct (Qle_bool m' (compositeScore score)) eqn:E'.
  - apply Qle_bool_iff in E'.
    assert (E : Qle_bool m (compositeScore score) = true)
      by (apply Qle_bool_iff; lra).
    rewrite E. cbn [List.length]. lia.
  - destruct (Qle_bool m (compositeScore score)); cbn [List.length]; lia.
Qed.

Lemma fold_eligibility (service : SybilResistanceService) (m : Q)
    (userIds : list string) :
  Forall (fun u => getLatestSybilScore service u <> None) userIds ->
  forall details n,
    exists added,
      fold_left (eligibilityStep service m) userIds (Some (details, n))
      = Some ((details ++ added)%list, (n + countEligible service m userIds)%nat)
      /\ map ed_userId added = userIds.
Proof.
  induction 1 as [|u userIds Hu _ IH]; intros details n.
  - exists []. cbn. rewrite app_nil_r, Nat.add_0_r. split; reflexivity.
  - cbn [fold_left eligibilityStep]. unfold meetsMinimumSybilScore.
    destruct (getLatestSybilScore service u) as [score|] eqn:Hs; [|congruence].
    cbn [el_userId currentScore eligible].
    match goal with
    | |- context [fold_left _ userIds (Some (?d1, ?n1))] =>
        destruct (IH d1 n1) as [added [Hfold Hids]]
    end.
    exists (mkEligibilityDetail u (compositeScore score)
              (Qle_bool m (compositeScore score)) :: added).
    rewrite Hfold, <- app_assoc. cbn [app map ed_userId].
    rewrite (@countEligible_cons service m u userIds score Hs), Hids.
    split; [|reflexivity]. f_equal. f_equal.
    destruct (Qle_bool m (compositeScore score)); lia.
Qed.

(** The eligibility report over users whose scores can be obtained:
    totalUsers is the number of users asked about, eligibleUsers the
    number of them whose score is at least the threshold, the two counts
    add up to the total, there is one detail per user in the order given,
    and a higher threshold never reports more eligible users. *)
Theorem eligibility_report_counts (service : SybilResistanceService)
    (userIds : list string) (minimumScore : Q) :
  Forall (fun u => getLatestSybilScore service u <> None) userIds ->
  exists report,
    getParticipationEligibility service userIds (Some minimumScore) = Some report
    /\ totalUsers report = List.length userIds
    /\ eligibleUsers report = countEligible service minimumScore userIds
    /\ (eligibleUsers report + ineligibleUsers report)%nat = totalUsers report
    /\ map ed_userId (reportDetails report) = userIds
    /\ (forall higher report',
          minimumScore <= higher ->
          getParticipationEligibility service userIds (Some higher) = Some report' ->
          (eligibleUsers report' <= eligibleUsers report)%nat).
Proof.
  intros Hall. unfold getParticipationEligibility.
  destruct (@fold_eligibility service minimumScore userIds Hall [] 0%nat) as [added [Hfold Hids]].
  rewrite Hfold. eexists. split; [reflexivity|].
  cbn [totalUsers eligibleUsers ineligibleUsers reportDetails app Nat.add].
  pose proof (countEligible_le_length service minimumScore userIds) as Hle.
  split; [reflexivity|]. split; [reflexivity|]. split; [lia|].
  split; [exact Hids|].
  intros higher report' Hhigher Hrun.
  destruct (@fold_eligibility service higher userIds Hall [] 0%nat) as [added' [Hfold' _]].
  rewrite Hfold' in Hrun. injection Hrun as <-.
  cbn [eligibleUsers Nat.add]. apply countEligible_antitone. exact Hhigher.
Qed.

Lemma eligibility_report_counts_witness :
  Forall (fun u => getLatestSybilScore testService u <> None)
    ["user-1"; "user-2"; "user-3"]%string
  /\ exists report,
       getParticipationEligibility testService
         ["user-1"; "user-2"; "user-3"]%string (Some (1 # 2)) = Some report
       /\ eligibleUsers report = 2%nat
       /\ ineligibleUsers report = 1%nat
       /\ eligibilityRate report = "66.67%"%string.
Proof.
  assert (H : Forall (fun u => getLatestSybilScore testService u <> None)
                ["user-1"; "user-2"; "user-3"]%string).
  { repeat (apply Forall_cons || apply Forall_nil); vm_compute; discriminate. }
  split; [exact H|].
  destruct (@eligibility_report_counts testService _ (1 # 2) H)
    as [report [Hrun _]].
  exists report. split; [exact Hrun|].
  vm_compute in Hrun. injection Hrun as <-.
  repeat split; reflexivity.
Defined.

End SybilBatchFacts.

(** ** idempotency-design.md: exactly-once, balances and the replay loop *)

Module IndexerMoreFacts.

Import Effects Indexer IndexerFacts.
Open Scope Z_scope.

Lemma matches_recordOf (e : BlockchainEvent) (n : nat) (now : Z) :
  matches e (recordOf e n now) = true.
Proof.
  unfold matches, recordOf. cbn.
  rewrite String.eqb_refl, !Z.eqb_refl. reflexivity.
Qed.

(** [updateBalances] reads token_balances only. *)
Lemma updateBalances_reads (d : TransferData) (now : Z) (db db' : Db) :
  token_balances db' = token_balances db ->
  fst (updateBalances d now db') = fst (updateBalances d now db)
  /\ token_balances (snd (updateBalances d now db'))
     = token_balances (snd (updateBalances d now db)).
Proof.
  intros H. unfold updateBalances. rewrite H.
  destruct (amount d) as [a|]; [|split; [reflexivity|exact H]].
  destruct (adjustBalance (from d) (token d) (- a)%Q now (token_balances db))
    as [decreased|]; [|split; [reflexivity|exact H]].
  destruct (adjustBalance (to d) (token d) a now decreased);
    split; reflexivity.
Qed.

(** What a call that resolves has done. *)
Lemma processEvent_resolved (event : BlockchainEvent) (now : Z) (db : Db) :
  fst (processEvent event now db) = Resolved tt ->
  isProcessed event (snd (processEvent event now db)) = true
  /\ (isProcessed event db = false ->
      processed_events (snd (processEvent event now db))
      = (processed_events db
         ++ [recordOf event (processed_events_id_seq db) now])%list
      /\ indexer_checkpoint (snd (processEvent event now db))
         = indexer_checkpoint (updateCheckpoint (blockNumber event) now db)
      /\ (eventType event = "Transfer"%string ->
          fst (updateBalances (data event) now db) = Resolved tt
          /\ token_balances (snd (processEvent event now db))
             = token_balances (snd (updateBalances (data event) now db)))
      /\ (eventType event <> "Transfer"%string ->
          token_balances (snd (processEvent event now db)) = token_balances db))
  /\ (isProcessed event db = true ->
      processed_events (snd (processEvent event now db)) = processed_events db
      /\ indexer_checkpoint (snd (processEvent event now db))
         = indexer_checkpoint db
      /\ token_balances (snd (processEvent event now db)) = token_balances db)
  /\ forall later,
       processEvent event later (snd (processEvent event now db))
       = (Resolved tt,
          mkDb (processed_events (snd (processEvent event now db)))
            (processed_events_id_seq (snd (processEvent event now db)))
            (token_balances (snd (processEvent event now db)))
            (indexer_checkpoint (snd (processEvent event now db)))
            (console (snd (processEvent event now db))
             ++ ["Event already processed, skipping"%string])).
Proof.
  intros Hres.
  assert (Hsel : selectError event = None).
  { unfold processEvent in Hres.
    destruct (selectError event); [discriminate Hres|reflexivity]. }
  assert (Hp : isProcessed event (snd (processEvent event now db)) = true).
  { destruct (processEvent_step event now db)
      as [[Hrows [_ [_ Hdup]]] | [_ [_ [Hrows _]]]].
    - unfold isProcessed. rewrite Hrows. apply Hdup. exact Hres.
    - unfold isProcessed. rewrite Hrows, existsb_app. cbn [existsb].
      rewrite matches_recordOf, orb_true_r. reflexivity. }
  split; [exact Hp|]. split; [|split].
  - intros Hnew. revert Hres. unfold processEvent. rewrite Hsel.
    rewrite selectExisting_test, Hnew.
    unfold insertProcessedEvent.
    destruct (insertError event) as [code|]; [discriminate|].
    unfold isProcessed in Hnew. rewrite Hnew.
    destruct (String.eqb_spec (eventType event) "Transfer") as [Ht|Ht].
    + match goal with
      | |- context [updateBalances ?d ?n ?db1] =>
          destruct (updateBalances_frame d n db1) as [Hrows [_ [Hcp _]]];
          destruct (@updateBalances_reads d n db db1 eq_refl) as [Hfst Htok];
          destruct (updateBalances d n db1) as [[u|error] db2]
      end; cbn [fst snd processed_events indexer_checkpoint token_balances] in *;
        [|discriminate].
      intros _. destruct u.
      cbn [updateCheckpoint processed_events indexer_checkpoint token_balances].
      split; [exact Hrows|].
      split; [rewrite Hcp; reflexivity|].
      split; [intros _; split; [symmetry; exact Hfst | exact Htok]|].
      intros Hno. contradiction.
    + intros _. cbn [fst snd updateCheckpoint processed_events indexer_checkpoint
                     token_balances].
      split; [reflexivity|]. split; [reflexivity|].
      split; [intros Hyes; contradiction|]. intros _. reflexivity.
  - intros Hold. unfold processEvent. rewrite Hsel.
    rewrite selectExisting_test, Hold. cbn. repeat split; reflexivity.
  - intros later. unfold processEvent at 1. rewrite Hsel.
    rewrite selectExisting_test, Hp. reflexivity.
Qed.



Open Scope Q_scope.

Lemma adjustBalance_keys (who tok : string) (delta : Q) (now : Z)
    (bs bs' : list TokenBalance) :
  adjustBalance who tok delta now bs = Some bs' ->
  map balanceKey bs' = map balanceKey bs.
Proof.
  revert bs'. induction bs as [|b bs IH]; intros bs' H; cbn [adjustBalance] in H.
  - injection H as <-. reflexivity.
  - destruct (adjustBalance who tok delta now bs) as [rest|]; [|discriminate].
    specialize (IH rest eq_refl).
    destruct (String.eqb (address b) who && String.eqb (token_address b) tok)%bool.
    + destruct (Postgres.decimal36_18 (balance b + delta)) as [stored|];
        [|discriminate].
      injection H as <-. cbn [map]. rewrite IH. reflexivity.
    + injection H as <-. cbn [map]. rewrite IH. reflexivity.
Qed.

Lemma adjustBalance_holds (who tok who' tok' : string) (delta : Q) (now : Z)
    (bs bs' : list TokenBalance) :
  adjustBalance who tok delta now bs = Some bs' ->
  holds who' tok' bs' = holds who' tok' bs.
Proof.
  revert bs'. induction bs as [|b bs IH]; intros bs' H; cbn [adjustBalance] in H.
  - injection H as <-. reflexivity.
  - destruct (adjustBalance who tok delta now bs) as [rest|]; [|discriminate].
    specialize (IH rest eq_refl). unfold holds in *.
    destruct (String.eqb (address b) who && String.eqb (token_address b) tok)%bool.
    + destruct (Postgres.decimal36_18 (balance b + delta)) as [stored|];
        [|discriminate].
      injection H as <-. cbn [existsb address token_address]. rewrite IH.
      reflexivity.
    + injection H as <-. cbn [existsb]. rewrite IH. reflexivity.
Qed.

Lemma holds_key (who tok : string) (bs : list TokenBalance) :
  holds who tok bs = true -> In (who, tok) (map balanceKey bs).
Proof.
  unfold holds. intros H. apply existsb_exists in H. destruct H as [b [Hin Hb]].
  apply andb_true_iff in Hb. destruct Hb as [Ha Ht].
  apply String.eqb_eq in Ha. apply String.eqb_eq in Ht.
  apply in_map_iff. exists b. split; [|exact Hin].
  unfold balanceKey. congruence.
Qed.

(** *** DECIMAL(36,18) *)

Lemma floor_half (n : Z) (y : Q) : y == inject_Z n -> Qfloor (y + (1 # 2)) = n.
Proof.
  intros H. apply Z.le_antisymm.
  - apply JsFacts.floor_le. rewrite H. lra.
  - apply JsFacts.floor_ge. rewrite H. lra.
Qed.

Lemma roundHalfAway_whole (n : Z) (y : Q) :
  y == inject_Z n -> Postgres.roundHalfAway y = n.
Proof.
  intros H. unfold Postgres.roundHalfAway.
  destruct (Qle_bool 0 y); [apply floor_half; exact H|].
  assert (Hn : - y == inject_Z (- n)) by (rewrite H, inject_Z_opp; reflexivity).
  rewrite (floor_half Hn). lia.
Qed.

Lemma scale18_whole (x : Q) (n : Z) :
  x * inject_Z (10 ^ 18) == inject_Z n -> Postgres.scale18 x.
Proof.
  intros H. unfold Postgres.scale18.
  rewrite (Qfloor_comp _ _ H), Qfloor_Z. exact H.
Qed.

Lemma scale18_plus (x y : Q) :
  Postgres.scale18 x -> Postgres.scale18 y -> Postgres.scale18 (x + y).
Proof.
  unfold Postgres.scale18 at 1 2. intros Hx Hy.
  apply (@scale18_whole (x + y)
           (Qfloor (x * inject_Z (10 ^ 18)) + Qfloor (y * inject_Z (10 ^ 18)))%Z).
  rewrite inject_Z_plus.
  apply Qeq_trans with (x * inject_Z (10 ^ 18) + y * inject_Z (10 ^ 18));
    [ring|]. apply Qplus_comp; assumption.
Qed.

Lemma scale18_opp (x : Q) : Postgres.scale18 x -> Postgres.scale18 (- x).
Proof.
  unfold Postgres.scale18 at 1. intros Hx.
  apply (@scale18_whole (- x) (- Qfloor (x * inject_Z (10 ^ 18)))%Z).
  rewrite inject_Z_opp.
  apply Qeq_trans with (- (x * inject_Z (10 ^ 18))); [ring|].
  apply Qopp_comp. exact Hx.
Qed.

(** A value with at most 18 decimals is stored as it is. *)
Lemma decimal36_18_exact (x v : Q) :
  Postgres.scale18 x -> Postgres.decimal36_18 x = Some v -> v == x.
Proof.
  unfold Postgres.decimal36_18. intros Hx H.
  rewrite (roundHalfAway_whole Hx) in H.
  destruct (Z.ltb (Z.abs (Qfloor (x * inject_Z (10 ^ 18)))) (10 ^ 36));
    [|discriminate].
  injection H as <-.
  apply Qeq_trans with (x * inject_Z (10 ^ 18) / inject_Z (10 ^ 18));
    [|field; discriminate].
  apply Qmult_comp; [symmetry; exact Hx|reflexivity].
Qed.

Lemma decimal36_18_scale (x v : Q) :
  Postgres.decimal36_18 x = Some v -> Postgres.scale18 v.
Proof.
  unfold Postgres.decimal36_18. intros H.
  destruct (Z.ltb (Z.abs (Postgres.roundHalfAway (x * inject_Z (10 ^ 18))))
              (10 ^ 36)); [|discriminate].
  injection H as <-.
  apply (@scale18_whole _ (Postgres.roundHalfAway (x * inject_Z (10 ^ 18)))).
  change (Z.pow_pos 10 18) with (10 ^ 18)%Z.
  field. discriminate.
Qed.

(** The balances of a table all have at most 18 decimals. *)
Lemma adjustBalance_scale (who tok : string) (delta : Q) (now : Z)
    (bs bs' : list TokenBalance) :
  Forall (fun b => Postgres.scale18 (balance b)) bs ->
  adjustBalance who tok delta now bs = Some bs' ->
  Forall (fun b => Postgres.scale18 (balance b)) bs'.
Proof.
  intros Hall. revert bs'.
  induction Hall as [|b bs Hb _ IH]; intros bs' H; cbn [adjustBalance] in H.
  - injection H as <-. constructor.
  - destruct (adjustBalance who tok delta now bs) as [rest|]; [|discriminate].
    specialize (IH rest eq_refl).
    destruct (String.eqb (address b) who && String.eqb (token_address b) tok)%bool.
    + destruct (Postgres.decimal36_18 (balance b + delta)) as [stored|] eqn:E;
        [|discriminate].
      injection H as <-. constructor; [|exact IH].
      cbn [balance]. eapply decimal36_18_scale. exact E.
    + injection H as <-. constructor; assumption.
Qed.

(** One UPDATE of amounts with at most 18 decimals moves the total of its
    token by [delta] when the account has a row, and by nothing
    otherwise. *)
Lemma totalBalance_adjust (who tok : string) (delta : Q) (now : Z)
    (bs bs' : list TokenBalance) :
  NoDup (map balanceKey bs) ->
  Postgres.scale18 delta ->
  Forall (fun b => Postgres.scale18 (balance b)) bs ->
  adjustBalance who tok delta now bs = Some bs' ->
  totalBalance tok bs'
  == totalBalance tok bs + (if holds who tok bs then delta else 0).
Proof.
  intros Hnd Hdelta Hall. revert bs' Hnd.
  induction Hall as [|b bs Hb Hall IH]; intros bs' Hnd H; cbn [adjustBalance] in H.
  - injection H as <-. cbn. ring.
  - cbn [map] in Hnd. inversion Hnd as [|k ks Hnotin Hnd']; subst.
    unfold holds. cbn [existsb]. fold (holds who tok bs).
    destruct (adjustBalance who tok delta now bs) as [rest|] eqn:Hrest;
      [|discriminate].
    specialize (IH rest Hnd' eq_refl).
    destruct (String.eqb_spec (address b) who) as [Ea|Ea];
      destruct (String.eqb_spec (token_address b) tok) as [Et|Et];
      cbn [andb orb] in H |- *.
    + destruct (Postgres.decimal36_18 (balance b + delta)) as [stored|] eqn:E;
        [|discriminate].
      injection H as <-.
      assert (Hno : holds who tok bs = false).
      { destruct (holds who tok bs) eqn:Hh; [|reflexivity].
        exfalso. apply Hnotin. apply holds_key in Hh.
        unfold balanceKey at 1. rewrite Ea, Et. exact Hh. }
      rewrite Hno in IH.
      pose proof (decimal36_18_exact (scale18_plus Hb Hdelta) E) as Hv.
      cbn [totalBalance token_address balance].
      rewrite Et. destruct (String.eqb_spec tok tok); [|congruence].
      rewrite IH, Hv. ring.
    + injection H as <-. cbn [totalBalance].
      destruct (String.eqb_spec (token_address b) tok); [contradiction|].
      rewrite IH. ring.
    + injection H as <-. cbn [totalBalance].
      destruct (String.eqb_spec (token_address b) tok); [|contradiction].
      rewrite IH. ring.
    + injection H as <-. cbn [totalBalance].
      destruct (String.eqb_spec (token_address b) tok); [contradiction|].
      rewrite IH. ring.
Qed.

Lemma totalBalance_other (who tok other : string) (delta : Q) (now : Z)
    (bs bs' : list TokenBalance) :
  other <> tok ->
  adjustBalance who tok delta now bs = Some bs' ->
  totalBalance other bs' == totalBalance other bs.
Proof.
  intros Hne. revert bs'.
  induction bs as [|b bs IH]; intros bs' H; cbn [adjustBalance] in H.
  - injection H as <-. reflexivity.
  - destruct (adjustBalance who tok delta now bs) as [rest|]; [|discriminate].
    specialize (IH rest eq_refl).
    destruct (String.eqb (address b) who && String.eqb (token_address b) tok)%bool
      eqn:E.
    + destruct (Postgres.decimal36_18 (balance b + delta)) as [stored|];
        [|discriminate].
      injection H as <-.
      apply andb_true_iff in E. destruct E as [_ Et]. apply String.eqb_eq in Et.
      cbn [totalBalance token_address balance]. rewrite IH.
      destruct (String.eqb_spec (token_address b) other); [congruence|reflexivity].
    + injection H as <-. cbn [totalBalance]. rewrite IH. reflexivity.
Qed.

(** A transfer that resolves never creates or removes a balance row, and
    leaves the totals of the other tokens as they are.  When the amount
    has at most 18 decimals, as the stored balances have, the total of
    its token moves by the amount credited minus the amount debited: it
    is conserved when sender and receiver both have a row (or neither
    has), and drops by the amount when only the sender has one, since no
    row is created for the receiver. *)
Theorem updateBalances_total (d : TransferData) (now : Z) (db : Db) (a : Q) :
  amount d = Some a ->
  NoDup (map balanceKey (token_balances db)) ->
  fst (updateBalances d now db) = Resolved tt ->
  map balanceKey (token_balances (snd (updateBalances d now db)))
  = map balanceKey (token_balances db)
  /\ (forall other, other <> token d ->
        totalBalance other (token_balances (snd (updateBalances d now db)))
        == totalBalance other (token_balances db))
  /\ (Postgres.scale18 a ->
      Forall (fun b => Postgres.scale18 (balance b)) (token_balances db) ->
      totalBalance (token d) (token_balances (snd (updateBalances d now db)))
      == totalBalance (token d) (token_balances db)
         + (if holds (to d) (token d) (token_balances db) then a else 0)
         - (if holds (from d) (token d) (token_balances db) then a else 0)).
Proof.
  intros Ha Hnd. unfold updateBalances. rewrite Ha.
  destruct (adjustBalance (from d) (token d) (- a) now (token_balances db))
    as [decreased|] eqn:E1; [|discriminate].
  destruct (adjustBalance (to d) (token d) a now decreased)
    as [increased|] eqn:E2; [|discriminate].
  intros _. cbn [fst snd token_balances].
  pose proof (adjustBalance_keys _ _ _ _ _ E1) as K1.
  pose proof (adjustBalance_keys _ _ _ _ _ E2) as K2.
  split; [rewrite K2, K1; reflexivity|]. split.
  - intros other Hne.
    rewrite (totalBalance_other _ _ _ _ Hne E2).
    apply (totalBalance_other _ _ _ _ Hne E1).
  - intros Hscale Hall.
    rewrite (@totalBalance_adjust (to d) (token d) a now decreased increased)
      by (try (rewrite K1; exact Hnd); try exact Hscale; try exact E2;
          eapply adjustBalance_scale; eassumption).
    rewrite (adjustBalance_holds _ _ _ _ _ _ _ E1).
    rewrite (@totalBalance_adjust (from d) (token d) (- a) now
               (token_balances db) decreased Hnd (scale18_opp Hscale) Hall E1).
    destruct (holds (to d) (token d) (token_balances db));
      destruct (holds (from d) (token d) (token_balances db)); ring.
Qed.

Lemma updateBalances_total_witness :
  amount aliceToCarol = Some 3
  /\ NoDup (map balanceKey (token_balances ledger))
  /\ fst (updateBalances aliceToCarol 0 ledger) = Resolved tt
  /\ totalBalance "0xT" (token_balances ledger) == 12
  /\ totalBalance "0xT" (token_balances (snd (updateBalances aliceToBob 0 ledger)))
     == 12
  /\ totalBalance "0xT" (token_balances (snd (updateBalances aliceToCarol 0 ledger)))
     == 9.
Proof.
  assert (Ha : amount aliceToCarol = Some 3) by reflexivity.
  assert (Hb : amount aliceToBob = Some 3) by reflexivity.
  assert (Hnd : NoDup (map balanceKey (token_balances ledger))).
  { cbn. repeat constructor; cbn; intuition discriminate. }
  assert (Hr1 : fst (updateBalances aliceToBob 0 ledger) = Resolved tt)
    by (vm_compute; reflexivity).
  assert (Hr2 : fst (updateBalances aliceToCarol 0 ledger) = Resolved tt)
    by (vm_compute; reflexivity).
  assert (Hs : Postgres.scale18 3) by (vm_compute; reflexivity).
  assert (Hall : Forall (fun b => Postgres.scale18 (balance b))
                   (token_balances ledger)).
  { repeat (apply Forall_cons || apply Forall_nil); vm_compute; reflexivity. }
  split; [exact Ha|]. split; [exact Hnd|]. split; [exact Hr2|].
  split; [vm_compute; reflexivity|].
  destruct (@updateBalances_total aliceToBob 0 ledger 3 Hb Hnd Hr1)
    as [_ [_ H1]].
  destruct (@updateBalances_total aliceToCarol 0 ledger 3 Ha Hnd Hr2)
    as [_ [_ H2]].
  split; [rewrite (H1 Hs Hall) | rewrite (H2 Hs Hall)]; vm_compute; reflexivity.
Defined.

(** An amount below half a unit of the last decimal moves nothing, and a
    balance of 10^18 or more is refused. *)
Lemma updateBalances_rounds :
  fst (updateBalances dust 0 ledger) = Resolved tt
  /\ (exists a b,
        map balance (token_balances (snd (updateBalances dust 0 ledger))) = [a; b]
        /\ a == 10 /\ b == 2)
  /\ fst (updateBalances fortune 0 ledger) = Resolved tt
  /\ fst (updateBalances fortune 0 (snd (updateBalances fortune 0 ledger)))
     = Rejected (QueryFailedError "22003").
Proof.
  split; [vm_compute; reflexivity|].
  split.
  { eexists. eexists. split; [vm_compute; reflexivity|].
    split; vm_compute; reflexivity. }
  split; vm_compute; reflexivity.
Qed.

Close Scope Q_scope.

(** The rows the replay loop appends when it starts at [block] and the
    chain has no event at block [gap]: all of them lie below [gap]. *)
Lemma replayLoop_stops (chain : list BlockchainEvent) (now block : Z) (db : Db) :
  forall gap,
    block <= gap ->
    fetchEventsForBlock chain gap = [] ->
    exists new,
      processed_events (snd (replayLoop chain now block db))
      = (processed_events db ++ new)%list
      /\ Forall (fun row => block_number row < gap) new.
Proof.
  funelim (replayLoop chain now block db); intros gap Hle Hgap.
  - exists []. cbn. rewrite app_nil_r. split; [reflexivity|constructor].
  - assert (Hlt : block < gap).
    { destruct (Z.eq_dec block gap) as [->|]; [congruence|lia]. }
    destruct (H gap ltac:(lia) Hgap) as [new2 [Hnew2 Hall2]].
    destruct (processEvents_rows (e :: es) now db) as [new1 [Hnew1 Hall1]].
    rewrite Heq in Hnew1. cbn [snd] in Hnew1.
    exists (new1 ++ new2)%list. rewrite Hnew2, Hnew1, <- app_assoc.
    split; [reflexivity|]. apply Forall_app. split; [|exact Hall2].
    eapply Forall_impl; [|exact Hall1].
    intros row [x [Hin Hb]]. rewrite Hb.
    rewrite <- Hfetch in Hin. unfold fetchEventsForBlock in Hin.
    apply filter_In in Hin. destruct Hin as [_ Hx].
    apply Z.eqb_eq in Hx. lia.
  - assert (Hlt : block < gap).
    { destruct (Z.eq_dec block gap) as [->|]; [congruence|lia]. }
    destruct (processEvents_rows (e :: es) now db) as [new1 [Hnew1 Hall1]].
    rewrite Heq in Hnew1. cbn [snd] in Hnew1 |- *.
    exists new1. split; [exact Hnew1|].
    eapply Forall_impl; [|exact Hall1].
    intros row [x [Hin Hb]]. rewrite Hb.
    rewrite <- Hfetch in Hin. unfold fetchEventsForBlock in Hin.
    apply filter_In in Hin. destruct Hin as [_ Hx].
    apply Z.eqb_eq in Hx. lia.
Qed.

(** The replay stops at the first block without events: when the chain
    has no event at some block [gap] at or after the start block, the
    replay leaves no recorded event at or beyond [gap].  The rows it
    deleted there are not recorded again, and the events of the chain
    beyond the gap are left unprocessed. *)
Theorem replay_stops_at_gap (chain : list BlockchainEvent)
    (startBlock now : Z) (db : Db) (gap : Z) :
  startBlock <= gap ->
  fetchEventsForBlock chain gap = [] ->
  (forall row,
      In row (processed_events (snd (replayFromBlock chain startBlock now db))) ->
      block_number row < gap)
  /\ (forall e,
        gap <= blockNumber e ->
        isProcessed e (snd (replayFromBlock chain startBlock now db)) = false).
Proof.
  intros Hle Hgap.
  assert (Hrows : forall row,
            In row (processed_events
                      (snd (replayFromBlock chain startBlock now db))) ->
            block_number row < gap).
  { intros row Hin. unfold replayFromBlock in Hin.
    destruct (@replayLoop_stops chain now startBlock (deleteFromBlock startBlock db)
                gap Hle Hgap)
      as [new [Hnew Hall]].
    rewrite Hnew in Hin. apply in_app_or in Hin. destruct Hin as [Hin|Hin].
    - rewrite deleteFromBlock_rows in Hin. unfold rowsBelow in Hin.
      apply filter_In in Hin. destruct Hin as [_ Hlt].
      apply Z.ltb_lt in Hlt. lia.
    - rewrite Forall_forall in Hall. apply Hall. exact Hin. }
  split; [exact Hrows|].
  intros e He.
  destruct (isProcessed e (snd (replayFromBlock chain startBlock now db))) eqn:Hp;
    [|reflexivity].
  exfalso. unfold isProcessed in Hp. apply existsb_exists in Hp.
  destruct Hp as [row [Hin Hm]]. specialize (Hrows row Hin).
  unfold matches in Hm. apply andb_true_iff in Hm. destruct Hm as [_ Hb].
  apply Z.eqb_eq in Hb. lia.
Qed.

Lemma replay_stops_at_gap_witness :
  100 <= 101
  /\ fetchEventsForBlock gappedChain 101 = []
  /\ isProcessed mintAt102 (afterCalls gappedChain 0 dbAt99) = true
  /\ isProcessed mintAt102
       (snd (replayFromBlock gappedChain 100 0 (afterCalls gappedChain 0 dbAt99)))
     = false.
Proof.
  assert (H1 : 100 <= 101) by lia.
  assert (H2 : fetchEventsForBlock gappedChain 101 = []) by reflexivity.
  split; [exact H1|]. split; [exact H2|].
  split; [vm_compute; reflexivity|].
  apply (proj2 (@replay_stops_at_gap gappedChain 100 0
                  (afterCalls gappedChain 0 dbAt99) 101 H1 H2)).
  cbn. lia.
Defined.

(** *** UNIQUE(tx_hash, log_index, block_number) is never violated *)

Lemma matches_key (e : BlockchainEvent) (r : ProcessedEvent) :
  matches e r = true <-> eventKey r = (txHash e, logIndex e, blockNumber e).
Proof.
  unfold matches, eventKey.
  rewrite !andb_true_iff, String.eqb_eq, !Z.eqb_eq.
  split; [intros [[-> ->] ->]; reflexivity | intros H; injection H; auto].
Qed.

Lemma processEvent_unique (event : BlockchainEvent) (now : Z) (db : Db) :
  uniqueEvents db -> uniqueEvents (snd (processEvent event now db)).
Proof.
  unfold uniqueEvents. intros Hu.
  destruct (processEvent_step event now db)
    as [[Hrows _] | [_ [Hnot [Hrows _]]]]; rewrite Hrows; [exact Hu|].
  rewrite map_app. cbn [map]. apply NoDup_app; [exact Hu| |].
  - constructor; [intros []|constructor].
  - intros k Hk [<- | []]. apply in_map_iff in Hk.
    destruct Hk as [r [Hkey Hin]].
    assert (Hm : matches event r = true).
    { apply matches_key. rewrite Hkey. reflexivity. }
    unfold isProcessed in Hnot.
    assert (Hex : existsb (matches event) (processed_events db) = true).
    { apply existsb_exists. exists r. split; assumption. }
    congruence.
Qed.

Lemma processEvents_unique (events : list BlockchainEvent) (now : Z) :
  forall db, uniqueEvents db -> uniqueEvents (snd (processEvents events now db)).
Proof.
  induction events as [|e events IH]; intros db Hu; [exact Hu|].
  cbn [processEvents].
  pose proof (processEvent_unique e now Hu) as H1.
  destruct (processEvent e now db) as [[u|error] db1]; cbn [snd] in *.
  - apply IH. exact H1.
  - exact H1.
Qed.

Lemma replayLoop_unique (chain : list BlockchainEvent) (now block : Z) (db : Db) :
  uniqueEvents db -> uniqueEvents (snd (replayLoop chain now block db)).
Proof.
  intros Hu. funelim (replayLoop chain now block db).
  - exact Hu.
  - apply H. pose proof (processEvents_unique (e :: es) now Hu) as H1.
    rewrite Heq in H1. exact H1.
  - pose proof (processEvents_unique (e :: es) now Hu) as H1.
    rewrite Heq in H1. exact H1.
Qed.

Lemma deleteFromBlock_unique (startBlock : Z) (db : Db) :
  uniqueEvents db -> uniqueEvents (deleteFromBlock startBlock db).
Proof.
  unfold uniqueEvents, deleteFromBlock. cbn [processed_events].
  induction (processed_events db) as [|r rs IH]; intros Hnd; [constructor|].
  cbn [map] in Hnd. inversion Hnd as [|k ks Hnotin Hnd']; subst.
  cbn [List.filter].
  destruct (negb (Z.leb startBlock (block_number r))); [|apply IH; exact Hnd'].
  cbn [map]. constructor; [|apply IH; exact Hnd'].
  intros Hin. apply Hnotin. apply in_map_iff in Hin.
  destruct Hin as [x [Hx Hin]]. apply filter_In in Hin.
  apply in_map_iff. exists x. tauto.
Qed.

(** No event is ever recorded twice: whatever events are delivered, in
    whatever order and however often, and whatever replays are run,
    processed_events holds at most one row per (tx_hash, log_index,
    block_number). *)
Theorem processed_events_stay_unique (db : Db) :
  uniqueEvents db ->
  (forall events now, uniqueEvents (afterCalls events now db))
  /\ (forall chain startBlock now,
        uniqueEvents (snd (replayFromBlock chain startBlock now db))).
Proof.
  intros Hu. split.
  - intros events now. revert db Hu.
    induction events as [|e events IH]; intros db Hu; [exact Hu|].
    cbn [afterCalls fold_left]. apply IH. apply processEvent_unique. exact Hu.
  - intros chain startBlock now. unfold replayFromBlock.
    apply replayLoop_unique. apply deleteFromBlock_unique. exact Hu.
Qed.

Lemma processed_events_stay_unique_witness :
  uniqueEvents dbAt99
  /\ uniqueEvents (afterCalls [transferAt101; transferAt101; mintAt100] 0 dbAt99).
Proof.
  assert (H : uniqueEvents dbAt99) by apply NoDup_nil.
  split; [exact H|].
  exact (proj1 (@processed_events_stay_unique dbAt99 H) _ 0).
Defined.

(** *** A replay applies the transfers again *)

Lemma replayLoop_empty (chain : list BlockchainEvent) (now block : Z) (db : Db) :
  fetchEventsForBlock chain block = [] ->
  replayLoop chain now block db = (Resolved tt, db).
Proof.
  funelim (replayLoop chain now block db); intros Hempty.
  - reflexivity.
  - congruence.
  - congruence.
Qed.

Lemma replayLoop_last_block (chain : list BlockchainEvent) (now block : Z) (db : Db) :
  fetchEventsForBlock chain (block + 1) = [] ->
  replayLoop chain now block db
  = processEvents (fetchEventsForBlock chain block) now db.
Proof.
  funelim (replayLoop chain now block db); intros Hnext.
  - rewrite e. reflexivity.
  - rewrite Hfetch, Heq.
    rewrite (@replayLoop_empty chain now (block + 1) db' Hnext).
    destruct a. reflexivity.
  - rewrite Hfetch, Heq. reflexivity.
Qed.

(** What a replay that resolves does with a transfer of its start
    block. *)
Lemma replay_second_application (e : BlockchainEvent) (now later : Z)
    (db : Db) :
  eventType e = "Transfer"%string ->
  fst (replayFromBlock [e] (blockNumber e) later (snd (processEvent e now db)))
  = Resolved tt ->
  fst (updateBalances (data e) later (snd (processEvent e now db))) = Resolved tt
  /\ token_balances
       (snd (replayFromBlock [e] (blockNumber e) later (snd (processEvent e now db))))
     = token_balances
         (snd (updateBalances (data e) later (snd (processEvent e now db)))).
Proof.
  intros Htype.
  set (db1 := snd (processEvent e now db)).
  unfold replayFromBlock.
  assert (Hnext : fetchEventsForBlock [e] (blockNumber e + 1) = []).
  { unfold fetchEventsForBlock. cbn [List.filter].
    destruct (Z.eqb_spec (blockNumber e) (blockNumber e + 1)); [lia|reflexivity]. }
  assert (Hhere : fetchEventsForBlock [e] (blockNumber e) = [e]).
  { unfold fetchEventsForBlock. cbn [List.filter]. rewrite Z.eqb_refl. reflexivity. }
  rewrite (@replayLoop_last_block [e] later (blockNumber e)
             (deleteFromBlock (blockNumber e) db1) Hnext).
  rewrite Hhere. cbn [processEvents].
  assert (Hgone : isProcessed e (deleteFromBlock (blockNumber e) db1) = false).
  { destruct (isProcessed e (deleteFromBlock (blockNumber e) db1)) eqn:Hp;
      [|reflexivity].
    exfalso. unfold isProcessed in Hp. apply existsb_exists in Hp.
    destruct Hp as [row [Hin Hm]]. rewrite deleteFromBlock_rows in Hin.
    unfold rowsBelow in Hin. apply filter_In in Hin. destruct Hin as [_ Hlt].
    apply Z.ltb_lt in Hlt.
    unfold matches in Hm. apply andb_true_iff in Hm. destruct Hm as [_ Hb].
    apply Z.eqb_eq in Hb. lia. }
  destruct (processEvent e later (deleteFromBlock (blockNumber e) db1))
    as [[u|error] db2] eqn:Hrun; cbn [fst snd]; [|discriminate].
  intros _.
  assert (Hres : fst (processEvent e later (deleteFromBlock (blockNumber e) db1))
                 = Resolved tt) by (rewrite Hrun; destruct u; reflexivity).
  destruct (@processEvent_resolved e later
              (deleteFromBlock (blockNumber e) db1) Hres) as [_ [Hnew _]].
  destruct (Hnew Hgone) as [_ [_ [Htransfer _]]].
  destruct (Htransfer Htype) as [Hfst Htok].
  rewrite Hrun in Htok. cbn [snd] in Htok.
  destruct (@updateBalances_reads (data e) later db1
              (deleteFromBlock (blockNumber e) db1) eq_refl) as [Hfst' Htok'].
  split; [rewrite <- Hfst'; exact Hfst|].
  rewrite Htok, Htok'. reflexivity.
Qed.

(** Replay is not idempotent on balances.  A transfer that was not
    recorded and is processed has its balance update applied; a replay of
    the chain from its block that resolves has then deleted its record,
    processed it again and applied its balance update a second time, on
    top of the first. *)
Theorem replay_applies_transfer_again (e : BlockchainEvent) (now later : Z)
    (db : Db) :
  eventType e = "Transfer"%string ->
  fst (replayFromBlock [e] (blockNumber e) later (snd (processEvent e now db)))
  = Resolved tt ->
  (isProcessed e db = false -> fst (processEvent e now db) = Resolved tt ->
   token_balances (snd (processEvent e now db))
   = token_balances (snd (updateBalances (data e) now db)))
  /\ fst (updateBalances (data e) later (snd (processEvent e now db))) = Resolved tt
  /\ token_balances
       (snd (replayFromBlock [e] (blockNumber e) later (snd (processEvent e now db))))
     = token_balances
         (snd (updateBalances (data e) later (snd (processEvent e now db)))).
Proof.
  intros Htype Hreplay. split.
  - intros Hfresh Hfirst.
    destruct (@processEvent_resolved e now db Hfirst) as [_ [Hnew _]].
    destruct (Hnew Hfresh) as [_ [_ [Htransfer _]]].
    exact (proj2 (Htransfer Htype)).
  - exact (@replay_second_application e now later db Htype Hreplay).
Qed.

Lemma replay_applies_transfer_again_witness :
  eventType transferAt101 = "Transfer"%string
  /\ fst (replayFromBlock [transferAt101] 101 5
            (snd (processEvent transferAt101 0 ledger))) = Resolved tt
  /\ token_balances (snd (processEvent transferAt101 0 ledger))
     = token_balances (snd (updateBalances (data transferAt101) 0 ledger))
  /\ token_balances
       (snd (replayFromBlock [transferAt101] 101 5
               (snd (processEvent transferAt101 0 ledger))))
     = token_balances
         (snd (updateBalances (data transferAt101) 5
                 (snd (processEvent transferAt101 0 ledger)))).
Proof.
  assert (H1 : eventType transferAt101 = "Transfer"%string) by reflexivity.
  assert (H2 : fst (replayFromBlock [transferAt101] 101 5
                      (snd (processEvent transferAt101 0 ledger))) = Resolved tt)
    by (vm_compute; reflexivity).
  assert (H3 : isProcessed transferAt101 ledger = false) by reflexivity.
  assert (H4 : fst (processEvent transferAt101 0 ledger) = Resolved tt)
    by (vm_compute; reflexivity).
  destruct (@replay_applies_transfer_again transferAt101 0 5 ledger H1 H2)
    as [Hfirst [_ Hsecond]].
  split; [exact H1|]. split; [exact H2|].
  split; [exact (Hfirst H3 H4) | exact Hsecond].
Defined.

End IndexerMoreFacts.

(** ** RewardSyncService: what a call writes *)

Module SyncTables.

Import Effects JsString Rewards RewardsFacts.
Open Scope Z_scope.
Open Scope string_scope.

Lemma existsb_find (A : Type) (p : A -> bool) (l : list A) :
  existsb p l = match find p l with Some _ => true | None => false end.
Proof.
  induction l as [|x l IH]; [reflexivity|].
  cbn [existsb find]. destruct (p x); [reflexivity|exact IH].
Qed.

Lemma existsb_app_true (A : Type) (p : A -> bool) (l : list A) (x : A) :
  p x = true -> existsb p (l ++ [x]) = true.
Proof.
  intros H. rewrite existsb_app. cbn [existsb]. rewrite H, orb_true_r.
  reflexivity.
Qed.

Lemma find_app_new (A : Type) (p : A -> bool) (l : list A) (x : A) :
  find p l = None -> p x = true -> find p (l ++ [x]) = Some x.
Proof.
  induction l as [|y l IH]; cbn [app find]; intros Hnone Hx.
  - rewrite Hx. reflexivity.
  - destruct (p y); [discriminate|]. apply IH; assumption.
Qed.

Lemma sameKey_refl (txHash : string) (logIndex : Z) :
  sameKey txHash logIndex txHash logIndex = true.
Proof. apply sameKey_true. split; reflexivity. Qed.

(** A call for a claim: the tables after it. *)
Lemma processRewardClaim_writes (dto : RewardClaimEventDto.t) (w : World) :
  let key_tx := RewardClaimEventDto.txHash dto in
  let key_log := RewardClaimEventDto.logIndex dto in
  let w' := snd (RewardSyncService.processRewardClaim dto w) in
  reward_distributions w' = reward_distributions w
  /\ (storableClaim dto = true -> claimStored key_tx key_log w' = true)
  /\ (claimStored key_tx key_log w = true -> reward_claims w' = reward_claims w)
  /\ (exists added, rows (reward_claims w') = rows (reward_claims w) ++ added)%list.
Proof.
  cbv zeta. unfold claimStored.
  destruct (find (fun r => sameKey (RewardClaimEventDto.txHash dto)
                             (RewardClaimEventDto.logIndex dto)
                             (RewardClaim.txHash r) (RewardClaim.logIndex r))
              (rows (reward_claims w))) as [existing|] eqn:Hfind.
  - rewrite (processRewardClaim_duplicate _ _ Hfind).
    cbn [snd reward_claims reward_distributions].
    rewrite existsb_find, Hfind.
    repeat split. exists []. rewrite app_nil_r. reflexivity.
  - destruct (storableClaim dto) eqn:Hfits.
    + destruct (@processRewardClaim_insert dto w Hfits Hfind) as [line ->].
      cbn [snd reward_claims reward_distributions rows].
      split; [reflexivity|]. split.
      * intros _. apply existsb_app_true. cbn. apply sameKey_refl.
      * split.
        -- rewrite existsb_find, Hfind. discriminate.
        -- eexists. reflexivity.
    + destruct (@processRewardClaim_rejected dto w Hfind Hfits) as [error ->].
      cbn [snd reward_claims reward_distributions rows].
      split; [reflexivity|]. split; [discriminate|].
      split; [reflexivity|]. exists []. rewrite app_nil_r. reflexivity.
Qed.

(** The branches of [processRewardDistribution], as for a claim. *)
Lemma processRewardDistribution_duplicate (dto : RewardDistributionEventDto.t)
    (w : World) (existing : RewardDistribution.t) :
  find (fun r => sameKey (RewardDistributionEventDto.txHash dto)
                   (RewardDistributionEventDto.logIndex dto)
                   (RewardDistribution.txHash r) (RewardDistribution.logIndex r))
    (rows (reward_distributions w)) = Some existing ->
  exists line,
    RewardSyncService.processRewardDistribution dto w
    = (Resolved existing,
       mkWorld (reward_claims w) (reward_distributions w)
         (console w ++ [LogWarn line])%list
         (journal w
          ++ [mkInvocation ProcessRewardDistribution
                (RewardDistributionEventDto.txHash dto)
                (RewardDistributionEventDto.blockNumber dto)
                (RewardDistributionEventDto.logIndex dto)])%list (now w)).
Proof.
  intros H. eexists.
  unfold RewardSyncService.processRewardDistribution, bind, enter,
    RewardDistributionRepository.findByTxHashAndLogIndex, logger, ret.
  cbn [reward_claims reward_distributions console journal now].
  rewrite H. reflexivity.
Qed.

Lemma distributionColumnError_row (dto : RewardDistributionEventDto.t) (id : nat)
    (createdAt : Z) :
  distributionColumnError (distributionOf dto id createdAt)
  = distributionColumnError (distributionOf dto 0 0).
Proof. reflexivity. Qed.

Lemma processRewardDistribution_insert (dto : RewardDistributionEventDto.t)
    (w : World) :
  storableDistribution dto = true ->
  find (fun r => sameKey (RewardDistributionEventDto.txHash dto)
                   (RewardDistributionEventDto.logIndex dto)
                   (RewardDistribution.txHash r) (RewardDistribution.logIndex r))
    (rows (reward_distributions w)) = None ->
  let distribution :=
    distributionOf dto (nextId (reward_distributions w)) (now w) in
  exists line,
    RewardSyncService.processRewardDistribution dto w
    = (Resolved distribution,
       mkWorld (reward_claims w)
         (mkTable (rows (reward_distributions w) ++ [distribution])
            (S (nextId (reward_distributions w))))
         (console w ++ [LogInfo line])%list
         (journal w
          ++ [mkInvocation ProcessRewardDistribution
                (RewardDistributionEventDto.txHash dto)
                (RewardDistributionEventDto.blockNumber dto)
                (RewardDistributionEventDto.logIndex dto)])%list (now w)).
Proof.
  intros Hfits H distribution. eexists.
  unfold storableDistribution in Hfits.
  rewrite <- (distributionColumnError_row dto (nextId (reward_distributions w))
                (now w)) in Hfits.
  unfold RewardSyncService.processRewardDistribution, bind, enter,
    RewardDistributionRepository.findByTxHashAndLogIndex, tryCatch,
    RewardDistributionRepository.create, logger, ret.
  cbn [reward_claims reward_distributions console journal now].
  rewrite H.
  cbn [reward_claims reward_distributions console journal now].
  fold (distributionOf dto (nextId (reward_distributions w)) (now w)).
  destruct (distributionColumnError
              (distributionOf dto (nextId (reward_distributions w)) (now w)));
    [discriminate|].
  cbn [distributionOf RewardDistribution.txHash RewardDistribution.logIndex].
  pose proof (existsb_find
                (fun r => sameKey (RewardDistributionEventDto.txHash dto)
                            (RewardDistributionEventDto.logIndex dto)
                            (RewardDistribution.txHash r)
                            (RewardDistribution.logIndex r))
                (rows (reward_distributions w))) as Hex.
  rewrite H in Hex. rewrite Hex. reflexivity.
Qed.

Lemma processRewardDistribution_rejected (dto : RewardDistributionEventDto.t)
    (w : World) :
  find (fun r => sameKey (RewardDistributionEventDto.txHash dto)
                   (RewardDistributionEventDto.logIndex dto)
                   (RewardDistribution.txHash r) (RewardDistribution.logIndex r))
    (rows (reward_distributions w)) = None ->
  storableDistribution dto = false ->
  exists error,
    RewardSyncService.processRewardDistribution dto w
    = (Rejected error,
       mkWorld (reward_claims w) (reward_distributions w) (console w)
         (journal w
          ++ [mkInvocation ProcessRewardDistribution
                (RewardDistributionEventDto.txHash dto)
                (RewardDistributionEventDto.blockNumber dto)
                (RewardDistributionEventDto.logIndex dto)])%list (now w)).
Proof.
  intros H Hno.
  unfold storableDistribution in Hno.
  rewrite <- (distributionColumnError_row dto (nextId (reward_distributions w))
                (now w)) in Hno.
  unfold RewardSyncService.processRewardDistribution, bind, enter,
    RewardDistributionRepository.findByTxHashAndLogIndex, tryCatch,
    RewardDistributionRepository.create, logger, ret, throw.
  cbn [reward_claims reward_distributions console journal now].
  rewrite H.
  cbn [reward_claims reward_distributions console journal now].
  fold (distributionOf dto (nextId (reward_distributions w)) (now w)).
  destruct (distributionColumnError
              (distributionOf dto (nextId (reward_distributions w)) (now w)))
    as [code|]; [|discriminate].
  destruct (isUniqueViolation (QueryFailedError code)); eexists; reflexivity.
Qed.

Lemma processRewardDistribution_writes (dto : RewardDistributionEventDto.t)
    (w : World) :
  let key_tx := RewardDistributionEventDto.txHash dto in
  let key_log := RewardDistributionEventDto.logIndex dto in
  let w' := snd (RewardSyncService.processRewardDistribution dto w) in
  reward_claims w' = reward_claims w
  /\ (storableDistribution dto = true ->
      distributionStored key_tx key_log w' = true)
  /\ (distributionStored key_tx key_log w = true ->
      reward_distributions w' = reward_distributions w)
  /\ (exists added,
        rows (reward_distributions w') = rows (reward_distributions w) ++ added)%list.
Proof.
  cbv zeta. unfold distributionStored.
  destruct (find (fun r => sameKey (RewardDistributionEventDto.txHash dto)
                             (RewardDistributionEventDto.logIndex dto)
                             (RewardDistribution.txHash r)
                             (RewardDistribution.logIndex r))
              (rows (reward_distributions w))) as [existing|] eqn:Hfind.
  - destruct (processRewardDistribution_duplicate _ _ Hfind) as [line ->].
    cbn [snd reward_claims reward_distributions].
    rewrite existsb_find, Hfind.
    repeat split. exists []. rewrite app_nil_r. reflexivity.
  - destruct (storableDistribution dto) eqn:Hfits.
    + destruct (@processRewardDistribution_insert dto w Hfits Hfind) as [line ->].
      cbn [snd reward_claims reward_distributions rows].
      split; [reflexivity|]. split.
      * intros _. apply existsb_app_true. cbn. apply sameKey_refl.
      * split.
        -- rewrite existsb_find, Hfind. discriminate.
        -- eexists. reflexivity.
    + destruct (@processRewardDistribution_rejected dto w Hfind Hfits)
        as [error ->].
      cbn [snd reward_claims reward_distributions rows].
      split; [reflexivity|]. split; [discriminate|].
      split; [reflexivity|]. exists []. rewrite app_nil_r. reflexivity.
Qed.

(** A distribution whose row fits the columns of reward_distributions is
    stored once: the first call for its log resolves with a row that
    carries the key of the log (a new row, with the recipients in lower
    case, when the key was not stored); a later delivery with the same
    (txHash, logIndex) resolves with that row and writes neither table. *)
Theorem distribution_stored_once (w : World)
    (dto again : RewardDistributionEventDto.t) :
  storableDistribution dto = true ->
  RewardDistributionEventDto.txHash again = RewardDistributionEventDto.txHash dto ->
  RewardDistributionEventDto.logIndex again
  = RewardDistributionEventDto.logIndex dto ->
  let first := RewardSyncService.processRewardDistribution dto w in
  let second := RewardSyncService.processRewardDistribution again (snd first) in
  exists row,
    fst first = Resolved row
    /\ RewardDistribution.txHash row = RewardDistributionEventDto.txHash dto
    /\ RewardDistribution.logIndex row = RewardDistributionEventDto.logIndex dto
    /\ (distributionStored (RewardDistributionEventDto.txHash dto)
          (RewardDistributionEventDto.logIndex dto) w = false ->
        row = distributionOf dto (nextId (reward_distributions w)) (now w)
        /\ RewardDistribution.recipients row
           = map toLowerCase (RewardDistributionEventDto.recipients dto)
        /\ rows (reward_distributions (snd first))
           = (rows (reward_distributions w) ++ [row])%list)
    /\ fst second = Resolved row
    /\ sameTables (snd first) (snd second).
Proof.
  intros Hfits Htx Hlog first second. subst first second.
  set (p := fun r => sameKey (RewardDistributionEventDto.txHash dto)
                       (RewardDistributionEventDto.logIndex dto)
                       (RewardDistribution.txHash r)
                       (RewardDistribution.logIndex r)).
  assert (Hagain : forall w1 row,
            find p (rows (reward_distributions w1)) = Some row ->
            fst (RewardSyncService.processRewardDistribution again w1)
            = Resolved row
            /\ sameTables w1
                 (snd (RewardSyncService.processRewardDistribution again w1))).
  { intros w1 row Hfind.
    assert (Hfind' :
      find (fun r => sameKey (RewardDistributionEventDto.txHash again)
                       (RewardDistributionEventDto.logIndex again)
                       (RewardDistribution.txHash r)
                       (RewardDistribution.logIndex r))
        (rows (reward_distributions w1)) = Some row).
    { rewrite Htx, Hlog. exact Hfind. }
    destruct (processRewardDistribution_duplicate _ _ Hfind') as [line ->].
    split; [reflexivity|split; reflexivity]. }
  destruct (find p (rows (reward_distributions w))) as [existing|] eqn:Hfind.
  - destruct (processRewardDistribution_duplicate _ _ Hfind) as [line Hrun].
    rewrite Hrun. cbn [fst snd].
    exists existing. split; [reflexivity|].
    pose proof (find_some _ _ Hfind) as [_ Hkey].
    apply sameKey_true in Hkey. destruct Hkey as [Hk1 Hk2].
    split; [exact Hk1|]. split; [exact Hk2|].
    split.
    { intros Hno. unfold distributionStored in Hno.
      rewrite existsb_find in Hno. fold p in Hno. rewrite Hfind in Hno.
      discriminate Hno. }
    apply Hagain. exact Hfind.
  - destruct (@processRewardDistribution_insert dto w Hfits Hfind) as [line Hrun].
    rewrite Hrun. cbn [fst snd].
    eexists. split; [reflexivity|].
    split; [reflexivity|]. split; [reflexivity|].
    split; [intros _; repeat split; reflexivity|].
    apply Hagain. cbn [reward_distributions rows].
    apply find_app_new; [exact Hfind|]. apply sameKey_refl.
Qed.

Lemma distribution_stored_once_witness :
  storableDistribution payout = true
  /\ RewardDistributionEventDto.txHash payoutAgain
     = RewardDistributionEventDto.txHash payout
  /\ RewardDistributionEventDto.logIndex payoutAgain
     = RewardDistributionEventDto.logIndex payout
  /\ exists row,
       fst (RewardSyncService.processRewardDistribution payout freshWorld)
       = Resolved row
       /\ RewardDistribution.recipients row = ["0xaa"; "0xbb"]
       /\ fst (RewardSyncService.processRewardDistribution payoutAgain
                 (snd (RewardSyncService.processRewardDistribution payout
                         freshWorld)))
          = Resolved row.
Proof.
  assert (H0 : storableDistribution payout = true) by (vm_compute; reflexivity).
  assert (H1 : RewardDistributionEventDto.txHash payoutAgain
               = RewardDistributionEventDto.txHash payout) by reflexivity.
  assert (H2 : RewardDistributionEventDto.logIndex payoutAgain
               = RewardDistributionEventDto.logIndex payout) by reflexivity.
  split; [exact H0|]. split; [exact H1|]. split; [exact H2|].
  destruct (@distribution_stored_once freshWorld payout payoutAgain H0 H1 H2)
    as [row [Hfirst [_ [_ [Hnew [Hsecond _]]]]]].
  exists row. split; [exact Hfirst|]. split; [|exact Hsecond].
  destruct (Hnew eq_refl) as [_ [Hrec _]]. rewrite Hrec. reflexivity.
Defined.

End SyncTables.

(** ** BlockchainListenerService: what a scan stores *)

Module ScanFacts.

Import Effects JsString Rewards Listener RewardsFacts ListenerFacts SyncTables.
Open Scope Z_scope.
Open Scope string_scope.

Lemma grows_refl (w : World) : grows w w.
Proof. split; exists []; rewrite app_nil_r; reflexivity. Qed.

Lemma grows_trans (a b c : World) : grows a b -> grows b c -> grows a c.
Proof.
  intros [[x Hx] [y Hy]] [[x' Hx'] [y' Hy']]. split.
  - exists (x ++ x')%list. rewrite Hx', Hx, app_assoc. reflexivity.
  - exists (y ++ y')%list. rewrite Hy', Hy, app_assoc. reflexivity.
Qed.

Lemma sameTables_grows (w w' : World) : sameTables w w' -> grows w w'.
Proof.
  intros [H1 H2]. split; exists []; rewrite app_nil_r; congruence.
Qed.

Lemma sameTables_trans (a b c : World) :
  sameTables a b -> sameTables b c -> sameTables a c.
Proof. intros [H1 H2] [H3 H4]. split; congruence. Qed.

Lemma grows_stored (e : EventLog) (w w' : World) :
  grows w w' -> eventStored e w = true -> eventStored e w' = true.
Proof.
  intros [[x Hx] [y Hy]]. unfold eventStored, claimStored, distributionStored.
  destruct (args e); [rewrite Hx | rewrite Hy]; rewrite existsb_app;
    intros ->; reflexivity.
Qed.

Lemma sameTables_stored (e : EventLog) (w w' : World) :
  sameTables w w' -> eventStored e w' = eventStored e w.
Proof.
  intros [H1 H2]. unfold eventStored, claimStored, distributionStored.
  rewrite H1, H2. reflexivity.
Qed.

Lemma handleRewardClaimedEvent_writes (self : BlockchainListenerService) :
  handlerWrites self RewardClaimedEvent (handleRewardClaimedEvent self).
Proof.
  intros e w.
  unfold handleRewardClaimedEvent, reaches, eventStored, storableEvent, tryCatch.
  destruct (getBlock self (blockNumber e)) as [timestamp|].
  2:{ cbn. split; [reflexivity|].
      split; [apply sameTables_grows; split; reflexivity|].
      split; [discriminate|]. intros _. split; reflexivity. }
  destruct (args e) as [user amount claimId | recipients amounts distributionId].
  2:{ cbn. split; [reflexivity|].
      split; [apply sameTables_grows; split; reflexivity|].
      split; [discriminate|]. intros _. split; reflexivity. }
  unfold bind.
  match goal with
  | |- context [RewardSyncService.processRewardClaim ?dto w] =>
      pose proof (processRewardClaim_writes dto w) as Hw;
      destruct (RewardSyncService.processRewardClaim dto w) as [[claim|error] w']
  end; cbv zeta in Hw;
    cbn [snd RewardClaimEventDto.txHash RewardClaimEventDto.logIndex] in Hw;
    destruct Hw as [Hd [Hstored [Hdup Hgrow]]];
    cbn [fst snd ret logger reward_claims reward_distributions eventName_eqb
         eventNameOf andb];
    unfold grows, sameTables, claimStored, distributionStored in *;
    cbn [reward_claims reward_distributions];
    (split; [reflexivity|]);
    (split; [split; [exact Hgrow | exists []; rewrite app_nil_r, Hd; reflexivity]|]);
    (split; [intros _ Hfits; apply Hstored; exact Hfits|]);
    (intros [Hno | Hyes]; [discriminate Hno|]);
    (split; [apply Hdup; exact Hyes | exact Hd]).
Qed.

Lemma handleRewardDistributedEvent_writes (self : BlockchainListenerService) :
  handlerWrites self RewardDistributedEvent (handleRewardDistributedEvent self).
Proof.
  intros e w.
  unfold handleRewardDistributedEvent, reaches, eventStored, storableEvent, tryCatch.
  destruct (getBlock self (blockNumber e)) as [timestamp|].
  2:{ cbn. split; [reflexivity|].
      split; [apply sameTables_grows; split; reflexivity|].
      split; [discriminate|]. intros _. split; reflexivity. }
  destruct (args e) as [user amount claimId | recipients amounts distributionId].
  1:{ cbn. split; [reflexivity|].
      split; [apply sameTables_grows; split; reflexivity|].
      split; [discriminate|]. intros _. split; reflexivity. }
  unfold bind.
  match goal with
  | |- context [RewardSyncService.processRewardDistribution ?dto w] =>
      pose proof (processRewardDistribution_writes dto w) as Hw;
      destruct (RewardSyncService.processRewardDistribution dto w)
        as [[distribution|error] w']
  end; cbv zeta in Hw;
    cbn [snd RewardDistributionEventDto.txHash RewardDistributionEventDto.logIndex]
      in Hw;
    destruct Hw as [Hc [Hstored [Hdup Hgrow]]];
    cbn [fst snd ret logger reward_claims reward_distributions eventName_eqb
         eventNameOf andb];
    unfold grows, sameTables, claimStored, distributionStored in *;
    cbn [reward_claims reward_distributions];
    (split; [reflexivity|]);
    (split; [split; [exists []; rewrite app_nil_r, Hc; reflexivity | exact Hgrow]|]);
    (split; [intros _ Hfits; apply Hstored; exact Hfits|]);
    (intros [Hno | Hyes]; [discriminate Hno|]);
    (split; [exact Hc | apply Hdup; exact Hyes]).
Qed.

(** A loop of such handlers. *)
Lemma forEach_writes (self : BlockchainListenerService) (name : EventName)
    (handler : EventLog -> M unit) :
  handlerWrites self name handler ->
  forall events w,
    fst (forEach events handler w) = Resolved tt
    /\ grows w (snd (forEach events handler w))
    /\ (forall e, In e events -> reaches self name e = true ->
                  storableEvent self e = true ->
                  eventStored e (snd (forEach events handler w)) = true)
    /\ ((forall e, In e events -> reaches self name e = true ->
                   eventStored e w = true) ->
        sameTables w (snd (forEach events handler w))).
Proof.
  intros Hh. induction events as [|x events IH]; intros w.
  - cbn. split; [reflexivity|]. split; [apply grows_refl|].
    split; [intros e []|]. intros _. split; reflexivity.
  - cbn [forEach]. unfold bind.
    destruct (Hh x w) as [Hres [Hg [Hst Hsame]]].
    destruct (handler x w) as [o w1]. cbn [fst snd] in Hres, Hg, Hst, Hsame.
    subst o.
    destruct (IH w1) as [Hres' [Hg' [Hst' Hsame']]].
    split; [exact Hres'|].
    split; [eapply grows_trans; eassumption|].
    split.
    + intros e [<- | Hin] Hr Hfits.
      * eapply grows_stored; [exact Hg'|]. apply Hst; assumption.
      * apply Hst'; assumption.
    + intros Hall.
      assert (H1 : sameTables w w1).
      { apply Hsame.
        destruct (reaches self name x) eqn:Hr; [right|left; reflexivity].
        apply Hall; [left; reflexivity|exact Hr]. }
      eapply sameTables_trans; [exact H1|]. apply Hsame'.
      intros e Hin Hr. rewrite (sameTables_stored e H1).
      apply Hall; [right; exact Hin|exact Hr].
Qed.

Lemma eventName_eqb_refl (n : EventName) : eventName_eqb n n = true.
Proof. destruct n; reflexivity. Qed.

Lemma In_queryFilter (self : BlockchainListenerService) (fromBlock toBlock : Z)
    (e : EventLog) :
  In e (contractLogs self) -> inRange fromBlock toBlock e ->
  In e (queryFilter self (eventNameOf (args e)) fromBlock toBlock).
Proof.
  intros Hin [Hlo Hhi]. unfold queryFilter. apply filter_In.
  split; [exact Hin|]. rewrite eventName_eqb_refl.
  apply Z.leb_le in Hlo. apply Z.leb_le in Hhi. rewrite Hlo, Hhi. reflexivity.
Qed.

Lemma queryFilter_In (self : BlockchainListenerService) (name : EventName)
    (fromBlock toBlock : Z) (e : EventLog) :
  In e (queryFilter self name fromBlock toBlock) ->
  In e (contractLogs self) /\ inRange fromBlock toBlock e.
Proof.
  unfold queryFilter. intros H. apply filter_In in H. destruct H as [Hin Hb].
  apply andb_prop in Hb. destruct Hb as [Hb Hhi].
  apply andb_prop in Hb. destruct Hb as [_ Hlo].
  apply Z.leb_le in Hlo. apply Z.leb_le in Hhi.
  split; [exact Hin|split; assumption].
Qed.

Lemma reaches_known (self : BlockchainListenerService) (e : EventLog) :
  reaches self (eventNameOf (args e)) e = blockKnown self e.
Proof.
  unfold reaches, blockKnown. rewrite eventName_eqb_refl.
  destruct (getBlock self (blockNumber e)); reflexivity.
Qed.

Lemma reaches_blockKnown (self : BlockchainListenerService) (name : EventName)
    (e : EventLog) :
  reaches self name e = true -> blockKnown self e = true.
Proof.
  unfold reaches, blockKnown.
  destruct (getBlock self (blockNumber e)); [reflexivity|discriminate].
Qed.

Lemma storableEvent_known (self : BlockchainListenerService) (e : EventLog) :
  storableEvent self e = true -> blockKnown self e = true.
Proof.
  unfold storableEvent, blockKnown.
  destruct (getBlock self (blockNumber e)); [reflexivity|discriminate].
Qed.

(** One scan of a range in which the provider answers every query: it
    only appends rows, leaves every log of the range whose row fits the
    columns stored, and writes nothing when the logs whose block is known
    are all stored already. *)
Lemma processBlockRange_writes (self : BlockchainListenerService)
    (fromBlock toBlock : Z) (w : World) :
  let w' := snd (processBlockRange self fromBlock toBlock w) in
  fst (processBlockRange self fromBlock toBlock w) = Resolved tt
  /\ grows w w'
  /\ (forall e, In e (contractLogs self) -> inRange fromBlock toBlock e ->
                storableEvent self e = true -> eventStored e w' = true)
  /\ ((forall e, In e (contractLogs self) -> inRange fromBlock toBlock e ->
                 blockKnown self e = true -> eventStored e w = true) ->
      sameTables w w').
Proof.
  cbv zeta. unfold processBlockRange, tryCatch. cbv zeta. unfold bind.
  destruct (@forEach_writes self RewardClaimedEvent _
              (handleRewardClaimedEvent_writes self)
              (queryFilter self RewardClaimedEvent fromBlock toBlock) w)
    as [R1 [G1 [S1 N1]]].
  destruct (forEach (queryFilter self RewardClaimedEvent fromBlock toBlock)
              (handleRewardClaimedEvent self) w) as [o1 w1].
  cbn [fst snd] in R1, G1, S1, N1. subst o1.
  destruct (@forEach_writes self RewardDistributedEvent _
              (handleRewardDistributedEvent_writes self)
              (queryFilter self RewardDistributedEvent fromBlock toBlock) w1)
    as [R2 [G2 [S2 N2]]].
  destruct (forEach (queryFilter self RewardDistributedEvent fromBlock toBlock)
              (handleRewardDistributedEvent self) w1) as [o2 w2].
  cbn [fst snd] in R2, G2, S2, N2. subst o2.
  cbn [fst snd logger].
  match goal with
  | |- _ /\ grows w ?w3 /\ _ =>
      assert (H3 : sameTables w2 w3) by (split; reflexivity);
      generalize dependent w3
  end.
  intros w3 H3.
  split; [reflexivity|].
  split.
  { eapply grows_trans; [exact G1|]. eapply grows_trans; [exact G2|].
    apply sameTables_grows. exact H3. }
  split.
  - intros e Hin Hrange Hfits.
    pose proof (storableEvent_known self e Hfits) as Hknown.
    rewrite (sameTables_stored e H3).
    pose proof (In_queryFilter self Hin Hrange) as Hq.
    pose proof (reaches_known self e) as Hr. rewrite Hknown in Hr.
    destruct (args e) eqn:Hargs; cbn [eventNameOf] in Hq, Hr.
    + eapply grows_stored; [exact G2|]. apply S1; assumption.
    + apply S2; assumption.
  - intros Hall.
    assert (H1 : sameTables w w1).
    { apply N1. intros e Hq Hr. apply queryFilter_In in Hq.
      destruct Hq as [Hin Hrange]. apply Hall; [exact Hin|exact Hrange|].
      eapply reaches_blockKnown. exact Hr. }
    assert (H2 : sameTables w1 w2).
    { apply N2. intros e Hq Hr. apply queryFilter_In in Hq.
      destruct Hq as [Hin Hrange]. rewrite (sameTables_stored e H1).
      apply Hall; [exact Hin|exact Hrange|].
      eapply reaches_blockKnown. exact Hr. }
    eapply sameTables_trans; [exact H1|].
    eapply sameTables_trans; [exact H2|exact H3].
Qed.

(** A scan of [fromBlock, toBlock] that resolves removes no row, and
    leaves every log of the contract in that range whose block [getBlock]
    answers for and whose row fits the columns stored under its
    (transactionHash, index): a claim in reward_claims, a distribution in
    reward_distributions. *)
Theorem scan_stores_range (self : BlockchainListenerService)
    (fromBlock toBlock : Z) (w : World) (e : EventLog) :
  fst (processBlockRange self fromBlock toBlock w) = Resolved tt ->
  In e (contractLogs self) ->
  inRange fromBlock toBlock e ->
  blockKnown self e = true ->
  storableEvent self e = true ->
  let w' := snd (processBlockRange self fromBlock toBlock w) in
  grows w w'
  /\ eventStored e w' = true.
Proof.
  intros _ Hin Hrange _ Hfits. cbv zeta.
  destruct (processBlockRange_writes self fromBlock toBlock w)
    as [_ [G [S _]]].
  split; [exact G|]. apply S; assumption.
Qed.

Lemma scan_stores_range_witness :
  fst (processBlockRange restartedListener 100 200 emptyWorld) = Resolved tt
  /\ In claimAt150 (contractLogs restartedListener)
  /\ inRange 100 200 claimAt150
  /\ blockKnown restartedListener claimAt150 = true
  /\ storableEvent restartedListener claimAt150 = true
  /\ eventStored claimAt150
       (snd (processBlockRange restartedListener 100 200 emptyWorld)) = true.
Proof.
  assert (H0 : fst (processBlockRange restartedListener 100 200 emptyWorld)
               = Resolved tt) by (vm_compute; reflexivity).
  assert (H1 : In claimAt150 (contractLogs restartedListener))
    by (left; reflexivity).
  assert (H2 : inRange 100 200 claimAt150) by (unfold inRange; cbn; lia).
  assert (H3 : blockKnown restartedListener claimAt150 = true) by reflexivity.
  assert (H4 : storableEvent restartedListener claimAt150 = true)
    by (vm_compute; reflexivity).
  split; [exact H0|]. split; [exact H1|]. split; [exact H2|].
  split; [exact H3|]. split; [exact H4|].
  exact (proj2 (@scan_stores_range restartedListener 100 200 emptyWorld
                  claimAt150 H0 H1 H2 H3 H4)).
Defined.

(** A manual sync ([syncBlockRange]) of a range whose logs are stored
    already (those for whose block [getBlock] answers) writes neither
    table: every log it handles is answered as a duplicate. *)
Theorem rescan_writes_nothing (self : BlockchainListenerService)
    (a b : Z) (w : World) :
  (forall e, In e (contractLogs self) -> inRange a b e ->
             blockKnown self e = true -> eventStored e w = true) ->
  sameTables w (snd (syncBlockRange self a b w)).
Proof.
  intros Hall. unfold syncBlockRange.
  destruct (processBlockRange_writes self a b w) as [_ [_ [_ N]]].
  apply N. exact Hall.
Qed.

Lemma rescan_writes_nothing_witness :
  (forall e, In e (contractLogs restartedListener) -> inRange 150 150 e ->
             blockKnown restartedListener e = true ->
             eventStored e syncedThrough150 = true)
  /\ sameTables syncedThrough150
       (snd (syncBlockRange restartedListener 150 150 syncedThrough150)).
Proof.
  assert (H : forall e, In e (contractLogs restartedListener) ->
                inRange 150 150 e ->
                blockKnown restartedListener e = true ->
                eventStored e syncedThrough150 = true).
  { intros e [<- | []] _ _. vm_compute. reflexivity. }
  split; [exact H|].
  exact (@rescan_writes_nothing restartedListener 150 150 syncedThrough150 H).
Defined.

Lemma scansOf_cons (r : Z * Z) (ranges : list (Z * Z)) (b : Z) :
  scansOf (r :: ranges) b
  = ((if (Z.leb (fst r) b && Z.leb b (snd r))%bool then 1 else 0)
     + scansOf ranges b)%nat.
Proof.
  unfold scansOf. cbn [List.filter].
  destruct (Z.leb (fst r) b && Z.leb b (snd r))%bool; reflexivity.
Qed.

(** The ranges of the loop partition [fromBlock, currentBlock]. *)
Lemma chunks_scansOf (fromBlock currentBlock b : Z) :
  scansOf (chunks fromBlock currentBlock) b
  = if (Z.leb fromBlock b && Z.leb b currentBlock)%bool then 1%nat else 0%nat.
Proof.
  funelim (chunks fromBlock currentBlock).
  - rewrite scansOf_cons, H. cbn [fst snd]. unfold CHUNK_SIZE.
    destruct (Z.leb_spec fromBlock b),
      (Z.leb_spec b (Z.min (fromBlock + 10000 - 1) currentBlock)),
      (Z.leb_spec (fromBlock + 10000) b),
      (Z.leb_spec b currentBlock); cbn; try reflexivity; lia.
  - cbn. destruct (Z.leb_spec fromBlock b), (Z.leb_spec b currentBlock);
      cbn; try reflexivity; lia.
Qed.

Lemma chunks_cover (fromBlock currentBlock b : Z) :
  fromBlock <= b <= currentBlock ->
  exists r, In r (chunks fromBlock currentBlock) /\ fst r <= b <= snd r.
Proof.
  intros [Hlo Hhi]. pose proof (chunks_scansOf fromBlock currentBlock b) as H.
  apply Z.leb_le in Hlo. apply Z.leb_le in Hhi. rewrite Hlo, Hhi in H.
  cbn in H. unfold scansOf in H.
  destruct (List.filter (fun r => (Z.leb (fst r) b && Z.leb b (snd r))%bool)
              (chunks fromBlock currentBlock)) as [|r rest] eqn:Hf;
    [discriminate|].
  assert (Hin : In r (List.filter
                        (fun r => (Z.leb (fst r) b && Z.leb b (snd r))%bool)
                        (chunks fromBlock currentBlock)))
    by (rewrite Hf; left; reflexivity).
  apply filter_In in Hin. destruct Hin as [Hin Hb].
  apply andb_prop in Hb. destruct Hb as [H1 H2].
  apply Z.leb_le in H1. apply Z.leb_le in H2.
  exists r. split; [exact Hin|lia].
Qed.

(** The scans of a list of ranges, one after the other. *)
Lemma scanAll_writes (self : BlockchainListenerService) (ranges : list (Z * Z)) :
  forall w,
    let scan := forEach ranges
                  (fun range => processBlockRange self (fst range) (snd range)) in
    fst (scan w) = Resolved tt
    /\ grows w (snd (scan w))
    /\ (forall r e, In r ranges -> In e (contractLogs self) ->
                    inRange (fst r) (snd r) e -> storableEvent self e = true ->
                    eventStored e (snd (scan w)) = true).
Proof.
  cbv zeta. induction ranges as [|x ranges IH]; intros w.
  - cbn. split; [reflexivity|]. split; [apply grows_refl|]. intros r e [].
  - cbn [forEach]. unfold bind.
    destruct (processBlockRange_writes self (fst x) (snd x) w)
      as [R [G [S _]]].
    destruct (processBlockRange self (fst x) (snd x) w) as [o w1].
    cbn [fst snd] in R, G, S. subst o.
    destruct (IH w1) as [R' [G' S']].
    split; [exact R'|]. split; [eapply grows_trans; eassumption|].
    intros r e [<- | Hr] Hin Hrange Hknown.
    + eapply grows_stored; [exact G'|]. apply S; assumption.
    + eapply S'; eassumption.
Qed.

Lemma scanAll_journal (self : BlockchainListenerService) (ranges : list (Z * Z)) :
  forall w,
    journal (snd (forEach ranges
                    (fun range => processBlockRange self (fst range) (snd range))
                    w))
    = (journal w
       ++ flat_map
            (fun range =>
               map invocationOf
                 (appliedOf self RewardClaimedEvent (fst range) (snd range))
               ++ map invocationOf
                    (appliedOf self RewardDistributedEvent (fst range) (snd range)))
            ranges)%list.
Proof.
  intros w. apply forEach_journal. intros x w0. split.
  - apply (processBlockRange_writes self (fst x) (snd x) w0).
  - apply processBlockRange_journal.
Qed.

Lemma lastSynced_value (w : World) (c : Z) :
  fst (RewardSyncService.getLastSyncedBlock w) = Resolved c ->
  c = Z.max
        (orZero (maxBlock (map RewardClaim.blockNumber (rows (reward_claims w)))))
        (orZero (maxBlock (map RewardDistribution.blockNumber
                             (rows (reward_distributions w))))).
Proof.
  unfold RewardSyncService.getLastSyncedBlock, bind,
    RewardClaimRepository.getLastSyncedBlock,
    RewardDistributionRepository.getLastSyncedBlock, ret.
  cbn [fst]. intros H. injection H as <-. reflexivity.
Qed.

Lemma appliedOf_inRange (self : BlockchainListenerService) (name : EventName)
    (fromBlock toBlock : Z) (e : EventLog) :
  In e (appliedOf self name fromBlock toBlock) -> inRange fromBlock toBlock e.
Proof.
  unfold appliedOf. intros H. apply filter_In in H. destruct H as [H _].
  apply queryFilter_In in H. apply H.
Qed.

(** In one backfill every block from the start block to the head is
    scanned by exactly one range, and no other block by any; when the
    start block is the head or beyond it, no block is scanned at all. *)
Theorem backfill_scans_each_block_once (self : BlockchainListenerService)
    (lastSyncedBlock b : Z) :
  let startBlock := startBlockOf self lastSyncedBlock in
  let currentBlock := getBlockNumber self in
  scansOf (backfillRanges self lastSyncedBlock) b
  = if (Z.ltb startBlock currentBlock
        && Z.leb startBlock b && Z.leb b currentBlock)%bool
    then 1%nat else 0%nat.
Proof.
  cbv zeta. unfold backfillRanges.
  destruct (Z.geb_spec (startBlockOf self lastSyncedBlock) (getBlockNumber self)),
    (Z.ltb_spec (startBlockOf self lastSyncedBlock) (getBlockNumber self));
    try lia.
  - reflexivity.
  - rewrite chunks_scansOf. reflexivity.
Qed.

(** A backfill that finds the start block below the head and resolves
    removes no row, and leaves every log of the contract between the
    start block and the head whose block [getBlock] answers for and whose
    row fits the columns stored. *)
Theorem backfill_stores_history (self : BlockchainListenerService) (w : World)
    (lastSyncedBlock : Z) (e : EventLog) :
  fst (RewardSyncService.getLastSyncedBlock w) = Resolved lastSyncedBlock ->
  startBlockOf self lastSyncedBlock < getBlockNumber self ->
  fst (backfillHistoricalEvents self w) = Resolved tt ->
  In e (contractLogs self) ->
  inRange (startBlockOf self lastSyncedBlock) (getBlockNumber self) e ->
  blockKnown self e = true ->
  storableEvent self e = true ->
  let w' := snd (backfillHistoricalEvents self w) in
  grows w w'
  /\ eventStored e w' = true.
Proof.
  intros Hc Hlt _ Hin Hrange _ Hfits. cbv zeta.
  apply lastSynced_value in Hc. subst lastSyncedBlock.
  rewrite (BackfillFacts.backfill_scans_ranges self w Hlt).
  unfold backfillRanges.
  destruct (Z.geb_spec
              (startBlockOf self
                 (Z.max
                    (orZero (maxBlock (map RewardClaim.blockNumber
                                         (rows (reward_claims w)))))
                    (orZero (maxBlock (map RewardDistribution.blockNumber
                                         (rows (reward_distributions w)))))))
              (getBlockNumber self)) as [Hge|_]; [lia|].
  unfold bind. cbn [logger fst snd].
  match goal with
  | |- context [forEach ?ranges ?body ?w0] =>
      destruct (@scanAll_writes self ranges w0) as [R [G S]];
      destruct (forEach ranges body w0) as [o w1] eqn:Hscan
  end.
  cbn [fst snd] in R, G, S. subst o. cbn [fst snd].
  split.
  - destruct G as [[x Hx] [y Hy]]. split; [exists x|exists y]; assumption.
  - destruct (chunks_cover Hrange) as [r [Hr Hb]].
    pose proof (S r e Hr Hin Hb Hfits) as Hs.
    unfold eventStored, claimStored, distributionStored in *.
    exact Hs.
Qed.

Lemma backfill_stores_history_witness :
  fst (RewardSyncService.getLastSyncedBlock syncedThrough150) = Resolved 150
  /\ startBlockOf restartedListener 150 < getBlockNumber restartedListener
  /\ fst (backfillHistoricalEvents restartedListener syncedThrough150)
     = Resolved tt
  /\ storableEvent restartedListener claimAt150 = true
  /\ eventStored claimAt150
       (snd (backfillHistoricalEvents restartedListener syncedThrough150)) = true.
Proof.
  assert (H1 : fst (RewardSyncService.getLastSyncedBlock syncedThrough150)
               = Resolved 150) by (vm_compute; reflexivity).
  assert (H2 : startBlockOf restartedListener 150
               < getBlockNumber restartedListener) by (vm_compute; reflexivity).
  assert (H0 : fst (backfillHistoricalEvents restartedListener syncedThrough150)
               = Resolved tt) by (vm_compute; reflexivity).
  assert (H3 : In claimAt150 (contractLogs restartedListener))
    by (left; reflexivity).
  assert (H4 : inRange (startBlockOf restartedListener 150)
                 (getBlockNumber restartedListener) claimAt150)
    by (unfold inRange; cbn; lia).
  assert (H5 : blockKnown restartedListener claimAt150 = true) by reflexivity.
  assert (H6 : storableEvent restartedListener claimAt150 = true)
    by (vm_compute; reflexivity).
  split; [exact H1|]. split; [exact H2|]. split; [exact H0|]. split; [exact H6|].
  exact (proj2 (@backfill_stores_history restartedListener
                  syncedThrough150 150 claimAt150 H1 H2 H0 H3 H4 H5 H6)).
Defined.

(** Every call a backfill makes to the sync service is for a log between
    the start block and the head: a log below the cursor (one skipped
    because [getBlock] failed, say) is not handed to it again. *)
Theorem backfill_calls_within_range (self : BlockchainListenerService)
    (w : World) (lastSyncedBlock : Z) :
  fst (RewardSyncService.getLastSyncedBlock w) = Resolved lastSyncedBlock ->
  exists calls,
    journal (snd (backfillHistoricalEvents self w)) = (journal w ++ calls)%list
    /\ Forall (fun i => startBlockOf self lastSyncedBlock <= inv_blockNumber i
                        /\ inv_blockNumber i <= getBlockNumber self) calls.
Proof.
  intros Hc. apply lastSynced_value in Hc. subst lastSyncedBlock.
  set (c := Z.max
              (orZero (maxBlock (map RewardClaim.blockNumber
                                   (rows (reward_claims w)))))
              (orZero (maxBlock (map RewardDistribution.blockNumber
                                   (rows (reward_distributions w)))))).
  destruct (Z_lt_ge_dec (startBlockOf self c) (getBlockNumber self)) as [Hlt|Hge].
  - rewrite (BackfillFacts.backfill_scans_ranges self w Hlt). fold c.
    unfold backfillRanges.
    destruct (Z.geb_spec (startBlockOf self c) (getBlockNumber self)); [lia|].
    unfold bind. cbn [logger fst snd].
    match goal with
    | |- context [forEach ?ranges ?body ?w0] =>
        pose proof (@scanAll_journal self ranges w0) as J;
        destruct (@scanAll_writes self ranges w0) as [R _];
        destruct (forEach ranges body w0) as [o w1]
    end.
    cbn [fst snd journal] in R, J. subst o. cbn [fst snd journal].
    eexists. split; [exact J|].
    apply Forall_forall. intros i Hi.
    apply in_flat_map in Hi. destruct Hi as [[f t] [Hr Hi]].
    apply BackfillFacts.chunks_within in Hr. cbn [fst snd] in Hi.
    apply in_app_or in Hi.
    destruct Hi as [Hi | Hi]; apply in_map_iff in Hi;
      destruct Hi as [e [<- He]]; apply appliedOf_inRange in He;
      destruct He as [Hlo Hhi]; cbn [invocationOf inv_blockNumber]; lia.
  - exists []. split; [|constructor].
    rewrite app_nil_r. unfold backfillHistoricalEvents, bind.
    unfold RewardSyncService.getLastSyncedBlock, bind,
      RewardClaimRepository.getLastSyncedBlock,
      RewardDistributionRepository.getLastSyncedBlock, ret.
    cbn [fst snd]. fold c.
    destruct (Z.geb_spec (startBlockOf self c) (getBlockNumber self)); [|lia].
    reflexivity.
Qed.

Lemma backfill_calls_within_range_witness :
  fst (RewardSyncService.getLastSyncedBlock syncedThrough150) = Resolved 150
  /\ exists calls,
       journal (snd (backfillHistoricalEvents restartedListener syncedThrough150))
       = (journal syncedThrough150 ++ calls)%list
       /\ Forall (fun i => startBlockOf restartedListener 150 <= inv_blockNumber i
                           /\ inv_blockNumber i <= getBlockNumber restartedListener)
            calls.
Proof.
  assert (H1 : fst (RewardSyncService.getLastSyncedBlock syncedThrough150)
               = Resolved 150) by (vm_compute; reflexivity).
  split; [exact H1|].
  exact (@backfill_calls_within_range restartedListener syncedThrough150 150 H1).
Defined.

End ScanFacts.

(** ** RewardSyncService.getClaimHistory *)

Module HistoryFacts.

Import Effects JsString Rewards RewardsFacts SyncTables.
Open Scope Z_scope.
Open Scope string_scope.

Lemma lowerAscii_idem (c : ascii) : lowerAscii (lowerAscii c) = lowerAscii c.
Proof.
  destruct c as [b0 b1 b2 b3 b4 b5 b6 b7].
  destruct b0, b1, b2, b3, b4, b5, b6, b7; vm_compute; reflexivity.
Qed.

Lemma toLowerCase_idem (s : string) : toLowerCase (toLowerCase s) = toLowerCase s.
Proof.
  induction s as [|c s IH]; [reflexivity|].
  cbn [toLowerCase]. rewrite lowerAscii_idem, IH. reflexivity.
Qed.

Lemma insertDesc_In (r x : RewardClaim.t) (l : list RewardClaim.t) :
  In x (RewardClaimRepository.insertDesc r l) <-> x = r \/ In x l.
Proof.
  induction l as [|y l IH]; cbn [RewardClaimRepository.insertDesc].
  - cbn. intuition.
  - destruct (Z.leb (RewardClaim.blockNumber y) (RewardClaim.blockNumber r)).
    + cbn. intuition.
    + cbn [In]. rewrite IH. intuition.
Qed.

Lemma orderByBlockDesc_In (x : RewardClaim.t) (l : list RewardClaim.t) :
  In x (RewardClaimRepository.orderByBlockDesc l) <-> In x l.
Proof.
  induction l as [|y l IH]; [reflexivity|].
  cbn [RewardClaimRepository.orderByBlockDesc fold_right].
  rewrite insertDesc_In. fold (RewardClaimRepository.orderByBlockDesc l).
  rewrite IH. cbn. intuition.
Qed.

Lemma insertDesc_newestFirst (r : RewardClaim.t) (l : list RewardClaim.t) :
  newestFirst l -> newestFirst (RewardClaimRepository.insertDesc r l).
Proof.
  unfold newestFirst. induction l as [|y l IH]; intros Hs.
  - cbn. constructor; constructor.
  - cbn [RewardClaimRepository.insertDesc].
    inversion Hs as [|? ? Hl Hy]; subst.
    destruct (Z.leb_spec (RewardClaim.blockNumber y) (RewardClaim.blockNumber r))
      as [Hle|Hgt].
    + apply SSorted_cons; [exact Hs|].
      apply Forall_cons; [exact Hle|].
      eapply Forall_impl; [|exact Hy]. cbn. intros a Ha. lia.
    + apply SSorted_cons; [apply IH; exact Hl|].
      apply Forall_forall. intros a Ha. apply insertDesc_In in Ha.
      destruct Ha as [-> | Ha]; [lia|].
      rewrite Forall_forall in Hy. apply Hy. exact Ha.
Qed.

Lemma orderByBlockDesc_newestFirst (l : list RewardClaim.t) :
  newestFirst (RewardClaimRepository.orderByBlockDesc l).
Proof.
  induction l as [|y l IH]; [constructor|].
  cbn [RewardClaimRepository.orderByBlockDesc fold_right].
  apply insertDesc_newestFirst. exact IH.
Qed.

(** A claim whose row fits the columns, once stored for an address, is in
    the claim history asked for under any spelling of that address that
    differs in letter case only: [processRewardClaim] stores the address
    in lower case and [getClaimHistory] asks for the lower-case address.
    The history is exactly the stored rows with that lower-case address,
    newest block first; asking writes nothing. *)
Theorem claim_history_round_trip (dto : RewardClaimEventDto.t) (w : World)
    (walletAddress : string) :
  storableClaim dto = true ->
  claimStored (RewardClaimEventDto.txHash dto)
    (RewardClaimEventDto.logIndex dto) w = false ->
  toLowerCase walletAddress = toLowerCase (RewardClaimEventDto.walletAddress dto) ->
  let stored := RewardSyncService.processRewardClaim dto w in
  exists claim history,
    fst stored = Resolved claim
    /\ RewardSyncService.getClaimHistory walletAddress (snd stored)
       = (Resolved history, snd stored)
    /\ In claim history
    /\ newestFirst history
    /\ (forall r, In r history <->
                  In r (rows (reward_claims (snd stored)))
                  /\ RewardClaim.walletAddress r = toLowerCase walletAddress).
Proof.
  intros Hfits Hnew Hcase. cbv zeta.
  unfold claimStored in Hnew. rewrite existsb_find in Hnew.
  destruct (find (fun r => sameKey (RewardClaimEventDto.txHash dto)
                             (RewardClaimEventDto.logIndex dto)
                             (RewardClaim.txHash r) (RewardClaim.logIndex r))
              (rows (reward_claims w))) eqn:Hfind; [discriminate|].
  destruct (@processRewardClaim_insert dto w Hfits Hfind) as [line ->].
  cbn [fst snd].
  eexists. eexists. split; [reflexivity|].
  unfold RewardSyncService.getClaimHistory,
    RewardClaimRepository.findByWalletAddress.
  cbn [reward_claims rows].
  split; [reflexivity|].
  assert (Hiff : forall r,
             In r (RewardClaimRepository.orderByBlockDesc
                     (List.filter
                        (fun r0 => String.eqb (RewardClaim.walletAddress r0)
                                     (toLowerCase walletAddress))
                        (rows (reward_claims w)
                         ++ [claimOf dto (nextId (reward_claims w)) (now w)])%list))
             <-> In r (rows (reward_claims w)
                       ++ [claimOf dto (nextId (reward_claims w)) (now w)])%list
                 /\ RewardClaim.walletAddress r = toLowerCase walletAddress).
  { intros r. rewrite orderByBlockDesc_In, filter_In.
    split; intros [H1 H2]; (split; [exact H1|]); apply String.eqb_eq; exact H2. }
  split.
  - apply Hiff. split.
    + apply in_or_app. right. left. reflexivity.
    + cbn [claimOf RewardClaim.walletAddress]. symmetry. exact Hcase.
  - split; [apply orderByBlockDesc_newestFirst|exact Hiff].
Qed.

Lemma claim_history_round_trip_witness :
  storableClaim transferEvent = true
  /\ claimStored (RewardClaimEventDto.txHash transferEvent)
    (RewardClaimEventDto.logIndex transferEvent) freshWorld = false
  /\ toLowerCase "0xabcDEF"
     = toLowerCase (RewardClaimEventDto.walletAddress transferEvent)
  /\ exists claim history,
       fst (RewardSyncService.processRewardClaim transferEvent freshWorld)
       = Resolved claim
       /\ RewardSyncService.getClaimHistory "0xabcDEF"
            (snd (RewardSyncService.processRewardClaim transferEvent freshWorld))
          = (Resolved history,
             snd (RewardSyncService.processRewardClaim transferEvent freshWorld))
       /\ In claim history.
Proof.
  assert (H1 : claimStored (RewardClaimEventDto.txHash transferEvent)
                 (RewardClaimEventDto.logIndex transferEvent) freshWorld = false)
    by reflexivity.
  assert (H2 : toLowerCase "0xabcDEF"
               = toLowerCase (RewardClaimEventDto.walletAddress transferEvent))
    by reflexivity.
  assert (H0 : storableClaim transferEvent = true) by (vm_compute; reflexivity).
  split; [exact H0|]. split; [exact H1|]. split; [exact H2|].
  destruct (@claim_history_round_trip transferEvent freshWorld "0xabcDEF"
              H0 H1 H2)
    as [claim [history [Ha [Hb [Hc _]]]]].
  exists claim, history. split; [exact Ha|]. split; [exact Hb|exact Hc].
Defined.

End HistoryFacts.

(** ** RewardSyncService.getLastSyncedBlock *)

Module CursorFacts.

Import Effects JsString Rewards.
Open Scope Z_scope.

Lemma fold_max_bounds (l : list Z) :
  forall b,
    b <= fold_left Z.max l b
    /\ (forall x, In x l -> x <= fold_left Z.max l b)
    /\ In (fold_left Z.max l b) (b :: l).
Proof.
  induction l as [|y l IH]; intros b.
  - cbn. split; [lia|]. split; [intros x []|left; reflexivity].
  - cbn [fold_left]. destruct (IH (Z.max b y)) as [H1 [H2 H3]].
    split; [lia|]. split.
    + intros x [<- | Hx]; [lia|apply H2; exact Hx].
    + destruct H3 as [H3 | H3].
      * rewrite <- H3. destruct (Z.max_spec b y) as [[_ ->] | [_ ->]].
        -- right. left. reflexivity.
        -- left. reflexivity.
      * right. right. exact H3.
Qed.

Lemma orZero_maxBlock (l : list Z) :
  (forall x, In x l -> x <= orZero (maxBlock l))
  /\ (orZero (maxBlock l) = 0 \/ In (orZero (maxBlock l)) l)
  /\ (l = [] -> orZero (maxBlock l) = 0).
Proof.
  destruct l as [|b l].
  - cbn. split; [intros x []|]. split; [left; reflexivity|reflexivity].
  - cbn [maxBlock orZero].
    destruct (fold_max_bounds l b) as [H1 [H2 H3]].
    assert (Hz : (if Z.eqb (fold_left Z.max l b) 0 then 0
                  else fold_left Z.max l b) = fold_left Z.max l b).
    { destruct (Z.eqb_spec (fold_left Z.max l b) 0) as [->|_]; reflexivity. }
    rewrite Hz.
    split; [intros x [<- | Hx]; [exact H1|apply H2; exact Hx]|].
    split; [right; exact H3|discriminate].
Qed.

(** [getLastSyncedBlock] writes nothing and answers a block number that
    no stored row exceeds; the answer is 0 or the block number of a
    stored claim or distribution, and 0 when both tables are empty. *)
Theorem last_synced_block_is_highest (w : World) :
  exists c,
    RewardSyncService.getLastSyncedBlock w = (Resolved c, w)
    /\ (forall r, In r (rows (reward_claims w)) -> RewardClaim.blockNumber r <= c)
    /\ (forall r, In r (rows (reward_distributions w)) ->
                  RewardDistribution.blockNumber r <= c)
    /\ (c = 0
        \/ (exists r, In r (rows (reward_claims w))
                      /\ RewardClaim.blockNumber r = c)
        \/ (exists r, In r (rows (reward_distributions w))
                      /\ RewardDistribution.blockNumber r = c))
    /\ (rows (reward_claims w) = [] -> rows (reward_distributions w) = [] ->
        c = 0).
Proof.
  eexists. split; [reflexivity|].
  destruct (orZero_maxBlock
              (map RewardClaim.blockNumber (rows (reward_claims w))))
    as [Hc [Hcin _]].
  destruct (orZero_maxBlock
              (map RewardDistribution.blockNumber (rows (reward_distributions w))))
    as [Hd [Hdin _]].
  split.
  { intros r Hr. pose proof (Hc _ (in_map RewardClaim.blockNumber _ _ Hr)). lia. }
  split.
  { intros r Hr.
    pose proof (Hd _ (in_map RewardDistribution.blockNumber _ _ Hr)). lia. }
  split.
  - destruct (Z.max_spec
                (orZero (maxBlock (map RewardClaim.blockNumber
                                     (rows (reward_claims w)))))
                (orZero (maxBlock (map RewardDistribution.blockNumber
                                     (rows (reward_distributions w))))))
      as [[_ ->] | [_ ->]].
    + destruct Hdin as [H0 | Hin]; [left; exact H0|].
      right. right. apply in_map_iff in Hin. destruct Hin as [r [Hr Hin]].
      exists r. split; assumption.
    + destruct Hcin as [H0 | Hin]; [left; exact H0|].
      right. left. apply in_map_iff in Hin. destruct Hin as [r [Hr Hin]].
      exists r. split; assumption.
  - intros H1 H2. rewrite H1, H2. reflexivity.
Qed.

End CursorFacts.

(** ** ReputationService *)

Module ReputationFacts.

Import Js JsFacts Reputation.
Open Scope Z_scope.

Lemma stakeFactorOf_range (stake : Q) : 1 <= stakeFactorOf stake <= 10.
Proof.
  unfold stakeFactorOf, STAKE_CAP. cbv zeta.
  set (n := 1 + Z.min (Z.max 0 (Qfloor stake)) 1000).
  assert (Hn : 1 <= n <= 1001) by (unfold n; lia).
  pose proof (Z.log2_nonneg n) as H0.
  assert (H1 : Z.log2 n <= Z.log2 1001) by (apply Z.log2_le_mono; lia).
  change (Z.log2 1001) with 9 in H1. lia.
Qed.

Lemma stakeFactorOf_cap (stake : Q) :
  (1000 <= stake)%Q -> stakeFactorOf stake = 10.
Proof.
  intros H. unfold stakeFactorOf, STAKE_CAP. cbv zeta.
  assert (Hf : 1000 <= Qfloor stake) by (apply floor_ge; exact H).
  replace (Z.min (Z.max 0 (Qfloor stake)) 1000) with 1000 by lia.
  reflexivity.
Qed.

Lemma computeReputationDelta_steps (params : ReputationDeltaParams) :
  totalVerifications params <> -2 ->
  computeReputationDelta params
  = Some (clampDelta
            (if isCorrect params
             then dampened (minimumRawOf params) (oldScore params)
             else amplified (minimumRawOf params) (oldScore params))).
Proof.
  intros H. unfold computeReputationDelta. cbv zeta.
  destruct (Z.eqb_spec (totalVerifications params + 2 * ALPHA) 0) as [E|_];
    [unfold ALPHA in E; lia|].
  unfold clampDelta, dampened, amplified, minimumRawOf.
  destruct (isCorrect params); reflexivity.
Qed.

Lemma clampDelta_mono (a b : Z) : a <= b -> clampDelta a <= clampDelta b.
Proof.
  unfold clampDelta, MAX_POS_DELTA, MAX_NEG_DELTA. cbv zeta. intros H.
  destruct (Z.ltb_spec 10 a), (Z.ltb_spec 10 b);
    repeat match goal with
           | |- context [Z.ltb ?x ?y] => destruct (Z.ltb_spec x y)
           end; lia.
Qed.

Lemma clampDelta_range (a : Z) : -15 <= clampDelta a <= 10.
Proof.
  unfold clampDelta, MAX_POS_DELTA, MAX_NEG_DELTA. cbv zeta.
  destruct (Z.ltb_spec 10 a);
    repeat match goal with
           | |- context [Z.ltb ?x ?y] => destruct (Z.ltb_spec x y)
           end; lia.
Qed.

Lemma clampDelta_pos (a : Z) : 1 <= a -> 1 <= clampDelta a.
Proof.
  unfold clampDelta, MAX_POS_DELTA, MAX_NEG_DELTA. cbv zeta. intros H.
  destruct (Z.ltb_spec 10 a);
    repeat match goal with
           | |- context [Z.ltb ?x ?y] => destruct (Z.ltb_spec x y)
           end; lia.
Qed.

Lemma clampDelta_neg (a : Z) : a <= -1 -> clampDelta a <= -1.
Proof.
  unfold clampDelta, MAX_POS_DELTA, MAX_NEG_DELTA. cbv zeta. intros H.
  destruct (Z.ltb_spec 10 a);
    repeat match goal with
           | |- context [Z.ltb ?x ?y] => destruct (Z.ltb_spec x y)
           end; lia.
Qed.

Lemma Math_max_ge_left (x y : Q) : (x <= Math_max x y)%Q.
Proof.
  unfold Math_max. destruct (Qle_bool x y) eqn:E.
  - apply Qle_bool_iff. exact E.
  - apply Qle_refl.
Qed.

Lemma Math_max_mono_right (x y z : Q) :
  (y <= z)%Q -> (Math_max x y <= Math_max x z)%Q.
Proof.
  intros H. unfold Math_max.
  destruct (Qle_bool x y) eqn:E1, (Qle_bool x z) eqn:E2.
  - exact H.
  - apply Qle_bool_iff in E1.
    assert (Hle : (x <= z)%Q) by (eapply Qle_trans; eassumption).
    apply Qle_bool_iff in Hle. congruence.
  - apply Qle_bool_iff. exact E2.
  - apply Qle_refl.
Qed.

Lemma dampened_pos (m score : Z) : 1 <= m -> 1 <= dampened m score.
Proof.
  intros Hm. unfold dampened. cbv zeta.
  set (damp := Math_max MIN_DAMPEN
                 (inject_Z (MAX_SCORE - score) / inject_Z MAX_SCORE)).
  assert (Hd : (MIN_DAMPEN <= damp)%Q) by apply Math_max_ge_left.
  assert (Hf : 0 <= Qfloor (inject_Z m * damp)).
  { apply floor_ge. change (inject_Z 0) with 0%Q.
    assert (Hq : (1 <= inject_Z m)%Q).
    { change 1%Q with (inject_Z 1). rewrite <- Zle_Qle. exact Hm. }
    unfold MIN_DAMPEN in Hd. nra. }
  destruct (Z.eqb_spec (Qfloor (inject_Z m * damp)) 0); lia.
Qed.

Lemma dampened_antitone (m s1 s2 : Z) :
  1 <= m -> s1 <= s2 -> dampened m s2 <= dampened m s1.
Proof.
  intros Hm Hs. unfold dampened. cbv zeta.
  set (d1 := Math_max MIN_DAMPEN (inject_Z (MAX_SCORE - s1) / inject_Z MAX_SCORE)).
  set (d2 := Math_max MIN_DAMPEN (inject_Z (MAX_SCORE - s2) / inject_Z MAX_SCORE)).
  assert (Hq : (1 <= inject_Z m)%Q).
  { change 1%Q with (inject_Z 1). rewrite <- Zle_Qle. exact Hm. }
  assert (Hd : (d2 <= d1)%Q).
  { apply Math_max_mono_right. unfold MAX_SCORE.
    assert (Hz : (inject_Z (100 - s2) <= inject_Z (100 - s1))%Q)
      by (rewrite <- Zle_Qle; lia).
    unfold Qdiv. apply Qmult_le_compat_r; [exact Hz|].
    vm_compute. discriminate. }
  assert (Hd2 : (MIN_DAMPEN <= d2)%Q) by apply Math_max_ge_left.
  assert (Hf : Qfloor (inject_Z m * d2) <= Qfloor (inject_Z m * d1)).
  { apply Qfloor_resp_le. nra. }
  assert (H0 : 0 <= Qfloor (inject_Z m * d2)).
  { apply floor_ge. change (inject_Z 0) with 0%Q.
    unfold MIN_DAMPEN in Hd2. nra. }
  destruct (Z.eqb_spec (Qfloor (inject_Z m * d2)) 0),
    (Z.eqb_spec (Qfloor (inject_Z m * d1)) 0); lia.
Qed.

Lemma amplified_neg (m score : Z) : amplified m score <= -1.
Proof. unfold amplified. lia. Qed.

Lemma amplified_antitone (m s1 s2 : Z) :
  1 <= m -> s1 <= s2 -> amplified m s2 <= amplified m s1.
Proof.
  intros Hm Hs. unfold amplified.
  assert (Hdiv : s1 / 50 <= s2 / 50) by (apply Z.div_le_mono; lia).
  assert (Habs : Z.abs (- m) = m) by lia. rewrite Habs.
  assert (Hmul : m * (1 + s1 / 50) <= m * (1 + s2 / 50)) by nia.
  lia.
Qed.

Lemma minimumRawOf_pos (params : ReputationDeltaParams) : 1 <= minimumRawOf params.
Proof. unfold minimumRawOf. lia. Qed.

Lemma computeReputationDelta_sign (params : ReputationDeltaParams) :
  totalVerifications params <> -2 ->
  exists delta,
    computeReputationDelta params = Some delta
    /\ (if isCorrect params then 1 <= delta <= 10 else -15 <= delta <= -1).
Proof.
  intros H. rewrite (computeReputationDelta_steps params H).
  eexists. split; [reflexivity|].
  pose proof (minimumRawOf_pos params) as Hm.
  destruct (isCorrect params).
  - pose proof (dampened_pos (oldScore params) Hm) as Hd.
    pose proof (clampDelta_pos Hd).
    pose proof (clampDelta_range
                  (dampened (minimumRawOf params) (oldScore params))).
    lia.
  - pose proof (amplified_neg (minimumRawOf params) (oldScore params)) as Ha.
    pose proof (clampDelta_neg Ha).
    pose proof (clampDelta_range
                  (amplified (minimumRawOf params) (oldScore params))).
    lia.
Qed.

(** A delta is never zero and never beyond the per-update bounds: a
    correct verification earns between 1 and 10 points, an incorrect one
    costs between 1 and 15, whatever the old score, the history and the
    stake (the reliability denominator must not be 0). *)
Theorem reputation_delta_bounds (params : ReputationDeltaParams) :
  totalVerifications params <> -2 ->
  exists delta,
    computeReputationDelta params = Some delta
    /\ (isCorrect params = true -> 1 <= delta <= 10)
    /\ (isCorrect params = false -> -15 <= delta <= -1).
Proof.
  intros H. destruct (computeReputationDelta_sign params H) as [delta [Hrun Hd]].
  exists delta. split; [exact Hrun|].
  split; intros Hc; rewrite Hc in Hd; exact Hd.
Qed.

Lemma reputation_delta_bounds_witness :
  totalVerifications coldStart <> -2
  /\ exists delta,
       computeReputationDelta coldStart = Some delta
       /\ (isCorrect coldStart = true -> 1 <= delta <= 10).
Proof.
  assert (H : totalVerifications coldStart <> -2) by discriminate.
  split; [exact H|].
  destruct (@reputation_delta_bounds coldStart H) as [delta [H1 [H2 _]]].
  exists delta. split; [exact H1|exact H2].
Defined.

(** The higher the old score, the lower the delta, for a correct and for
    an incorrect verification alike: gains are dampened and penalties
    amplified as the score grows. *)
Theorem reputation_delta_antitone (params : ReputationDeltaParams)
    (score1 score2 : Z) :
  totalVerifications params <> -2 ->
  score1 <= score2 ->
  exists delta1 delta2,
    computeReputationDelta (withOldScore params score1) = Some delta1
    /\ computeReputationDelta (withOldScore params score2) = Some delta2
    /\ delta2 <= delta1.
Proof.
  intros H Hs.
  rewrite (@computeReputationDelta_steps (withOldScore params score1) H).
  rewrite (@computeReputationDelta_steps (withOldScore params score2) H).
  eexists. eexists. split; [reflexivity|]. split; [reflexivity|].
  cbn [withOldScore isCorrect oldScore].
  change (minimumRawOf (withOldScore params score1)) with (minimumRawOf params).
  change (minimumRawOf (withOldScore params score2)) with (minimumRawOf params).
  pose proof (minimumRawOf_pos params) as Hm.
  apply clampDelta_mono.
  destruct (isCorrect params).
  - apply dampened_antitone; assumption.
  - apply amplified_antitone; assumption.
Qed.

Lemma reputation_delta_antitone_witness :
  totalVerifications seasoned <> -2
  /\ 10 <= 90
  /\ exists delta1 delta2,
       computeReputationDelta (withOldScore seasoned 10) = Some delta1
       /\ computeReputationDelta (withOldScore seasoned 90) = Some delta2
       /\ delta2 <= delta1.
Proof.
  assert (H1 : totalVerifications seasoned <> -2) by discriminate.
  assert (H2 : 10 <= 90) by lia.
  split; [exact H1|]. split; [exact H2|].
  exact (@reputation_delta_antitone seasoned 10 90 H1 H2).
Defined.

(** A stake of STAKE_CAP = 1000 or more has the stake factor 10 and the
    delta of a stake of exactly 1000: what is staked beyond the cap has
    no influence. *)
Theorem stake_beyond_cap_ignored (params : ReputationDeltaParams) (stake : Q) :
  (1000 <= stake)%Q ->
  stakeFactorOf stake = 10
  /\ computeReputationDelta (withStake params stake)
     = computeReputationDelta (withStake params 1000).
Proof.
  intros H. pose proof (stakeFactorOf_cap H) as Hf.
  split; [exact Hf|].
  unfold computeReputationDelta. cbn [withStake stakeAmount totalVerifications
    correctVerifications oldScore isCorrect].
  rewrite Hf. reflexivity.
Qed.

Lemma stake_beyond_cap_ignored_witness :
  (1000 <= stakeAmount whale)%Q
  /\ computeReputationDelta (withStake whale (stakeAmount whale))
     = computeReputationDelta (withStake whale 1000).
Proof.
  assert (H : (1000 <= stakeAmount whale)%Q) by (vm_compute; discriminate).
  split; [exact H|].
  exact (proj2 (@stake_beyond_cap_ignored whale (stakeAmount whale) H)).
Defined.

Lemma clampScore_range (x : Z) : 0 <= clampScore x <= 100.
Proof. unfold clampScore, MAX_SCORE. lia. Qed.

Lemma findOne_id (table : list User) (id : string) (u : User) :
  findOne table id = Some u -> user_id u = id.
Proof.
  unfold findOne. intros H. apply find_some in H. destruct H as [_ H].
  apply String.eqb_eq. exact H.
Qed.

Lemma save_ids (u : User) (table : list User) :
  map user_id (save u table) = map user_id table.
Proof.
  unfold save. induction table as [|x table IH]; [reflexivity|].
  cbn [map]. rewrite IH. f_equal.
  destruct (String.eqb_spec (user_id x) (user_id u)) as [E|_];
    [symmetry; exact E|reflexivity].
Qed.


Lemma save_keeps_others (u x : User) (table : list User) :
  In x table -> user_id x <> user_id u -> In x (save u table).
Proof.
  intros Hin Hne. unfold save. apply in_map_iff. exists x.
  split; [|exact Hin].
  destruct (String.eqb_spec (user_id x) (user_id u)); [contradiction|reflexivity].
Qed.

Lemma findOne_save (table : list User) (id : string) (u : User) (score : Z) :
  findOne table id = Some u ->
  findOne (save (mkUser (user_id u) score) table) id
  = Some (mkUser (user_id u) score).
Proof.
  intros H. pose proof (findOne_id _ _ H) as Hid.
  unfold findOne, save in *. cbn [user_id].
  induction table as [|x table IH]; [discriminate|].
  cbn [map find] in *.
  destruct (String.eqb_spec (user_id x) id) as [E|N].
  - injection H as <-. rewrite String.eqb_refl. cbn [user_id].
    rewrite Hid, String.eqb_refl. reflexivity.
  - destruct (String.eqb_spec (user_id x) (user_id u)) as [E'|_];
      [congruence|].
    destruct (String.eqb_spec (user_id x) id); [contradiction|].
    apply IH. exact H.
Qed.




(** [applyReputationUpdate], called with the key of a user and a
    verification id the column takes: for an unknown user it answers
    null and only logs a warning.  For a known one and a delta within the
    [int] column the new score is the old score (clamped to 0..100) plus
    the delta, clamped again; the change row records the delta as
    requested, which is the actual movement of the score only when the
    sum stays within 0..100; the user row is updated in place, one change
    row is appended, and no other user is touched.  A delta beyond the
    [int] column is rejected with the driver's error (22003 numeric value
    out of range, up to 10^21) and the transaction leaves the store as it
    was. *)
Theorem apply_update_clamps (userId : string) (delta : Z) (meta : Meta)
    (s : Store) :
  Postgres.uuidError userId = None ->
  Postgres.nullable (Postgres.varcharError None) (meta_verificationId meta) = None ->
  let result := applyReputationUpdate userId delta meta s in
  match findOne (users s) userId with
  | None =>
      fst result = Effects.Resolved None
      /\ users (snd result) = users s
      /\ reputation_changes (snd result) = reputation_changes s
  | Some user =>
      if Postgres.fitsInt delta then
        exists updated change,
          fst result = Effects.Resolved (Some (updated, change))
          /\ user_id updated = userId
          /\ reputation updated = clampScore (clampScore (reputation user) + delta)
          /\ 0 <= reputation updated <= 100
          /\ change_oldScore change = clampScore (reputation user)
          /\ change_newScore change = reputation updated
          /\ change_delta change = delta
          /\ (change_newScore change - change_oldScore change = delta
              <-> 0 <= change_oldScore change + delta <= 100)
          /\ findOne (users (snd result)) userId = Some updated
          /\ map user_id (users (snd result)) = map user_id (users s)
          /\ reputation_changes (snd result)
             = (reputation_changes s ++ [change])%list
          /\ (forall u, In u (users s) -> user_id u <> userId ->
                        In u (users (snd result)))
      else
        fst result
        = Effects.Rejected (Effects.QueryFailedError (Postgres.outOfRange delta))
        /\ snd result = s
  end.
Proof.
  intros Hid Htext. cbv zeta. unfold applyReputationUpdate. rewrite Hid.
  destruct (findOne (users s) userId) as [user|] eqn:Hfind.
  - pose proof (findOne_id _ _ Hfind) as Hkey.
    pose proof (clampScore_range (reputation user)) as Hold.
    pose proof (clampScore_range (clampScore (reputation user) + delta)) as Hnew.
    assert (Hfits : forall x, 0 <= x <= 100 -> Postgres.intError x = None).
    { intros x Hx. unfold Postgres.intError, Postgres.fitsInt.
      destruct (Z.leb_spec (-2147483648) x); [|lia].
      destruct (Z.leb_spec x 2147483647); [reflexivity|lia]. }
    unfold changeColumnError.
    cbn [change_oldScore change_newScore change_delta change_verificationId
         Postgres.firstError].
    rewrite (Hfits _ Hold), (Hfits _ Hnew), Htext.
    unfold Postgres.intError.
    destruct (Postgres.fitsInt delta).
    + eexists. eexists. cbn [fst snd users reputation_changes].
      split; [reflexivity|].
      cbn [user_id reputation change_oldScore change_newScore change_delta].
      split; [exact Hkey|]. split; [reflexivity|].
      split; [exact Hnew|].
      split; [reflexivity|]. split; [reflexivity|]. split; [reflexivity|].
      split.
      { unfold clampScore, MAX_SCORE in *. lia. }
      split; [apply findOne_save; exact Hfind|].
      split; [apply save_ids|].
      split; [reflexivity|].
      intros u Hin Hne. apply save_keeps_others; [exact Hin|].
      cbn [user_id]. congruence.
    + split; reflexivity.
  - cbn [fst snd users reputation_changes]. repeat split.
Qed.

Lemma apply_update_clamps_witness :
  Postgres.uuidError firstUser = None
  /\ Postgres.nullable (Postgres.varcharError None)
       (meta_verificationId (mkMeta None (Some true) (Some "v1"))) = None
  /\ (exists updated change,
        fst (applyReputationUpdate firstUser 10 (mkMeta None (Some true) (Some "v1"))
               registry)
        = Effects.Resolved (Some (updated, change))
        /\ reputation updated = 100
        /\ change_delta change = 10)
  /\ fst (applyReputationUpdate firstUser 2147483648
            (mkMeta None (Some true) (Some "v1")) registry)
     = Effects.Rejected (Effects.QueryFailedError "22003").
Proof.
  assert (H1 : Postgres.uuidError firstUser = None) by (vm_compute; reflexivity).
  assert (H2 : Postgres.nullable (Postgres.varcharError None)
                 (meta_verificationId (mkMeta None (Some true) (Some "v1"))) = None)
    by (vm_compute; reflexivity).
  split; [exact H1|]. split; [exact H2|]. split.
  - destruct (@apply_update_clamps firstUser 10
                (mkMeta None (Some true) (Some "v1")) registry H1 H2)
      as [updated [change [Hr [_ [Hscore [_ [_ [_ [Hdelta _]]]]]]]]].
    exists updated, change. split; [exact Hr|]. split; [|exact Hdelta].
    rewrite Hscore. reflexivity.
  - exact (proj1 (@apply_update_clamps firstUser 2147483648
                    (mkMeta None (Some true) (Some "v1")) registry H1 H2)).
Defined.



End ReputationFacts.

(** ** SybilResistanceService *)

Module SybilResistanceFacts.

Import Js JsFacts SybilVoting SybilResistance.
Open Scope Q_scope.

Lemma Math_min_le_right (x y : Q) : Math_min x y <= y.
Proof.
  unfold Math_min. destruct (Qle_bool x y) eqn:E.
  - apply Qle_bool_iff. exact E.
  - apply Qle_refl.
Qed.

Lemma Math_min_ge (x y c : Q) : c <= x -> c <= y -> c <= Math_min x y.
Proof. intros Hx Hy. unfold Math_min. destruct (Qle_bool x y); assumption. Qed.

Lemma Math_min_right (x y : Q) : y <= x -> Math_min x y == y.
Proof.
  intros H. unfold Math_min. destruct (Qle_bool x y) eqn:E; [|reflexivity].
  apply Qle_bool_iff in E. apply Qle_antisym; assumption.
Qed.

Lemma Math_min_zero (x y : Q) : x == 0 -> 0 <= y -> Math_min x y == 0.
Proof.
  intros Hx Hy. unfold Math_min. destruct (Qle_bool x y) eqn:E; [exact Hx|].
  assert (Hle : x <= y) by (rewrite Hx; exact Hy).
  apply Qle_bool_iff in Hle. congruence.
Qed.

Lemma toFixed4_nonneg (x : Q) : 0 <= x -> 0 <= toFixed4 x.
Proof.
  intros H. unfold toFixed4.
  assert (E : Qltb x 0 = false) by (apply Qltb_ge; exact H).
  rewrite E. apply roundHalfUp4_nonneg. exact H.
Qed.

(** Rounding to four decimals does not pass a bound that has at most
    four decimals itself. *)
Lemma toFixed4_le_grid (x : Q) (n : Z) :
  (0 <= n)%Z -> x <= inject_Z n / 10000 -> toFixed4 x <= inject_Z n / 10000.
Proof.
  intros Hn H. unfold toFixed4.
  assert (Hq : 0 <= inject_Z n) by (change 0 with (inject_Z 0); rewrite <- Zle_Qle; exact Hn).
  destruct (Qltb x 0) eqn:E.
  - apply Qltb_lt in E.
    assert (Hr : 0 <= roundHalfUp4 (- x)) by (apply roundHalfUp4_nonneg; lra).
    assert (Hb : 0 <= inject_Z n / 10000).
    { unfold Qdiv. apply Qmult_le_0_compat; [exact Hq|]. vm_compute. discriminate. }
    lra.
  - unfold roundHalfUp4.
    assert (Hf : (Qfloor (x * 10000 + (1 # 2)) <= n)%Z).
    { apply floor_le.
      assert (Hx : x * 10000 <= inject_Z n).
      { assert (Hm : x * 10000 <= inject_Z n / 10000 * 10000) by lra.
        assert (Hs : inject_Z n / 10000 * 10000 == inject_Z n) by (field).
        lra. }
      lra. }
    assert (Hz : inject_Z (Qfloor (x * 10000 + (1 # 2))) <= inject_Z n)
      by (rewrite <- Zle_Qle; exact Hf).
    unfold Qdiv. apply Qmult_le_compat_r; [exact Hz|]. vm_compute. discriminate.
Qed.

Lemma oldestWallet_fold (rest : list Wallet) :
  forall first,
    let w := fold_left
               (fun oldest w => if Z.ltb (linkedAt w) (linkedAt oldest)
                                then w else oldest) rest first in
    In w (first :: rest)
    /\ (forall w', In w' (first :: rest) -> (linkedAt w <= linkedAt w')%Z).
Proof.
  induction rest as [|x rest IH]; intros first; cbv zeta.
  - cbn. split; [left; reflexivity|]. intros w' [<- | []]. lia.
  - cbn [fold_left].
    destruct (IH (if Z.ltb (linkedAt x) (linkedAt first) then x else first))
      as [Hin Hmin].
    split.
    + destruct Hin as [Hin | Hin].
      * rewrite <- Hin. destruct (Z.ltb (linkedAt x) (linkedAt first)).
        -- right. left. reflexivity.
        -- left. reflexivity.
      * right. right. exact Hin.
    + intros w' Hw'.
      assert (Hhead : forall y, y = first \/ y = x ->
                 (linkedAt (if Z.ltb (linkedAt x) (linkedAt first)
                            then x else first) <= linkedAt y)%Z).
      { intros y [-> | ->];
          destruct (Z.ltb_spec (linkedAt x) (linkedAt first)); lia. }
      pose proof (Hmin _ (or_introl eq_refl)) as Hbest.
      destruct Hw' as [<- | [<- | Hw']].
      * pose proof (Hhead first (or_introl eq_refl)). lia.
      * pose proof (Hhead x (or_intror eq_refl)). lia.
      * apply Hmin. right. exact Hw'.
Qed.

Lemma oldestWallet_spec (wallets : list Wallet) :
  match oldestWallet wallets with
  | None => wallets = []
  | Some w => In w wallets
              /\ (forall w', In w' wallets -> (linkedAt w <= linkedAt w')%Z)
  end.
Proof.
  destruct wallets as [|first rest]; [reflexivity|].
  cbn [oldestWallet]. apply oldestWallet_fold.
Qed.

(** The wallet-age component of a user at time [now]. *)
Lemma walletAge_range (wallets : list Wallet) (now : Z) :
  let age := match oldestWallet wallets with
             | Some w => inject_Z (now - linkedAt w)
             | None => 0
             end in
  Math_min (age / WALLET_AGE_THRESHOLD_MS) 1 <= 1
  /\ (Forall (fun w => (linkedAt w <= now)%Z) wallets ->
      0 <= Math_min (age / WALLET_AGE_THRESHOLD_MS) 1)
  /\ ((exists w, In w wallets /\ (linkedAt w + 7776000000 <= now)%Z) ->
      Math_min (age / WALLET_AGE_THRESHOLD_MS) 1 == 1).
Proof.
  cbv zeta. split; [apply Math_min_le_right|].
  pose proof (oldestWallet_spec wallets) as Hspec.
  assert (Hpos : 0 < / WALLET_AGE_THRESHOLD_MS) by (vm_compute; reflexivity).
  split.
  - intros Hall. apply Math_min_ge; [|lra].
    destruct (oldestWallet wallets) as [w|].
    + destruct Hspec as [Hin _]. rewrite Forall_forall in Hall.
      specialize (Hall w Hin).
      assert (Hq : 0 <= inject_Z (now - linkedAt w)).
      { change 0 with (inject_Z 0). rewrite <- Zle_Qle. lia. }
      unfold Qdiv. apply Qmult_le_0_compat; [exact Hq|lra].
    + vm_compute. discriminate.
  - intros [w' [Hin Hold]]. apply Math_min_right.
    destruct (oldestWallet wallets) as [w|]; [|subst wallets; destruct Hin].
    destruct Hspec as [_ Hmin]. specialize (Hmin w' Hin).
    assert (Hq : inject_Z 7776000000 <= inject_Z (now - linkedAt w))
      by (rewrite <- Zle_Qle; lia).
    unfold WALLET_AGE_THRESHOLD_MS in *.
    change (inject_Z 7776000000) with 7776000000 in Hq.
    apply Qle_shift_div_l; [reflexivity|]. lra.
Qed.

Lemma computeSybilScore_range (log1p : Q -> Q) (db : Db) (now : Z)
    (userId : string) (user : User) :
  log1p 0 == 0 ->
  findUnique db userId = Some user ->
  exists score details,
    computeSybilScore log1p db now userId = inr (score, details)
    /\ staking (componentScores details) == 0
    /\ accuracy (componentScores details) == 0
    /\ score <= 55 # 100
    /\ (worldcoinVerified user = false -> score <= 25 # 100)
    /\ (Forall (fun w => (linkedAt w <= now)%Z) (wallets user) -> 0 <= score)
    /\ (worldcoinVerified user = true ->
        (exists w, In w (wallets user) /\ (linkedAt w + 7776000000 <= now)%Z) ->
        score == 55 # 100).
Proof.
  intros Hlog Hfind.
  unfold computeSybilScore. rewrite Hfind. cbv zeta.
  eexists. eexists. split; [reflexivity|].
  unfold gatherSignals. rewrite Hfind. cbv zeta.
  unfold normalizeSignals.
  cbn [signal_worldcoinVerified oldestWalletAgeMs totalStakedAmount
       claimsVotedOn claimsCorrect].
  change (Qle_bool MIN_CLAIMS_FOR_ACCURACY_SCORE 0) with false. cbv iota.
  cbv zeta.
  destruct (walletAge_range (wallets user) now) as [Hage1 [Hage0 HageFull]].
  set (age := Math_min
                (match oldestWallet (wallets user) with
                 | Some w => inject_Z (now - linkedAt w)
                 | None => 0
                 end / WALLET_AGE_THRESHOLD_MS) 1) in *.
  set (stk := Math_min
                (log1p (inject_Z 0)
                 / log1p (inject_Z MIN_STAKING_FOR_FULL_SCORE)) 1).
  assert (Hstk : stk == 0).
  { apply Math_min_zero; [|lra].
    change (inject_Z 0) with 0. unfold Qdiv. rewrite Hlog. ring. }
  cbn [createCalculationDetails componentScores staking accuracy worldcoin
       walletAge].
  unfold weightedCombination.
  cbn [staking accuracy worldcoin walletAge].
  unfold WORLDCOIN_WEIGHT, WALLET_AGE_WEIGHT, STAKING_WEIGHT, ACCURACY_WEIGHT.
  split.
  { rewrite (ResolveClaimFacts.toFixed4_comp Hstk). vm_compute. reflexivity. }
  split; [vm_compute; reflexivity|].
  split.
  { apply Qle_trans with (inject_Z 5500 / 10000);
      [|vm_compute; discriminate].
    apply toFixed4_le_grid; [lia|].
    assert (Hb : inject_Z 5500 / 10000 == 55 # 100) by reflexivity.
    destruct (worldcoinVerified user); lra. }
  split.
  { intros Hv. rewrite Hv.
    apply Qle_trans with (inject_Z 2500 / 10000);
      [|vm_compute; discriminate].
    apply toFixed4_le_grid; [lia|].
    assert (Hb : inject_Z 2500 / 10000 == 25 # 100) by reflexivity.
    lra. }
  split.
  { intros Hall. specialize (Hage0 Hall). apply toFixed4_nonneg.
    destruct (worldcoinVerified user); lra. }
  intros Hv Hold. specialize (HageFull Hold). rewrite Hv.
  assert (Hsum : 1 * (3 # 10) + age * (1 # 4) + stk * (1 # 4) + 0 * (1 # 5)
                 == 55 # 100) by lra.
  rewrite (ResolveClaimFacts.toFixed4_comp Hsum). vm_compute. reflexivity.
Qed.

(** As the service gathers its signals today (nothing staked, no claim
    voted on), the staking and the accuracy component of every score are
    0.  No score exceeds 0.55, none of an unverified user exceeds 0.25, a
    verified user with a wallet linked 90 days ago or earlier scores
    0.55, and the score is not negative unless a wallet is linked in the
    future.  [log1p] is any function with [log1p 0 == 0], as [Math.log1p]
    is. *)
Theorem sybil_score_ceiling (log1p : Q -> Q) (db : Db) (now : Z)
    (userId : string) (user : User) :
  log1p 0 == 0 ->
  findUnique db userId = Some user ->
  exists score details,
    computeSybilScore log1p db now userId = inr (score, details)
    /\ staking (componentScores details) == 0
    /\ accuracy (componentScores details) == 0
    /\ score <= 55 # 100
    /\ (worldcoinVerified user = false -> score <= 25 # 100)
    /\ (Forall (fun w => (linkedAt w <= now)%Z) (wallets user) -> 0 <= score)
    /\ (worldcoinVerified user = true ->
        (exists w, In w (wallets user) /\ (linkedAt w + 7776000000 <= now)%Z) ->
        score == 55 # 100).
Proof.
  intros Hlog Hfind. exact (@computeSybilScore_range log1p db now userId user Hlog Hfind).
Qed.

Lemma sybil_score_ceiling_witness :
  linearLog1p 0 == 0
  /\ findUnique smallDb "user-1" = Some veteran
  /\ exists score details,
       computeSybilScore linearLog1p smallDb (100 * dayMs) "user-1"
       = inr (score, details)
       /\ score <= 55 # 100.
Proof.
  assert (H1 : linearLog1p 0 == 0) by reflexivity.
  assert (H2 : findUnique smallDb "user-1" = Some veteran) by reflexivity.
  split; [exact H1|]. split; [exact H2|].
  destruct (@sybil_score_ceiling linearLog1p smallDb (100 * dayMs) "user-1"
              veteran H1 H2) as [score [details [Ha [_ [_ [Hb _]]]]]].
  exists score, details. split; [exact Ha|exact Hb].
Defined.

Lemma later_fold_some (userId : string) (scores : list Snapshot) :
  forall b, exists b', fold_left (later userId) scores (Some b) = Some b'.
Proof.
  induction scores as [|s scores IH]; intros b.
  - exists b. reflexivity.
  - cbn [fold_left]. unfold later at 2.
    destruct (String.eqb (score_userId (row s)) userId); [|apply IH].
    destruct (Z.ltb (createdAt b) (createdAt s)); apply IH.
Qed.

Lemma findLatest_none (userId : string) (scores : list Snapshot) :
  fold_left (later userId) scores None = None ->
  Forall (fun s => String.eqb (score_userId (row s)) userId = false) scores.
Proof.
  induction scores as [|s scores IH]; intros H; [constructor|].
  cbn [fold_left] in H. unfold later at 2 in H.
  destruct (String.eqb (score_userId (row s)) userId) eqn:E.
  - destruct (later_fold_some userId scores s) as [b' Hb]. congruence.
  - constructor; [exact E|apply IH; exact H].
Qed.

(** What the fold keeps: a row of the user, not older than the row it
    started from nor than any row of the user in the list. *)
Lemma later_fold_spec (userId : string) (scores : list Snapshot) :
  forall best r,
    fold_left (later userId) scores best = Some r ->
    (best = Some r
     \/ (In r scores /\ score_userId (row r) = userId))
    /\ (forall b, best = Some b -> (createdAt b <= createdAt r)%Z)
    /\ (forall s, In s scores -> score_userId (row s) = userId ->
                  (createdAt s <= createdAt r)%Z).
Proof.
  induction scores as [|s scores IH]; intros best r H.
  - cbn in H. subst best. split; [left; reflexivity|].
    split; [intros b Hb; injection Hb as ->; lia|intros s []].
  - cbn [fold_left] in H. destruct (IH _ _ H) as [Hin [Hbest Hall]].
    unfold later in Hin, Hbest.
    destruct (String.eqb_spec (score_userId (row s)) userId) as [E|N].
    + destruct best as [b|].
      * destruct (Z.ltb_spec (createdAt b) (createdAt s)) as [Hlt|Hge].
        -- pose proof (Hbest s eq_refl) as Hs.
           split.
           { destruct Hin as [Hin | [Hin Hu]].
             - injection Hin as <-. right. split; [left; reflexivity|exact E].
             - right. split; [right; exact Hin|exact Hu]. }
           split; [intros b0 Hb0; injection Hb0 as <-; lia|].
           intros s0 [<- | Hs0] Hu; [exact Hs|apply Hall; assumption].
        -- pose proof (Hbest b eq_refl) as Hb.
           split.
           { destruct Hin as [Hin | [Hin Hu]].
             - left. exact Hin.
             - right. split; [right; exact Hin|exact Hu]. }
           split; [intros b0 Hb0; injection Hb0 as <-; exact Hb|].
           intros s0 [<- | Hs0] Hu; [lia|apply Hall; assumption].
      * pose proof (Hbest s eq_refl) as Hs.
        split.
        { destruct Hin as [Hin | [Hin Hu]].
          - injection Hin as <-. right. split; [left; reflexivity|exact E].
          - right. split; [right; exact Hin|exact Hu]. }
        split; [intros b0 Hb0; discriminate|].
        intros s0 [<- | Hs0] Hu; [exact Hs|apply Hall; assumption].
    + split.
      { destruct Hin as [Hin | [Hin Hu]].
        - left. exact Hin.
        - right. split; [right; exact Hin|exact Hu]. }
      split; [exact Hbest|].
      intros s0 [<- | Hs0] Hu; [contradiction|apply Hall; assumption].
Qed.

(** [getLatestSybilScore] computes a score only for a user who has none.
    If the user has rows it answers the one created last and writes
    nothing, whatever the time of the call.  If not, an unknown user is
    rejected with the NotFoundException and nothing is written; for a
    known one the score computed now is stored, and every later call
    answers that same row, however the signals have changed since. *)
Theorem latest_score_is_cached (log1p : Q -> Q) (db : Db) (fresh : Fresh)
    (userId : string) :
  match findLatest db userId with
  | Some score =>
      getLatestSybilScore log1p db fresh userId = (inr score, db)
      /\ In score (sybilScores db)
      /\ score_userId (row score) = userId
      /\ (forall s, In s (sybilScores db) -> score_userId (row s) = userId ->
                    (createdAt s <= createdAt score)%Z)
  | None =>
      match findUnique db userId with
      | None =>
          exists message,
            getLatestSybilScore log1p db fresh userId
            = (inl (NotFoundException message), db)
      | Some user =>
          exists created details,
            let db' := mkDb (users db) (sybilScores db ++ [created])%list in
            getLatestSybilScore log1p db fresh userId = (inr created, db')
            /\ computeSybilScore log1p db (dateNow fresh) userId
               = inr (compositeScore (row created), details)
            /\ createdAt created = rowCreatedAt fresh
            /\ (forall fresh',
                  getLatestSybilScore log1p db' fresh' userId
                  = (inr created, db'))
      end
  end.
Proof.
  unfold getLatestSybilScore.
  destruct (findLatest db userId) as [score|] eqn:Hlatest.
  - split; [reflexivity|]. unfold findLatest in Hlatest.
    destruct (later_fold_spec _ _ _ Hlatest) as [Hin [_ Hall]].
    destruct Hin as [Hin | [Hin Hu]]; [discriminate|].
    split; [exact Hin|]. split; [exact Hu|exact Hall].
  - unfold findLatest in Hlatest.
    pose proof (findLatest_none _ _ Hlatest) as Hnone.
    unfold recordSybilScore, computeSybilScore.
    destruct (findUnique db userId) as [user|] eqn:Hfind.
    + cbv zeta.
      assert (Hfree : existsb
                        (fun s => (String.eqb (score_userId (row s)) userId
                                   && Z.eqb (createdAt s) (rowCreatedAt fresh))%bool)
                        (sybilScores db) = false).
      { clear - Hnone. induction Hnone as [|s scores Hs _ IH]; [reflexivity|].
        cbn [existsb]. rewrite Hs, IH. reflexivity. }
      rewrite Hfree.
      eexists. eexists. cbv zeta.
      split; [reflexivity|]. cbn [row compositeScore createdAt].
      split; [reflexivity|]. split; [reflexivity|].
      intros fresh'. unfold findLatest. cbn [sybilScores].
      rewrite fold_left_app, Hlatest. cbn [fold_left].
      unfold later. cbn [row score_userId].
      rewrite String.eqb_refl. reflexivity.
    + eexists. reflexivity.
Qed.

(** The weight of a vote, with the scores the service produces: for a
    known user whose stored scores are within 0..0.55 (as every score the
    service computes is), the multiplier of [calculateSybilWeightedVote]
    lies between 0.5 and 0.775, so a vote never counts for more than
    0.775 of its base weight. *)
Theorem vote_multiplier_ceiling (log1p : Q -> Q) (db : Db) (fresh : Fresh)
    (userId : string) (user : User) (baseWeight : Q) :
  log1p 0 == 0 ->
  findUnique db userId = Some user ->
  Forall (fun w => (linkedAt w <= dateNow fresh)%Z) (wallets user) ->
  Forall (fun s => 0 <= compositeScore (row s) <= 55 # 100) (sybilScores db) ->
  0 <= baseWeight ->
  exists vote,
    calculateSybilWeightedVote (serviceAt log1p db fresh) userId baseWeight
    = Some vote
    /\ 1 # 2 <= multiplier vote <= 775 # 1000
    /\ finalWeight vote == baseWeight * multiplier vote
    /\ finalWeight vote <= (775 # 1000) * baseWeight.
Proof.
  intros Hlog Hfind Hlinked Hstored Hbase.
  assert (Hscore : exists snap,
             fst (SybilResistance.getLatestSybilScore log1p db fresh userId)
             = inr snap
             /\ 0 <= compositeScore (row snap) <= 55 # 100).
  { unfold SybilResistance.getLatestSybilScore.
    destruct (findLatest db userId) as [score|] eqn:Hlatest.
    - exists score. split; [reflexivity|].
      unfold findLatest in Hlatest.
      destruct (later_fold_spec _ _ _ Hlatest) as [[Hin | [Hin _]] _];
        [discriminate|].
      rewrite Forall_forall in Hstored. apply Hstored. exact Hin.
    - unfold findLatest in Hlatest.
      pose proof (findLatest_none _ _ Hlatest) as Hnone.
      destruct (@computeSybilScore_range log1p db (dateNow fresh) userId user
                  Hlog Hfind)
        as [score [details [Hrun [_ [_ [Hhi [_ [Hlo _]]]]]]]].
      unfold recordSybilScore. rewrite Hrun.
      assert (Hfree : existsb
                        (fun s => (String.eqb (score_userId (row s)) userId
                                   && Z.eqb (createdAt s) (rowCreatedAt fresh))%bool)
                        (sybilScores db) = false).
      { clear - Hnone. induction Hnone as [|s scores Hs _ IH]; [reflexivity|].
        cbn [existsb]. rewrite Hs, IH. reflexivity. }
      cbv zeta. rewrite Hfree. eexists. split; [reflexivity|].
      cbn [row compositeScore]. split; [apply Hlo; exact Hlinked|exact Hhi]. }
  destruct Hscore as [snap [Hsnap [Hlo Hhi]]].
  unfold calculateSybilWeightedVote, serviceAt.
  cbn [SybilVoting.getLatestSybilScore]. rewrite Hsnap. cbv zeta.
  eexists. split; [reflexivity|].
  cbn [multiplier finalWeight].
  split; [split; lra|]. split; [reflexivity|].
  nra.
Qed.

Lemma vote_multiplier_ceiling_witness :
  linearLog1p 0 == 0
  /\ findUnique smallDb "user-1" = Some veteran
  /\ 0 <= 100
  /\ exists vote,
       calculateSybilWeightedVote (serviceAt linearLog1p smallDb firstRead)
         "user-1" 100 = Some vote
       /\ 1 # 2 <= multiplier vote <= 775 # 1000.
Proof.
  assert (H1 : linearLog1p 0 == 0) by reflexivity.
  assert (H2 : findUnique smallDb "user-1" = Some veteran) by reflexivity.
  assert (H3 : Forall (fun w => (linkedAt w <= dateNow firstRead)%Z)
                 (wallets veteran)).
  { apply Forall_cons; [vm_compute; discriminate|apply Forall_nil]. }
  assert (H4 : Forall (fun s => 0 <= compositeScore (row s) <= 55 # 100)
                 (sybilScores smallDb)) by apply Forall_nil.
  assert (H5 : 0 <= 100) by (vm_compute; discriminate).
  split; [exact H1|]. split; [exact H2|]. split; [exact H5|].
  destruct (@vote_multiplier_ceiling linearLog1p smallDb firstRead "user-1"
              veteran 100 H1 H2 H3 H4 H5) as [vote [Ha [Hb _]]].
  exists vote. split; [exact Ha|exact Hb].
Defined.

End SybilResistanceFacts.
